(** * The C2 type lattice of [opto/type.cpp]

    A shallow embedding of the value-type lattice of the optimizing
    compiler: the bounded integer types, the float constants, the
    pointer family with its speculative part, the interface sets and
    the hash-consing type table, with the algebraic facts the
    specification states about them.

    Conventions of the embedding.
    - Canonical [Type*] pointers are compared by address in the source
      ([this == t]).  Hash-consing makes address equality coincide with
      structural equality ([Type::eq]), which is proved for the table
      model at the end of the file; the lattice operations are therefore
      written over structural values.
    - [jint], [juint], [jlong], ... are [Z] with their ranges written out.
    - A [ciKlass*] / [ciObject*] handle is its address, a [Z].
    - Aborting paths ([assert], [ShouldNotReachHere], [fatal]) are the
      [Abort] outcome of the [outcome] type. *)

From Stdlib Require Import ZArith Bool List Lia.
From stdpp Require Import base option list sorting gmap.

Local Open Scope Z_scope.
Local Open Scope bool_scope.

(* ===================================================================== *)
(** ** Outcomes of a call *)
(* ===================================================================== *)

(** Why a call did not return: a failed [assert(...)] (debug builds) or a
    call of [ShouldNotReachHere()] / [fatal(...)]. *)
Inductive failure : Set :=
| AssertionFailed
| ShouldNotReachHere.

Inductive outcome (A : Type) : Type :=
| Ret (a : A)
| Abort (f : failure).
Arguments Ret {A} a.
Arguments Abort {A} f.

Definition bind {A B} (m : outcome A) (k : A -> outcome B) : outcome B :=
  match m with
  | Ret a => k a
  | Abort f => Abort f
  end.

Notation "'do' x <- m ; k" := (bind m (fun x => k))
  (at level 10, x name, m at level 100, k at level 200).

(** [assert(c)] of a debug build. *)
Definition debug_assert (c : bool) : outcome unit :=
  if c then Ret tt else Abort AssertionFailed.

Notation "'assert!' c ; k" := (bind (debug_assert c) (fun _ => k))
  (at level 10, c at level 100, k at level 200).

(* ===================================================================== *)
(** ** The type tags *)
(* ===================================================================== *)

(** [enum Type::TYPES], in the order of the rows of [Type::_type_info]. *)
Inductive TYPES : Set :=
| Bad | Control | Top | Int | Long | Half | NarrowOop | NarrowKlass
| Tuple | Array | Interfaces
| VectorMask | VectorA | VectorS | VectorD | VectorX | VectorY | VectorZ
| AnyPtr | RawPtr | OopPtr | InstPtr | AryPtr
| MetadataPtr | KlassPtr | InstKlassPtr | AryKlassPtr
| Function | Abio | Return_Address | Memory
| HalfFloatTop | HalfFloatCon | HalfFloatBot
| FloatTop | FloatCon | FloatBot
| DoubleTop | DoubleCon | DoubleBot
| Bottom.

Definition TYPES_eq_dec (a b : TYPES) : {a = b} + {a <> b}.
Proof. decide equality. Defined.

Definition TYPES_eqb (a b : TYPES) : bool :=
  if TYPES_eq_dec a b then true else false.

(** The [dual_type] column of [Type::_type_info]. *)
Definition dual_type (t : TYPES) : TYPES :=
  match t with
  | Bad => Bad
  | Control => Control
  | Top => Bottom
  | Int => Bad
  | Long => Bad
  | Half => Half
  | NarrowOop => Bad
  | NarrowKlass => Bad
  | Tuple => Bad
  | Array => Bad
  | Interfaces => Bad
  | VectorMask | VectorA | VectorS | VectorD | VectorX | VectorY | VectorZ => Bad
  | AnyPtr | RawPtr | OopPtr | InstPtr | AryPtr => Bad
  | MetadataPtr | KlassPtr | InstKlassPtr | AryKlassPtr => Bad
  | Function => Bad
  | Abio => Abio
  | Return_Address => Return_Address
  | Memory => Memory
  | HalfFloatTop => HalfFloatBot
  | HalfFloatCon => HalfFloatCon
  | HalfFloatBot => HalfFloatTop
  | FloatTop => FloatBot
  | FloatCon => FloatCon
  | FloatBot => FloatTop
  | DoubleTop => DoubleBot
  | DoubleCon => DoubleCon
  | DoubleBot => DoubleTop
  | Bottom => Top
  end.

(* ===================================================================== *)
(** ** Bounded integers: the data *)
(* ===================================================================== *)

(** [RangeInt<T>]: a closed interval. *)
Module RangeInt.
Record t : Set := mk { _lo : Z; _hi : Z }.
End RangeInt.

(** [KnownBits<U>]: the bits known to be 0 and the bits known to be 1. *)
Module KnownBits.
Record t : Set := mk { _zeros : Z; _ones : Z }.

(** Modelled from the spec: [KnownBits::is_satisfied_by] is declared in
    [opto/rangeinference.hpp], which is not part of the sources.  The
    bitmask pair holds the bits known-0 and known-1: a value satisfies
    it when none of its known-0 bits is set and all of its known-1 bits
    are. *)
Definition is_satisfied_by (b : t) (v : Z) : bool :=
  (Z.land v (_zeros b) =? 0) && (Z.land v (_ones b) =? _ones b).
End KnownBits.

(** [TypeIntPrototype<S, U>]: the three requested constraints. *)
Module TypeIntPrototype.
Record t : Set := mk {
  _srange : RangeInt.t;
  _urange : RangeInt.t;
  _bits : KnownBits.t
}.
End TypeIntPrototype.

(** The fields of [TypeInt] and of [TypeLong] (the two classes have the
    same shape; they differ in the width of [_lo], ... and in the tag). *)
Module TypeInteger.
Record t : Set := mk {
  _lo : Z;
  _hi : Z;
  _ulo : Z;
  _uhi : Z;
  _bits : KnownBits.t;
  _widen : Z;
  _is_dual : bool
}.
End TypeInteger.

(* ===================================================================== *)
(** ** Pointers: the data *)
(* ===================================================================== *)

(** [enum TypePtr::PTR] *)
Inductive PTR : Set :=
| TopPTR | AnyNull | Constant | Null | NotNull | BotPTR.

Definition PTR_eq_dec (a b : PTR) : {a = b} + {a <> b}.
Proof. decide equality. Defined.

Definition PTR_eqb (a b : PTR) : bool := if PTR_eq_dec a b then true else false.

(** The position of a [PTR] in the enumeration. *)
Definition PTR_ord (p : PTR) : Z :=
  match p with
  | TopPTR => 0 | AnyNull => 1 | Constant => 2
  | Null => 3 | NotNull => 4 | BotPTR => 5
  end.

(** A [ciKlass*] and a [ciObject*] are handles; two handles are [equals]
    when they are the same handle. *)
Definition ciKlass := Z.
Definition ciObject := Z.

(** The objects of the pointer family, one constructor per class, with the
    arguments of the class's constructor.
    - [TypePtr_mk]: class [TypePtr] itself, tag [AnyPtr].
    - [TypeRawPtr_mk]: [TypeRawPtr(ptr, bits)], which passes offset 0 and
      no speculative part to [TypePtr].
    - [TypeOopPtr_mk]: class [TypeOopPtr] itself, tag [OopPtr];
      [TypeOopPtr::make] fixes its klass to [Object_klass], its interface
      set to the empty one, its exactness to [false] and its constant to
      null.
    - [TypeInstPtr_mk]: [TypeInstPtr]. *)
#[local] Unset Elimination Schemes.
Inductive TypePtr : Set :=
| TypePtr_mk (_ptr : PTR) (_offset : Z)
             (_speculative : option TypePtr) (_inline_depth : Z)
| TypeRawPtr_mk (_ptr : PTR) (_bits : Z)
| TypeOopPtr_mk (_ptr : PTR) (_offset : Z) (_instance_id : Z)
                (_speculative : option TypePtr) (_inline_depth : Z)
| TypeInstPtr_mk (_ptr : PTR) (_klass : ciKlass) (_interfaces : list ciKlass)
                 (_klass_is_exact : bool) (_const_oop : option ciObject)
                 (_offset : Z) (_instance_id : Z)
                 (_speculative : option TypePtr) (_inline_depth : Z).
#[local] Set Elimination Schemes.

(** The canonical type objects covered by the embedding: the instances of
    class [Type] itself (one per simple tag), the float, double and
    half-float constants (held as their bit patterns, which is all the
    lattice looks at: [jint_cast(_f)], [jlong_cast(_d)]), the bounded
    integers and the pointers above.  Tuples, arrays, vectors, functions,
    array pointers, klass and metadata pointers and narrow pointers are
    outside the embedding. *)
Inductive Type_ : Set :=
| Type_mk (_base : TYPES)
| TypeF_mk (_f : Z)
| TypeD_mk (_d : Z)
| TypeH_mk (_f : Z)
| TypeInt_mk (i : TypeInteger.t)
| TypeLong_mk (l : TypeInteger.t)
| Ptr (p : TypePtr).

(** [Type::base()] *)
Definition base (t : Type_) : TYPES :=
  match t with
  | Type_mk b => b
  | TypeF_mk _ => FloatCon
  | TypeD_mk _ => DoubleCon
  | TypeH_mk _ => HalfFloatCon
  | TypeInt_mk _ => Int
  | TypeLong_mk _ => Long
  | Ptr (TypePtr_mk _ _ _ _) => AnyPtr
  | Ptr (TypeRawPtr_mk _ _) => RawPtr
  | Ptr (TypeOopPtr_mk _ _ _ _ _) => OopPtr
  | Ptr (TypeInstPtr_mk _ _ _ _ _ _ _ _ _) => InstPtr
  end.

(** The pre-built types of [Type::Initialize_shared] used below. *)
Definition TOP : Type_ := Type_mk Top.
Definition BOTTOM : Type_ := Type_mk Bottom.
Definition CONTROL : Type_ := Type_mk Control.
Definition MEMORY : Type_ := Type_mk Memory.
Definition FLOAT : Type_ := Type_mk FloatBot.
Definition HALF_FLOAT : Type_ := Type_mk HalfFloatBot.
Definition DOUBLE : Type_ := Type_mk DoubleBot.

(* ===================================================================== *)
(** ** Bounded integers: construction and membership *)
(* ===================================================================== *)

(** The signed type [S] and the unsigned type [U] of [w] bits
    ([jint]/[juint] for [w = 32], [jlong]/[julong] for [w = 64]). *)
Definition min_S (w : Z) : Z := - 2 ^ (w - 1).
Definition max_S (w : Z) : Z := 2 ^ (w - 1) - 1.
Definition max_U (w : Z) : Z := 2 ^ w - 1.

(** The conversion [U u = i] of a signed value. *)
Definition to_U (w : Z) (i : Z) : Z := i mod 2 ^ w.

Definition in_S (w v : Z) : Prop := min_S w <= v <= max_S w.
Definition in_U (w u : Z) : Prop := 0 <= u <= max_U w.

(** [Type::WidenMin] and [Type::WidenMax].
    Modelled from the spec: the enumeration is declared in [opto/type.hpp],
    which is not part of the sources; the widen counter runs from the
    least to the greatest patience. *)
Definition WidenMin : Z := 0.
Definition WidenMax : Z := 3.

Module Canonicalize.
Import TypeIntPrototype.

(** The value set of a prototype: the values of [S] that lie in the
    signed range, whose unsigned image lies in the unsigned range, and
    that satisfy the known bits. *)
Definition contains (w : Z) (t : TypeIntPrototype.t) (v : Z) : bool :=
  (RangeInt._lo (_srange t) <=? v) && (v <=? RangeInt._hi (_srange t)) &&
  (RangeInt._lo (_urange t) <=? to_U w v) &&
  (to_U w v <=? RangeInt._hi (_urange t)) &&
  KnownBits.is_satisfied_by (_bits t) (to_U w v).

(** Is there a number of [n] bits in [[a, b]] whose bits agree with the
    known bits?  The search fixes the bits from the most significant
    one down and gives up on a branch as soon as the interval misses
    it. *)
Fixpoint find_sat (zeros ones : Z) (n : nat) (a b : Z) : bool :=
  if (b <? a) || (b <? 0) || (2 ^ Z.of_nat n - 1 <? a) then false
  else
    match n with
    | O => true
    | S n' =>
      let h := 2 ^ Z.of_nat n' in
      if (if Z.testbit ones (Z.of_nat n') then false
          else find_sat zeros ones n' a b)
      then true
      else if Z.testbit zeros (Z.of_nat n') then false
           else find_sat zeros ones n' (a - h) (b - h)
    end.

(** Is the value set non-empty?  The non-negative values are the
    unsigned values up to [max_S]; the negative ones are the unsigned
    values above it. *)
Definition nonempty (w : Z) (t : TypeIntPrototype.t) : bool :=
  let lo := RangeInt._lo (_srange t) in
  let hi := RangeInt._hi (_srange t) in
  let ulo := RangeInt._lo (_urange t) in
  let uhi := RangeInt._hi (_urange t) in
  let zeros := KnownBits._zeros (_bits t) in
  let ones := KnownBits._ones (_bits t) in
  if Z.land zeros ones =? 0 then
    if find_sat zeros ones (Z.to_nat w)
         (Z.max (Z.max lo ulo) 0) (Z.min (Z.min hi uhi) (max_S w))
    then true
    else find_sat zeros ones (Z.to_nat w)
           (Z.max (Z.max (lo + 2 ^ w) ulo) (2 ^ (w - 1)))
           (Z.min (Z.min (hi + 2 ^ w) uhi) (max_U w))
  else false.

(** [CanonicalizedTypeIntPrototype<S, U>] *)
Record result : Set := mk_result {
  _present : bool;
  _data : TypeIntPrototype.t
}.

Definition empty (r : result) : bool := negb (_present r).

(** Modelled from the spec: [TypeIntPrototype::canonicalize_constraints]
    is defined in [opto/rangeinference.cpp], which is not part of the
    sources.  The effective value set is the intersection of the three
    views, and construction collapses to the canonical empty
    representation when that intersection is empty.  The choice of the
    tightest bounds and bits for a non-empty set is not described; the
    model keeps the requested constraints, which denote the same
    set. *)
Definition canonicalize_constraints (w : Z) (t : TypeIntPrototype.t) : result :=
  if nonempty w t then {| _present := true; _data := t |}
  else {| _present := false; _data := t |}.

(** Modelled from the spec: [TypeIntPrototype::normalize_widen] is
    defined in [opto/rangeinference.cpp], which is not part of the
    sources.  The widen counter is carried by the type; the model
    stores the requested counter. *)
Definition normalize_widen (t : TypeIntPrototype.t) (widen : Z) : Z := widen.
End Canonicalize.

Module TypeInt.
Import TypeInteger.

Definition width : Z := 32.

(** [TypeInt::TypeInt(const TypeIntPrototype<jint, juint>& t, int widen, bool dual)] *)
Definition new (t : TypeIntPrototype.t) (widen : Z) (dual : bool) : TypeInteger.t :=
  {| _lo := RangeInt._lo (TypeIntPrototype._srange t);
     _hi := RangeInt._hi (TypeIntPrototype._srange t);
     _ulo := RangeInt._lo (TypeIntPrototype._urange t);
     _uhi := RangeInt._hi (TypeIntPrototype._urange t);
     _bits := TypeIntPrototype._bits t;
     _widen := Canonicalize.normalize_widen t widen;
     _is_dual := dual |}.

(** [Type::is_int()]: the downcast, which asserts the tag. *)
Definition is_int (t : Type_) : outcome TypeInteger.t :=
  match t with
  | TypeInt_mk i => Ret i
  | _ => Abort AssertionFailed
  end.

(** [TypeInt::make_or_top(const TypeIntPrototype<jint, juint>& t, int widen, bool dual)] *)
Definition make_or_top (t : TypeIntPrototype.t) (widen : Z) (dual : bool) : Type_ :=
  let canonicalized_t := Canonicalize.canonicalize_constraints width t in
  if Canonicalize.empty canonicalized_t then
    if dual then BOTTOM else TOP
  else TypeInt_mk (new (Canonicalize._data canonicalized_t) widen dual).

(** [TypeInt::make(jint con)] *)
Definition make_con (con : Z) : TypeInteger.t :=
  let ucon := to_U width con in
  new (TypeIntPrototype.mk (RangeInt.mk con con) (RangeInt.mk ucon ucon)
         (KnownBits.mk (Z.lxor ucon (max_U width)) ucon))
      WidenMin false.

(** [TypeInt::make(jint lo, jint hi, int widen)] *)
Definition make (lo hi : Z) (widen : Z) : outcome TypeInteger.t :=
  assert! (lo <=? hi);
  is_int (make_or_top
            (TypeIntPrototype.mk (RangeInt.mk lo hi)
               (RangeInt.mk 0 (max_U width)) (KnownBits.mk 0 0))
            widen false).

(** [TypeInt::contains(jint i)] *)
Definition contains (this : TypeInteger.t) (i : Z) : outcome bool :=
  assert! (negb (_is_dual this));
  let u := to_U width i in
  Ret ((_lo this <=? i) && (i <=? _hi this) &&
       (_ulo this <=? u) && (u <=? _uhi this) &&
       KnownBits.is_satisfied_by (_bits this) u).

(** [TypeInt::xdual()] *)
Definition xdual (this : TypeInteger.t) : TypeInteger.t :=
  new (TypeIntPrototype.mk (RangeInt.mk (_lo this) (_hi this))
         (RangeInt.mk (_ulo this) (_uhi this)) (_bits this))
      (_widen this) (negb (_is_dual this)).
End TypeInt.

Module TypeLong.
Import TypeInteger.

Definition width : Z := 64.

(** [TypeLong::TypeLong(const TypeIntPrototype<jlong, julong>& t, int widen, bool dual)] *)
Definition new (t : TypeIntPrototype.t) (widen : Z) (dual : bool) : TypeInteger.t :=
  {| _lo := RangeInt._lo (TypeIntPrototype._srange t);
     _hi := RangeInt._hi (TypeIntPrototype._srange t);
     _ulo := RangeInt._lo (TypeIntPrototype._urange t);
     _uhi := RangeInt._hi (TypeIntPrototype._urange t);
     _bits := TypeIntPrototype._bits t;
     _widen := Canonicalize.normalize_widen t widen;
     _is_dual := dual |}.

(** [Type::is_long()]: the downcast, which asserts the tag. *)
Definition is_long (t : Type_) : outcome TypeInteger.t :=
  match t with
  | TypeLong_mk i => Ret i
  | _ => Abort AssertionFailed
  end.

(** [TypeLong::make_or_top(const TypeIntPrototype<jlong, julong>& t, int widen, bool dual)] *)
Definition make_or_top (t : TypeIntPrototype.t) (widen : Z) (dual : bool) : Type_ :=
  let canonicalized_t := Canonicalize.canonicalize_constraints width t in
  if Canonicalize.empty canonicalized_t then
    if dual then BOTTOM else TOP
  else TypeLong_mk (new (Canonicalize._data canonicalized_t) widen dual).

(** [TypeLong::make(jlong con)] *)
Definition make_con (con : Z) : TypeInteger.t :=
  let ucon := to_U width con in
  new (TypeIntPrototype.mk (RangeInt.mk con con) (RangeInt.mk ucon ucon)
         (KnownBits.mk (Z.lxor ucon (max_U width)) ucon))
      WidenMin false.

(** [TypeLong::make(jlong lo, jlong hi, int widen)] *)
Definition make (lo hi : Z) (widen : Z) : outcome TypeInteger.t :=
  assert! (lo <=? hi);
  is_long (make_or_top
            (TypeIntPrototype.mk (RangeInt.mk lo hi)
               (RangeInt.mk 0 (max_U width)) (KnownBits.mk 0 0))
            widen false).

(** [TypeLong::contains(jlong i)] *)
Definition contains (this : TypeInteger.t) (i : Z) : outcome bool :=
  assert! (negb (_is_dual this));
  let u := to_U width i in
  Ret ((_lo this <=? i) && (i <=? _hi this) &&
       (_ulo this <=? u) && (u <=? _uhi this) &&
       KnownBits.is_satisfied_by (_bits this) u).

(** [TypeLong::xdual()] *)
Definition xdual (this : TypeInteger.t) : TypeInteger.t :=
  new (TypeIntPrototype.mk (RangeInt.mk (_lo this) (_hi this))
         (RangeInt.mk (_ulo this) (_uhi this)) (_bits this))
      (_widen this) (negb (_is_dual this)).
End TypeLong.


(* ===================================================================== *)
(** ** Interface sets *)
(* ===================================================================== *)

(** A [TypeInterfaces] is its array [_interfaces] of [ciInstanceKlass*]
    handles; the constructor sorts it by address. *)
Module TypeInterfaces.

Definition t : Set := list ciKlass.

(** [TypeInterfaces::compare(ciInstanceKlass* const& k1, ciInstanceKlass* const& k2)] *)
Definition compare (k1 k2 : ciKlass) : Z :=
  if k1 <? k2 then -1
  else if k2 <? k1 then 1
  else 0.

(** [_interfaces.sort(compare)]: the array in the order of [compare].
    Handles that compare equal are the same handle, so the sorted array
    does not depend on the sorting algorithm. *)
Fixpoint insert_sorted (k : ciKlass) (l : list ciKlass) : list ciKlass :=
  match l with
  | [] => [k]
  | k' :: l' => if compare k' k <? 0 then k' :: insert_sorted k l' else k :: l
  end.

Fixpoint sort (l : list ciKlass) : list ciKlass :=
  match l with
  | [] => []
  | k :: l' => insert_sorted k (sort l')
  end.

(** [TypeInterfaces::make(GrowableArray<ciInstanceKlass*>* interfaces)]:
    copies the array, sorts it in the constructor and hash-conses. *)
Definition make (interfaces : list ciKlass) : t := sort interfaces.

(** [TypeInterfaces::eq(const Type* t)] *)
Fixpoint eq (this other : t) : bool :=
  match this, other with
  | [], [] => true
  | k1 :: this', k2 :: other' => (k1 =? k2) && eq this' other'
  | _, _ => false
  end.

(** [TypeInterfaces::empty()] *)
Definition empty (this : t) : bool :=
  match this with [] => true | _ => false end.

(** The scanning loops below read [_interfaces.at(i)] for an index [i]
    that only moves forward; the model keeps the part of the array from
    [i] on, and likewise for [j] and [other]. *)

(** The first inner loop of [union_with] (and, with the arrays swapped,
    the second):
    [while (i < n && (j >= m || compare(at(i), other.at(j)) < 0)) { push(at(i)); i++; }] *)
Fixpoint union_advance (this other result_list : list ciKlass)
  : list ciKlass * list ciKlass :=
  match this with
  | [] => (this, result_list)
  | k :: this' =>
    if (match other with
        | [] => true
        | k' :: _ => compare k k' <? 0
        end)
    then union_advance this' other (result_list ++ [k])
    else (this, result_list)
  end.

(** One iteration of the outer loop of [union_with]: the two inner
    loops, then the step over an interface present in both arrays. *)
Definition union_iteration (this other result_list : list ciKlass)
  : list ciKlass * list ciKlass * list ciKlass :=
  let '(this1, result1) := union_advance this other result_list in
  let '(other1, result2) := union_advance other this1 result1 in
  match this1, other1 with
  | k :: this2, k' :: other2 =>
    if k =? k' then (this2, other2, result2 ++ [k])
    else (this1, other1, result2)
  | _, _ => (this1, other1, result2)
  end.

(** The outer loop of [union_with],
    [while (i < n || j < m) { ... }]; [None] when the iterations allowed
    by [fuel] do not reach its end. *)
Fixpoint union_loop (fuel : nat) (this other result_list : list ciKlass)
  : option (list ciKlass) :=
  match this, other with
  | [], [] => Some result_list
  | _, _ =>
    match fuel with
    | O => None
    | S fuel' =>
      let '(this', other', result') := union_iteration this other result_list in
      union_loop fuel' this' other' result'
    end
  end.

(** [TypeInterfaces::union_with(const TypeInterfaces* other)].  Every
    iteration of the outer loop moves [i] or [j] forward, so the loop
    ends within [n + m] iterations ([union_loop_terminates]). *)
Definition union_with (this other : t) : t :=
  match union_loop (length this + length other) this other [] with
  | Some result_list => make result_list
  | None => make []
  end.

(** The inner loops of [intersection_with]:
    [while (i < n && (j >= m || compare(at(i), other.at(j)) < 0)) { i++; }] *)
Fixpoint intersection_advance (this other : list ciKlass) : list ciKlass :=
  match this with
  | [] => this
  | k :: this' =>
    if (match other with
        | [] => true
        | k' :: _ => compare k k' <? 0
        end)
    then intersection_advance this' other
    else this
  end.

(** One iteration of the outer loop of [intersection_with]. *)
Definition intersection_iteration (this other result_list : list ciKlass)
  : list ciKlass * list ciKlass * list ciKlass :=
  let this1 := intersection_advance this other in
  let other1 := intersection_advance other this1 in
  match this1, other1 with
  | k :: this2, k' :: other2 =>
    if k =? k' then (this2, other2, result_list ++ [k])
    else (this1, other1, result_list)
  | _, _ => (this1, other1, result_list)
  end.

(** The outer loop of [intersection_with]. *)
Fixpoint intersection_loop (fuel : nat) (this other result_list : list ciKlass)
  : option (list ciKlass) :=
  match this, other with
  | [], [] => Some result_list
  | _, _ =>
    match fuel with
    | O => None
    | S fuel' =>
      let '(this', other', result') :=
        intersection_iteration this other result_list in
      intersection_loop fuel' this' other' result'
    end
  end.

(** [TypeInterfaces::intersection_with(const TypeInterfaces* other)] *)
Definition intersection_with (this other : t) : t :=
  match intersection_loop (length this + length other) this other [] with
  | Some result_list => make result_list
  | None => make []
  end.

(** [TypeInterfaces::contains(const TypeInterfaces* other)].
    Modelled from the spec: the method is defined in [opto/type.hpp],
    which is not part of the sources; a set contains another when their
    intersection is that other set. *)
Definition contains (this other : t) : bool :=
  eq (intersection_with this other) other.

(** [TypeInterfaces::verify()]: ordered, no duplicate. *)
Fixpoint verify (this : t) : bool :=
  match this with
  | k1 :: ((k2 :: _) as rest) => (0 <? compare k2 k1) && negb (k1 =? k2) && verify rest
  | _ => true
  end.

End TypeInterfaces.

(* ===================================================================== *)
(** ** The pointer frame *)
(* ===================================================================== *)

(** [TypePtr::ptr_meet]: the meet over the [PTR] enumeration, rows and
    columns in the order TopPTR, AnyNull, Constant, Null, NotNull, BotPTR. *)
Definition ptr_meet (a b : PTR) : PTR :=
  match a, b with
  | TopPTR, TopPTR => TopPTR | TopPTR, AnyNull => AnyNull
  | TopPTR, Constant => Constant | TopPTR, Null => Null
  | TopPTR, NotNull => NotNull | TopPTR, BotPTR => BotPTR
  | AnyNull, TopPTR => AnyNull | AnyNull, AnyNull => AnyNull
  | AnyNull, Constant => Constant | AnyNull, Null => BotPTR
  | AnyNull, NotNull => NotNull | AnyNull, BotPTR => BotPTR
  | Constant, TopPTR => Constant | Constant, AnyNull => Constant
  | Constant, Constant => Constant | Constant, Null => BotPTR
  | Constant, NotNull => NotNull | Constant, BotPTR => BotPTR
  | Null, TopPTR => Null | Null, AnyNull => BotPTR
  | Null, Constant => BotPTR | Null, Null => Null
  | Null, NotNull => BotPTR | Null, BotPTR => BotPTR
  | NotNull, TopPTR => NotNull | NotNull, AnyNull => NotNull
  | NotNull, Constant => NotNull | NotNull, Null => BotPTR
  | NotNull, NotNull => NotNull | NotNull, BotPTR => BotPTR
  | BotPTR, _ => BotPTR
  end.

(** [TypePtr::ptr_dual] *)
Definition ptr_dual (a : PTR) : PTR :=
  match a with
  | TopPTR => BotPTR
  | AnyNull => NotNull
  | Constant => Constant
  | Null => Null
  | NotNull => AnyNull
  | BotPTR => TopPTR
  end.

(** [TypePtr::above_centerline] and [TypePtr::below_centerline].
    Modelled from the spec: the two predicates are defined in
    [opto/type.hpp], which is not part of the sources.  In the
    nullability lattice Top and AnyNull lie above the centerline,
    Constant and Null on it, NotNull and Bottom below it. *)
Definition above_centerline (ptr : PTR) : bool := PTR_ord ptr <=? PTR_ord AnyNull.
Definition below_centerline (ptr : PTR) : bool := PTR_ord NotNull <=? PTR_ord ptr.

(** The sentinels of the offset, of the instance id and of the inline
    depth.
    Modelled from the spec: the enumerations [OFFSET_SIGNALS],
    [InstanceTop]/[InstanceBot] and [InlineDepthTop]/[InlineDepthBottom]
    are declared in [opto/type.hpp], which is not part of the sources.
    An offset is an integer or the Top or Bottom sentinel; an instance id
    is the Top sentinel (undefined, -1: [with_instance_id] asserts
    [_instance_id != -1]), the Bottom sentinel (any instance, 0: ids
    [> 0] are the known instances) or a known instance; the inline depth
    runs between two opposite sentinels ([dual_inline_depth] negates
    it). *)
Definition OffsetTop : Z := -2000000000.
Definition OffsetBot : Z := -2000000001.
Definition InstanceTop : Z := -1.
Definition InstanceBot : Z := 0.
Definition InlineDepthBottom : Z := 2147483647.
Definition InlineDepthTop : Z := - InlineDepthBottom.

(** The accessors of the frame.  A [TypeRawPtr] is built with offset 0,
    no speculative part and the default inline depth. *)
Definition ptr (p : TypePtr) : PTR :=
  match p with
  | TypePtr_mk ptr _ _ _ => ptr
  | TypeRawPtr_mk ptr _ => ptr
  | TypeOopPtr_mk ptr _ _ _ _ => ptr
  | TypeInstPtr_mk ptr _ _ _ _ _ _ _ _ => ptr
  end.

Definition offset (p : TypePtr) : Z :=
  match p with
  | TypePtr_mk _ off _ _ => off
  | TypeRawPtr_mk _ _ => 0
  | TypeOopPtr_mk _ off _ _ _ => off
  | TypeInstPtr_mk _ _ _ _ _ off _ _ _ => off
  end.

Definition speculative (p : TypePtr) : option TypePtr :=
  match p with
  | TypePtr_mk _ _ spec _ => spec
  | TypeRawPtr_mk _ _ => None
  | TypeOopPtr_mk _ _ _ spec _ => spec
  | TypeInstPtr_mk _ _ _ _ _ _ _ spec _ => spec
  end.

Definition inline_depth (p : TypePtr) : Z :=
  match p with
  | TypePtr_mk _ _ _ d => d
  | TypeRawPtr_mk _ _ => InlineDepthBottom
  | TypeOopPtr_mk _ _ _ _ d => d
  | TypeInstPtr_mk _ _ _ _ _ _ _ _ d => d
  end.

(** [TypePtr::meet_ptr(const PTR in_ptr)]: [ptr_meet[in_ptr][ptr()]] *)
Definition meet_ptr (this : TypePtr) (in_ptr : PTR) : PTR :=
  ptr_meet in_ptr (ptr this).

(** [TypePtr::dual_ptr()] *)
Definition dual_ptr (this : TypePtr) : PTR := ptr_dual (ptr this).

(** [TypePtr::meet_offset(int offset)] *)
Definition meet_offset (this : TypePtr) (offset' : Z) : Z :=
  if offset this =? OffsetTop then offset'
  else if offset' =? OffsetTop then offset this
  else if negb (offset this =? offset') then OffsetBot
  else offset this.

(** [TypePtr::dual_offset()] *)
Definition dual_offset (this : TypePtr) : Z :=
  if offset this =? OffsetTop then OffsetBot
  else if offset this =? OffsetBot then OffsetTop
  else offset this.

(** [TypePtr::meet_inline_depth(int depth)]: [MAX2(inline_depth(), depth)] *)
Definition meet_inline_depth (this : TypePtr) (depth : Z) : Z :=
  Z.max (inline_depth this) depth.

(** [TypePtr::dual_inline_depth()] *)
Definition dual_inline_depth (this : TypePtr) : Z := - inline_depth this.

(* ===================================================================== *)
(** ** The class hierarchy, as the lattice sees it *)
(* ===================================================================== *)

(** The compiler interface answers the questions of the lattice about
    classes; it is an external collaborator. *)
Record ciEnv : Type := {
  Object_klass : ciKlass;
  is_loaded : ciKlass -> bool;
  is_instance_klass : ciKlass -> bool;
  is_interface : ciKlass -> bool;
  is_final : ciKlass -> bool;
  is_subtype_of : ciKlass -> ciKlass -> bool;
  least_common_ancestor : ciKlass -> ciKlass -> ciKlass
}.

(** The fields that [TypeOopPtr] adds to the frame.  The constructor of
    a plain [TypeOopPtr] is only reached from [TypeOopPtr::make], which
    passes [Object_klass], the empty interface set, [xk = false] and no
    constant; the other classes do not have these fields, and the
    accessors are not applied to them. *)
Definition klass (env : ciEnv) (p : TypePtr) : ciKlass :=
  match p with
  | TypeInstPtr_mk _ k _ _ _ _ _ _ _ => k
  | _ => Object_klass env
  end.

Definition interfaces (p : TypePtr) : TypeInterfaces.t :=
  match p with
  | TypeInstPtr_mk _ _ ifs _ _ _ _ _ _ => ifs
  | _ => []
  end.

Definition klass_is_exact (p : TypePtr) : bool :=
  match p with
  | TypeInstPtr_mk _ _ _ xk _ _ _ _ _ => xk
  | _ => false
  end.

Definition const_oop (p : TypePtr) : option ciObject :=
  match p with
  | TypeInstPtr_mk _ _ _ _ o _ _ _ _ => o
  | _ => None
  end.

Definition instance_id (p : TypePtr) : Z :=
  match p with
  | TypeOopPtr_mk _ _ iid _ _ => iid
  | TypeInstPtr_mk _ _ _ _ _ _ iid _ _ => iid
  | _ => InstanceBot
  end.

(** [TypeOopPtr::meet_instance_id(int instance_id)] *)
Definition meet_instance_id (this : TypePtr) (instance_id' : Z) : Z :=
  if instance_id this =? InstanceTop then instance_id'
  else if instance_id' =? InstanceTop then instance_id this
  else if negb (instance_id this =? instance_id') then InstanceBot
  else instance_id this.

(** [TypeOopPtr::dual_instance_id()] *)
Definition dual_instance_id (this : TypePtr) : Z :=
  if instance_id this =? InstanceTop then InstanceBot
  else if instance_id this =? InstanceBot then InstanceTop
  else instance_id this.

(** [TypeOopPtr::meet_interfaces(const TypeOopPtr* other)] *)
Definition meet_interfaces (this other : TypePtr) : TypeInterfaces.t :=
  if above_centerline (ptr this) && above_centerline (ptr other) then
    TypeInterfaces.union_with (interfaces this) (interfaces other)
  else if above_centerline (ptr this) && negb (above_centerline (ptr other)) then
    interfaces other
  else if above_centerline (ptr other) && negb (above_centerline (ptr this)) then
    interfaces this
  else TypeInterfaces.intersection_with (interfaces this) (interfaces other).

(* ===================================================================== *)
(** ** Structural equality: [Type::equals] *)
(* ===================================================================== *)

Definition option_eqb {A} (eqb : A -> A -> bool) (a b : option A) : bool :=
  match a, b with
  | None, None => true
  | Some x, Some y => eqb x y
  | _, _ => false
  end.

(** [Type::equals] on two pointers: the tags agree and the virtual [eq]
    of the class holds.  [TypePtr::eq] compares the frame, with
    [eq_speculative] for the speculative parts; [TypeRawPtr::eq] adds
    [_bits]; [TypeOopPtr::eq] adds the exactness, the instance id and the
    constant; [TypeInstPtr::eq] adds the klass and the interfaces. *)
Fixpoint TypePtr_equals (a b : TypePtr) : bool :=
  match a, b with
  | TypePtr_mk p1 o1 s1 d1, TypePtr_mk p2 o2 s2 d2 =>
    PTR_eqb p1 p2 && (o1 =? o2) &&
    match s1, s2 with
    | None, None => true
    | Some x, Some y => TypePtr_equals x y
    | _, _ => false
    end && (d1 =? d2)
  | TypeRawPtr_mk p1 b1, TypeRawPtr_mk p2 b2 =>
    (b1 =? b2) && PTR_eqb p1 p2
  | TypeOopPtr_mk p1 o1 i1 s1 d1, TypeOopPtr_mk p2 o2 i2 s2 d2 =>
    (i1 =? i2) &&
    (PTR_eqb p1 p2 && (o1 =? o2) &&
     match s1, s2 with
     | None, None => true
     | Some x, Some y => TypePtr_equals x y
     | _, _ => false
     end && (d1 =? d2))
  | TypeInstPtr_mk p1 k1 f1 x1 c1 o1 i1 s1 d1,
    TypeInstPtr_mk p2 k2 f2 x2 c2 o2 i2 s2 d2 =>
    (k1 =? k2) && TypeInterfaces.eq f1 f2 &&
    (Bool.eqb x1 x2 && (i1 =? i2) && option_eqb Z.eqb c1 c2 &&
     (PTR_eqb p1 p2 && (o1 =? o2) &&
      match s1, s2 with
      | None, None => true
      | Some x, Some y => TypePtr_equals x y
      | _, _ => false
      end && (d1 =? d2)))
  | _, _ => false
  end.

(** [TypeInt::eq] and [TypeLong::eq]: the three views, the widen counter
    and the duality flag. *)
Definition TypeInteger_eq (a b : TypeInteger.t) : bool :=
  (TypeInteger._lo a =? TypeInteger._lo b) &&
  (TypeInteger._hi a =? TypeInteger._hi b) &&
  (TypeInteger._ulo a =? TypeInteger._ulo b) &&
  (TypeInteger._uhi a =? TypeInteger._uhi b) &&
  (KnownBits._zeros (TypeInteger._bits a) =? KnownBits._zeros (TypeInteger._bits b)) &&
  (KnownBits._ones (TypeInteger._bits a) =? KnownBits._ones (TypeInteger._bits b)) &&
  (TypeInteger._widen a =? TypeInteger._widen b) &&
  Bool.eqb (TypeInteger._is_dual a) (TypeInteger._is_dual b).

(** [Type::equals(const Type* t1, const Type* t2)]: the tags agree and
    [t1->eq(t2)] holds.  [Type::eq] is constantly true; [TypeF::eq],
    [TypeD::eq] and [TypeH::eq] compare the bits of the constant. *)
Definition Type_equals (t1 t2 : Type_) : bool :=
  match t1, t2 with
  | Type_mk b1, Type_mk b2 => TYPES_eqb b1 b2
  | TypeF_mk f1, TypeF_mk f2 => f1 =? f2
  | TypeD_mk d1, TypeD_mk d2 => d1 =? d2
  | TypeH_mk f1, TypeH_mk f2 => f1 =? f2
  | TypeInt_mk i1, TypeInt_mk i2 => TypeInteger_eq i1 i2
  | TypeLong_mk l1, TypeLong_mk l2 => TypeInteger_eq l1 l2
  | Ptr p1, Ptr p2 => TypePtr_equals p1 p2
  | _, _ => false
  end.

(** The address comparison [this == t] of two canonical types: the type
    table holds one instance per structural value, so two canonical
    pointers are the same when the types are [equals]. *)
Definition same_type (this t : Type_) : bool := Type_equals this t.
Definition same_ptr (this t : TypePtr) : bool := TypePtr_equals this t.

(* ===================================================================== *)
(** ** Factories of the pointer family *)
(* ===================================================================== *)

(** [Type::typerr(const Type* t)]: prints the two types and calls
    [ShouldNotReachHere()], which does not return. *)
Definition typerr {A} (this t : Type_) : outcome A := Abort ShouldNotReachHere.

(** [Type::is_ptr()] and [Type::isa_ptr()]: the checked and the tested
    downcast to [TypePtr]. *)
Definition is_ptr (t : Type_) : outcome TypePtr :=
  match t with
  | Ptr p => Ret p
  | _ => Abort AssertionFailed
  end.

Definition isa_ptr (t : Type_) : option TypePtr :=
  match t with
  | Ptr p => Some p
  | _ => None
  end.

(** [TypePtr::make(TYPES t, PTR ptr, int offset, const TypePtr* speculative, int inline_depth)],
    called with [t = AnyPtr]. *)
Definition TypePtr_make (ptr : PTR) (offset : Z)
    (speculative : option TypePtr) (inline_depth : Z) : TypePtr :=
  TypePtr_mk ptr offset speculative inline_depth.

(** [TypeRawPtr::make(enum PTR ptr)] *)
Definition TypeRawPtr_make (ptr : PTR) : outcome TypePtr :=
  assert! (negb (PTR_eqb ptr Constant));
  assert! (negb (PTR_eqb ptr Null));
  Ret (TypeRawPtr_mk ptr 0).

(** [TypeOopPtr::make(PTR ptr, int offset, int instance_id, const TypePtr* speculative, int inline_depth)] *)
Definition TypeOopPtr_make (ptr : PTR) (offset instance_id : Z)
    (speculative : option TypePtr) (inline_depth : Z) : outcome TypePtr :=
  assert! (negb (PTR_eqb ptr Constant));
  Ret (TypeOopPtr_mk ptr offset instance_id speculative inline_depth).

Definition is_Some_b {A} (o : option A) : bool :=
  match o with Some _ => true | None => false end.

(** [TypeInstPtr::make(PTR ptr, ciKlass* k, const TypeInterfaces* interfaces, bool xk, ciObject* o, int offset, int instance_id, const TypePtr* speculative, int inline_depth)],
    with the assertions of the constructors of [TypeInstPtr] and
    [TypeOopPtr] it runs. *)
Definition TypeInstPtr_make (env : ciEnv) (ptr : PTR) (k : ciKlass)
    (interfaces : TypeInterfaces.t) (xk : bool) (o : option ciObject)
    (offset instance_id : Z) (speculative : option TypePtr)
    (inline_depth : Z) : outcome TypePtr :=
  assert! (negb (is_loaded env k) || is_instance_klass env k);
  assert! ((negb (is_Some_b o) && negb (PTR_eqb ptr Constant)) ||
           (is_Some_b o && PTR_eqb ptr Constant));
  assert! (negb (PTR_eqb ptr Null));
  assert! ((instance_id <=? 0) || xk);
  do xk' <-
    (if PTR_eqb ptr Constant then Ret true
     else if is_loaded env k then
       let xk1 := if negb xk && is_final env k then true else xk in
       assert! (negb (is_interface env k));
       Ret (if xk1 && is_interface env k then false else xk1)
     else Ret xk);
  (* TypeInstPtr::TypeInstPtr *)
  assert! (negb (is_loaded env k) || negb (is_interface env k));
  assert! (is_loaded env k || negb (is_Some_b o));
  (* TypeOopPtr::TypeOopPtr: interfaces->verify_is_loaded() *)
  assert! (negb (is_loaded env k) || forallb (is_loaded env) interfaces);
  Ret (TypeInstPtr_mk ptr k interfaces xk' o offset instance_id
         speculative inline_depth).

(** The pre-built pointers. [TypeInstPtr::NOTNULL] and
    [TypeInstPtr::BOTTOM] are made for [Object_klass], whose set of
    interfaces is empty. *)
Definition TypePtr_NULL_PTR : TypePtr := TypePtr_make Null 0 None InlineDepthBottom.
Definition TypePtr_NOTNULL : TypePtr := TypePtr_make NotNull OffsetBot None InlineDepthBottom.
Definition TypePtr_BOTTOM : TypePtr := TypePtr_make BotPTR OffsetBot None InlineDepthBottom.
Definition TypeRawPtr_BOTTOM : TypePtr := TypeRawPtr_mk BotPTR 0.
Definition TypeRawPtr_NOTNULL : TypePtr := TypeRawPtr_mk NotNull 0.

Definition TypeInstPtr_NOTNULL (env : ciEnv) : outcome TypePtr :=
  TypeInstPtr_make env NotNull (Object_klass env) [] false None 0
    InstanceBot None InlineDepthBottom.

Definition TypeInstPtr_BOTTOM (env : ciEnv) : outcome TypePtr :=
  TypeInstPtr_make env BotPTR (Object_klass env) [] false None 0
    InstanceBot None InlineDepthBottom.

(** [remove_speculative()], a virtual method: [TypePtr::remove_speculative]
    (also for [TypeRawPtr], which inherits it),
    [TypeOopPtr::remove_speculative], [TypeInstPtr::remove_speculative]. *)
Definition remove_speculative (env : ciEnv) (this : TypePtr) : outcome TypePtr :=
  match speculative this with
  | None => Ret this
  | Some _ =>
    assert! ((inline_depth this =? InlineDepthTop) ||
             (inline_depth this =? InlineDepthBottom));
    match this with
    | TypePtr_mk ptr off _ d => Ret (TypePtr_make ptr off None d)
    | TypeRawPtr_mk _ _ => Ret this
    | TypeOopPtr_mk ptr off iid _ d => TypeOopPtr_make ptr off iid None d
    | TypeInstPtr_mk ptr k ifs xk o off iid _ d =>
      TypeInstPtr_make env ptr k ifs xk o off iid None d
    end
  end.

(** [Type::remove_speculative()] on any type: a type that is not a
    pointer has no speculative part and is returned as it is. *)
Definition Type_remove_speculative (env : ciEnv) (this : Type_) : outcome Type_ :=
  match this with
  | Ptr p => do p' <- remove_speculative env p; Ret (Ptr p')
  | _ => Ret this
  end.

(** [Type::maybe_remove_speculative(bool include_speculative)] *)
Definition maybe_remove_speculative (env : ciEnv) (this : Type_)
    (include_speculative : bool) : outcome Type_ :=
  if negb include_speculative then Type_remove_speculative env this
  else Ret this.

(** [TypeInstPtr::with_speculative(const TypePtr* speculative)] *)
Definition with_speculative (env : ciEnv) (this : TypePtr)
    (speculative' : option TypePtr) : outcome TypePtr :=
  TypeInstPtr_make env (ptr this) (klass env this) (interfaces this)
    (klass_is_exact this) (const_oop this) (offset this) (instance_id this)
    speculative' (inline_depth this).

(** [TypeInstPtr::cast_to_ptr_type(PTR ptr)] *)
Definition TypeInstPtr_cast_to_ptr_type (env : ciEnv) (this : TypePtr)
    (ptr' : PTR) : outcome TypePtr :=
  if PTR_eqb ptr' (ptr this) then Ret this
  else TypeInstPtr_make env ptr' (klass env this) (interfaces this)
         (klass_is_exact this)
         (if PTR_eqb ptr' Constant then const_oop this else None)
         (offset this) (instance_id this) (speculative this)
         (inline_depth this).

(* ===================================================================== *)
(** ** The meet of the lattice *)
(* ===================================================================== *)

(** A type of a family outside the embedding would be asked for its
    [xmeet] or downcast here; no object of the embedding carries such a
    tag. *)
Definition outside_embedding {A} : outcome A := Abort AssertionFailed.

(** [TypePtr::MeetResult] *)
Inductive MeetResult : Set := QUICK | UNLOADED | SUBTYPE | NOT_SUBTYPE | LCA.

(** What [TypePtr::meet_instptr] hands back: its result and the values
    of its reference parameters [ptr], [interfaces], [res_klass] and
    [res_xk] ([res_klass] is only assigned on some paths). *)
Record meet_instptr_result : Set := {
  mi_kind : MeetResult;
  mi_ptr : PTR;
  mi_interfaces : TypeInterfaces.t;
  mi_res_klass : option ciKlass;
  mi_res_xk : bool
}.

Section Meet.

Variable env : ciEnv.

(** [this_spec->meet(other_spec)] in [TypePtr::xmeet_speculative]: the
    meet of two speculative parts is a meet without speculative parts,
    and is tied to [xmeet] after this section. *)
Variable meet : TypePtr -> TypePtr -> outcome Type_.

(** [TypePtr::xmeet_speculative(const TypePtr* other)] *)
Definition xmeet_speculative (this other : TypePtr) : outcome (option TypePtr) :=
  let this_has_spec := is_Some_b (speculative this) in
  let other_has_spec := is_Some_b (speculative other) in
  if negb this_has_spec && negb other_has_spec then Ret None
  else
    let this_spec :=
      match speculative this with Some s => s | None => this end in
    let other_spec :=
      match speculative other with Some s => s | None => other end in
    do r <- meet this_spec other_spec;
    do p <- is_ptr r;
    Ret (Some p).

(** The part of [TypePtr::xmeet(const Type* t)] that follows the call of
    the virtual [xmeet_helper]. *)
Definition TypePtr_xmeet_normalize (res : Type_) : outcome Type_ :=
  match isa_ptr res with
  | None => Ret res
  | Some res_ptr =>
    match speculative res_ptr with
    | None => Ret res
    | Some spec =>
      do no_spec <- remove_speculative env res_ptr;
      if same_ptr no_spec spec then Ret (Ptr no_spec)
      else Ret res
    end
  end.

(** [TypeRawPtr::xmeet(const Type* t)] *)
Definition TypeRawPtr_xmeet (this : TypePtr) (t : Type_) : outcome Type_ :=
  if same_type (Ptr this) t then Ret (Ptr this)
  else
    match base t with
    | Bottom => Ret t
    | Top => Ret (Ptr this)
    | AnyPtr =>
      (* Found an AnyPtr type vs self-RawPtr type *)
      do tp <- is_ptr t;
      match ptr tp with
      | TopPTR => Ret (Ptr this)
      | BotPTR => Ret t
      | Null =>
        if PTR_eqb (ptr this) TopPTR then Ret t
        else Ret (Ptr TypeRawPtr_BOTTOM)
      | NotNull =>
        Ret (Ptr (TypePtr_make (meet_ptr this NotNull) (meet_offset tp 0)
                    (speculative tp) (inline_depth tp)))
      | AnyNull =>
        if PTR_eqb (ptr this) Constant then Ret (Ptr this)
        else do r <- TypeRawPtr_make (meet_ptr this AnyNull); Ret (Ptr r)
      | Constant => Abort ShouldNotReachHere
      end
    | RawPtr =>
      do tp <- is_ptr t;
      let tptr := ptr tp in
      let ptr' := meet_ptr this tptr in
      if PTR_eqb ptr' Constant then
        if PTR_eqb tptr Constant && negb (PTR_eqb (ptr this) Constant) then Ret t
        else if PTR_eqb (ptr this) Constant && negb (PTR_eqb tptr Constant)
        then Ret (Ptr this)
        else do r <- TypeRawPtr_make NotNull; Ret (Ptr r)
      else do r <- TypeRawPtr_make ptr'; Ret (Ptr r)
    | OopPtr | InstPtr | AryPtr | MetadataPtr | KlassPtr | InstKlassPtr
    | AryKlassPtr => Ret (Ptr TypePtr_BOTTOM)
    | _ => typerr (Ptr this) t
    end.

(** [is_instance_type(other)]: is [other] an instance pointer? *)
Definition is_instance_type (other : TypePtr) : bool :=
  match other with
  | TypeInstPtr_mk _ _ _ _ _ _ _ _ _ => true
  | _ => false
  end.

(** [TypePtr::is_same_java_type_as_helper_for_instance(this_one, other)],
    reached through [is_same_java_type_as]. *)
Definition is_same_java_type_as (this_one other : TypePtr) : bool :=
  if negb (is_loaded env (klass env this_one)) ||
     negb (is_loaded env (klass env other)) then false
  else if negb (is_instance_type other) then false
  else (klass env this_one =? klass env other) &&
       TypeInterfaces.eq (interfaces this_one) (interfaces other).

(** [TypePtr::is_meet_subtype_of_helper_for_instance(this_one, other, this_xk, other_xk)] *)
Definition is_meet_subtype_of_helper_for_instance
    (this_one other : TypePtr) (this_xk other_xk : bool) : bool :=
  if negb (is_instance_type other) then false
  else if (klass env other =? Object_klass env) &&
          TypeInterfaces.empty (interfaces other) then true
  else is_subtype_of env (klass env this_one) (klass env other) &&
       (negb this_xk ||
        TypeInterfaces.contains (interfaces this_one) (interfaces other)).

(** [is_meet_subtype_of(other)]: the helper at the exactness of the two
    types. *)
Definition is_meet_subtype_of (this_one other : TypePtr) : bool :=
  is_meet_subtype_of_helper_for_instance this_one other
    (klass_is_exact this_one) (klass_is_exact other).

(** [TypePtr::meet_instptr(PTR& ptr, const TypeInterfaces*& interfaces, const T* this_type, const T* other_type, ciKlass*& res_klass, bool& res_xk)] *)
Definition meet_instptr (ptr0 : PTR) (interfaces0 : TypeInterfaces.t)
    (this_type other_type : TypePtr) : meet_instptr_result :=
  let this_klass := klass env this_type in
  let other_klass := klass env other_type in
  let this_xk := klass_is_exact this_type in
  let other_xk := klass_is_exact other_type in
  let this_ptr := ptr this_type in
  let other_ptr := ptr other_type in
  let this_interfaces := interfaces this_type in
  let other_interfaces := interfaces other_type in
  if negb (PTR_eqb ptr0 Constant) && (this_klass =? other_klass) &&
     Bool.eqb this_xk other_xk then
    {| mi_kind := QUICK; mi_ptr := ptr0; mi_interfaces := interfaces0;
       mi_res_klass := Some this_klass; mi_res_xk := this_xk |}
  else if negb (is_loaded env other_klass) || negb (is_loaded env this_klass) then
    {| mi_kind := UNLOADED; mi_ptr := ptr0; mi_interfaces := interfaces0;
       mi_res_klass := None; mi_res_xk := false |}
  else
    (* Check for subtyping: *)
    let '(subtype, subtype_exact) :=
      if is_same_java_type_as this_type other_type then
        (Some this_type,
         if below_centerline ptr0 then this_xk && other_xk
         else this_xk || other_xk)
      else if negb other_xk && is_meet_subtype_of this_type other_type then
        (Some this_type, this_xk)
      else if negb this_xk && is_meet_subtype_of other_type this_type then
        (Some other_type, other_xk)
      else (None, false) in
    let '(this_type1, other_type1, this_xk1) :=
      match subtype with
      | Some subtype =>
        if above_centerline ptr0 then (subtype, subtype, subtype_exact)
        else if above_centerline this_ptr && negb (above_centerline other_ptr)
        then (other_type, other_type, other_xk)
        else if above_centerline other_ptr && negb (above_centerline this_ptr)
        then (this_type, this_type, this_xk)
        else (this_type, other_type, subtype_exact)
      | None => (this_type, other_type, this_xk)
      end in
    (* Check for classes now being equal *)
    if is_same_java_type_as this_type1 other_type1 then
      {| mi_kind := SUBTYPE; mi_ptr := ptr0; mi_interfaces := interfaces0;
         mi_res_klass := Some (klass env this_type1); mi_res_xk := this_xk1 |}
    else
      let ptr1 :=
        if PTR_eqb ptr0 TopPTR || PTR_eqb ptr0 AnyNull || PTR_eqb ptr0 Constant
        then NotNull else ptr0 in
      {| mi_kind := LCA; mi_ptr := ptr1;
         mi_interfaces :=
           TypeInterfaces.intersection_with this_interfaces other_interfaces;
         mi_res_klass := Some (least_common_ancestor env this_klass other_klass);
         mi_res_xk := false |}.

(** [TypeInstPtr::xmeet_unloaded(const TypeInstPtr* tinst, const TypeInterfaces* interfaces)] *)
Definition xmeet_unloaded (this tinst : TypePtr)
    (interfaces' : TypeInterfaces.t) : outcome TypePtr :=
  let off := meet_offset this (offset tinst) in
  let ptr' := meet_ptr this (ptr tinst) in
  let instance_id' := meet_instance_id this (instance_id tinst) in
  do speculative' <- xmeet_speculative this tinst;
  let depth := meet_inline_depth this (inline_depth tinst) in
  let this_loaded := is_loaded env (klass env this) in
  let loaded := if this_loaded then this else tinst in
  let unloaded := if this_loaded then tinst else this in
  if klass env loaded =? Object_klass env then
    assert! (negb (PTR_eqb (ptr loaded) Null));
    if PTR_eqb (ptr loaded) TopPTR then
      with_speculative env unloaded speculative'
    else if PTR_eqb (ptr loaded) AnyNull then
      TypeInstPtr_make env ptr' (klass env unloaded) interfaces' false None
        off instance_id' speculative' depth
    else if PTR_eqb (ptr loaded) BotPTR then
      do b <- TypeInstPtr_BOTTOM env; with_speculative env b speculative'
    else if PTR_eqb (ptr loaded) Constant || PTR_eqb (ptr loaded) NotNull then
      if PTR_eqb (ptr unloaded) BotPTR then
        do b <- TypeInstPtr_BOTTOM env; with_speculative env b speculative'
      else
        do n <- TypeInstPtr_NOTNULL env; with_speculative env n speculative'
    else if PTR_eqb (ptr unloaded) TopPTR then
      with_speculative env unloaded speculative'
    else
      do c <- TypeInstPtr_cast_to_ptr_type env unloaded AnyNull;
      with_speculative env c speculative'
  else if negb (PTR_eqb ptr' BotPTR) then
    do n <- TypeInstPtr_NOTNULL env; with_speculative env n speculative'
  else
    do b <- TypeInstPtr_BOTTOM env; with_speculative env b speculative'.

(** [TypeInstPtr::xmeet_helper(const Type* t)] *)
Definition TypeInstPtr_xmeet_helper (this : TypePtr) (t : Type_) : outcome Type_ :=
  if same_type (Ptr this) t then Ret (Ptr this)
  else
    match base t with
    | Int | Long | HalfFloatTop | HalfFloatCon | HalfFloatBot
    | FloatTop | FloatCon | FloatBot | DoubleTop | DoubleCon | DoubleBot
    | NarrowOop | NarrowKlass | Bottom => Ret BOTTOM
    | Top => Ret (Ptr this)
    | MetadataPtr | KlassPtr | InstKlassPtr | AryKlassPtr | RawPtr =>
      Ret (Ptr TypePtr_BOTTOM)
    | AryPtr => outside_embedding
    | OopPtr =>
      (* Found a OopPtr type vs self-InstPtr type *)
      do tp <- is_ptr t;
      let offset' := meet_offset this (offset tp) in
      let ptr' := meet_ptr this (ptr tp) in
      match ptr tp with
      | TopPTR | AnyNull =>
        let instance_id' := meet_instance_id this InstanceTop in
        do speculative' <- xmeet_speculative this tp;
        let depth := meet_inline_depth this (inline_depth tp) in
        do r <- TypeInstPtr_make env ptr' (klass env this) (interfaces this)
                  (klass_is_exact this)
                  (if PTR_eqb ptr' Constant then const_oop this else None)
                  offset' instance_id' speculative' depth;
        Ret (Ptr r)
      | NotNull | BotPTR =>
        let instance_id' := meet_instance_id this (instance_id tp) in
        do speculative' <- xmeet_speculative this tp;
        let depth := meet_inline_depth this (inline_depth tp) in
        do r <- TypeOopPtr_make ptr' offset' instance_id' speculative' depth;
        Ret (Ptr r)
      | _ => typerr (Ptr this) t
      end
    | AnyPtr =>
      (* Found an AnyPtr type vs self-InstPtr type *)
      do tp <- is_ptr t;
      let offset' := meet_offset this (offset tp) in
      let ptr' := meet_ptr this (ptr tp) in
      let instance_id' := meet_instance_id this InstanceTop in
      do speculative' <- xmeet_speculative this tp;
      let depth := meet_inline_depth this (inline_depth tp) in
      let to_instance :=
        do r <- TypeInstPtr_make env ptr' (klass env this) (interfaces this)
                  (klass_is_exact this)
                  (if PTR_eqb ptr' Constant then const_oop this else None)
                  offset' instance_id' speculative' depth;
        Ret (Ptr r) in
      match ptr tp with
      | Null =>
        if PTR_eqb ptr' Null
        then Ret (Ptr (TypePtr_make ptr' offset' speculative' depth))
        else to_instance
      | TopPTR | AnyNull => to_instance
      | NotNull | BotPTR =>
        Ret (Ptr (TypePtr_make ptr' offset' speculative' depth))
      | Constant => typerr (Ptr this) t
      end
    | InstPtr =>
      (* Found an InstPtr sub-type vs self-InstPtr type *)
      do tinst <- is_ptr t;
      let off := meet_offset this (offset tinst) in
      let ptr0 := meet_ptr this (ptr tinst) in
      let instance_id0 := meet_instance_id this (instance_id tinst) in
      do speculative' <- xmeet_speculative this tinst;
      let depth := meet_inline_depth this (inline_depth tinst) in
      let interfaces0 := meet_interfaces this tinst in
      let tinst_klass := klass env tinst in
      let this_klass := klass env this in
      let m := meet_instptr ptr0 interfaces0 this tinst in
      let ptr1 := mi_ptr m in
      let interfaces1 := mi_interfaces m in
      match mi_kind m with
      | UNLOADED =>
        (* One of these classes has not been loaded *)
        do unloaded_meet <- xmeet_unloaded this tinst interfaces1;
        Ret (Ptr unloaded_meet)
      | kind =>
        let instance_id1 :=
          match kind with
          | NOT_SUBTYPE => if 0 <? instance_id0 then InstanceBot else instance_id0
          | LCA => InstanceBot
          | _ => instance_id0
          end in
        let this_oop := const_oop this in
        let tinst_oop := const_oop tinst in
        do po <-
          (if PTR_eqb ptr1 Constant then
             if is_Some_b this_oop && is_Some_b tinst_oop &&
                option_eqb Z.eqb this_oop tinst_oop
             then Ret (ptr1, this_oop)
             else if above_centerline (ptr this) then
               assert! (negb (is_interface env tinst_klass));
               Ret (ptr1, tinst_oop)
             else if above_centerline (ptr tinst) then
               assert! (negb (is_interface env this_klass));
               Ret (ptr1, this_oop)
             else Ret (NotNull, None)
           else Ret (ptr1, None));
        match mi_res_klass m with
        | None => Abort AssertionFailed
        | Some res_klass =>
          do res <- TypeInstPtr_make env (fst po) res_klass interfaces1
                      (mi_res_xk m) (snd po) off instance_id1 speculative' depth;
          Ret (Ptr res)
        end
      end
    | _ => typerr (Ptr this) t
    end.

(** [TypeInstPtr::xmeet]: the inherited [TypePtr::xmeet] around the
    class's [xmeet_helper]. *)
Definition TypeInstPtr_xmeet (this : TypePtr) (t : Type_) : outcome Type_ :=
  do res <- TypeInstPtr_xmeet_helper this t;
  TypePtr_xmeet_normalize res.

(** [TypeOopPtr::xmeet_helper(const Type* t)] *)
Definition TypeOopPtr_xmeet_helper (this : TypePtr) (t : Type_) : outcome Type_ :=
  if same_type (Ptr this) t then Ret (Ptr this)
  else
    match base t with
    | Int | Long | HalfFloatTop | HalfFloatCon | HalfFloatBot
    | FloatTop | FloatCon | FloatBot | DoubleTop | DoubleCon | DoubleBot
    | NarrowOop | NarrowKlass | Bottom => Ret BOTTOM
    | Top => Ret (Ptr this)
    | RawPtr | MetadataPtr | KlassPtr | InstKlassPtr | AryKlassPtr =>
      Ret (Ptr TypePtr_BOTTOM)
    | AnyPtr =>
      (* Found an AnyPtr type vs self-OopPtr type *)
      do tp <- is_ptr t;
      let offset' := meet_offset this (offset tp) in
      let ptr' := meet_ptr this (ptr tp) in
      do speculative' <- xmeet_speculative this tp;
      let depth := meet_inline_depth this (inline_depth tp) in
      let to_oop :=
        let instance_id' := meet_instance_id this InstanceTop in
        do r <- TypeOopPtr_make ptr' offset' instance_id' speculative' depth;
        Ret (Ptr r) in
      match ptr tp with
      | Null =>
        if PTR_eqb ptr' Null
        then Ret (Ptr (TypePtr_make ptr' offset' speculative' depth))
        else to_oop
      | TopPTR | AnyNull => to_oop
      | BotPTR | NotNull =>
        Ret (Ptr (TypePtr_make ptr' offset' speculative' depth))
      | Constant => typerr (Ptr this) t
      end
    | OopPtr =>
      do tp <- is_ptr t;
      let instance_id' := meet_instance_id this (instance_id tp) in
      do speculative' <- xmeet_speculative this tp;
      let depth := meet_inline_depth this (inline_depth tp) in
      do r <- TypeOopPtr_make (meet_ptr this (ptr tp))
                (meet_offset this (offset tp)) instance_id' speculative' depth;
      Ret (Ptr r)
    | InstPtr =>
      (* Call in reverse direction *)
      do tp <- is_ptr t; TypeInstPtr_xmeet tp (Ptr this)
    | AryPtr => outside_embedding
    | _ => typerr (Ptr this) t
    end.

Definition TypeOopPtr_xmeet (this : TypePtr) (t : Type_) : outcome Type_ :=
  do res <- TypeOopPtr_xmeet_helper this t;
  TypePtr_xmeet_normalize res.

(** [TypePtr::xmeet_helper(const Type* t)] *)
Definition TypePtr_xmeet_helper (this : TypePtr) (t : Type_) : outcome Type_ :=
  if same_type (Ptr this) t then Ret (Ptr this)
  else
    match base t with
    | Int | Long | HalfFloatTop | HalfFloatCon | HalfFloatBot
    | FloatTop | FloatCon | FloatBot | DoubleTop | DoubleCon | DoubleBot
    | NarrowOop | NarrowKlass | Bottom => Ret BOTTOM
    | Top => Ret (Ptr this)
    | AnyPtr =>
      (* Meeting to AnyPtrs *)
      do tp <- is_ptr t;
      do speculative' <- xmeet_speculative this tp;
      let depth := meet_inline_depth this (inline_depth tp) in
      Ret (Ptr (TypePtr_make (meet_ptr this (ptr tp))
                  (meet_offset this (offset tp)) speculative' depth))
    | RawPtr =>
      (* Call in reverse direction *)
      do tp <- is_ptr t; TypeRawPtr_xmeet tp (Ptr this)
    | OopPtr => do tp <- is_ptr t; TypeOopPtr_xmeet tp (Ptr this)
    | InstPtr => do tp <- is_ptr t; TypeInstPtr_xmeet tp (Ptr this)
    | AryPtr | MetadataPtr | KlassPtr | InstKlassPtr | AryKlassPtr =>
      outside_embedding
    | _ => typerr (Ptr this) t
    end.

(** [TypePtr::xmeet(const Type* t)] *)
Definition TypePtr_xmeet (this : TypePtr) (t : Type_) : outcome Type_ :=
  do res <- TypePtr_xmeet_helper this t;
  TypePtr_xmeet_normalize res.

(** The virtual call [this->xmeet_helper(t)] in [TypePtr::xmeet];
    [TypeRawPtr] does not override [xmeet_helper] (it overrides [xmeet]). *)
Definition xmeet_helper (this : TypePtr) (t : Type_) : outcome Type_ :=
  match this with
  | TypePtr_mk _ _ _ _ => TypePtr_xmeet_helper this t
  | TypeRawPtr_mk _ _ => TypePtr_xmeet_helper this t
  | TypeOopPtr_mk _ _ _ _ _ => TypeOopPtr_xmeet_helper this t
  | TypeInstPtr_mk _ _ _ _ _ _ _ _ _ => TypeInstPtr_xmeet_helper this t
  end.

(** The virtual call [p->xmeet(t)] on a pointer. *)
Definition pointer_xmeet (p : TypePtr) (t : Type_) : outcome Type_ :=
  match p with
  | TypePtr_mk _ _ _ _ => TypePtr_xmeet p t
  | TypeRawPtr_mk _ _ => TypeRawPtr_xmeet p t
  | TypeOopPtr_mk _ _ _ _ _ => TypeOopPtr_xmeet p t
  | TypeInstPtr_mk _ _ _ _ _ _ _ _ _ => TypeInstPtr_xmeet p t
  end.

(** [Type::getf()], [Type::getd()] and [Type::geth()]: the constant of a
    float, double or half-float constant type, as its bits. *)
Definition getf (t : Type_) : outcome Z :=
  match t with TypeF_mk f => Ret f | _ => Abort AssertionFailed end.
Definition getd (t : Type_) : outcome Z :=
  match t with TypeD_mk d => Ret d | _ => Abort AssertionFailed end.
Definition geth (t : Type_) : outcome Z :=
  match t with TypeH_mk f => Ret f | _ => Abort AssertionFailed end.

(** [TypeF::xmeet(const Type* t)]; [_f] is held as [jint_cast(_f)]. *)
Definition TypeF_xmeet (_f : Z) (t : Type_) : outcome Type_ :=
  let this := TypeF_mk _f in
  if same_type this t then Ret this
  else
    match base t with
    | AnyPtr | RawPtr | OopPtr | InstPtr | AryPtr
    | MetadataPtr | KlassPtr | InstKlassPtr | AryKlassPtr
    | NarrowOop | NarrowKlass | Int | Long
    | HalfFloatTop | HalfFloatCon | HalfFloatBot
    | DoubleTop | DoubleCon | DoubleBot | Bottom => Ret BOTTOM
    | FloatBot => Ret t
    | FloatCon =>
      do tf <- getf t;
      if negb (_f =? tf) then Ret FLOAT else Ret this
    | Top | FloatTop => Ret this
    | _ => typerr this t
    end.

(** [TypeH::xmeet(const Type* t)] *)
Definition TypeH_xmeet (_f : Z) (t : Type_) : outcome Type_ :=
  let this := TypeH_mk _f in
  if same_type this t then Ret this
  else
    match base t with
    | AnyPtr | RawPtr | OopPtr | InstPtr | AryPtr
    | MetadataPtr | KlassPtr | InstKlassPtr | AryKlassPtr
    | NarrowOop | NarrowKlass | Int | Long
    | FloatTop | FloatCon | FloatBot
    | DoubleTop | DoubleCon | DoubleBot | Bottom => Ret BOTTOM
    | HalfFloatBot => Ret t
    | HalfFloatCon =>
      do th <- geth t;
      if negb (_f =? th) then Ret HALF_FLOAT else Ret this
    | Top | HalfFloatTop => Ret this
    | _ => typerr this t
    end.

(** [TypeD::xmeet(const Type* t)]; [_d] is held as [jlong_cast(_d)]. *)
Definition TypeD_xmeet (_d : Z) (t : Type_) : outcome Type_ :=
  let this := TypeD_mk _d in
  if same_type this t then Ret this
  else
    match base t with
    | AnyPtr | RawPtr | OopPtr | InstPtr | AryPtr
    | MetadataPtr | KlassPtr | InstKlassPtr | AryKlassPtr
    | NarrowOop | NarrowKlass | Int | Long
    | HalfFloatTop | HalfFloatCon | HalfFloatBot
    | FloatTop | FloatCon | FloatBot | Bottom => Ret BOTTOM
    | DoubleBot => Ret t
    | DoubleCon =>
      do td <- getd t;
      if negb (_d =? td) then Ret DOUBLE else Ret this
    | Top | DoubleTop => Ret this
    | _ => typerr this t
    end.

(** Modelled from the spec: [TypeInt::xmeet] and [TypeLong::xmeet] call
    [TypeIntHelper::int_type_xmeet], which is defined in
    [opto/rangeinference.cpp] and is not part of the sources.  Meeting
    two bounded integers widens each of the three views to the common
    enclosing one and re-runs the emptiness check (for two dual types:
    narrows each view); Top is the identity; mixing with another family
    falls to Bottom as it does in [TypeF::xmeet]. *)
Definition int_type_xmeet (long : bool) (i1 : TypeInteger.t) (t2 : Type_)
  : outcome Type_ :=
  let this := if long then TypeLong_mk i1 else TypeInt_mk i1 in
  let make_or_top := if long then TypeLong.make_or_top else TypeInt.make_or_top in
  if same_type this t2 || same_type t2 TOP then Ret this
  else
    match (match t2 with
           | TypeInt_mk i2 => if long then None else Some i2
           | TypeLong_mk i2 => if long then Some i2 else None
           | _ => None
           end) with
    | Some i2 =>
      assert! (Bool.eqb (TypeInteger._is_dual i1) (TypeInteger._is_dual i2));
      let z1 := KnownBits._zeros (TypeInteger._bits i1) in
      let z2 := KnownBits._zeros (TypeInteger._bits i2) in
      let o1 := KnownBits._ones (TypeInteger._bits i1) in
      let o2 := KnownBits._ones (TypeInteger._bits i2) in
      if negb (TypeInteger._is_dual i1) then
        Ret (make_or_top
               (TypeIntPrototype.mk
                  (RangeInt.mk (Z.min (TypeInteger._lo i1) (TypeInteger._lo i2))
                               (Z.max (TypeInteger._hi i1) (TypeInteger._hi i2)))
                  (RangeInt.mk (Z.min (TypeInteger._ulo i1) (TypeInteger._ulo i2))
                               (Z.max (TypeInteger._uhi i1) (TypeInteger._uhi i2)))
                  (KnownBits.mk (Z.land z1 z2) (Z.land o1 o2)))
               (Z.max (TypeInteger._widen i1) (TypeInteger._widen i2)) false)
      else
        Ret (make_or_top
               (TypeIntPrototype.mk
                  (RangeInt.mk (Z.max (TypeInteger._lo i1) (TypeInteger._lo i2))
                               (Z.min (TypeInteger._hi i1) (TypeInteger._hi i2)))
                  (RangeInt.mk (Z.max (TypeInteger._ulo i1) (TypeInteger._ulo i2))
                               (Z.min (TypeInteger._uhi i1) (TypeInteger._uhi i2)))
                  (KnownBits.mk (Z.lor z1 z2) (Z.lor o1 o2)))
               (Z.min (TypeInteger._widen i1) (TypeInteger._widen i2)) true)
    | None =>
      match base t2 with
      | AnyPtr | RawPtr | OopPtr | InstPtr | AryPtr
      | MetadataPtr | KlassPtr | InstKlassPtr | AryKlassPtr
      | NarrowOop | NarrowKlass | Int | Long
      | HalfFloatTop | HalfFloatCon | HalfFloatBot
      | FloatTop | FloatCon | FloatBot
      | DoubleTop | DoubleCon | DoubleBot | Bottom => Ret BOTTOM
      | _ => typerr this t2
      end
    end.

(** The virtual call [t->xmeet(this)] on an object [t] of a class derived
    from [Type].  An object of class [Type] itself never carries one of
    the tags for which [Type::xmeet] flips the call around
    ([Type::xdual] asserts that its tag has a dual). *)
Definition subclass_xmeet (t this : Type_) : outcome Type_ :=
  match t with
  | Type_mk _ => outside_embedding
  | TypeF_mk f => TypeF_xmeet f this
  | TypeD_mk d => TypeD_xmeet d this
  | TypeH_mk f => TypeH_xmeet f this
  | TypeInt_mk i => int_type_xmeet false i this
  | TypeLong_mk l => int_type_xmeet true l this
  | Ptr p => pointer_xmeet p this
  end.

(** [Type::xmeet(const Type* t)], for an object of class [Type] itself. *)
Definition Type_xmeet (_base : TYPES) (t : Type_) : outcome Type_ :=
  let this := Type_mk _base in
  if same_type this t then Ret this
  else if TYPES_eqb _base Top then Ret t
  else if TYPES_eqb _base Bottom then Ret BOTTOM
  else
    let half_float_bot :=
      if TYPES_eqb _base HalfFloatBot || TYPES_eqb _base HalfFloatTop
      then Ret HALF_FLOAT
      else if TYPES_eqb _base FloatBot || TYPES_eqb _base FloatTop
      then Ret BOTTOM
      else if TYPES_eqb _base DoubleTop || TYPES_eqb _base DoubleBot
      then Ret BOTTOM
      else typerr this t in
    let float_bot :=
      if TYPES_eqb _base FloatBot || TYPES_eqb _base FloatTop
      then Ret FLOAT
      else if TYPES_eqb _base HalfFloatTop || TYPES_eqb _base HalfFloatBot
      then Ret BOTTOM
      else if TYPES_eqb _base DoubleTop || TYPES_eqb _base DoubleBot
      then Ret BOTTOM
      else typerr this t in
    let double_bot :=
      if TYPES_eqb _base DoubleBot || TYPES_eqb _base DoubleTop
      then Ret DOUBLE
      else if TYPES_eqb _base HalfFloatTop || TYPES_eqb _base HalfFloatBot
      then Ret BOTTOM
      else if TYPES_eqb _base FloatTop || TYPES_eqb _base FloatBot
      then Ret BOTTOM
      else typerr this t in
    match base t with
    | HalfFloatCon | FloatCon | DoubleCon | Int | Long => subclass_xmeet t this
    | OopPtr => subclass_xmeet t this
    | InstPtr => subclass_xmeet t this
    | MetadataPtr | KlassPtr | InstKlassPtr | AryKlassPtr => subclass_xmeet t this
    | AryPtr => subclass_xmeet t this
    | NarrowOop => subclass_xmeet t this
    | NarrowKlass => subclass_xmeet t this
    | Bottom => Ret t
    | HalfFloatTop =>
      if TYPES_eqb _base HalfFloatTop then Ret this else half_float_bot
    | HalfFloatBot => half_float_bot
    | FloatTop =>
      if TYPES_eqb _base FloatTop then Ret this else float_bot
    | FloatBot => float_bot
    | DoubleTop =>
      if TYPES_eqb _base DoubleTop then Ret this else double_bot
    | DoubleBot => double_bot
    | Control | Abio | Memory =>
      if TYPES_eqb _base (base t) then Ret this else typerr this t
    | Top => Ret this
    | _ => typerr this t
    end.

(** The virtual call [this->xmeet(t)]. *)
Definition xmeet (this t : Type_) : outcome Type_ :=
  match this with
  | Type_mk b => Type_xmeet b t
  | _ => subclass_xmeet this t
  end.

End Meet.

(** [xmeet] between two types without speculative parts:
    [xmeet_speculative] returns null before it asks for the meet of the
    speculative parts ([xmeet_without_speculative_parts]). *)
Definition xmeet_stripped (env : ciEnv) : Type_ -> Type_ -> outcome Type_ :=
  xmeet env (fun _ _ => outside_embedding).

(** [this_spec->meet(other_spec)]: [Type::meet] is
    [meet_helper(t, false)], which removes the speculative parts of both
    types before their [xmeet]. *)
Definition meet_of_speculative (env : ciEnv) (this_spec other_spec : TypePtr)
  : outcome Type_ :=
  do this_t <- remove_speculative env this_spec;
  do t <- remove_speculative env other_spec;
  xmeet_stripped env (Ptr this_t) (Ptr t).

(** [Type::meet_helper(const Type* t, bool include_speculative)], as
    compiled without [ASSERT]. *)
Definition meet_helper (env : ciEnv) (this t : Type_)
    (include_speculative : bool) : outcome Type_ :=
  do this_t <- maybe_remove_speculative env this include_speculative;
  do t' <- maybe_remove_speculative env t include_speculative;
  xmeet env (meet_of_speculative env) this_t t'.

(** [Type::meet(const Type* t)].
    Modelled from the spec: the method is defined in [opto/type.hpp],
    which is not part of the sources; the plain meet of two types is
    [meet_helper(t, false)], the meet without the speculative parts. *)
Definition meet (env : ciEnv) (this t : Type_) : outcome Type_ :=
  meet_helper env this t false.

(* ===================================================================== *)
(** ** The dual *)
(* ===================================================================== *)

(** [xdual()] on a pointer: [TypePtr::xdual], [TypeRawPtr::xdual],
    [TypeOopPtr::xdual], [TypeInstPtr::xdual].  The dual of the
    speculative part ([TypePtr::dual_speculative]) is the [_dual] of a
    canonical type, which [hashcons] has set to the canonical instance of
    its [xdual()]. *)
Fixpoint TypePtr_xdual (this : TypePtr) : TypePtr :=
  let dual_speculative (spec : option TypePtr) :=
    match spec with
    | None => None
    | Some s => Some (TypePtr_xdual s)
    end in
  match this with
  | TypePtr_mk _ _ spec _ =>
    TypePtr_mk (dual_ptr this) (dual_offset this) (dual_speculative spec)
      (dual_inline_depth this)
  | TypeRawPtr_mk _ bits => TypeRawPtr_mk (dual_ptr this) bits
  | TypeOopPtr_mk _ _ _ spec _ =>
    TypeOopPtr_mk (dual_ptr this) (dual_offset this) (dual_instance_id this)
      (dual_speculative spec) (dual_inline_depth this)
  | TypeInstPtr_mk _ k ifs xk o _ _ spec _ =>
    TypeInstPtr_mk (dual_ptr this) k ifs xk o (dual_offset this)
      (dual_instance_id this) (dual_speculative spec) (dual_inline_depth this)
  end.

(** The virtual [xdual()]: [Type::xdual] for an object of class [Type]
    itself, [TypeF::xdual], [TypeD::xdual] and [TypeH::xdual] (which
    return [this]), [TypeInt::xdual], [TypeLong::xdual] and the pointers. *)
Definition xdual (this : Type_) : outcome Type_ :=
  match this with
  | Type_mk b =>
    assert! (negb (TYPES_eqb (dual_type b) Bad));
    Ret (Type_mk (dual_type b))
  | TypeF_mk _ | TypeD_mk _ | TypeH_mk _ => Ret this
  | TypeInt_mk i => Ret (TypeInt_mk (TypeInt.xdual i))
  | TypeLong_mk l => Ret (TypeLong_mk (TypeLong.xdual l))
  | Ptr p => Ret (Ptr (TypePtr_xdual p))
  end.

(* ===================================================================== *)
(** ** The type table: [Type::hashcons] *)
(* ===================================================================== *)

(** A type object in the arena: its structural content and its [_dual]
    field (null until [hashcons] sets it). *)
Record TypeObj : Set := {
  content : Type_;
  _dual : option Z
}.

(** The state of a compilation that [hashcons] works on: the arena, as
    the objects at their addresses and the next free address, and the
    type dictionary.
    Modelled from the spec: [Dict] is defined in [libadt/dict.cpp], which
    is not part of the sources.  The table maps a structural-equality key
    to its canonical instance; key and value of an entry are the same
    pointer, so the model keeps the list of the inserted pointers and
    compares a key with them by [Type::equals]. *)
Record TypeTable : Type := {
  arena : gmap Z TypeObj;
  hwm : Z;
  tdic : list Z
}.

Definition empty_table : TypeTable :=
  {| arena := ∅; hwm := 1; tdic := [] |}.

(** The structural content of the object at an address. *)
Definition content_at (s : TypeTable) (p : Z) : option Type_ :=
  content <$> arena s !! p.

(** [Type::dual()]: the [_dual] field. *)
Definition dual (s : TypeTable) (p : Z) : option Z :=
  arena s !! p ≫= _dual.

(** [operator[]] of the dictionary: the entry whose key is [equals] to the
    key. *)
Definition Dict_lookup (s : TypeTable) (key : Type_) : option Z :=
  List.find (fun p =>
               match content_at s p with
               | Some c => Type_equals c key
               | None => false
               end) (tdic s).

(** [tdic->Insert(key, key, false)]: the pre-existing entry if there is
    one, and otherwise null after the key has been inserted. *)
Definition Dict_Insert (key : Z) (s : TypeTable) : option Z * TypeTable :=
  match content_at s key ≫= Dict_lookup s with
  | Some old => (Some old, s)
  | None =>
    (None, {| arena := arena s; hwm := hwm s; tdic := key :: tdic s |})
  end.

(** [new T(...)]: the arena hands out its next free address. *)
Definition alloc (o : TypeObj) (s : TypeTable) : Z * TypeTable :=
  (hwm s,
   {| arena := <[hwm s := o]> (arena s); hwm := hwm s + 1; tdic := tdic s |}).

(** [delete p]: the arena takes back the object allocated last. *)
Definition free (p : Z) (s : TypeTable) : TypeTable :=
  {| arena := delete p (arena s);
     hwm := if p =? hwm s - 1 then p else hwm s;
     tdic := tdic s |}.

(** [p->_dual = q] *)
Definition set_dual (p q : Z) (s : TypeTable) : TypeTable :=
  {| arena := alter (fun o => {| content := content o; _dual := Some q |}) p (arena s);
     hwm := hwm s;
     tdic := tdic s |}.

(** Does [xdual()] return [this] rather than a new object?
    ([TypeF::xdual], [TypeD::xdual], [TypeH::xdual]) *)
Definition xdual_returns_this (this : Type_) : bool :=
  match this with
  | TypeF_mk _ | TypeD_mk _ | TypeH_mk _ => true
  | _ => false
  end.

(** [(new T(...))->hashcons()], with [cand] the content of the new
    object. *)
Definition hashcons (cand : Type_) (s : TypeTable) : outcome (Z * TypeTable) :=
  let '(this, s0) := alloc {| content := cand; _dual := None |} s in
  (* Look up the Type in the Type dictionary *)
  match Dict_Insert this s0 with
  | (Some old, s1) =>
    (* Pre-existing Type? Yes, this guy is not the pre-existing? Nuke this guy *)
    let s2 := if negb (old =? this) then free this s1 else s1 in
    assert! (is_Some_b (dual s2 old));
    Ret (old, s2)
  | (None, s1) =>
    (* No dual yet *)
    assert! (negb (is_Some_b (dual s1 this)));
    (* Compute the dual *)
    do d <- xdual cand;
    let '(dual_p, s2) :=
      if xdual_returns_this cand then (this, s1)
      else alloc {| content := d; _dual := None |} s1 in
    let s3 := set_dual this dual_p s2 in
    if Type_equals cand d then
      (* Handle self-symmetric *)
      let s4 :=
        if negb (dual_p =? this) then set_dual this this (free dual_p s3)
        else s3 in
      Ret (this, s4)
    else
      (* No reverse dual yet *)
      assert! (negb (is_Some_b (dual s3 dual_p)));
      (* Dual not in type system either *)
      assert! (negb (is_Some_b (Dict_lookup s3 d)));
      (* New Type, insert into Type table *)
      let s4 := snd (Dict_Insert dual_p s3) in
      (* Finish up being symmetric *)
      let s5 := set_dual dual_p this s4 in
      (* xdual(xdual()) should be identity; dual_dual is deleted again *)
      do dual_dual <- xdual d;
      assert! (Type_equals cand dual_dual);
      Ret (this, s5)
  end.

(** The tables a compilation can reach: the empty one and the ones
    [hashcons] leaves behind. *)
Inductive reachable : TypeTable -> Prop :=
| reachable_empty : reachable empty_table
| reachable_hashcons s cand p s' :
    reachable s -> hashcons cand s = Ret (p, s') -> reachable s'.

(** [TypeInt::make(0, 1, w)] through the table: the factory builds the
    candidate and hash-conses it. *)
Definition make_int (lo hi widen : Z) (s : TypeTable) : outcome (Z * TypeTable) :=
  do i <- TypeInt.make lo hi widen;
  hashcons (TypeInt_mk i) s.

(* ===================================================================== *)
(** ** A small class hierarchy, for the examples *)
(* ===================================================================== *)

(** [Object] (1) has the subclasses [Base] (2) and the final [Leaf] (5);
    [Foo] (3) and [Bar] (4) extend [Base]; 100, 101 and 102 are
    interfaces; every other handle is a class that is not loaded. *)
Definition example_super (k : ciKlass) : option ciKlass :=
  if k =? 2 then Some 1
  else if k =? 3 then Some 2
  else if k =? 4 then Some 2
  else if k =? 5 then Some 1
  else None.

Fixpoint example_ancestors (fuel : nat) (k : ciKlass) : list ciKlass :=
  match fuel with
  | O => [k]
  | S fuel' =>
    match example_super k with
    | Some k' => k :: example_ancestors fuel' k'
    | None => [k]
    end
  end.

Definition example_env : ciEnv := {|
  Object_klass := 1;
  is_loaded := fun k => ((1 <=? k) && (k <=? 5)) || ((100 <=? k) && (k <=? 102));
  is_instance_klass := fun _ => true;
  is_interface := fun k => (100 <=? k) && (k <=? 102);
  is_final := fun k => k =? 5;
  is_subtype_of := fun a b => existsb (Z.eqb b) (example_ancestors 3 a);
  least_common_ancestor := fun a b =>
    match List.find (fun k => existsb (Z.eqb k) (example_ancestors 3 b))
                    (example_ancestors 3 a) with
    | Some k => k
    | None => 1
    end
|}.

(* ===================================================================== *)
(** ** The value set of a bounded integer *)
(* ===================================================================== *)

(** The three views of a bounded integer type, each as a condition on a
    value [v] of the signed type of [w] bits. *)
Definition in_signed_range (T : TypeInteger.t) (v : Z) : Prop :=
  TypeInteger._lo T <= v <= TypeInteger._hi T.

Definition in_unsigned_range (w : Z) (T : TypeInteger.t) (v : Z) : Prop :=
  TypeInteger._ulo T <= to_U w v <= TypeInteger._uhi T.

Definition satisfies_bits (w : Z) (T : TypeInteger.t) (v : Z) : Prop :=
  Z.land (to_U w v) (KnownBits._zeros (TypeInteger._bits T)) = 0 /\
  Z.land (to_U w v) (KnownBits._ones (TypeInteger._bits T)) =
    KnownBits._ones (TypeInteger._bits T).

(** The constraints of a prototype are contradictory when no value of the
    signed type lies in all three views. *)
Definition contradictory (w : Z) (t : TypeIntPrototype.t) : Prop :=
  forall v, in_S w v -> Canonicalize.contains w t v = false.

(* ===================================================================== *)
(** ** Float constants as numbers *)
(* ===================================================================== *)

(** The bits of a [jfloat], as [jint_cast] returns them: +0.0f and -0.0f. *)
Definition jfloat_pos_zero : Z := 0.
Definition jfloat_neg_zero : Z := -2147483648.

(** The number a finite [jfloat] stands for, scaled by [2^149] (which
    makes it an integer), from its IEEE 754 single-precision bits: sign
    bit 31, biased exponent in bits 30..23, fraction in bits 22..0.
    Infinities and NaNs have no number. *)
Definition jfloat_scaled_value (bits : Z) : option Z :=
  let u := to_U 32 bits in
  let sign := if Z.testbit u 31 then -1 else 1 in
  let e := Z.land (Z.shiftr u 23) 255 in
  let m := Z.land u (2 ^ 23 - 1) in
  if e =? 255 then None
  else if e =? 0 then Some (sign * m)
  else Some (sign * ((2 ^ 23 + m) * 2 ^ (e - 1))).

(* ===================================================================== *)
(** ** Inputs of the examples *)
(* ===================================================================== *)

(** The constant 7 and its dual. *)
Definition C4_primal_example : TypeInteger.t := TypeInt.make_con 7.
Definition C4_dual_example : TypeInteger.t := TypeInt.xdual (TypeInt.make_con 7).

(** The signed range [5,10] with the unsigned range that only holds 0,
    and the signed range [0,1] with unconstrained unsigned range and
    bits. *)
Definition C3_contradictory_example : TypeIntPrototype.t :=
  TypeIntPrototype.mk (RangeInt.mk 5 10) (RangeInt.mk 0 0) (KnownBits.mk 0 0).
Definition C3_consistent_example : TypeIntPrototype.t :=
  TypeIntPrototype.mk (RangeInt.mk 0 1) (RangeInt.mk 0 (max_U 32))
    (KnownBits.mk 0 0).

(** Two canonical interface sets. *)
Definition C9_example_S1 : list ciKlass := [100; 101; 103].
Definition C9_example_S2 : list ciKlass := [101; 102].

(** Pointers with speculative parts used as examples: a possibly-null
    pointer speculated to be non-null, a non-null pointer speculated
    possibly null, and two pointers with inline depths and no
    speculative part. *)
Definition speculated_not_null : TypePtr :=
  TypePtr_mk BotPTR 0 (Some (TypePtr_mk NotNull 0 None InlineDepthBottom))
    InlineDepthBottom.
Definition plain_not_null : TypePtr := TypePtr_mk NotNull 0 None InlineDepthBottom.
Definition speculated_bottom : TypePtr :=
  TypePtr_mk NotNull 0 (Some (TypePtr_mk BotPTR 0 None InlineDepthBottom))
    InlineDepthBottom.
Definition plain_bottom : TypePtr := TypePtr_mk BotPTR 0 None InlineDepthBottom.
Definition at_depth_3 : TypePtr := TypePtr_mk NotNull 0 None 3.
Definition at_depth_7 : TypePtr := TypePtr_mk BotPTR 8 None 7.

(** Two instance pointers of the example hierarchy: a non-null [Foo]
    implementing the interfaces 100 and 101, and a non-null [Bar]
    implementing 101 and 102. *)
Definition example_foo : TypePtr :=
  TypeInstPtr_mk NotNull 3 [100; 101] false None 0 InstanceBot None
    InlineDepthBottom.
Definition example_bar : TypePtr :=
  TypeInstPtr_mk NotNull 4 [101; 102] false None 0 InstanceBot None
    InlineDepthBottom.
Definition example_base : TypePtr :=
  TypeInstPtr_mk NotNull 2 [] false None 0 InstanceBot None InlineDepthBottom.

(* ===================================================================== *)
(** ** The invariant of the type table *)
(* ===================================================================== *)

(** What [hashcons] keeps true of the table: the arena holds no object at
    or above its next free address; the objects of the arena are the
    entries of the dictionary; the [_dual] of every object is an object
    that holds the [xdual()] of the first and whose [_dual] is the first;
    no two objects have the same content. *)
Record table_ok (s : TypeTable) : Prop := {
  ok_below_hwm : forall p, is_Some (arena s !! p) -> p < hwm s;
  ok_canonical : forall p, p ∈ tdic s <-> is_Some (arena s !! p);
  ok_dual : forall p o, arena s !! p = Some o ->
    exists q d, _dual o = Some q /\
      arena s !! q = Some {| content := d; _dual := Some p |} /\
      xdual (content o) = Ret d;
  ok_unique : forall p q o1 o2,
    arena s !! p = Some o1 -> arena s !! q = Some o2 ->
    content o1 = content o2 -> p = q
}.

(** The table [hashcons] leaves behind when the candidate is new and is
    its own dual, and when it is new and has another dual [d]. *)
Definition table_with_self_dual (cand : Type_) (s : TypeTable) : TypeTable :=
  {| arena := <[hwm s := {| content := cand; _dual := Some (hwm s) |}]> (arena s);
     hwm := hwm s + 1;
     tdic := hwm s :: tdic s |}.

Definition table_with_pair (cand d : Type_) (s : TypeTable) : TypeTable :=
  {| arena := <[hwm s + 1 := {| content := d; _dual := Some (hwm s) |}]>
                (<[hwm s := {| content := cand; _dual := Some (hwm s + 1) |}]>
                   (arena s));
     hwm := hwm s + 2;
     tdic := (hwm s + 1) :: hwm s :: tdic s |}.

(** The table after [TypeInt::make(0, 1, WidenMin)] on the empty table,
    and the object it returns. *)
Definition example_table : TypeTable :=
  match make_int 0 1 WidenMin empty_table with
  | Ret (_, s) => s
  | Abort _ => empty_table
  end.

Definition example_zero_one : Z :=
  match make_int 0 1 WidenMin empty_table with
  | Ret (p, _) => p
  | Abort _ => 0
  end.

(* ===================================================================== *)
(** ** Predicates used in the statements *)
(* ===================================================================== *)

(** The bits of [u] below position [n] agree with the known bits. *)
Definition bits_ok (zeros ones n u : Z) : Prop :=
  forall i, 0 <= i < n ->
    (Z.testbit zeros i = true -> Z.testbit u i = false) /\
    (Z.testbit ones i = true -> Z.testbit u i = true).

(** The fields of a prototype hold values of [S] and of [U]. *)
Definition well_typed (w : Z) (t : TypeIntPrototype.t) : Prop :=
  in_U w (KnownBits._zeros (TypeIntPrototype._bits t)) /\
  in_U w (KnownBits._ones (TypeIntPrototype._bits t)).

(** An interface set is canonical when its array is in increasing order
    of the handles, which excludes duplicates: [TypeInterfaces::verify]. *)
Definition sorted_lt (l : list ciKlass) : Prop := StronglySorted Z.lt l.

(** What an inner loop of [union_with] leaves: it has moved a prefix of
    [this] into the result, every member of the prefix is below the
    current interface of [other], and the loop stops at the end of
    [this] or at an interface that is not below that of [other]. *)
Definition below_head (k : ciKlass) (other : list ciKlass) : Prop :=
  match other with
  | [] => True
  | k' :: _ => k < k'
  end.

Definition stops_at (this1 other : list ciKlass) : Prop :=
  match this1, other with
  | [], _ => True
  | _ :: _, [] => False
  | k :: _, k' :: _ => k' <= k
  end.


(* ===================================================================== *)
(** ** Parts of the lattice *)
(* ===================================================================== *)

(** The floating-point part of the lattice: the float, double and
    half-float constants, the top and the bottom of each of the three
    families ([FloatTop]/[FLOAT], ...), and [TOP] and [BOTTOM]. *)
Definition is_floating_or_extreme (t : Type_) : bool :=
  match t with
  | Type_mk (Top | Bottom | FloatTop | FloatBot | DoubleTop | DoubleBot
             | HalfFloatTop | HalfFloatBot) => true
  | TypeF_mk _ | TypeD_mk _ | TypeH_mk _ => true
  | _ => false
  end.

(* ===================================================================== *)
(** ** The meet of a build with [ASSERT]: [check_symmetrical] *)
(* ===================================================================== *)

(** [fatal(...)] does not return. *)
Definition fatal {A} : outcome A := Abort ShouldNotReachHere.

Section VerifiedMeet.

Variable env : ciEnv.

(** The meet that [xmeet_speculative] calls for two speculative parts. *)
Variable meet : TypePtr -> TypePtr -> outcome Type_.

(** [VerifyMeet::meet(t1, t2)]: [t1->xmeet(t2)], through the cache of
    [VerifyMeetResult], which returns for a pair of types the result
    that [xmeet] has computed for that pair before. *)
Definition VerifyMeet_meet (t1 t2 : Type_) : outcome Type_ :=
  xmeet env meet t1 t2.

(** [Type::check_symmetrical(const Type* t, const Type* mt, const VerifyMeet& verify)];
    the [_dual] of a canonical type is the canonical instance of its
    [xdual()]. *)
Definition check_symmetrical (this t mt : Type_) : outcome unit :=
  do mt2 <- VerifyMeet_meet t this;
  if negb (same_type mt mt2) then fatal (* meet not commutative *)
  else
    do dual_join <- xdual mt;
    do t_dual <- xdual t;
    do t2t <- VerifyMeet_meet dual_join t_dual;
    do this_dual <- xdual this;
    do t2this <- VerifyMeet_meet dual_join this_dual;
    if negb (same_type t2t t_dual) || negb (same_type t2this this_dual)
    then fatal (* meet not symmetric *)
    else Ret tt.

(** The part of [Type::meet_helper] after the speculative parts have
    been dealt with, with the code under [#ifdef ASSERT]. *)
Definition verified_xmeet (this_t t : Type_) : outcome Type_ :=
  do mt <- xmeet env meet this_t t;
  do _ <- check_symmetrical this_t t mt;
  do this_dual <- xdual this_t;
  do t_dual <- xdual t;
  do mt_dual <- VerifyMeet_meet this_dual t_dual;
  do _ <- check_symmetrical this_dual t_dual mt_dual;
  Ret mt.

End VerifiedMeet.

(** [this_spec->meet(other_spec)] in a build with [ASSERT]: the two
    speculative parts lose their own speculative parts, so that their
    [xmeet], and the [xmeet]s of [check_symmetrical], ask for no further
    meet of speculative parts. *)
Definition verified_meet_of_speculative (env : ciEnv)
    (this_spec other_spec : TypePtr) : outcome Type_ :=
  do this_t <- remove_speculative env this_spec;
  do t <- remove_speculative env other_spec;
  verified_xmeet env (fun _ _ => outside_embedding) (Ptr this_t) (Ptr t).

(** [Type::meet_helper(const Type* t, bool include_speculative)], as
    compiled with [ASSERT]. *)
Definition meet_helper_verified (env : ciEnv) (this t : Type_)
    (include_speculative : bool) : outcome Type_ :=
  do this_t <- maybe_remove_speculative env this include_speculative;
  do t' <- maybe_remove_speculative env t include_speculative;
  verified_xmeet env (verified_meet_of_speculative env) this_t t'.

(** A call refines another when every result it returns is returned by
    the other (which may return where the first stops at a check). *)
Definition refines {A} (o1 o2 : outcome A) : Prop :=
  forall r, o1 = Ret r -> o2 = Ret r.

(* ===================================================================== *)
(** ** Adding an offset to a pointer *)
(* ===================================================================== *)

(** The value of a [w]-bit signed integer with the low [w] bits of [v]:
    the conversion to [int] ([w = 32]) and the arithmetic of [intptr_t]
    ([w = 64]). *)
Definition to_S (w : Z) (v : Z) : Z := (v + 2 ^ (w - 1)) mod 2 ^ w - 2 ^ (w - 1).

(** [TypePtr::xadd_offset(intptr_t offset)] *)
Definition xadd_offset (this : TypePtr) (offset' : Z) : Z :=
  (* Adding to 'TOP' offset?  Return 'TOP'! *)
  if (offset this =? OffsetTop) || (offset' =? OffsetTop) then OffsetTop
  (* Adding to 'BOTTOM' offset?  Return 'BOTTOM'! *)
  else if (offset this =? OffsetBot) || (offset' =? OffsetBot) then OffsetBot
  else
    (* Addition overflows or "accidentally" equals to OffsetTop? Return 'BOTTOM'! *)
    let offset'' := to_S 64 (offset' + offset this) in
    if negb (offset'' =? to_S 32 offset'') || (offset'' =? OffsetTop)
    then OffsetBot
    else to_S 32 offset''.

(** [TypePtr::add_offset(intptr_t offset)], of class [TypePtr] itself. *)
Definition TypePtr_add_offset (this : TypePtr) (offset' : Z) : TypePtr :=
  TypePtr_make (ptr this) (xadd_offset this offset') (speculative this)
    (inline_depth this).

(** [TypeRawPtr::make(address bits)] *)
Definition TypeRawPtr_make_bits (bits : Z) : outcome TypePtr :=
  assert! (negb (bits =? 0));
  Ret (TypeRawPtr_mk Constant bits).

(** The [_bits] of a raw pointer. *)
Definition raw_bits (this : TypePtr) : Z :=
  match this with
  | TypeRawPtr_mk _ bits => bits
  | _ => 0
  end.

(** [TypeRawPtr::add_offset(intptr_t offset)] *)
Definition TypeRawPtr_add_offset (this : TypePtr) (offset' : Z) : outcome TypePtr :=
  if offset' =? OffsetTop then Ret TypeRawPtr_BOTTOM (* Undefined offset-> undefined pointer *)
  else if offset' =? OffsetBot then Ret TypeRawPtr_BOTTOM (* Unknown offset-> unknown pointer *)
  else if offset' =? 0 then Ret this (* No change *)
  else
    match ptr this with
    | TopPTR | BotPTR | NotNull => Ret this
    | Constant =>
      let bits := to_U 64 (raw_bits this) in
      let sum := to_U 64 (bits + to_U 64 offset') in
      if (if offset' <? 0
          then bits <? sum          (* Underflow? *)
          else sum <? bits)         (* Overflow? *)
      then Ret TypeRawPtr_BOTTOM
      else if sum =? 0 then Ret TypePtr_NULL_PTR
      else TypeRawPtr_make_bits sum
    | _ => Abort ShouldNotReachHere
    end.

(* ===================================================================== *)
(** ** Where the meet is commutative *)
(* ===================================================================== *)

(** The types whose [xmeet] is part of the sources: the objects of class
    [Type] itself, which carry the tags that [Type::Initialize_shared]
    makes ([Control], [Top], [Memory], [Abio], [Return_Address],
    [FloatBot], [HalfFloatBot], [DoubleBot], [Bottom], [Half]) and the
    duals of these tags, the float, double and half-float constants, and
    the pointers. *)
Definition has_xmeet_in_sources (t : Type_) : bool :=
  match t with
  | Type_mk (Control | Top | Memory | Abio | Return_Address | Half | Bottom
             | FloatBot | HalfFloatBot | DoubleBot
             | FloatTop | HalfFloatTop | DoubleTop) => true
  | Type_mk _ => false
  | TypeInt_mk _ | TypeLong_mk _ => false
  | _ => true
  end.

(** The pairs for which the [xmeet] of [this] has no case for the tag of
    [t] while the [xmeet] of [t] has one for the tag of [this]: the top
    or the bottom of a floating-point family against an [AnyPtr]
    ([Type::xmeet] has no case [AnyPtr]), and a raw pointer against a
    floating-point constant ([TypeRawPtr::xmeet] has no case [FloatCon],
    [DoubleCon] or [HalfFloatCon]). *)
Definition asymmetric_pair (this t : Type_) : bool :=
  match this, base t with
  | Type_mk (FloatBot | HalfFloatBot | DoubleBot
             | FloatTop | HalfFloatTop | DoubleTop), AnyPtr => true
  | Ptr (TypeRawPtr_mk _ _), (FloatCon | DoubleCon | HalfFloatCon) => true
  | _, _ => false
  end.

(** Two instance pointers: their meet asks the class hierarchy. *)
Definition both_instances (this t : Type_) : bool :=
  match this, t with
  | Ptr p, Ptr q => is_instance_type p && is_instance_type q
  | _, _ => false
  end.

(** A type without speculative part, and an outcome that is one. *)
Definition no_speculative (t : Type_) : Prop :=
  forall p, t = Ptr p -> speculative p = None.

Definition returns_no_speculative (o : outcome Type_) : Prop :=
  forall r, o = Ret r -> no_speculative r.

(** What the meet of two instance pointers asks of the class hierarchy,
    at the classes [k1] and [k2] of the two pointers: [Object] is loaded
    and is an ancestor of both classes when they are loaded, two classes
    that are subtypes of each other are the same class, and the least
    common ancestor does not depend on the order. *)
Record hierarchy_ok (env : ciEnv) (k1 k2 : ciKlass) : Prop := {
  Object_is_loaded : is_loaded env (Object_klass env) = true;
  Object_above_first :
    is_loaded env k1 = true -> is_subtype_of env k1 (Object_klass env) = true;
  Object_above_second :
    is_loaded env k2 = true -> is_subtype_of env k2 (Object_klass env) = true;
  subtype_antisymmetric :
    is_subtype_of env k1 k2 = true -> is_subtype_of env k2 k1 = true -> k1 = k2;
  lca_symmetric :
    least_common_ancestor env k1 k2 = least_common_ancestor env k2 k1
}.

(** An outcome that, when it is a type, is a pointer whose [ptr] is at or
    below [q] in the order of [ptr_meet]. *)
Definition result_below (q : PTR) (o : outcome Type_) : Prop :=
  forall r, o = Ret r -> exists p, r = Ptr p /\ ptr_meet (ptr p) q = ptr p.

(* ===================================================================== *)
(** ** Casts of an instance pointer *)
(* ===================================================================== *)

(** [TypeInstPtr::cast_to_exactness(bool klass_is_exact)] *)
Definition TypeInstPtr_cast_to_exactness (env : ciEnv) (this : TypePtr)
    (klass_is_exact' : bool) : outcome TypePtr :=
  if Bool.eqb klass_is_exact' (klass_is_exact this) then Ret this
  else if negb (is_loaded env (klass env this)) then Ret this
  else if is_final env (klass env this) || is_Some_b (const_oop this)
  then Ret this (* cannot clear xk *)
  else
    assert! (negb (is_interface env (klass env this)));
    TypeInstPtr_make env (ptr this) (klass env this) (interfaces this)
      klass_is_exact' (const_oop this) (offset this) (instance_id this)
      (speculative this) (inline_depth this).

(** An instance pointer as [TypeInstPtr::make] leaves it: [make] on its
    fields returns it. *)
Definition made_by_make (env : ciEnv) (this : TypePtr) : Prop :=
  is_instance_type this = true /\
  TypeInstPtr_make env (ptr this) (klass env this) (interfaces this)
    (klass_is_exact this) (const_oop this) (offset this) (instance_id this)
    (speculative this) (inline_depth this) = Ret this.

(* ===================================================================== *)
(** ** Singletons and empty types *)
(* ===================================================================== *)

(** [Type::singleton()], for an object of class [Type] itself. *)
Definition Type_singleton (_base : TYPES) : bool :=
  TYPES_eqb _base Top || TYPES_eqb _base Half.

(** [Type::empty()], for an object of class [Type] itself. *)
Definition Type_empty (_base : TYPES) : outcome bool :=
  match _base with
  | DoubleTop | FloatTop | HalfFloatTop | Top => Ret true
  | Half | Abio | Return_Address | Memory | Bottom
  | HalfFloatBot | FloatBot | DoubleBot =>
    Ret false  (* never a singleton, therefore never empty *)
  | _ => Abort ShouldNotReachHere
  end.

(** [TypePtr::singleton()] *)
Definition TypePtr_singleton (this : TypePtr) : bool :=
  (* TopPTR, Null, AnyNull, Constant are all singletons *)
  negb (offset this =? OffsetBot) && negb (below_centerline (ptr this)).

(** [TypePtr::empty()] *)
Definition TypePtr_empty (this : TypePtr) : bool :=
  (offset this =? OffsetTop) || above_centerline (ptr this).

(** [TypeOopPtr::singleton()] *)
Definition TypeOopPtr_singleton (this : TypePtr) : bool :=
  (offset this =? 0) && negb (below_centerline (ptr this)).

(** The virtual call [t->singleton()]: [TypeF], [TypeD] and [TypeH]
    return [true], [TypeInt] and [TypeLong] compare their bounds,
    [TypeRawPtr] inherits [TypePtr::singleton] and [TypeInstPtr] inherits
    [TypeOopPtr::singleton]. *)
Definition singleton (t : Type_) : bool :=
  match t with
  | Type_mk b => Type_singleton b
  | TypeF_mk _ | TypeD_mk _ | TypeH_mk _ => true
  | TypeInt_mk i | TypeLong_mk i => TypeInteger._lo i =? TypeInteger._hi i
  | Ptr (TypePtr_mk _ _ _ _ as p) | Ptr (TypeRawPtr_mk _ _ as p) =>
    TypePtr_singleton p
  | Ptr p => TypeOopPtr_singleton p
  end.

(** The virtual call [t->empty()]: [TypeF], [TypeD], [TypeH], [TypeInt]
    and [TypeLong] return [false], and every pointer class of the
    embedding inherits [TypePtr::empty]. *)
Definition empty (t : Type_) : outcome bool :=
  match t with
  | Type_mk b => Type_empty b
  | TypeF_mk _ | TypeD_mk _ | TypeH_mk _ => Ret false
  | TypeInt_mk _ | TypeLong_mk _ => Ret false
  | Ptr p => Ret (TypePtr_empty p)
  end.

(** A type that stands for one value: [singleton()] holds and [empty()]
    returns [false]. *)
Definition is_constant_type (t : Type_) : Prop :=
  singleton t = true /\ empty t = Ret false.

(** The meet is associative at [a], [b] and [c]: the four meets return,
    and [(a meet b) meet c] is [a meet (b meet c)]. *)
Definition associative_at (env : ciEnv) (a b c : Type_) : Prop :=
  exists ab bc r,
    meet_helper env a b false = Ret ab /\
    meet_helper env b c false = Ret bc /\
    meet_helper env ab c false = Ret r /\
    meet_helper env a bc false = Ret r.

(* ===================================================================== *)
(** ** The speculative part and the inline depth of a pointer meet *)
(* ===================================================================== *)

(** [this->xmeet(other)] computes the meet of the two pointers in
    [this]'s own [xmeet_helper] when the class of [this] is the class of
    [other] or derived from it; in the other order the helper flips the
    call around ([return t->xmeet(this)]).  A raw pointer overrides
    [xmeet] and is not counted here. *)
Definition calls_directly (this other : TypePtr) : bool :=
  match this, other with
  | TypePtr_mk _ _ _ _, TypePtr_mk _ _ _ _ => true
  | TypeOopPtr_mk _ _ _ _ _, (TypePtr_mk _ _ _ _ | TypeOopPtr_mk _ _ _ _ _) => true
  | TypeInstPtr_mk _ _ _ _ _ _ _ _ _,
    (TypePtr_mk _ _ _ _ | TypeOopPtr_mk _ _ _ _ _
     | TypeInstPtr_mk _ _ _ _ _ _ _ _ _) => true
  | _, _ => false
  end.

(** Two instance pointers are of loaded classes (other pairs of pointers
    do not ask). *)
Definition both_loaded (env : ciEnv) (this other : TypePtr) : Prop :=
  is_instance_type this = true -> is_instance_type other = true ->
  is_loaded env (klass env this) = true /\ is_loaded env (klass env other) = true.

(** What [xmeet_helper] builds for [this] and [other]: a pointer whose
    speculative part is what [xmeet_speculative] returned and, for loaded
    classes, whose inline depth is the greater of the two. *)
Definition built_by_helper (env : ciEnv)
    (m : TypePtr -> TypePtr -> outcome Type_)
    (this other : TypePtr) (res : Type_) : Prop :=
  exists p spec,
    res = Ptr p /\ xmeet_speculative m this other = Ret spec /\
    speculative p = spec /\
    (both_loaded env this other ->
     inline_depth p = Z.max (inline_depth this) (inline_depth other)).

(** What [TypePtr::xmeet] returns for it: the same, but a speculative
    part equal to the pointer without it is gone. *)
Definition built_by_xmeet (env : ciEnv)
    (m : TypePtr -> TypePtr -> outcome Type_)
    (this other : TypePtr) (r : Type_) : Prop :=
  exists p spec,
    r = Ptr p /\ xmeet_speculative m this other = Ret spec /\
    (speculative p = spec \/ (spec = Some p /\ speculative p = None)) /\
    (both_loaded env this other ->
     inline_depth p = Z.max (inline_depth this) (inline_depth other)).

(** [Object] speculated to be exactly a [Foo], [Object] without a guess,
    and two instance pointers with inline depths: one of a class that is
    not loaded, and [Object] at the top of the nullness lattice. *)
Definition exact_foo : TypePtr :=
  TypeInstPtr_mk NotNull 3 [] true None 0 InstanceBot None InlineDepthBottom.
Definition plain_object : TypePtr :=
  TypeInstPtr_mk NotNull 1 [] false None 0 InstanceBot None InlineDepthBottom.
Definition object_speculated_foo : TypePtr :=
  TypeInstPtr_mk NotNull 1 [] false None 0 InstanceBot (Some exact_foo)
    InlineDepthBottom.
Definition unloaded_at_3 : TypePtr :=
  TypeInstPtr_mk NotNull 9 [] false None 0 InstanceBot None 3.
Definition object_top_at_7 : TypePtr :=
  TypeInstPtr_mk TopPTR 1 [] false None 0 InstanceBot None 7.
(* ===================================================================== *)
(** * Part II: facts about the embedding *)
(* ===================================================================== *)

(** ** Outcomes and tags *)

Lemma bind_Ret_inv {A B} (m : outcome A) (k : A -> outcome B) b :
  bind m k = Ret b -> exists a, m = Ret a /\ k a = Ret b.
Proof. destruct m as [a|f]; simpl; [eauto | discriminate]. Qed.

Lemma debug_assert_Ret_inv c u : debug_assert c = Ret u -> c = true.
Proof. destruct c; [reflexivity | discriminate]. Qed.

Lemma TYPES_eqb_eq a b : TYPES_eqb a b = true <-> a = b.
Proof. unfold TYPES_eqb. destruct (TYPES_eq_dec a b); split; congruence. Qed.

Lemma PTR_eqb_eq a b : PTR_eqb a b = true <-> a = b.
Proof. unfold PTR_eqb. destruct (PTR_eq_dec a b); split; congruence. Qed.

(* ===================================================================== *)
(** ** Bounded integers: the emptiness test is exact *)
(* ===================================================================== *)

(** Bits of sums with a power of two. *)

Lemma testbit_above_pow2 (u n i : Z) :
  0 <= n -> 0 <= u < 2 ^ n -> n <= i -> Z.testbit u i = false.
Proof.
  intros Hn Hu Hi.
  rewrite <- (Z.mod_small u (2 ^ n)) by lia.
  apply Z.mod_pow2_bits_high. lia.
Qed.

Lemma testbit_add_pow2_high (u n : Z) :
  0 <= n -> 0 <= u < 2 ^ n -> Z.testbit (u + 2 ^ n) n = true.
Proof.
  intros Hn Hu.
  apply Z.testbit_true; [lia|].
  replace (u + 2 ^ n) with (u + 1 * 2 ^ n) by lia.
  rewrite Z.div_add by lia.
  rewrite Z.div_small by lia. reflexivity.
Qed.

Lemma testbit_add_pow2_low (u n i : Z) :
  0 <= i < n -> Z.testbit (u + 2 ^ n) i = Z.testbit u i.
Proof.
  intros Hi.
  rewrite <- (Z.mod_pow2_bits_low (u + 2 ^ n) n i) by lia.
  rewrite <- (Z.mod_pow2_bits_low u n i) by lia.
  replace (u + 2 ^ n) with (u + 1 * 2 ^ n) by lia.
  rewrite Z.mod_add by lia. reflexivity.
Qed.

Lemma testbit_false_below_pow2 (u n : Z) :
  0 <= n -> 0 <= u < 2 * 2 ^ n -> Z.testbit u n = false -> u < 2 ^ n.
Proof.
  intros Hn Hu Hb.
  destruct (Z_lt_ge_dec u (2 ^ n)) as [Hlt|Hge]; [exact Hlt|].
  exfalso.
  pose proof (testbit_add_pow2_high (u - 2 ^ n) n Hn) as Ht.
  replace (u - 2 ^ n + 2 ^ n) with u in Ht by lia.
  rewrite Ht in Hb by lia. discriminate.
Qed.


Module CanonicalizeFacts.
Import Canonicalize.

Lemma bits_ok_weaken zeros ones n m u :
  m <= n -> bits_ok zeros ones n u -> bits_ok zeros ones m u.
Proof. intros Hmn H i Hi. apply H. lia. Qed.

Lemma find_sat_spec zeros ones (n : nat) :
  forall a b,
    find_sat zeros ones n a b = true <->
    exists u, 0 <= u < 2 ^ Z.of_nat n /\ a <= u <= b /\
              bits_ok zeros ones (Z.of_nat n) u.
Proof.
  induction n as [|n IH]; intros a b.
  - cbn [find_sat]. change (2 ^ Z.of_nat 0) with 1.
    destruct ((b <? a) || (b <? 0) || (1 - 1 <? a)) eqn:Hp.
    + split; [discriminate|].
      intros (u & Hu & Hab & _).
      exfalso.
      apply orb_true_iff in Hp as [Hp|Hp];
        [apply orb_true_iff in Hp as [Hp|Hp]|]; apply Z.ltb_lt in Hp; lia.
    + split; [intros _|reflexivity].
      apply orb_false_iff in Hp as [Hp H3].
      apply orb_false_iff in Hp as [H1 H2].
      apply Z.ltb_ge in H1, H2, H3.
      exists 0. split; [lia|]. split; [lia|].
      intros i Hi. lia.
  - cbn [find_sat].
    rewrite Nat2Z.inj_succ, Z.pow_succ_r by lia.
    set (h := 2 ^ Z.of_nat n) in *.
    assert (Hh : 0 < h) by (apply Z.pow_pos_nonneg; lia).
    destruct ((b <? a) || (b <? 0) || (2 * h - 1 <? a)) eqn:Hp.
    + split; [discriminate|].
      intros (u & Hu & Hab & _). exfalso.
      apply orb_true_iff in Hp as [Hp|Hp];
        [apply orb_true_iff in Hp as [Hp|Hp]|]; apply Z.ltb_lt in Hp; lia.
    + clear Hp. split.
      * intros Hf.
        destruct (Z.testbit ones (Z.of_nat n)) eqn:Ho.
        -- (* the top bit must be 1 *)
           destruct (Z.testbit zeros (Z.of_nat n)) eqn:Hz; [discriminate|].
           apply IH in Hf as (u & Hu & Hab & Hok).
           exists (u + h). split; [lia|]. split; [lia|].
           intros i Hi.
           destruct (Z.eq_dec i (Z.of_nat n)) as [->|Hne].
           ++ unfold h. rewrite testbit_add_pow2_high by lia.
              split; congruence.
           ++ unfold h. rewrite testbit_add_pow2_low by lia.
              apply Hok. lia.
        -- destruct (find_sat zeros ones n a b) eqn:H0.
           ++ apply IH in H0 as (u & Hu & Hab & Hok).
              exists u. split; [lia|]. split; [lia|].
              intros i Hi.
              destruct (Z.eq_dec i (Z.of_nat n)) as [->|Hne].
              ** rewrite (testbit_above_pow2 u (Z.of_nat n)) by (fold h; lia).
                 split; congruence.
              ** apply Hok. lia.
           ++ destruct (Z.testbit zeros (Z.of_nat n)) eqn:Hz; [discriminate|].
              apply IH in Hf as (u & Hu & Hab & Hok).
              exists (u + h). split; [lia|]. split; [lia|].
              intros i Hi.
              destruct (Z.eq_dec i (Z.of_nat n)) as [->|Hne].
              ** unfold h. rewrite testbit_add_pow2_high by lia.
                 split; congruence.
              ** unfold h. rewrite testbit_add_pow2_low by lia.
                 apply Hok. lia.
      * intros (u & Hu & Hab & Hok).
        destruct (Z.testbit u (Z.of_nat n)) eqn:Hb.
        -- (* the witness has its top bit set *)
           assert (Hge : h <= u).
           { destruct (Z_lt_ge_dec u h) as [Hlt|Hge]; [|lia].
             rewrite (testbit_above_pow2 u (Z.of_nat n)) in Hb
               by (fold h; lia). discriminate. }
           assert (Hz : Z.testbit zeros (Z.of_nat n) = false).
           { destruct (Z.testbit zeros (Z.of_nat n)) eqn:Hz; [|reflexivity].
             destruct (Hok (Z.of_nat n)) as [Hk _]; [lia|].
             rewrite (Hk Hz) in Hb. discriminate. }
           assert (H1 : find_sat zeros ones n (a - h) (b - h) = true).
           { apply IH. exists (u - h). split; [lia|]. split; [lia|].
             intros i Hi.
             rewrite <- (testbit_add_pow2_low (u - h) (Z.of_nat n) i) by lia.
             fold h. replace (u - h + h) with u by lia.
             apply Hok. lia. }
           rewrite Hz, H1.
           destruct (if Z.testbit ones (Z.of_nat n) then false
                     else find_sat zeros ones n a b); reflexivity.
        -- assert (Hlt : u < h).
           { apply testbit_false_below_pow2; [lia| fold h; lia | exact Hb]. }
           assert (Ho : Z.testbit ones (Z.of_nat n) = false).
           { destruct (Z.testbit ones (Z.of_nat n)) eqn:Ho; [|reflexivity].
             destruct (Hok (Z.of_nat n)) as [_ Hk]; [lia|].
             rewrite (Hk Ho) in Hb. discriminate. }
           assert (H0 : find_sat zeros ones n a b = true).
           { apply IH. exists u. split; [lia|]. split; [lia|].
             eapply bits_ok_weaken; [|exact Hok]. lia. }
           rewrite Ho, H0. reflexivity.
Qed.

Lemma is_satisfied_by_bits_ok w zeros ones u :
  0 <= w -> 0 <= u < 2 ^ w -> 0 <= ones < 2 ^ w ->
  KnownBits.is_satisfied_by (KnownBits.mk zeros ones) u = true <->
  bits_ok zeros ones w u.
Proof.
  intros Hw Hu Ho. unfold KnownBits.is_satisfied_by. cbn.
  rewrite andb_true_iff, !Z.eqb_eq. split.
  - intros [Hz H1] i Hi. split; intros Hb.
    + assert (E : Z.testbit (Z.land u zeros) i = false)
        by (rewrite Hz; apply Z.bits_0).
      rewrite Z.land_spec, Hb, andb_true_r in E. exact E.
    + assert (E : Z.testbit (Z.land u ones) i = true) by (rewrite H1; exact Hb).
      rewrite Z.land_spec, Hb, andb_true_r in E. exact E.
  - intros Hok. split; apply Z.bits_inj'; intros i Hi;
      rewrite Z.land_spec.
    + rewrite Z.bits_0.
      destruct (Z_lt_ge_dec i w) as [Hlt|Hge].
      * destruct (Hok i) as [Hz _]; [lia|].
        destruct (Z.testbit zeros i); [rewrite Hz by reflexivity|];
          [reflexivity| apply andb_false_r].
      * rewrite (testbit_above_pow2 u w i) by lia. reflexivity.
    + destruct (Z_lt_ge_dec i w) as [Hlt|Hge].
      * destruct (Hok i) as [_ H1]; [lia|].
        destruct (Z.testbit ones i); [rewrite H1 by reflexivity|];
          [reflexivity| apply andb_false_r].
      * rewrite (testbit_above_pow2 u w i), (testbit_above_pow2 ones w i) by lia.
        reflexivity.
Qed.

Lemma is_satisfied_by_consistent b u :
  KnownBits.is_satisfied_by b u = true ->
  Z.land (KnownBits._zeros b) (KnownBits._ones b) = 0.
Proof.
  unfold KnownBits.is_satisfied_by.
  rewrite andb_true_iff, !Z.eqb_eq. intros [Hz H1].
  rewrite <- H1, Z.land_assoc, (Z.land_comm _ u), Hz. reflexivity.
Qed.

Lemma pow2_double w : 0 < w -> 2 ^ w = 2 * 2 ^ (w - 1).
Proof.
  intros Hw. replace w with (Z.succ (w - 1)) at 1 by lia.
  apply Z.pow_succ_r. lia.
Qed.

Lemma to_U_nonneg w v : 0 < w -> 0 <= v <= max_S w -> to_U w v = v.
Proof.
  unfold to_U, max_S. intros Hw Hv. pose proof (pow2_double w Hw).
  apply Z.mod_small. lia.
Qed.

Lemma to_U_neg w v : 0 < w -> min_S w <= v < 0 -> to_U w v = v + 2 ^ w.
Proof.
  unfold to_U, min_S. intros Hw Hv. pose proof (pow2_double w Hw).
  replace v with (v + 2 ^ w + (-1) * 2 ^ w) at 1 by lia.
  rewrite Z.mod_add by lia. apply Z.mod_small. lia.
Qed.

(** The emptiness test of the model is exact. *)
Lemma nonempty_spec w t :
  0 < w -> well_typed w t ->
  nonempty w t = true <-> exists v, in_S w v /\ contains w t v = true.
Proof.
  intros Hw [_ Hones]. pose proof (pow2_double w Hw) as Hd.
  assert (Hp : 0 < 2 ^ (w - 1)) by (apply Z.pow_pos_nonneg; lia).
  unfold nonempty, contains, in_S, in_U, min_S, max_S, max_U in *.
  destruct t as [[lo hi] [ulo uhi] [zeros ones]]. cbn in *.
  split.
  - destruct (Z.land zeros ones =? 0); [|discriminate].
    destruct (find_sat zeros ones (Z.to_nat w) _ _) eqn:H0.
    + intros _. apply find_sat_spec in H0 as (u & Hu & Hab & Hok).
      rewrite Z2Nat.id in Hu, Hok by lia.
      exists u. split; [lia|].
      rewrite to_U_nonneg by (unfold max_S; lia).
      apply (is_satisfied_by_bits_ok w zeros ones u) in Hok; [|lia|lia|lia].
      rewrite Hok, andb_true_r, !andb_true_iff, !Z.leb_le. lia.
    + intros H1. apply find_sat_spec in H1 as (u & Hu & Hab & Hok).
      rewrite Z2Nat.id in Hu, Hok by lia.
      exists (u - 2 ^ w). split; [lia|].
      rewrite to_U_neg by (unfold min_S; lia).
      replace (u - 2 ^ w + 2 ^ w) with u by lia.
      apply (is_satisfied_by_bits_ok w zeros ones u) in Hok; [|lia|lia|lia].
      rewrite Hok, andb_true_r, !andb_true_iff, !Z.leb_le. lia.
  - intros (v & Hv & Hc).
    rewrite !andb_true_iff, !Z.leb_le in Hc.
    destruct Hc as ((((Hlo & Hhi) & Hulo) & Huhi) & Hsat).
    pose proof (is_satisfied_by_consistent _ _ Hsat) as Hcons.
    cbn in Hcons. rewrite Hcons. cbn [Z.eqb].
    destruct (Z_lt_ge_dec v 0) as [Hneg|Hpos].
    + rewrite to_U_neg in * by (unfold min_S; lia).
      destruct (find_sat zeros ones (Z.to_nat w) _ _); [reflexivity|].
      apply find_sat_spec. rewrite Z2Nat.id by lia.
      exists (v + 2 ^ w). split; [lia|]. split; [lia|].
      apply is_satisfied_by_bits_ok; [lia|lia|lia|exact Hsat].
    + rewrite to_U_nonneg in * by (unfold max_S; lia).
      assert (H0 : find_sat zeros ones (Z.to_nat w)
                     (Z.max (Z.max lo ulo) 0)
                     (Z.min (Z.min hi uhi) (2 ^ (w - 1) - 1)) = true).
      { apply find_sat_spec. rewrite Z2Nat.id by lia.
        exists v. split; [lia|]. split; [lia|].
        apply is_satisfied_by_bits_ok; [lia|lia|lia|exact Hsat]. }
      rewrite H0. reflexivity.
Qed.

End CanonicalizeFacts.

(* ===================================================================== *)
(** ** Bounded integers: construction and membership *)
(* ===================================================================== *)

Lemma nonempty_false_contradictory w t :
  0 < w -> well_typed w t ->
  Canonicalize.nonempty w t = false <-> contradictory w t.
Proof.
  intros Hw Hwt. split.
  - intros Hn v Hv.
    destruct (Canonicalize.contains w t v) eqn:Hc; [|reflexivity].
    assert (Canonicalize.nonempty w t = true) as Ht
      by (apply CanonicalizeFacts.nonempty_spec; eauto).
    congruence.
  - intros Hc.
    destruct (Canonicalize.nonempty w t) eqn:Hn; [|reflexivity].
    apply CanonicalizeFacts.nonempty_spec in Hn as (v & Hv & Hcv); [|lia|assumption].
    rewrite (Hc v Hv) in Hcv. discriminate.
Qed.

Lemma TypeInt_make_or_top_unfold t widen dual :
  TypeInt.make_or_top t widen dual =
  if Canonicalize.nonempty TypeInt.width t
  then TypeInt_mk (TypeInt.new t widen dual)
  else if dual then BOTTOM else TOP.
Proof.
  unfold TypeInt.make_or_top, Canonicalize.canonicalize_constraints,
    Canonicalize.empty.
  destruct (Canonicalize.nonempty TypeInt.width t); reflexivity.
Qed.

Lemma TypeLong_make_or_top_unfold t widen dual :
  TypeLong.make_or_top t widen dual =
  if Canonicalize.nonempty TypeLong.width t
  then TypeLong_mk (TypeLong.new t widen dual)
  else if dual then BOTTOM else TOP.
Proof.
  unfold TypeLong.make_or_top, Canonicalize.canonicalize_constraints,
    Canonicalize.empty.
  destruct (Canonicalize.nonempty TypeLong.width t); reflexivity.
Qed.

(** The boolean of [contains], read as the three views. *)
Lemma three_views_reflect w (T : TypeInteger.t) (v : Z) :
  (TypeInteger._lo T <=? v) && (v <=? TypeInteger._hi T) &&
  (TypeInteger._ulo T <=? to_U w v) && (to_U w v <=? TypeInteger._uhi T) &&
  KnownBits.is_satisfied_by (TypeInteger._bits T) (to_U w v) = true <->
  in_signed_range T v /\ in_unsigned_range w T v /\ satisfies_bits w T v.
Proof.
  unfold in_signed_range, in_unsigned_range, satisfies_bits,
    KnownBits.is_satisfied_by.
  rewrite !andb_true_iff, !Z.leb_le, !Z.eqb_eq. tauto.
Qed.

(** C4. For a primal bounded integer type [T] and a scalar [v],
    [contains(T, v)] returns, and it returns true exactly when [v] lies
    in the signed range of [T], its unsigned image lies in the unsigned
    range of [T], and it satisfies the known bits of [T]; on a dual type
    the call stops at the assertion that the type is primal.  The same
    holds for the 64-bit class. *)
Theorem C4_contains_is_conjunction_of_views (T : TypeInteger.t) (v : Z) :
  (TypeInteger._is_dual T = false ->
   (exists b, TypeInt.contains T v = Ret b /\
      (b = true <->
       in_signed_range T v /\ in_unsigned_range 32 T v /\ satisfies_bits 32 T v)) /\
   (exists b, TypeLong.contains T v = Ret b /\
      (b = true <->
       in_signed_range T v /\ in_unsigned_range 64 T v /\ satisfies_bits 64 T v))) /\
  (TypeInteger._is_dual T = true ->
   TypeInt.contains T v = Abort AssertionFailed /\
   TypeLong.contains T v = Abort AssertionFailed).
Proof.
  unfold TypeInt.contains, TypeLong.contains, TypeInt.width, TypeLong.width.
  split; intros Hd; rewrite Hd; cbn.
  - split; eexists; (split; [reflexivity|]); apply three_views_reflect.
  - split; reflexivity.
Qed.

(** The type built by [make(-1, 1, w)] (signed range [-1,1], full
    unsigned range, no known bits) contains exactly -1, 0 and 1. *)
Lemma contains_example_minus_one_to_one (v : Z) :
  in_S 32 v ->
  exists T, TypeInt.make (-1) 1 WidenMin = Ret T /\
            (TypeInt.contains T v = Ret true <-> v = -1 \/ v = 0 \/ v = 1).
Proof.
  intros Hv. eexists. split; [vm_compute; reflexivity|].
  unfold TypeInt.contains, TypeInt.new. cbn.
  unfold in_S, min_S, max_S in Hv. change (2 ^ (32 - 1)) with 2147483648 in Hv.
  assert (Hu : 0 <= to_U TypeInt.width v <= 4294967295).
  { unfold to_U, TypeInt.width.
    pose proof (Z.mod_pos_bound v (2 ^ 32) ltac:(lia)) as Hb.
    change (2 ^ 32) with 4294967296 in *. lia. }
  unfold KnownBits.is_satisfied_by. cbn.
  rewrite Z.land_0_r. cbn.
  split.
  - intros H. injection H as H.
    rewrite !andb_true_iff, !Z.leb_le in H. lia.
  - intros H. f_equal.
    rewrite !andb_true_iff, !Z.leb_le. repeat split; try lia; reflexivity.
Qed.

Lemma C4_contains_is_conjunction_of_views_witness :
  (exists b, TypeInt.contains C4_primal_example 7 = Ret b /\
     (b = true <->
      in_signed_range C4_primal_example 7 /\
      in_unsigned_range 32 C4_primal_example 7 /\
      satisfies_bits 32 C4_primal_example 7)) /\
  TypeInt.contains C4_dual_example 7 = Abort AssertionFailed.
Proof.
  split.
  - apply (proj1 (C4_contains_is_conjunction_of_views C4_primal_example 7)).
    reflexivity.
  - apply (proj2 (C4_contains_is_conjunction_of_views C4_dual_example 7)).
    reflexivity.
Defined.

(** The prototype that [make(lo, hi, widen)] hands to [make_or_top]. *)
Lemma make_prototype_contains lo hi v :
  in_S 32 v ->
  Canonicalize.contains 32
    (TypeIntPrototype.mk (RangeInt.mk lo hi) (RangeInt.mk 0 (max_U 32))
       (KnownBits.mk 0 0)) v = (lo <=? v) && (v <=? hi).
Proof.
  intros Hv. unfold Canonicalize.contains, KnownBits.is_satisfied_by. cbn.
  assert (Hu : 0 <= to_U 32 v <= max_U 32).
  { unfold to_U, max_U.
    pose proof (Z.mod_pos_bound v (2 ^ 32) ltac:(lia)) as Hb. lia. }
  rewrite Z.land_0_r. cbn.
  destruct Hu as [Hu1 Hu2].
  apply Z.leb_le in Hu1, Hu2. rewrite Hu1, Hu2.
  rewrite !andb_true_r. reflexivity.
Qed.

Lemma make_prototype_well_typed lo hi :
  well_typed 32
    (TypeIntPrototype.mk (RangeInt.mk lo hi) (RangeInt.mk 0 (max_U 32))
       (KnownBits.mk 0 0)).
Proof. split; cbn; unfold in_U, max_U; lia. Qed.

(** [make(lo, hi, widen)] with legal bounds returns the bounded integer
    of the requested signed range, and never Top. *)
Lemma TypeInt_make_legal_bounds lo hi widen :
  in_S 32 lo -> in_S 32 hi -> lo <= hi ->
  exists T, TypeInt.make lo hi widen = Ret T /\
            TypeInteger._lo T = lo /\ TypeInteger._hi T = hi /\
            TypeInteger._is_dual T = false.
Proof.
  intros Hlo Hhi Hle. unfold TypeInt.make.
  assert (E : (lo <=? hi) = true) by (apply Z.leb_le; lia).
  rewrite E. cbn [debug_assert bind].
  rewrite TypeInt_make_or_top_unfold.
  assert (Hn : Canonicalize.nonempty TypeInt.width
                 (TypeIntPrototype.mk (RangeInt.mk lo hi)
                    (RangeInt.mk 0 (max_U TypeInt.width)) (KnownBits.mk 0 0)) = true).
  { apply CanonicalizeFacts.nonempty_spec;
      [unfold TypeInt.width; lia | apply make_prototype_well_typed|].
    exists lo. split; [exact Hlo|].
    unfold TypeInt.width. rewrite make_prototype_contains by exact Hlo.
    rewrite Z.leb_refl, E. reflexivity. }
  rewrite Hn. cbn. eexists. split; [reflexivity|]. cbn. auto.
Qed.

(** [make(lo, hi, widen)] with [lo > hi] stops at its assertion
    "must be legal bounds". *)
Lemma TypeInt_make_illegal_bounds lo hi widen :
  hi < lo -> TypeInt.make lo hi widen = Abort AssertionFailed.
Proof.
  intros Hlt. unfold TypeInt.make.
  assert (E : (lo <=? hi) = false) by (apply Z.leb_gt; lia).
  rewrite E. reflexivity.
Qed.

(** The prototype that [make(lo, hi, widen)] hands to [make_or_top], at
    either width. *)
Lemma make_prototype_contains_at w lo hi v :
  0 < w ->
  Canonicalize.contains w
    (TypeIntPrototype.mk (RangeInt.mk lo hi) (RangeInt.mk 0 (max_U w))
       (KnownBits.mk 0 0)) v = (lo <=? v) && (v <=? hi).
Proof.
  intros Hw. unfold Canonicalize.contains, KnownBits.is_satisfied_by. cbn.
  assert (Hu : 0 <= to_U w v <= max_U w).
  { unfold to_U, max_U.
    pose proof (Z.mod_pos_bound v (2 ^ w) ltac:(lia)) as Hb. lia. }
  rewrite Z.land_0_r. cbn.
  destruct Hu as [Hu1 Hu2].
  apply Z.leb_le in Hu1, Hu2. rewrite Hu1, Hu2.
  rewrite !andb_true_r. reflexivity.
Qed.

(** [TypeLong::make(lo, hi, widen)] with [lo > hi] stops at the same
    assertion. *)
Lemma TypeLong_make_illegal_bounds lo hi widen :
  hi < lo -> TypeLong.make lo hi widen = Abort AssertionFailed.
Proof.
  intros Hlt. unfold TypeLong.make.
  assert (E : (lo <=? hi) = false) by (apply Z.leb_gt; lia).
  rewrite E. reflexivity.
Qed.

(** C3, for [TypeInt::make(lo, hi, widen)] and
    [TypeLong::make(lo, hi, widen)] with [lo > hi]: the signed range
    [5,3] is contradictory at either width, and [make(5, 3, widen)] does
    not return Top; it stops at the assertion [lo <= hi]. *)
Lemma C3_make_rejects_inverted_bounds :
  (contradictory 32
     (TypeIntPrototype.mk (RangeInt.mk 5 3) (RangeInt.mk 0 (max_U 32))
        (KnownBits.mk 0 0)) /\
   TypeInt.make 5 3 WidenMin = Abort AssertionFailed) /\
  (contradictory 64
     (TypeIntPrototype.mk (RangeInt.mk 5 3) (RangeInt.mk 0 (max_U 64))
        (KnownBits.mk 0 0)) /\
   TypeLong.make 5 3 WidenMin = Abort AssertionFailed).
Proof.
  split; split.
  - intros v Hv. rewrite make_prototype_contains_at by lia.
    apply andb_false_iff. rewrite !Z.leb_gt. lia.
  - reflexivity.
  - intros v Hv. rewrite make_prototype_contains_at by lia.
    apply andb_false_iff. rewrite !Z.leb_gt. lia.
  - reflexivity.
Qed.

(** C3, for [TypeInt::make_or_top] and [TypeLong::make_or_top]: on a
    prototype whose signed range, unsigned range and known bits are
    mutually contradictory each returns the canonical Top when primal
    and the canonical Bottom when dual, not a range object and not an
    error; on constraints that some value meets it returns the bounded
    integer of that orientation whose three views hold of the values
    that meet the constraints. *)
Theorem C3_make_or_top_collapses_contradictions
    (t : TypeIntPrototype.t) (widen : Z) (dual : bool) :
  (well_typed 32 t ->
   (contradictory 32 t ->
    TypeInt.make_or_top t widen dual = (if dual then BOTTOM else TOP)) /\
   (~ contradictory 32 t ->
    exists T, TypeInt.make_or_top t widen dual = TypeInt_mk T /\
              TypeInteger._is_dual T = dual /\
              forall v, in_S 32 v ->
                (in_signed_range T v /\ in_unsigned_range 32 T v /\
                 satisfies_bits 32 T v <->
                 Canonicalize.contains 32 t v = true))) /\
  (well_typed 64 t ->
   (contradictory 64 t ->
    TypeLong.make_or_top t widen dual = (if dual then BOTTOM else TOP)) /\
   (~ contradictory 64 t ->
    exists T, TypeLong.make_or_top t widen dual = TypeLong_mk T /\
              TypeInteger._is_dual T = dual /\
              forall v, in_S 64 v ->
                (in_signed_range T v /\ in_unsigned_range 64 T v /\
                 satisfies_bits 64 T v <->
                 Canonicalize.contains 64 t v = true))).
Proof.
  split; intros Hwt.
  - rewrite TypeInt_make_or_top_unfold. unfold TypeInt.width.
    split.
    + intros Hc.
      apply nonempty_false_contradictory in Hc; [|lia|exact Hwt].
      rewrite Hc. reflexivity.
    + intros Hnc.
      destruct (Canonicalize.nonempty 32 t) eqn:Hn.
      * eexists. split; [reflexivity|]. split; [reflexivity|].
        intros v Hv. rewrite <- three_views_reflect.
        unfold Canonicalize.contains, TypeInt.new. cbn. reflexivity.
      * exfalso. apply Hnc.
        apply nonempty_false_contradictory; [lia|exact Hwt|exact Hn].
  - rewrite TypeLong_make_or_top_unfold. unfold TypeLong.width.
    split.
    + intros Hc.
      apply nonempty_false_contradictory in Hc; [|lia|exact Hwt].
      rewrite Hc. reflexivity.
    + intros Hnc.
      destruct (Canonicalize.nonempty 64 t) eqn:Hn.
      * eexists. split; [reflexivity|]. split; [reflexivity|].
        intros v Hv. rewrite <- three_views_reflect.
        unfold Canonicalize.contains, TypeLong.new. cbn. reflexivity.
      * exfalso. apply Hnc.
        apply nonempty_false_contradictory; [lia|exact Hwt|exact Hn].
Qed.

Lemma C3_make_or_top_collapses_contradictions_witness :
  (TypeInt.make_or_top C3_contradictory_example WidenMin false = TOP /\
   TypeInt.make_or_top C3_contradictory_example WidenMin true = BOTTOM /\
   exists T, TypeInt.make_or_top C3_consistent_example WidenMin false = TypeInt_mk T) /\
  (TypeLong.make_or_top C3_contradictory_example WidenMin false = TOP /\
   TypeLong.make_or_top C3_contradictory_example WidenMin true = BOTTOM /\
   exists T, TypeLong.make_or_top C3_consistent_example WidenMin false = TypeLong_mk T).
Proof.
  assert (Hw1 : forall w, 32 <= w -> well_typed w C3_contradictory_example).
  { intros w Hw. pose proof (Z.pow_le_mono_r 2 32 w ltac:(lia) Hw).
    split; cbn; unfold in_U, max_U; lia. }
  assert (Hw2 : forall w, 32 <= w -> well_typed w C3_consistent_example).
  { intros w Hw. pose proof (Z.pow_le_mono_r 2 32 w ltac:(lia) Hw).
    split; cbn; unfold in_U, max_U; lia. }
  assert (Hc : forall w, 32 <= w -> contradictory w C3_contradictory_example).
  { intros w Hw v Hv. unfold Canonicalize.contains, C3_contradictory_example. cbn.
    destruct (5 <=? v) eqn:H5; [|reflexivity].
    destruct (v <=? 10) eqn:H10; [|reflexivity].
    apply Z.leb_le in H5, H10.
    pose proof (Z.pow_le_mono_r 2 32 w ltac:(lia) Hw).
    assert (E : to_U w v = v) by (apply Z.mod_small; lia).
    rewrite E. cbn.
    assert (E0 : (v <=? 0) = false) by (apply Z.leb_gt; lia).
    rewrite E0. destruct (0 <=? v); reflexivity. }
  assert (Hn : forall w, 32 <= w -> ~ contradictory w C3_consistent_example).
  { intros w Hw Hc'. specialize (Hc' 0).
    assert (Hin : in_S w 0).
    { unfold in_S, min_S, max_S.
      pose proof (Z.pow_pos_nonneg 2 (w - 1) ltac:(lia) ltac:(lia)). lia. }
    specialize (Hc' Hin).
    unfold Canonicalize.contains, C3_consistent_example, KnownBits.is_satisfied_by,
      to_U in Hc'.
    cbn in Hc'. rewrite Z.mod_0_l in Hc' by (apply Z.pow_nonzero; lia).
    cbn in Hc'. discriminate. }
  split; (split; [|split]).
  - exact (proj1 (proj1 (C3_make_or_top_collapses_contradictions
                    C3_contradictory_example WidenMin false) (Hw1 32 ltac:(lia)))
             (Hc 32 ltac:(lia))).
  - exact (proj1 (proj1 (C3_make_or_top_collapses_contradictions
                    C3_contradictory_example WidenMin true) (Hw1 32 ltac:(lia)))
             (Hc 32 ltac:(lia))).
  - destruct (proj2 (proj1 (C3_make_or_top_collapses_contradictions
                       C3_consistent_example WidenMin false) (Hw2 32 ltac:(lia)))
                (Hn 32 ltac:(lia))) as (T & HT & _).
    exists T. exact HT.
  - exact (proj1 (proj2 (C3_make_or_top_collapses_contradictions
                    C3_contradictory_example WidenMin false) (Hw1 64 ltac:(lia)))
             (Hc 64 ltac:(lia))).
  - exact (proj1 (proj2 (C3_make_or_top_collapses_contradictions
                    C3_contradictory_example WidenMin true) (Hw1 64 ltac:(lia)))
             (Hc 64 ltac:(lia))).
  - destruct (proj2 (proj2 (C3_make_or_top_collapses_contradictions
                       C3_consistent_example WidenMin false) (Hw2 64 ltac:(lia)))
                (Hn 64 ltac:(lia))) as (T & HT & _).
    exists T. exact HT.
Defined.

(* ===================================================================== *)
(** ** Float constants *)
(* ===================================================================== *)

Lemma meet_helper_not_pointers env this t b :
  isa_ptr this = None -> isa_ptr t = None ->
  meet_helper env this t b = xmeet env (meet_of_speculative env) this t.
Proof.
  intros H1 H2. unfold meet_helper, maybe_remove_speculative.
  destruct this, t; try discriminate; destruct b; reflexivity.
Qed.

Lemma TypeF_xmeet_constants env m f1 f2 :
  xmeet env m (TypeF_mk f1) (TypeF_mk f2) =
  Ret (if f1 =? f2 then TypeF_mk f1 else FLOAT).
Proof.
  cbn. unfold TypeF_xmeet, same_type. cbn.
  destruct (f1 =? f2); reflexivity.
Qed.

Lemma TypeD_xmeet_constants env m d1 d2 :
  xmeet env m (TypeD_mk d1) (TypeD_mk d2) =
  Ret (if d1 =? d2 then TypeD_mk d1 else DOUBLE).
Proof.
  cbn. unfold TypeD_xmeet, same_type. cbn.
  destruct (d1 =? d2); reflexivity.
Qed.

Lemma TypeH_xmeet_constants env m h1 h2 :
  xmeet env m (TypeH_mk h1) (TypeH_mk h2) =
  Ret (if h1 =? h2 then TypeH_mk h1 else HALF_FLOAT).
Proof.
  cbn. unfold TypeH_xmeet, same_type. cbn.
  destruct (h1 =? h2); reflexivity.
Qed.

(** C7. The meet of two float constants is decided by their bits: equal
    bit patterns give that constant, unequal ones the generic Float
    type.  +0.0 and -0.0 stand for the same number and have different
    bits, so their meet, in either order, is Float. *)
Theorem C7_float_constants_meet_by_bit_pattern (env : ciEnv) :
  (forall f1 f2 : Z,
     meet env (TypeF_mk f1) (TypeF_mk f2) =
     Ret (if f1 =? f2 then TypeF_mk f1 else FLOAT)) /\
  jfloat_scaled_value jfloat_pos_zero = jfloat_scaled_value jfloat_neg_zero /\
  meet env (TypeF_mk jfloat_pos_zero) (TypeF_mk jfloat_neg_zero) = Ret FLOAT /\
  meet env (TypeF_mk jfloat_neg_zero) (TypeF_mk jfloat_pos_zero) = Ret FLOAT.
Proof.
  assert (H : forall f1 f2 : Z,
             meet env (TypeF_mk f1) (TypeF_mk f2) =
             Ret (if f1 =? f2 then TypeF_mk f1 else FLOAT)).
  { intros f1 f2. unfold meet.
    rewrite meet_helper_not_pointers by reflexivity.
    apply TypeF_xmeet_constants. }
  split; [exact H|]. split; [reflexivity|].
  split; rewrite H; reflexivity.
Qed.

(* ===================================================================== *)
(** ** Interface sets *)
(* ===================================================================== *)

Lemma compare_lt (k k' : ciKlass) :
  (TypeInterfaces.compare k k' <? 0) = (k <? k').
Proof.
  unfold TypeInterfaces.compare.
  destruct (k <? k') eqn:E; [reflexivity|].
  destruct (k' <? k); reflexivity.
Qed.

Lemma verify_cons_cons (k1 k2 : ciKlass) (l : list ciKlass) :
  TypeInterfaces.verify (k1 :: k2 :: l) =
  (0 <? TypeInterfaces.compare k2 k1) && negb (k1 =? k2) &&
  TypeInterfaces.verify (k2 :: l).
Proof. reflexivity. Qed.

Lemma verify_sorted_lt (l : list ciKlass) :
  TypeInterfaces.verify l = true <-> sorted_lt l.
Proof.
  unfold sorted_lt. split.
  - intros Hv. apply Sorted_StronglySorted; [intros x y z; lia|].
    induction l as [|k1 [|k2 l] IH]; [constructor|repeat constructor|].
    rewrite verify_cons_cons in Hv.
    rewrite !andb_true_iff in Hv. destruct Hv as [[H1 _] H2].
    constructor; [apply IH; exact H2|].
    constructor. unfold TypeInterfaces.compare in H1.
    destruct (k2 <? k1) eqn:E1; [discriminate|].
    destruct (k1 <? k2) eqn:E2; [|discriminate].
    apply Z.ltb_lt in E2. exact E2.
  - intros Hs. apply StronglySorted_Sorted in Hs.
    induction l as [|k1 [|k2 l] IH]; [reflexivity..|].
    rewrite verify_cons_cons.
    inversion Hs as [|? ? Hs' Hh]; subst.
    inversion Hh as [|? ? Hlt]; subst.
    rewrite (IH Hs'), andb_true_r.
    unfold TypeInterfaces.compare.
    assert (E1 : (k2 <? k1) = false) by (apply Z.ltb_ge; lia).
    assert (E2 : (k1 <? k2) = true) by (apply Z.ltb_lt; lia).
    assert (E3 : (k1 =? k2) = false) by (apply Z.eqb_neq; lia).
    rewrite E1, E2, E3. reflexivity.
Qed.

(** Two increasing arrays with the same members are the same array. *)
Lemma sorted_lt_ext (l1 : list ciKlass) :
  forall l2, sorted_lt l1 -> sorted_lt l2 ->
             (forall k, k ∈ l1 <-> k ∈ l2) -> l1 = l2.
Proof.
  unfold sorted_lt.
  induction l1 as [|x l1 IH]; intros [|y l2] H1 H2 Hm.
  - reflexivity.
  - exfalso. assert (y ∈ []) as Hy by (apply Hm; left). inversion Hy.
  - exfalso. assert (x ∈ []) as Hx by (apply Hm; left). inversion Hx.
  - apply StronglySorted_cons in H1 as [Hx1 H1].
    apply StronglySorted_cons in H2 as [Hy2 H2].
    rewrite Forall_forall in Hx1, Hy2.
    assert (x = y) as ->.
    { assert (x ∈ y :: l2) as Hx by (apply Hm; left).
      assert (y ∈ x :: l1) as Hy by (apply Hm; left).
      apply elem_of_cons in Hx as [Hx|Hx]; [exact Hx|].
      apply elem_of_cons in Hy as [Hy|Hy]; [symmetry; exact Hy|].
      specialize (Hx1 _ Hy). specialize (Hy2 _ Hx). lia. }
    f_equal. apply IH; [exact H1|exact H2|].
    intros k. split; intros Hk.
    + assert (k ∈ y :: l2) as Hk' by (apply Hm; right; exact Hk).
      apply elem_of_cons in Hk' as [->|Hk']; [|exact Hk'].
      specialize (Hx1 _ Hk). lia.
    + assert (k ∈ y :: l1) as Hk' by (apply Hm; right; exact Hk).
      apply elem_of_cons in Hk' as [->|Hk']; [|exact Hk'].
      specialize (Hy2 _ Hk). lia.
Qed.

(** The constructor's sort leaves an increasing array as it is, keeps
    the members of any array and leaves it in non-decreasing order. *)
Lemma insert_sorted_below (k : ciKlass) (l : list ciKlass) :
  Forall (Z.lt k) l -> TypeInterfaces.insert_sorted k l = k :: l.
Proof.
  destruct l as [|k' l]; [reflexivity|].
  intros Hf. apply Forall_cons in Hf as [Hk _].
  cbn. rewrite compare_lt.
  assert (E : (k' <? k) = false) by (apply Z.ltb_ge; lia).
  rewrite E. reflexivity.
Qed.

Lemma sort_sorted_lt (l : list ciKlass) :
  sorted_lt l -> TypeInterfaces.sort l = l.
Proof.
  unfold sorted_lt. induction l as [|k l IH]; [reflexivity|].
  intros Hs. apply StronglySorted_cons in Hs as [Hk Hs].
  cbn. rewrite (IH Hs). apply insert_sorted_below. exact Hk.
Qed.

Lemma make_sorted_lt (l : list ciKlass) :
  sorted_lt l -> TypeInterfaces.make l = l.
Proof. apply sort_sorted_lt. Qed.

Lemma union_advance_spec (this : list ciKlass) :
  forall other result_list this1 result1,
    TypeInterfaces.union_advance this other result_list = (this1, result1) ->
    exists pre, this = pre ++ this1 /\ result1 = result_list ++ pre /\
                Forall (fun k => below_head k other) pre /\
                stops_at this1 other.
Proof.
  induction this as [|k this IH]; intros other acc this1 acc1 H.
  - cbn in H. injection H as <- <-. exists [].
    split; [reflexivity|]. split; [symmetry; apply app_nil_r|].
    split; constructor.
  - cbn [TypeInterfaces.union_advance] in H.
    destruct other as [|k' other].
    + apply IH in H as (pre & -> & -> & Hpre & Hstop).
      exists (k :: pre). rewrite <- app_assoc. repeat split.
      * constructor; [exact I|exact Hpre].
      * destruct this1; exact Hstop.
    + rewrite compare_lt in H. destruct (k <? k') eqn:E.
      * apply Z.ltb_lt in E.
        apply IH in H as (pre & -> & -> & Hpre & Hstop).
        exists (k :: pre). rewrite <- app_assoc. repeat split.
        -- constructor; [exact E|exact Hpre].
        -- exact Hstop.
      * apply Z.ltb_ge in E. injection H as <- <-.
        exists []. split; [reflexivity|]. split; [symmetry; apply app_nil_r|].
        split; [constructor|exact E].
Qed.

Lemma intersection_advance_spec (this : list ciKlass) :
  forall other,
    exists pre, this = pre ++ TypeInterfaces.intersection_advance this other /\
                Forall (fun k => below_head k other) pre /\
                stops_at (TypeInterfaces.intersection_advance this other) other.
Proof.
  induction this as [|k this IH]; intros other.
  - exists []. repeat split; constructor.
  - cbn [TypeInterfaces.intersection_advance].
    destruct other as [|k' other].
    + destruct (IH []) as (pre & Heq & Hpre & Hstop).
      exists (k :: pre). cbn. rewrite <- Heq. repeat split.
      * constructor; [exact I|exact Hpre].
      * exact Hstop.
    + rewrite compare_lt. destruct (k <? k') eqn:E.
      * apply Z.ltb_lt in E.
        destruct (IH (k' :: other)) as (pre & Heq & Hpre & Hstop).
        exists (k :: pre). cbn. rewrite <- Heq. repeat split.
        -- constructor; [exact E|exact Hpre].
        -- exact Hstop.
      * apply Z.ltb_ge in E.
        exists []. repeat split; [constructor|exact E].
Qed.

Lemma sorted_lt_head_le (k' : ciKlass) (l : list ciKlass) (b : ciKlass) :
  sorted_lt (k' :: l) -> b ∈ k' :: l -> k' <= b.
Proof.
  unfold sorted_lt. intros Hs Hb.
  apply StronglySorted_cons in Hs as [Hf _]. rewrite Forall_forall in Hf.
  apply elem_of_cons in Hb as [->|Hb]; [lia|].
  specialize (Hf _ Hb). lia.
Qed.

Lemma below_head_lt (k : ciKlass) (other : list ciKlass) (b : ciKlass) :
  sorted_lt other -> below_head k other -> b ∈ other -> k < b.
Proof.
  destruct other as [|k' other]; intros Hs Hk Hb; [inversion Hb|].
  cbn in Hk. pose proof (sorted_lt_head_le _ _ _ Hs Hb). lia.
Qed.

(** Moving a prefix of [this] that lies below [other] into the result
    keeps the result in front of both arrays. *)
Lemma advance_keeps_sorted (acc pre this1 other : list ciKlass) :
  sorted_lt (acc ++ pre ++ this1) -> sorted_lt (acc ++ other) ->
  Forall (fun k => below_head k other) pre ->
  sorted_lt ((acc ++ pre) ++ this1) /\ sorted_lt ((acc ++ pre) ++ other).
Proof.
  unfold sorted_lt. intros H1 H2 Hpre. split.
  - rewrite <- app_assoc. exact H1.
  - rewrite app_assoc in H1.
    apply StronglySorted_app. split; [|split].
    + intros a b Ha Hb. apply elem_of_app in Ha as [Ha|Ha].
      * eapply StronglySorted_app_1_elem_of; eassumption.
      * rewrite Forall_forall in Hpre.
        eapply below_head_lt; [|apply Hpre; exact Ha|exact Hb].
        eapply StronglySorted_app_1_r. exact H2.
    + eapply StronglySorted_app_1_l. exact H1.
    + eapply StronglySorted_app_1_r. exact H2.
Qed.

Lemma union_iteration_progress (this other acc this' other' acc' : list ciKlass) :
  this <> [] \/ other <> [] ->
  TypeInterfaces.union_iteration this other acc = (this', other', acc') ->
  (length this' + length other' < length this + length other)%nat.
Proof.
  intros Hne H. unfold TypeInterfaces.union_iteration in H.
  destruct (TypeInterfaces.union_advance this other acc) as [this1 acc1] eqn:H1.
  destruct (TypeInterfaces.union_advance other this1 acc1) as [other1 acc2] eqn:H2.
  apply union_advance_spec in H1 as (pre1 & -> & -> & _ & Hs1).
  apply union_advance_spec in H2 as (pre2 & -> & -> & _ & Hs2).
  rewrite !length_app.
  destruct this1 as [|k this2], other1 as [|k' other2].
  - injection H as <- <- <-. cbn.
    destruct pre1, pre2; cbn in *; try lia.
    destruct Hne as [Hne|Hne]; contradiction.
  - cbn in Hs2. contradiction.
  - injection H as <- <- <-.
    destruct pre2; [cbn in Hs1; contradiction|cbn; lia].
  - destruct (k =? k') eqn:E; injection H as <- <- <-; [cbn; lia|].
    apply Z.eqb_neq in E.
    destruct pre1, pre2; cbn in *; lia.
Qed.

Lemma union_loop_terminates (fuel : nat) :
  forall this other acc,
    (length this + length other <= fuel)%nat ->
    exists r, TypeInterfaces.union_loop fuel this other acc = Some r.
Proof.
  induction fuel as [|fuel IH]; intros this other acc Hlen.
  - destruct this, other; cbn in Hlen; try lia. eexists. reflexivity.
  - destruct this as [|k this], other as [|k' other];
      [eexists; reflexivity|..]; cbn [TypeInterfaces.union_loop];
      match goal with
      | |- context [TypeInterfaces.union_iteration ?a ?b ?c] =>
        destruct (TypeInterfaces.union_iteration a b c) as [[t o] r] eqn:Hit;
        apply union_iteration_progress in Hit; [|auto]
      end; apply IH; cbn in *; lia.
Qed.

Lemma union_iteration_sorted (this other acc this' other' acc' : list ciKlass) :
  sorted_lt (acc ++ this) -> sorted_lt (acc ++ other) ->
  TypeInterfaces.union_iteration this other acc = (this', other', acc') ->
  sorted_lt (acc' ++ this') /\ sorted_lt (acc' ++ other') /\
  (forall k, k ∈ acc' \/ k ∈ this' \/ k ∈ other' <->
             k ∈ acc \/ k ∈ this \/ k ∈ other).
Proof.
  intros Hst Hso H. unfold TypeInterfaces.union_iteration in H.
  destruct (TypeInterfaces.union_advance this other acc) as [this1 acc1] eqn:H1.
  destruct (TypeInterfaces.union_advance other this1 acc1) as [other1 acc2] eqn:H2.
  apply union_advance_spec in H1 as (pre1 & -> & -> & Hp1 & _).
  apply union_advance_spec in H2 as (pre2 & -> & -> & Hp2 & _).
  destruct (advance_keeps_sorted acc pre1 this1 (pre2 ++ other1) Hst Hso Hp1)
    as [Ha Hb].
  destruct (advance_keeps_sorted (acc ++ pre1) pre2 other1 this1 Hb Ha Hp2)
    as [Hc Hd].
  assert (Hmem : forall k, k ∈ (acc ++ pre1) ++ pre2 \/ k ∈ this1 \/ k ∈ other1 <->
                           k ∈ acc \/ k ∈ pre1 ++ this1 \/ k ∈ pre2 ++ other1).
  { intros k. rewrite !elem_of_app. tauto. }
  destruct this1 as [|k this2], other1 as [|k' other2];
    try (injection H as <- <- <-; split; [exact Hd|split; [exact Hc|exact Hmem]]).
  destruct (k =? k') eqn:E;
    [|injection H as <- <- <-; split; [exact Hd|split; [exact Hc|exact Hmem]]].
  apply Z.eqb_eq in E. subst k'. injection H as <- <- <-.
  split; [|split].
  - unfold sorted_lt in *. rewrite <- app_assoc. exact Hd.
  - unfold sorted_lt in *. rewrite <- app_assoc. exact Hc.
  - intros x. rewrite <- Hmem. rewrite !elem_of_app, !elem_of_cons, elem_of_nil.
    tauto.
Qed.

Lemma union_loop_sorted (fuel : nat) :
  forall this other acc r,
    sorted_lt (acc ++ this) -> sorted_lt (acc ++ other) ->
    TypeInterfaces.union_loop fuel this other acc = Some r ->
    sorted_lt r /\ forall k, k ∈ r <-> k ∈ acc \/ k ∈ this \/ k ∈ other.
Proof.
  induction fuel as [|fuel IH]; intros this other acc r Hst Hso H.
  - destruct this, other; cbn in H; try discriminate.
    injection H as <-. rewrite app_nil_r in Hst. split; [exact Hst|].
    intros k. rewrite elem_of_nil. tauto.
  - destruct this as [|k this], other as [|k' other].
    + cbn in H. injection H as <-. rewrite app_nil_r in Hst.
      split; [exact Hst|]. intros x. rewrite elem_of_nil. tauto.
    + cbn [TypeInterfaces.union_loop] in H.
      destruct (TypeInterfaces.union_iteration [] (k' :: other) acc)
        as [[t o] a] eqn:Hit.
      apply union_iteration_sorted in Hit as (H1 & H2 & Hm); [|assumption..].
      apply IH in H as [Hs Hr]; [|assumption..].
      split; [exact Hs|]. intros x. rewrite Hr. apply Hm.
    + cbn [TypeInterfaces.union_loop] in H.
      destruct (TypeInterfaces.union_iteration (k :: this) [] acc)
        as [[t o] a] eqn:Hit.
      apply union_iteration_sorted in Hit as (H1 & H2 & Hm); [|assumption..].
      apply IH in H as [Hs Hr]; [|assumption..].
      split; [exact Hs|]. intros x. rewrite Hr. apply Hm.
    + cbn [TypeInterfaces.union_loop] in H.
      destruct (TypeInterfaces.union_iteration (k :: this) (k' :: other) acc)
        as [[t o] a] eqn:Hit.
      apply union_iteration_sorted in Hit as (H1 & H2 & Hm); [|assumption..].
      apply IH in H as [Hs Hr]; [|assumption..].
      split; [exact Hs|]. intros x. rewrite Hr. apply Hm.
Qed.

(** [union_with] on canonical sets: the loop ends within [n + m]
    iterations, the result is canonical and holds the members of the
    two sets. *)
Lemma union_with_spec (S1 S2 : list ciKlass) :
  sorted_lt S1 -> sorted_lt S2 ->
  (exists r, TypeInterfaces.union_loop (length S1 + length S2) S1 S2 [] = Some r) /\
  sorted_lt (TypeInterfaces.union_with S1 S2) /\
  forall k, k ∈ TypeInterfaces.union_with S1 S2 <-> k ∈ S1 \/ k ∈ S2.
Proof.
  intros H1 H2.
  destruct (union_loop_terminates (length S1 + length S2) S1 S2 [] (le_n _))
    as [r Hr].
  split; [eauto|].
  unfold TypeInterfaces.union_with. rewrite Hr.
  apply union_loop_sorted in Hr as [Hs Hm]; [|assumption..].
  rewrite (make_sorted_lt r Hs). split; [exact Hs|].
  intros k. rewrite Hm, elem_of_nil. tauto.
Qed.

Lemma sorted_lt_drop_middle (a b c : list ciKlass) :
  sorted_lt (a ++ b ++ c) -> sorted_lt (a ++ c).
Proof.
  unfold sorted_lt. rewrite !StronglySorted_app.
  intros (H1 & H2 & H3 & H4 & H5). split; [|split; assumption].
  intros x y Hx Hy. apply H1; [exact Hx|]. apply elem_of_app. right. exact Hy.
Qed.

Lemma below_head_not_in (pre other : list ciKlass) (k : ciKlass) :
  sorted_lt other -> Forall (fun k => below_head k other) pre ->
  k ∈ pre -> k ∈ other -> False.
Proof.
  intros Hs Hpre Hk Hko. rewrite Forall_forall in Hpre.
  pose proof (below_head_lt k other k Hs (Hpre _ Hk) Hko). lia.
Qed.

Lemma intersection_iteration_progress
    (this other acc this' other' acc' : list ciKlass) :
  this <> [] \/ other <> [] ->
  TypeInterfaces.intersection_iteration this other acc = (this', other', acc') ->
  (length this' + length other' < length this + length other)%nat.
Proof.
  intros Hne H. unfold TypeInterfaces.intersection_iteration in H.
  destruct (intersection_advance_spec this other) as (pre1 & E1 & _ & Hs1).
  remember (TypeInterfaces.intersection_advance this other) as this1 eqn:D1 in *.
  clear D1.
  destruct (intersection_advance_spec other this1) as (pre2 & E2 & _ & Hs2).
  remember (TypeInterfaces.intersection_advance other this1) as other1 eqn:D2 in *.
  clear D2. subst this other.
  rewrite !length_app.
  destruct this1 as [|k this2], other1 as [|k' other2].
  - injection H as <- <- <-. cbn.
    destruct pre1, pre2; cbn in *; try lia.
    destruct Hne as [Hne|Hne]; contradiction.
  - cbn in Hs2. contradiction.
  - injection H as <- <- <-.
    destruct pre2; [cbn in Hs1; contradiction|cbn; lia].
  - destruct (k =? k') eqn:E; injection H as <- <- <-; [cbn; lia|].
    apply Z.eqb_neq in E.
    destruct pre1, pre2; cbn in *; lia.
Qed.

Lemma intersection_loop_terminates (fuel : nat) :
  forall this other acc,
    (length this + length other <= fuel)%nat ->
    exists r, TypeInterfaces.intersection_loop fuel this other acc = Some r.
Proof.
  induction fuel as [|fuel IH]; intros this other acc Hlen.
  - destruct this, other; cbn in Hlen; try lia. eexists. reflexivity.
  - destruct this as [|k this], other as [|k' other];
      [eexists; reflexivity|..]; cbn [TypeInterfaces.intersection_loop];
      match goal with
      | |- context [TypeInterfaces.intersection_iteration ?a ?b ?c] =>
        destruct (TypeInterfaces.intersection_iteration a b c)
          as [[t o] r] eqn:Hit;
        apply intersection_iteration_progress in Hit; [|auto]
      end; apply IH; cbn in *; lia.
Qed.

Lemma intersection_iteration_sorted
    (this other acc this' other' acc' : list ciKlass) :
  sorted_lt (acc ++ this) -> sorted_lt (acc ++ other) ->
  TypeInterfaces.intersection_iteration this other acc = (this', other', acc') ->
  sorted_lt (acc' ++ this') /\ sorted_lt (acc' ++ other') /\
  (forall k, k ∈ acc' \/ (k ∈ this' /\ k ∈ other') <->
             k ∈ acc \/ (k ∈ this /\ k ∈ other)).
Proof.
  intros Hst Hso H. unfold TypeInterfaces.intersection_iteration in H.
  destruct (intersection_advance_spec this other) as (pre1 & E1 & Hp1 & _).
  remember (TypeInterfaces.intersection_advance this other) as this1 eqn:D1 in *.
  clear D1.
  destruct (intersection_advance_spec other this1) as (pre2 & E2 & Hp2 & _).
  remember (TypeInterfaces.intersection_advance other this1) as other1 eqn:D2 in *.
  clear D2.
  assert (Hs_other : sorted_lt other)
    by (eapply StronglySorted_app_1_r; exact Hso).
  assert (Hs_this1 : sorted_lt this1).
  { rewrite E1 in Hst. apply sorted_lt_drop_middle in Hst.
    eapply StronglySorted_app_1_r. exact Hst. }
  assert (Ha : sorted_lt (acc ++ this1))
    by (rewrite E1 in Hst; eapply sorted_lt_drop_middle; exact Hst).
  assert (Hb : sorted_lt (acc ++ other1))
    by (rewrite E2 in Hso; eapply sorted_lt_drop_middle; exact Hso).
  assert (Hmem : forall k, k ∈ acc \/ (k ∈ this1 /\ k ∈ other1) <->
                           k ∈ acc \/ (k ∈ this /\ k ∈ other)).
  { intros k. split; intros [Hk|[Hk1 Hk2]]; try (left; exact Hk).
    - right. rewrite E1, E2, !elem_of_app. tauto.
    - right. rewrite E1 in Hk1. apply elem_of_app in Hk1 as [Hk1|Hk1].
      + exfalso. eapply below_head_not_in; [exact Hs_other|exact Hp1|exact Hk1|exact Hk2].
      + split; [exact Hk1|].
        rewrite E2 in Hk2. apply elem_of_app in Hk2 as [Hk2|Hk2]; [|exact Hk2].
        exfalso. eapply below_head_not_in; [exact Hs_this1|exact Hp2|exact Hk2|exact Hk1]. }
  destruct this1 as [|k this2], other1 as [|k' other2];
    try (injection H as <- <- <-; split; [exact Ha|split; [exact Hb|exact Hmem]]).
  destruct (k =? k') eqn:E;
    [|injection H as <- <- <-; split; [exact Ha|split; [exact Hb|exact Hmem]]].
  apply Z.eqb_eq in E. subst k'. injection H as <- <- <-.
  split; [|split].
  - unfold sorted_lt in *. rewrite <- app_assoc. exact Ha.
  - unfold sorted_lt in *. rewrite <- app_assoc. exact Hb.
  - intros x. rewrite <- Hmem. rewrite !elem_of_app, !elem_of_cons, elem_of_nil.
    split; [|tauto].
    intros [[Hx|[Hx|[]]]|[Hx1 Hx2]]; tauto.
Qed.

Lemma intersection_loop_sorted (fuel : nat) :
  forall this other acc r,
    sorted_lt (acc ++ this) -> sorted_lt (acc ++ other) ->
    TypeInterfaces.intersection_loop fuel this other acc = Some r ->
    sorted_lt r /\ forall k, k ∈ r <-> k ∈ acc \/ (k ∈ this /\ k ∈ other).
Proof.
  induction fuel as [|fuel IH]; intros this other acc r Hst Hso H.
  - destruct this, other; cbn in H; try discriminate.
    injection H as <-. rewrite app_nil_r in Hst. split; [exact Hst|].
    intros k. rewrite elem_of_nil. tauto.
  - destruct this as [|k this], other as [|k' other].
    + cbn in H. injection H as <-. rewrite app_nil_r in Hst.
      split; [exact Hst|]. intros x. rewrite elem_of_nil. tauto.
    + cbn [TypeInterfaces.intersection_loop] in H.
      destruct (TypeInterfaces.intersection_iteration [] (k' :: other) acc)
        as [[t o] a] eqn:Hit.
      apply intersection_iteration_sorted in Hit as (H1 & H2 & Hm); [|assumption..].
      apply IH in H as [Hs Hr]; [|assumption..].
      split; [exact Hs|]. intros x. rewrite Hr. apply Hm.
    + cbn [TypeInterfaces.intersection_loop] in H.
      destruct (TypeInterfaces.intersection_iteration (k :: this) [] acc)
        as [[t o] a] eqn:Hit.
      apply intersection_iteration_sorted in Hit as (H1 & H2 & Hm); [|assumption..].
      apply IH in H as [Hs Hr]; [|assumption..].
      split; [exact Hs|]. intros x. rewrite Hr. apply Hm.
    + cbn [TypeInterfaces.intersection_loop] in H.
      destruct (TypeInterfaces.intersection_iteration (k :: this) (k' :: other) acc)
        as [[t o] a] eqn:Hit.
      apply intersection_iteration_sorted in Hit as (H1 & H2 & Hm); [|assumption..].
      apply IH in H as [Hs Hr]; [|assumption..].
      split; [exact Hs|]. intros x. rewrite Hr. apply Hm.
Qed.

(** [intersection_with] on canonical sets. *)
Lemma intersection_with_spec (S1 S2 : list ciKlass) :
  sorted_lt S1 -> sorted_lt S2 ->
  (exists r, TypeInterfaces.intersection_loop (length S1 + length S2) S1 S2 []
             = Some r) /\
  sorted_lt (TypeInterfaces.intersection_with S1 S2) /\
  forall k, k ∈ TypeInterfaces.intersection_with S1 S2 <-> k ∈ S1 /\ k ∈ S2.
Proof.
  intros H1 H2.
  destruct (intersection_loop_terminates (length S1 + length S2) S1 S2 []
              (le_n _)) as [r Hr].
  split; [eauto|].
  unfold TypeInterfaces.intersection_with. rewrite Hr.
  apply intersection_loop_sorted in Hr as [Hs Hm]; [|assumption..].
  rewrite (make_sorted_lt r Hs). split; [exact Hs|].
  intros k. rewrite Hm, elem_of_nil. tauto.
Qed.

(** C9. For canonical interface sets [S1] and [S2] (sorted by handle,
    without duplicates, as [verify] checks): the union does not depend
    on the order of its operands, the intersection of a set with itself
    is that set, a handle is in the intersection exactly when it is in
    both sets (and in the union when it is in one of them), both results
    are canonical again, and each merge loop ends within
    [length S1 + length S2] iterations. *)
Theorem C9_interface_union_and_intersection (S1 S2 : list ciKlass) :
  TypeInterfaces.verify S1 = true ->
  TypeInterfaces.verify S2 = true ->
  TypeInterfaces.union_with S1 S2 = TypeInterfaces.union_with S2 S1 /\
  TypeInterfaces.intersection_with S1 S1 = S1 /\
  (forall k, In k (TypeInterfaces.intersection_with S1 S2) <->
             In k S1 /\ In k S2) /\
  (forall k, In k (TypeInterfaces.union_with S1 S2) <-> In k S1 \/ In k S2) /\
  TypeInterfaces.verify (TypeInterfaces.union_with S1 S2) = true /\
  TypeInterfaces.verify (TypeInterfaces.intersection_with S1 S2) = true /\
  (exists r, TypeInterfaces.union_loop (length S1 + length S2) S1 S2 [] = Some r) /\
  (exists r, TypeInterfaces.intersection_loop (length S1 + length S2) S1 S2 []
             = Some r).
Proof.
  intros H1 H2. apply verify_sorted_lt in H1, H2.
  destruct (union_with_spec S1 S2 H1 H2) as (Ut & Us & Um).
  destruct (union_with_spec S2 S1 H2 H1) as (_ & Us' & Um').
  destruct (intersection_with_spec S1 S2 H1 H2) as (It & Is & Im).
  destruct (intersection_with_spec S1 S1 H1 H1) as (_ & Is' & Im').
  split; [|split; [|split; [|split; [|split; [|split; [|split]]]]]].
  - apply sorted_lt_ext; [exact Us|exact Us'|].
    intros k. rewrite Um, Um'. tauto.
  - apply sorted_lt_ext; [exact Is'|exact H1|].
    intros k. rewrite Im'. tauto.
  - intros k. rewrite <- !list_elem_of_In. apply Im.
  - intros k. rewrite <- !list_elem_of_In. apply Um.
  - apply verify_sorted_lt. exact Us.
  - apply verify_sorted_lt. exact Is.
  - exact Ut.
  - exact It.
Qed.

Lemma C9_interface_union_and_intersection_witness :
  TypeInterfaces.union_with C9_example_S1 C9_example_S2 = [100; 101; 102; 103] /\
  TypeInterfaces.union_with C9_example_S2 C9_example_S1 = [100; 101; 102; 103] /\
  TypeInterfaces.intersection_with C9_example_S1 C9_example_S1 = C9_example_S1 /\
  TypeInterfaces.intersection_with C9_example_S1 C9_example_S2 = [101].
Proof.
  pose proof (C9_interface_union_and_intersection C9_example_S1 C9_example_S2
                eq_refl eq_refl) as (Hc & Hi & _).
  split; [reflexivity|]. split; [rewrite <- Hc; reflexivity|].
  split; [exact Hi|reflexivity].
Defined.

(* ===================================================================== *)
(** ** Structural equality is equality *)
(* ===================================================================== *)

(** Induction over a pointer type and its speculative part. *)
Lemma TypePtr_induction (P : TypePtr -> Prop) :
  (forall ptr off spec d,
      (forall s, spec = Some s -> P s) -> P (TypePtr_mk ptr off spec d)) ->
  (forall ptr bits, P (TypeRawPtr_mk ptr bits)) ->
  (forall ptr off iid spec d,
      (forall s, spec = Some s -> P s) -> P (TypeOopPtr_mk ptr off iid spec d)) ->
  (forall ptr k ifs xk o off iid spec d,
      (forall s, spec = Some s -> P s) ->
      P (TypeInstPtr_mk ptr k ifs xk o off iid spec d)) ->
  forall p, P p.
Proof.
  intros H1 H2 H3 H4. fix IH 1.
  intros [ptr off spec d|ptr bits|ptr off iid spec d|ptr k ifs xk o off iid spec d].
  - destruct spec as [s|].
    + apply H1. intros s' E. injection E as <-. apply IH.
    + apply H1. intros s' E. discriminate.
  - apply H2.
  - destruct spec as [s|].
    + apply H3. intros s' E. injection E as <-. apply IH.
    + apply H3. intros s' E. discriminate.
  - destruct spec as [s|].
    + apply H4. intros s' E. injection E as <-. apply IH.
    + apply H4. intros s' E. discriminate.
Qed.

Ltac eq_iff :=
  split;
  [ intros;
    repeat match goal with H : _ /\ _ |- _ => destruct H end;
    subst; try reflexivity; try congruence
  | let E := fresh "E" in
    intros E; try discriminate E; inversion E; subst;
    repeat split; auto ].

Lemma TypeInterfaces_eq_eq (l1 : list ciKlass) :
  forall l2, TypeInterfaces.eq l1 l2 = true <-> l1 = l2.
Proof.
  induction l1 as [|k l1 IH]; intros [|k' l2]; cbn [TypeInterfaces.eq];
    try (eq_iff; fail).
  rewrite andb_true_iff, Z.eqb_eq, IH. eq_iff.
Qed.

Lemma option_eqb_Z_eq (a b : option Z) :
  option_eqb Z.eqb a b = true <-> a = b.
Proof.
  destruct a as [x|], b as [y|]; cbn; try (eq_iff; fail).
  rewrite Z.eqb_eq. eq_iff.
Qed.

Lemma TypePtr_equals_eq (a : TypePtr) :
  forall b, TypePtr_equals a b = true <-> a = b.
Proof.
  induction a as [p1 o1 s1 d1 IH|p1 b1|p1 o1 i1 s1 d1 IH
                  |p1 k1 f1 x1 c1 o1 i1 s1 d1 IH] using TypePtr_induction;
    intros [p2 o2 s2 d2|p2 b2|p2 o2 i2 s2 d2|p2 k2 f2 x2 c2 o2 i2 s2 d2];
    cbn [TypePtr_equals]; try (eq_iff; fail);
    rewrite ?andb_true_iff, ?PTR_eqb_eq, ?Z.eqb_eq, ?TypeInterfaces_eq_eq,
      ?eqb_true_iff, ?option_eqb_Z_eq;
    try (destruct s1 as [x|], s2 as [y|]; [rewrite (IH x eq_refl y)| | |]);
    eq_iff.
Qed.

Lemma TypeInteger_eq_eq (a b : TypeInteger.t) :
  TypeInteger_eq a b = true <-> a = b.
Proof.
  destruct a as [l1 h1 ul1 uh1 [z1 n1] w1 d1], b as [l2 h2 ul2 uh2 [z2 n2] w2 d2].
  unfold TypeInteger_eq. cbn.
  rewrite !andb_true_iff, !Z.eqb_eq, eqb_true_iff. eq_iff.
Qed.

Lemma Type_equals_eq (a b : Type_) : Type_equals a b = true <-> a = b.
Proof.
  destruct a, b; cbn; try (eq_iff; fail);
    rewrite ?TYPES_eqb_eq, ?Z.eqb_eq, ?TypeInteger_eq_eq, ?TypePtr_equals_eq;
    eq_iff.
Qed.

Lemma same_type_eq (a b : Type_) : same_type a b = true <-> a = b.
Proof. apply Type_equals_eq. Qed.

Lemma same_ptr_eq (a b : TypePtr) : same_ptr a b = true <-> a = b.
Proof. apply TypePtr_equals_eq. Qed.

Lemma same_type_refl (a : Type_) : same_type a a = true.
Proof. apply same_type_eq. reflexivity. Qed.

Lemma same_type_neq (a b : Type_) : a <> b -> same_type a b = false.
Proof.
  intros Hne. destruct (same_type a b) eqn:E; [|reflexivity].
  apply same_type_eq in E. contradiction.
Qed.

Lemma same_ptr_false (a b : TypePtr) : same_ptr a b = false -> a <> b.
Proof. intros E ->. rewrite (proj2 (same_ptr_eq b b) eq_refl) in E. discriminate. Qed.

(* ===================================================================== *)
(** ** Speculative parts of a pointer meet *)
(* ===================================================================== *)

Lemma TypeOopPtr_make_Ret ptr off iid spec d r :
  TypeOopPtr_make ptr off iid spec d = Ret r ->
  r = TypeOopPtr_mk ptr off iid spec d.
Proof.
  unfold TypeOopPtr_make. intros H.
  apply bind_Ret_inv in H as [_ [_ H]]. congruence.
Qed.

Lemma TypeInstPtr_make_Ret env ptr k ifs xk o off iid spec d r :
  TypeInstPtr_make env ptr k ifs xk o off iid spec d = Ret r ->
  exists xk', r = TypeInstPtr_mk ptr k ifs xk' o off iid spec d.
Proof.
  unfold TypeInstPtr_make. intros H.
  repeat (apply bind_Ret_inv in H as [? [_ H]]).
  eexists. symmetry. injection H as H. exact H.
Qed.

Lemma remove_speculative_no_speculative env this r :
  remove_speculative env this = Ret r -> speculative r = None.
Proof.
  unfold remove_speculative. destruct (speculative this) as [s|] eqn:Hs.
  - intros H. apply bind_Ret_inv in H as [_ [_ H]].
    destruct this as [p o s' d|p b|p o i s' d|p k f x c o i s' d].
    + injection H as <-. reflexivity.
    + discriminate Hs.
    + apply TypeOopPtr_make_Ret in H as ->. reflexivity.
    + apply TypeInstPtr_make_Ret in H as [xk' ->]. reflexivity.
  - intros H. injection H as <-. exact Hs.
Qed.

Lemma remove_speculative_inline_depth env this r :
  remove_speculative env this = Ret r -> inline_depth r = inline_depth this.
Proof.
  unfold remove_speculative. destruct (speculative this) as [s|] eqn:Hs.
  - intros H. apply bind_Ret_inv in H as [_ [_ H]].
    destruct this as [p o s' d|p b|p o i s' d|p k f x c o i s' d].
    + injection H as <-. reflexivity.
    + discriminate Hs.
    + apply TypeOopPtr_make_Ret in H as ->. reflexivity.
    + apply TypeInstPtr_make_Ret in H as [xk' ->]. reflexivity.
  - intros H. injection H as <-. reflexivity.
Qed.

(** What [TypePtr::xmeet] returns after [xmeet_helper]: a speculative part
    that is kept differs from the type without it. *)
Lemma TypePtr_xmeet_normalize_kept env res r s :
  TypePtr_xmeet_normalize env res = Ret (Ptr r) ->
  speculative r = Some s ->
  res = Ptr r /\
  exists no_spec, remove_speculative env r = Ret no_spec /\ no_spec <> s.
Proof.
  unfold TypePtr_xmeet_normalize.
  destruct res as [b|f|d|h|i|l|res_ptr]; cbn [isa_ptr]; try discriminate.
  destruct (speculative res_ptr) as [spec|] eqn:Hspec.
  - intros H Hs. apply bind_Ret_inv in H as [no_spec [Hrm H]].
    destruct (same_ptr no_spec spec) eqn:Hsame.
    + injection H as <-.
      rewrite (remove_speculative_no_speculative _ _ _ Hrm) in Hs. discriminate.
    + injection H as <-. split; [reflexivity|].
      exists no_spec. split; [exact Hrm|].
      apply same_ptr_false in Hsame. congruence.
  - intros H Hs. injection H as <-. congruence.
Qed.

(** ... and a speculative part equal to the type without it is dropped. *)
Lemma TypePtr_xmeet_normalize_dropped env res_ptr s :
  speculative res_ptr = Some s ->
  remove_speculative env res_ptr = Ret s ->
  TypePtr_xmeet_normalize env (Ptr res_ptr) = Ret (Ptr s) /\
  speculative s = None.
Proof.
  intros Hs Hrm. unfold TypePtr_xmeet_normalize. cbn [isa_ptr].
  rewrite Hs, Hrm. cbn [bind].
  rewrite (proj2 (same_ptr_eq s s) eq_refl).
  split; [reflexivity|]. eapply remove_speculative_no_speculative, Hrm.
Qed.

Lemma pointer_xmeet_unfold env m this t :
  base (Ptr this) <> RawPtr ->
  pointer_xmeet env m this t =
  (do res <- xmeet_helper env m this t; TypePtr_xmeet_normalize env res).
Proof.
  destruct this; cbn; intros Hb; try reflexivity. contradiction.
Qed.

Lemma xmeet_pointer_unfold env m this t :
  xmeet env m (Ptr this) t = pointer_xmeet env m this t.
Proof. reflexivity. Qed.

Lemma xmeet_speculative_none m this other :
  speculative this = None -> speculative other = None ->
  xmeet_speculative m this other = Ret None.
Proof. intros H1 H2. unfold xmeet_speculative. rewrite H1, H2. reflexivity. Qed.

Ltac no_speculative_call :=
  repeat match goal with
  | |- context [xmeet_speculative ?m ?a ?b] =>
    rewrite (xmeet_speculative_none m a b) by assumption
  end.

Ltac by_tag_of t :=
  let Hb := fresh "Hb" in
  destruct (base t) eqn:Hb; try reflexivity;
  destruct t as [?|?|?|?|?|?|?]; cbn [is_ptr bind]; try reflexivity.

Lemma xmeet_unloaded_without_speculative_parts env m1 m2 this tinst ifs :
  speculative this = None -> speculative tinst = None ->
  xmeet_unloaded env m1 this tinst ifs = xmeet_unloaded env m2 this tinst ifs.
Proof.
  intros H1 H2. unfold xmeet_unloaded. no_speculative_call. reflexivity.
Qed.

Lemma TypeInstPtr_xmeet_helper_without_speculative_parts env m1 m2 this t :
  speculative this = None ->
  (forall p, t = Ptr p -> speculative p = None) ->
  TypeInstPtr_xmeet_helper env m1 this t = TypeInstPtr_xmeet_helper env m2 this t.
Proof.
  intros H1 H2. unfold TypeInstPtr_xmeet_helper.
  destruct (same_type (Ptr this) t); [reflexivity|].
  by_tag_of t; pose proof (H2 _ eq_refl) as H3;
    no_speculative_call;
    rewrite ?(xmeet_unloaded_without_speculative_parts env m1 m2) by assumption;
    reflexivity.
Qed.

Lemma TypeInstPtr_xmeet_without_speculative_parts env m1 m2 this t :
  speculative this = None ->
  (forall p, t = Ptr p -> speculative p = None) ->
  TypeInstPtr_xmeet env m1 this t = TypeInstPtr_xmeet env m2 this t.
Proof.
  intros H1 H2. unfold TypeInstPtr_xmeet.
  rewrite (TypeInstPtr_xmeet_helper_without_speculative_parts env m1 m2)
    by assumption.
  reflexivity.
Qed.

Lemma TypeOopPtr_xmeet_helper_without_speculative_parts env m1 m2 this t :
  speculative this = None ->
  (forall p, t = Ptr p -> speculative p = None) ->
  TypeOopPtr_xmeet_helper env m1 this t = TypeOopPtr_xmeet_helper env m2 this t.
Proof.
  intros H1 H2. unfold TypeOopPtr_xmeet_helper.
  destruct (same_type (Ptr this) t); [reflexivity|].
  by_tag_of t; pose proof (H2 _ eq_refl) as H3;
    no_speculative_call; try reflexivity.
  apply TypeInstPtr_xmeet_without_speculative_parts; [assumption|].
  intros q E. injection E as <-. assumption.
Qed.

Lemma TypeOopPtr_xmeet_without_speculative_parts env m1 m2 this t :
  speculative this = None ->
  (forall p, t = Ptr p -> speculative p = None) ->
  TypeOopPtr_xmeet env m1 this t = TypeOopPtr_xmeet env m2 this t.
Proof.
  intros H1 H2. unfold TypeOopPtr_xmeet.
  rewrite (TypeOopPtr_xmeet_helper_without_speculative_parts env m1 m2)
    by assumption.
  reflexivity.
Qed.

Lemma TypePtr_xmeet_helper_without_speculative_parts env m1 m2 this t :
  speculative this = None ->
  (forall p, t = Ptr p -> speculative p = None) ->
  TypePtr_xmeet_helper env m1 this t = TypePtr_xmeet_helper env m2 this t.
Proof.
  intros H1 H2. unfold TypePtr_xmeet_helper.
  destruct (same_type (Ptr this) t); [reflexivity|].
  by_tag_of t; pose proof (H2 _ eq_refl) as H3;
    no_speculative_call; try reflexivity.
  - apply TypeOopPtr_xmeet_without_speculative_parts; [assumption|].
    intros q E. injection E as <-. assumption.
  - apply TypeInstPtr_xmeet_without_speculative_parts; [assumption|].
    intros q E. injection E as <-. assumption.
Qed.

Lemma pointer_xmeet_without_speculative_parts env m1 m2 this t :
  speculative this = None ->
  (forall p, t = Ptr p -> speculative p = None) ->
  pointer_xmeet env m1 this t = pointer_xmeet env m2 this t.
Proof.
  intros H1 H2. destruct this; cbn [pointer_xmeet].
  - unfold TypePtr_xmeet.
    rewrite (TypePtr_xmeet_helper_without_speculative_parts env m1 m2)
      by assumption.
    reflexivity.
  - reflexivity.
  - apply TypeOopPtr_xmeet_without_speculative_parts; assumption.
  - apply TypeInstPtr_xmeet_without_speculative_parts; assumption.
Qed.

(** Between two types without speculative parts [xmeet] never asks for
    the meet of speculative parts. *)
Lemma xmeet_without_speculative_parts env m1 m2 this t :
  (forall p, this = Ptr p -> speculative p = None) ->
  (forall p, t = Ptr p -> speculative p = None) ->
  xmeet env m1 this t = xmeet env m2 this t.
Proof.
  intros H1 H2.
  destruct this as [b|f|d|h|i|l|p]; cbn [xmeet subclass_xmeet]; try reflexivity.
  apply pointer_xmeet_without_speculative_parts; [|assumption].
  apply H1. reflexivity.
Qed.

(** The meet of two speculative parts is [Type::meet] of the two. *)
Lemma meet_of_speculative_is_meet env (this_spec other_spec : TypePtr) :
  meet_of_speculative env this_spec other_spec =
  meet env (Ptr this_spec) (Ptr other_spec).
Proof.
  unfold meet_of_speculative, meet, meet_helper, maybe_remove_speculative,
    Type_remove_speculative, xmeet_stripped.
  cbn [negb].
  destruct (remove_speculative env this_spec) as [a|e] eqn:Ha; cbn [bind];
    [|reflexivity].
  destruct (remove_speculative env other_spec) as [b|e] eqn:Hb; cbn [bind];
    [|reflexivity].
  apply xmeet_without_speculative_parts; intros q E; injection E as <-;
    eapply remove_speculative_no_speculative; eassumption.
Qed.

Lemma TypePtr_xmeet_normalize_inline_depth env p r :
  TypePtr_xmeet_normalize env (Ptr p) = Ret (Ptr r) ->
  inline_depth r = inline_depth p.
Proof.
  unfold TypePtr_xmeet_normalize. cbn [isa_ptr].
  destruct (speculative p) as [spec|].
  - intros H. apply bind_Ret_inv in H as [no_spec [Hrm H]].
    destruct (same_ptr no_spec spec); injection H as <-; [|reflexivity].
    eapply remove_speculative_inline_depth, Hrm.
  - intros H. injection H as <-. reflexivity.
Qed.

Lemma TypePtr_xmeet_normalize_no_speculative env p r :
  speculative p = None ->
  TypePtr_xmeet_normalize env (Ptr p) = Ret (Ptr r) -> r = p.
Proof.
  unfold TypePtr_xmeet_normalize. cbn [isa_ptr]. intros ->. congruence.
Qed.

(** The meet of two [AnyPtr] pointers before normalisation. *)
Lemma TypePtr_xmeet_helper_AnyPtr env m this other res :
  base (Ptr this) = AnyPtr -> base (Ptr other) = AnyPtr ->
  TypePtr_xmeet_helper env m this (Ptr other) = Ret res ->
  exists res_ptr, res = Ptr res_ptr /\
    inline_depth res_ptr = Z.max (inline_depth this) (inline_depth other) /\
    (speculative this = None -> speculative other = None ->
     speculative res_ptr = None).
Proof.
  intros Hb1 Hb2. unfold TypePtr_xmeet_helper.
  destruct (same_type (Ptr this) (Ptr other)) eqn:Hsame.
  - apply same_type_eq in Hsame. injection Hsame as <-.
    intros H. injection H as <-. exists this.
    split; [reflexivity|]. split; [symmetry; apply Z.max_id|]. auto.
  - rewrite Hb2. cbn [is_ptr bind]. intros H.
    apply bind_Ret_inv in H as [spec [Hspec H]]. injection H as <-.
    eexists. split; [reflexivity|]. split; [reflexivity|].
    intros H1 H2. rewrite (xmeet_speculative_none m _ _ H1 H2) in Hspec.
    injection Hspec as <-. reflexivity.
Qed.

(** C10, for [TypeRawPtr::xmeet]: the meet of the raw pointer
    [TypeRawPtr::BOTTOM] with a non-null [AnyPtr] that is speculated
    possibly null carries the speculative part of the operand over, and
    the pointer returned has a speculative part equal to itself without
    it. *)
Lemma C10_raw_pointer_meet_keeps_redundant_speculative :
  let r := TypePtr_mk BotPTR 0 (Some plain_bottom) InlineDepthBottom in
  xmeet example_env (meet_of_speculative example_env)
    (Ptr TypeRawPtr_BOTTOM) (Ptr speculated_bottom) = Ret (Ptr r) /\
  meet_helper example_env (Ptr TypeRawPtr_BOTTOM) (Ptr speculated_bottom) true =
    Ret (Ptr r) /\
  speculative r = Some plain_bottom /\
  remove_speculative example_env r = Ret plain_bottom.
Proof. vm_compute. repeat split; reflexivity. Qed.

(** C10, for the classes that do not override [TypePtr::xmeet] ([AnyPtr],
    [OopPtr], [InstPtr] receivers): the pointer returned is normalised:
    when it has a speculative part, that part differs from the returned
    type without its speculative part; and when the meet [xmeet_helper]
    computed has a speculative part equal to that meet without it, the
    type without the speculative part is returned. *)
Theorem C10_TypePtr_xmeet_is_normalized env (this : TypePtr) (t : Type_) :
  base (Ptr this) <> RawPtr ->
  (forall r s,
      xmeet env (meet_of_speculative env) (Ptr this) t = Ret (Ptr r) ->
      speculative r = Some s ->
      exists no_spec, remove_speculative env r = Ret no_spec /\ no_spec <> s) /\
  (forall res_ptr s,
      xmeet_helper env (meet_of_speculative env) this t = Ret (Ptr res_ptr) ->
      speculative res_ptr = Some s ->
      remove_speculative env res_ptr = Ret s ->
      xmeet env (meet_of_speculative env) (Ptr this) t = Ret (Ptr s) /\
      speculative s = None).
Proof.
  intros Hb. rewrite xmeet_pointer_unfold, (pointer_xmeet_unfold _ _ _ _ Hb).
  split.
  - intros r s H Hs. apply bind_Ret_inv in H as [res [_ Hn]].
    eapply TypePtr_xmeet_normalize_kept; eassumption.
  - intros res_ptr s Hh Hs Hrm. rewrite Hh. cbn [bind].
    apply TypePtr_xmeet_normalize_dropped; assumption.
Qed.

Lemma C10_TypePtr_xmeet_is_normalized_witness :
  (exists no_spec,
      remove_speculative example_env speculated_not_null = Ret no_spec /\
      no_spec <> plain_not_null) /\
  (xmeet example_env (meet_of_speculative example_env)
     (Ptr speculated_bottom) (Ptr plain_bottom) = Ret (Ptr plain_bottom) /\
   speculative plain_bottom = None).
Proof.
  assert (Hb : forall p o s d, base (Ptr (TypePtr_mk p o s d)) <> RawPtr)
    by (intros; discriminate).
  split.
  - apply (proj1 (C10_TypePtr_xmeet_is_normalized example_env
                    speculated_not_null (Ptr plain_not_null) (Hb _ _ _ _))
             speculated_not_null plain_not_null); reflexivity.
  - apply (proj2 (C10_TypePtr_xmeet_is_normalized example_env
                    speculated_bottom (Ptr plain_bottom) (Hb _ _ _ _))
             (TypePtr_mk BotPTR 0 (Some plain_bottom) InlineDepthBottom)
             plain_bottom); reflexivity.
Defined.

(* ===================================================================== *)
(** ** Commutativity of the meet *)
(* ===================================================================== *)

Lemma ptr_meet_comm a b : ptr_meet a b = ptr_meet b a.
Proof. destruct a, b; reflexivity. Qed.

Lemma meet_offset_comm this other :
  meet_offset this (offset other) = meet_offset other (offset this).
Proof.
  unfold meet_offset.
  destruct (offset this =? OffsetTop) eqn:E1, (offset other =? OffsetTop) eqn:E2;
    try reflexivity.
  - apply Z.eqb_eq in E1, E2. congruence.
  - rewrite (Z.eqb_sym (offset other)).
    destruct (offset this =? offset other) eqn:E3; [|reflexivity].
    apply Z.eqb_eq in E3. cbn [negb]. exact E3.
Qed.

(** The meet of two [AnyPtr] pointers without speculative parts does not
    depend on the order of the operands. *)
Lemma meet_AnyPtr_comm env (a b : TypePtr) :
  base (Ptr a) = AnyPtr -> base (Ptr b) = AnyPtr ->
  speculative a = None -> speculative b = None ->
  meet env (Ptr a) (Ptr b) = meet env (Ptr b) (Ptr a).
Proof.
  destruct a as [p1 o1 s1 d1| | |], b as [p2 o2 s2 d2| | |];
    try discriminate. cbn [speculative]. intros _ _ -> ->.
  unfold meet, meet_helper, maybe_remove_speculative, Type_remove_speculative,
    remove_speculative.
  cbn [negb speculative bind xmeet subclass_xmeet pointer_xmeet].
  unfold TypePtr_xmeet, TypePtr_xmeet_helper.
  destruct (same_type (Ptr (TypePtr_mk p1 o1 None d1))
              (Ptr (TypePtr_mk p2 o2 None d2))) eqn:E.
  - apply same_type_eq in E. injection E as -> -> ->.
    rewrite same_type_refl. reflexivity.
  - rewrite same_type_neq.
    2:{ intros E'. rewrite E', same_type_refl in E. discriminate. }
    cbn [base is_ptr bind].
    rewrite !xmeet_speculative_none by reflexivity. cbn [bind].
    unfold meet_ptr, meet_inline_depth. cbn [ptr inline_depth].
    rewrite (ptr_meet_comm p2 p1), (Z.max_comm d1 d2),
      (meet_offset_comm (TypePtr_mk p1 o1 None d1) (TypePtr_mk p2 o2 None d2)).
    reflexivity.
Qed.

(** C1: the meet is not the same in both orders.  [Type::xmeet] has no
    case for [AnyPtr] (nor [RawPtr]), so [FLOAT] meet the null pointer
    ends in [typerr], while [TypePtr::xmeet_helper] returns [BOTTOM] for
    the null pointer meet [FLOAT].  With the speculative parts kept
    ([meet_helper(t, true)]), a raw pointer meet an [AnyPtr] and the
    [AnyPtr] meet the raw pointer return two different types. *)
Theorem C1_meet_depends_on_operand_order env :
  (meet env FLOAT (Ptr TypePtr_NULL_PTR) = Abort ShouldNotReachHere /\
   meet env (Ptr TypePtr_NULL_PTR) FLOAT = Ret BOTTOM) /\
  (meet_helper env (Ptr TypeRawPtr_BOTTOM) (Ptr speculated_bottom) true =
     Ret (Ptr (TypePtr_mk BotPTR 0 (Some plain_bottom) InlineDepthBottom)) /\
   meet_helper env (Ptr speculated_bottom) (Ptr TypeRawPtr_BOTTOM) true =
     Ret (Ptr plain_bottom)).
Proof. repeat split; reflexivity. Qed.

(* ===================================================================== *)
(** ** The meet of two unrelated instance pointers *)
(* ===================================================================== *)

Lemma remove_speculative_InstPtr env p k f xk o off iid s d this0 :
  remove_speculative env (TypeInstPtr_mk p k f xk o off iid s d) = Ret this0 ->
  exists xk', this0 = TypeInstPtr_mk p k f xk' o off iid None d.
Proof.
  unfold remove_speculative. cbn [speculative]. destruct s as [s|].
  - intros H. apply bind_Ret_inv in H as [_ [_ H]].
    apply TypeInstPtr_make_Ret in H. exact H.
  - intros H. injection H as <-. eauto.
Qed.

Lemma is_meet_subtype_of_unrelated env this other :
  is_subtype_of env (klass env this) (klass env other) = false ->
  klass env other <> Object_klass env ->
  is_meet_subtype_of env this other = false.
Proof.
  intros Hsub Hobj.
  unfold is_meet_subtype_of, is_meet_subtype_of_helper_for_instance.
  destruct (is_instance_type other); [|reflexivity]. cbn [negb].
  destruct (klass env other =? Object_klass env) eqn:E.
  - apply Z.eqb_eq in E. contradiction.
  - cbn [andb]. rewrite Hsub. reflexivity.
Qed.

Lemma is_same_java_type_as_other_klass env this other :
  klass env this <> klass env other ->
  is_same_java_type_as env this other = false.
Proof.
  intros Hne. unfold is_same_java_type_as.
  destruct (negb (is_loaded env (klass env this)) ||
            negb (is_loaded env (klass env other))); [reflexivity|].
  destruct (negb (is_instance_type other)); [reflexivity|].
  destruct (klass env this =? klass env other) eqn:E; [|reflexivity].
  apply Z.eqb_eq in E. contradiction.
Qed.

(** [meet_instptr] on two loaded classes neither of which is a subtype
    of the other. *)
Lemma meet_instptr_unrelated env ptr0 interfaces0 this other :
  is_loaded env (klass env this) = true ->
  is_loaded env (klass env other) = true ->
  klass env this <> klass env other ->
  klass env this <> Object_klass env ->
  klass env other <> Object_klass env ->
  is_subtype_of env (klass env this) (klass env other) = false ->
  is_subtype_of env (klass env other) (klass env this) = false ->
  meet_instptr env ptr0 interfaces0 this other =
  {| mi_kind := LCA;
     mi_ptr := if PTR_eqb ptr0 TopPTR || PTR_eqb ptr0 AnyNull ||
                  PTR_eqb ptr0 Constant then NotNull else ptr0;
     mi_interfaces :=
       TypeInterfaces.intersection_with (interfaces this) (interfaces other);
     mi_res_klass :=
       Some (least_common_ancestor env (klass env this) (klass env other));
     mi_res_xk := false |}.
Proof.
  intros Hl1 Hl2 Hne Ho1 Ho2 Hs1 Hs2. unfold meet_instptr.
  assert (E : (klass env this =? klass env other) = false)
    by (apply Z.eqb_neq; exact Hne).
  rewrite E, andb_false_r. cbn [andb].
  rewrite Hl1, Hl2. cbn [negb orb].
  rewrite (is_same_java_type_as_other_klass _ _ _ Hne).
  rewrite (is_meet_subtype_of_unrelated _ _ _ Hs1 Ho2),
    (is_meet_subtype_of_unrelated _ _ _ Hs2 Ho1), !andb_false_r.
  rewrite (is_same_java_type_as_other_klass _ _ _ Hne).
  reflexivity.
Qed.

Lemma ptr_meet_not_Null a b : a <> Null -> b <> Null -> ptr_meet a b <> Null.
Proof. destruct a, b; cbn; congruence. Qed.

(** [TypeInstPtr::make] for the least common ancestor. *)
Lemma TypeInstPtr_make_not_exact env p k ifs off iid spec d :
  p <> Null -> p <> Constant ->
  is_loaded env k = true -> is_instance_klass env k = true ->
  is_interface env k = false -> is_final env k = false ->
  forallb (is_loaded env) ifs = true -> iid <= 0 ->
  TypeInstPtr_make env p k ifs false None off iid spec d =
  Ret (TypeInstPtr_mk p k ifs false None off iid spec d).
Proof.
  intros Hn Hc Hl Hi Hf Hfin Hifs Hiid. unfold TypeInstPtr_make.
  assert (E1 : PTR_eqb p Null = false).
  { destruct (PTR_eqb p Null) eqn:E; [apply PTR_eqb_eq in E; contradiction|].
    reflexivity. }
  assert (E2 : PTR_eqb p Constant = false).
  { destruct (PTR_eqb p Constant) eqn:E; [apply PTR_eqb_eq in E; contradiction|].
    reflexivity. }
  assert (E3 : (iid <=? 0) = true) by (apply Z.leb_le; exact Hiid).
  rewrite Hl, Hi, Hf, Hfin, Hifs, E1, E2, E3. reflexivity.
Qed.

Lemma fall_to_NotNull_facts (p : PTR) :
  let q := if PTR_eqb p TopPTR || PTR_eqb p AnyNull || PTR_eqb p Constant
           then NotNull else p in
  p <> Null ->
  q <> Null /\ q <> Constant /\ PTR_eqb q Constant = false /\
  below_centerline q = true.
Proof. destruct p; cbn; intros H; repeat split; congruence. Qed.

Lemma intersection_with_loaded env (S1 S2 : list ciKlass) :
  TypeInterfaces.verify S1 = true -> TypeInterfaces.verify S2 = true ->
  forallb (is_loaded env) S1 = true ->
  forallb (is_loaded env) (TypeInterfaces.intersection_with S1 S2) = true.
Proof.
  intros H1 H2 Hl. apply forallb_forall. intros k Hk.
  apply verify_sorted_lt in H1, H2.
  destruct (intersection_with_spec S1 S2 H1 H2) as [_ [_ Hm]].
  apply list_elem_of_In, Hm in Hk. destruct Hk as [Hk _].
  rewrite forallb_forall in Hl. apply Hl, list_elem_of_In, Hk.
Qed.

(** C2: the meet of two instance pointers of loaded classes, neither a
    subtype of the other, is the instance pointer of their least common
    ancestor: its [ptr] is the meet of the two, moved from [TopPTR],
    [AnyNull] or [Constant] to [NotNull] (so it is [NotNull] or
    [BotPTR]), its interfaces are the intersection of the two sets, and
    it is not exact.  The hypotheses on [is_subtype_of],
    [least_common_ancestor] and [is_final] are facts of a class
    hierarchy, at the classes of the two operands. *)
Theorem C2_unrelated_instances_meet_at_least_common_ancestor
    env (this tinst this0 tinst0 : TypePtr) :
  let k1 := klass env this in
  let k2 := klass env tinst in
  let lca := least_common_ancestor env k1 k2 in
  let ptr0 := meet_ptr this (ptr tinst) in
  is_instance_type this = true -> is_instance_type tinst = true ->
  ptr this <> Null -> ptr tinst <> Null ->
  TypeInterfaces.verify (interfaces this) = true ->
  TypeInterfaces.verify (interfaces tinst) = true ->
  forallb (is_loaded env) (interfaces this) = true ->
  remove_speculative env this = Ret this0 ->
  remove_speculative env tinst = Ret tinst0 ->
  is_loaded env k1 = true -> is_loaded env k2 = true ->
  is_subtype_of env k1 k2 = false -> is_subtype_of env k2 k1 = false ->
  is_subtype_of env k1 k1 = true ->
  is_subtype_of env k1 (Object_klass env) = true ->
  is_subtype_of env k2 (Object_klass env) = true ->
  is_subtype_of env k1 lca = true -> is_subtype_of env k2 lca = true ->
  is_loaded env lca = true -> is_instance_klass env lca = true ->
  is_interface env lca = false ->
  (is_final env lca = true ->
   forall s, is_subtype_of env s lca = true -> s = lca) ->
  let res :=
    TypeInstPtr_mk
      (if PTR_eqb ptr0 TopPTR || PTR_eqb ptr0 AnyNull || PTR_eqb ptr0 Constant
       then NotNull else ptr0)
      lca
      (TypeInterfaces.intersection_with (interfaces this) (interfaces tinst))
      false None (meet_offset this (offset tinst)) InstanceBot None
      (meet_inline_depth this (inline_depth tinst)) in
  meet env (Ptr this) (Ptr tinst) = Ret (Ptr res) /\
  below_centerline (ptr res) = true.
Proof.
  intros k1 k2 lca ptr0 Hi1 Hi2 Hn1 Hn2 Hv1 Hv2 Hifs Hr1 Hr2 Hl1 Hl2 Hs12 Hs21
    Hrefl HO1 HO2 Hup1 Hup2 Hll Hli Hlf Hfinal res.
  assert (Hne : k1 <> k2) by (intros E; rewrite <- E in Hs12; congruence).
  assert (HnO1 : k1 <> Object_klass env) by (intros E; rewrite <- E in HO2; congruence).
  assert (HnO2 : k2 <> Object_klass env) by (intros E; rewrite <- E in HO1; congruence).
  assert (Hfin : is_final env lca = false).
  { destruct (is_final env lca) eqn:E; [|reflexivity].
    specialize (Hfinal eq_refl).
    exfalso. apply Hne. rewrite (Hfinal _ Hup1), (Hfinal _ Hup2). reflexivity. }
  destruct this as [| | |p1 c1 f1 x1 o1 off1 i1 s1 d1]; try discriminate Hi1.
  destruct tinst as [| | |p2 c2 f2 x2 o2 off2 i2 s2 d2]; try discriminate Hi2.
  apply remove_speculative_InstPtr in Hr1 as Hr1'. destruct Hr1' as [x1' ->].
  apply remove_speculative_InstPtr in Hr2 as Hr2'. destruct Hr2' as [x2' ->].
  cbn [klass interfaces ptr offset inline_depth] in *.
  subst k1 k2.
  assert (Hp0 : ptr0 <> Null) by (apply ptr_meet_not_Null; assumption).
  destruct (fall_to_NotNull_facts ptr0 Hp0) as [Hq1 [Hq2 [Hq3 Hq4]]].
  split; [|exact Hq4].
  unfold meet, meet_helper, maybe_remove_speculative, Type_remove_speculative.
  cbn [negb]. rewrite Hr1, Hr2.
  cbn [bind xmeet subclass_xmeet pointer_xmeet].
  unfold TypeInstPtr_xmeet, TypeInstPtr_xmeet_helper.
  rewrite same_type_neq by (intros E; injection E; intros; subst; contradiction).
  cbn [base is_ptr bind]. rewrite xmeet_speculative_none by reflexivity.
  cbn [bind].
  rewrite meet_instptr_unrelated by (cbn [klass]; assumption).
  cbn [mi_kind mi_ptr mi_interfaces mi_res_klass mi_res_xk klass interfaces].
  subst res ptr0. unfold meet_ptr, meet_offset, meet_inline_depth in *.
  cbn [ptr offset inline_depth] in *.
  rewrite Hq3. cbn [bind fst snd].
  rewrite TypeInstPtr_make_not_exact;
    [ reflexivity | assumption.. | | ].
  - apply intersection_with_loaded; assumption.
  - unfold InstanceBot. lia.
Qed.

Lemma C2_unrelated_instances_meet_at_least_common_ancestor_witness :
  meet example_env (Ptr example_foo) (Ptr example_bar) =
    Ret (Ptr (TypeInstPtr_mk NotNull 2 [101] false None 0 InstanceBot None
                InlineDepthBottom)) /\
  below_centerline NotNull = true.
Proof.
  apply (C2_unrelated_instances_meet_at_least_common_ancestor example_env
           example_foo example_bar example_foo example_bar);
    try reflexivity; discriminate.
Defined.

(* ===================================================================== *)
(** ** The dual is an involution *)
(* ===================================================================== *)

Lemma ptr_dual_involutive a : ptr_dual (ptr_dual a) = a.
Proof. destruct a; reflexivity. Qed.

Lemma dual_offset_twice (o : Z) :
  let f x := if x =? OffsetTop then OffsetBot
             else if x =? OffsetBot then OffsetTop else x in
  f (f o) = o.
Proof.
  cbv zeta. destruct (o =? OffsetTop) eqn:E1.
  - apply Z.eqb_eq in E1. subst o. reflexivity.
  - destruct (o =? OffsetBot) eqn:E2.
    + apply Z.eqb_eq in E2. subst o. reflexivity.
    + cbv iota. repeat (first [rewrite E1 | rewrite E2]; cbv iota).
      reflexivity.
Qed.

Lemma dual_instance_id_twice (i : Z) :
  let f x := if x =? InstanceTop then InstanceBot
             else if x =? InstanceBot then InstanceTop else x in
  f (f i) = i.
Proof.
  cbv zeta. destruct (i =? InstanceTop) eqn:E1.
  - apply Z.eqb_eq in E1. subst i. reflexivity.
  - destruct (i =? InstanceBot) eqn:E2.
    + apply Z.eqb_eq in E2. subst i. reflexivity.
    + cbv iota. repeat (first [rewrite E1 | rewrite E2]; cbv iota).
      reflexivity.
Qed.

Lemma TypePtr_xdual_involutive (p : TypePtr) :
  TypePtr_xdual (TypePtr_xdual p) = p.
Proof.
  induction p as [p o s d IH|p b|p o i s d IH|p k f x c o i s d IH]
    using TypePtr_induction;
    cbn [TypePtr_xdual]; unfold dual_ptr, dual_offset, dual_instance_id,
      dual_inline_depth; cbn [ptr offset instance_id inline_depth];
    rewrite ?ptr_dual_involutive, ?Z.opp_involutive;
    try (pose proof (dual_offset_twice o) as Ho; cbv zeta in Ho; rewrite Ho);
    try (pose proof (dual_instance_id_twice i) as Hi; cbv zeta in Hi; rewrite Hi);
    try (destruct s as [s|]; [rewrite (IH s eq_refl)|]); reflexivity.
Qed.

Lemma dual_type_involutive b :
  dual_type b <> Bad -> dual_type (dual_type b) = b.
Proof. destruct b; cbn; congruence. Qed.

Lemma TypeInt_xdual_involutive i : TypeInt.xdual (TypeInt.xdual i) = i.
Proof. destruct i. unfold TypeInt.xdual. cbn. rewrite negb_involutive. reflexivity. Qed.

Lemma TypeLong_xdual_involutive i : TypeLong.xdual (TypeLong.xdual i) = i.
Proof. destruct i. unfold TypeLong.xdual. cbn. rewrite negb_involutive. reflexivity. Qed.

(** [xdual(xdual())] is the identity. *)
Lemma xdual_involutive (c d : Type_) : xdual c = Ret d -> xdual d = Ret c.
Proof.
  destruct c as [b|f|x|h|i|l|p]; cbn [xdual].
  - intros H. apply bind_Ret_inv in H as [[] [Ha H]]. injection H as <-.
    apply debug_assert_Ret_inv in Ha.
    assert (Hb : dual_type b <> Bad).
    { intros E. rewrite E in Ha. discriminate Ha. }
    cbn [xdual]. rewrite (dual_type_involutive b Hb).
    destruct (TYPES_eqb b Bad) eqn:E; [|reflexivity].
    apply TYPES_eqb_eq in E. subst b. cbn in Hb. contradiction.
  - intros H. injection H as <-. reflexivity.
  - intros H. injection H as <-. reflexivity.
  - intros H. injection H as <-. reflexivity.
  - intros H. injection H as <-. cbn [xdual].
    rewrite TypeInt_xdual_involutive. reflexivity.
  - intros H. injection H as <-. cbn [xdual].
    rewrite TypeLong_xdual_involutive. reflexivity.
  - intros H. injection H as <-. cbn [xdual].
    rewrite TypePtr_xdual_involutive. reflexivity.
Qed.

Lemma xdual_returns_this_self c d :
  xdual_returns_this c = true -> xdual c = Ret d -> d = c.
Proof. destruct c; cbn; try discriminate; congruence. Qed.

(* ===================================================================== *)
(** ** The type table *)
(* ===================================================================== *)

Lemma find_ext_in {A} (f g : A -> bool) (l : list A) :
  (forall x, In x l -> f x = g x) -> List.find f l = List.find g l.
Proof.
  induction l as [|x l IH]; intros H; [reflexivity|]. cbn [List.find].
  rewrite (H x (or_introl eq_refl)), IH; [reflexivity|].
  intros y Hy. apply H. right. exact Hy.
Qed.

Lemma Dict_lookup_Some s key p :
  Dict_lookup s key = Some p -> p ∈ tdic s /\ content_at s p = Some key.
Proof.
  unfold Dict_lookup. intros H. apply find_some in H as [Hin Hc].
  split; [apply list_elem_of_In; exact Hin|].
  destruct (content_at s p) as [c|]; [|discriminate].
  apply Type_equals_eq in Hc. congruence.
Qed.

Lemma Dict_lookup_None s key p :
  Dict_lookup s key = None -> p ∈ tdic s -> content_at s p <> Some key.
Proof.
  unfold Dict_lookup. intros H Hin Hc.
  apply list_elem_of_In in Hin.
  pose proof (find_none _ _ H p Hin) as Hf. cbn beta in Hf.
  rewrite Hc in Hf.
  rewrite (proj2 (Type_equals_eq key key) eq_refl) in Hf. discriminate.
Qed.

Lemma Dict_lookup_ext s1 s2 key :
  tdic s1 = tdic s2 ->
  (forall p, p ∈ tdic s1 -> content_at s1 p = content_at s2 p) ->
  Dict_lookup s1 key = Dict_lookup s2 key.
Proof.
  intros Ht Hc. unfold Dict_lookup. rewrite <- Ht.
  apply find_ext_in. intros p Hp. apply list_elem_of_In in Hp.
  rewrite (Hc p Hp). reflexivity.
Qed.

Lemma content_at_Some s p c :
  content_at s p = Some c <-> exists q, arena s !! p = Some {| content := c; _dual := q |}.
Proof.
  unfold content_at. split.
  - destruct (arena s !! p) as [[c' q]|]; cbn; [|discriminate].
    intros H. injection H as ->. eauto.
  - intros [q ->]. reflexivity.
Qed.

(** A content that is in the table is found by the dictionary, at the one
    object that holds it. *)
Lemma Dict_lookup_found s key p :
  table_ok s -> content_at s p = Some key -> Dict_lookup s key = Some p.
Proof.
  intros Hok Hc.
  destruct (Dict_lookup s key) as [p'|] eqn:E.
  - apply Dict_lookup_Some in E as [_ Hc'].
    apply content_at_Some in Hc as [q Hq], Hc' as [q' Hq'].
    rewrite (ok_unique s Hok p p' _ _ Hq Hq' eq_refl). reflexivity.
  - exfalso. refine (Dict_lookup_None s key p E _ Hc).
    apply (ok_canonical s Hok). apply content_at_Some in Hc as [q Hq].
    rewrite Hq. eauto.
Qed.

Lemma hwm_is_free s : table_ok s -> arena s !! hwm s = None.
Proof.
  intros Hok. destruct (arena s !! hwm s) eqn:E; [|reflexivity].
  assert (H : hwm s < hwm s) by (apply (ok_below_hwm s Hok); rewrite E; eauto).
  lia.
Qed.

Lemma above_hwm_is_free s p : table_ok s -> hwm s <= p -> arena s !! p = None.
Proof.
  intros Hok Hp. destruct (arena s !! p) eqn:E; [|reflexivity].
  assert (H : p < hwm s) by (apply (ok_below_hwm s Hok); rewrite E; eauto).
  lia.
Qed.

Lemma alloc_free o s :
  table_ok s -> free (hwm s) (snd (alloc o s)) = s.
Proof.
  intros Hok. pose proof (hwm_is_free s Hok) as Hf.
  destruct s as [a h t]. unfold free, alloc. cbn in *.
  rewrite (delete_insert_id a h o Hf).
  replace (h + 1 - 1) with h by lia. rewrite Z.eqb_refl. reflexivity.
Qed.

Ltac map_lookups :=
  repeat first [ rewrite lookup_alter | rewrite lookup_insert
               | rewrite lookup_delete ];
  repeat case_decide; subst; try lia; try reflexivity.

(** The dictionary after the candidate has been allocated finds what it
    found before. *)
Lemma Dict_lookup_after_alloc s o key :
  table_ok s -> Dict_lookup (snd (alloc o s)) key = Dict_lookup s key.
Proof.
  intros Hok. apply Dict_lookup_ext; [reflexivity|].
  intros p Hp. cbn [alloc snd tdic] in Hp.
  apply (ok_canonical s Hok), (ok_below_hwm s Hok) in Hp.
  unfold content_at, alloc. cbn [snd arena].
  rewrite lookup_insert_ne by lia. reflexivity.
Qed.

(** [hashcons], case by case: the candidate is in the table; it is not
    and [xdual()] fails; it is new and its own dual; it is new and has
    another dual. *)
Lemma hashcons_cases (cand : Type_) (s : TypeTable) :
  table_ok s ->
  match Dict_lookup s cand with
  | Some old => hashcons cand s = Ret (old, s)
  | None =>
    match xdual cand with
    | Abort f => hashcons cand s = Abort f
    | Ret d =>
      hashcons cand s =
      Ret (hwm s, if Type_equals cand d then table_with_self_dual cand s
                  else table_with_pair cand d s)
    end
  end.
Proof.
  intros Hok. pose proof (hwm_is_free s Hok) as Hfree.
  assert (Hfree1 : arena s !! (hwm s + 1) = None)
    by (apply above_hwm_is_free; [assumption|lia]).
  pose proof (Dict_lookup_after_alloc s {| content := cand; _dual := None |}
                cand Hok) as Hsame.
  pose proof (alloc_free {| content := cand; _dual := None |} s Hok) as Hback.
  unfold alloc in Hsame, Hback. cbn [snd] in Hsame, Hback.
  assert (Hc0 : content_at
                  {| arena := <[hwm s:={| content := cand; _dual := None |}]> (arena s);
                     hwm := hwm s + 1; tdic := tdic s |} (hwm s) = Some cand).
  { unfold content_at. cbn [arena]. rewrite lookup_insert_eq. reflexivity. }
  destruct (Dict_lookup s cand) as [old|] eqn:Hold;
    [|destruct (xdual cand) as [d|f] eqn:Hx];
    unfold hashcons, alloc, Dict_Insert; rewrite Hc0; cbn [mbind option_bind];
    rewrite Hsame.
  - apply Dict_lookup_Some in Hold as [Hin Hc].
    assert (Hlt : old < hwm s).
    { apply (ok_below_hwm s Hok), (ok_canonical s Hok), Hin. }
    assert (E : (old =? hwm s) = false) by (apply Z.eqb_neq; lia).
    rewrite E. cbn [negb]. rewrite Hback.
    apply content_at_Some in Hc as [q Hq].
    destruct (ok_dual s Hok old _ Hq) as [q' [d [Hd _]]]. cbn in Hd. subst q.
    unfold dual. rewrite Hq. reflexivity.
  - unfold dual at 1. cbn [arena]. rewrite lookup_insert_eq.
    cbn [mbind option_bind _dual is_Some_b negb debug_assert bind].
    rewrite Hx. cbn [bind].
    destruct (xdual_returns_this cand) eqn:Hrt.
    + pose proof (xdual_returns_this_self _ _ Hrt Hx) as ->.
      rewrite (proj2 (Type_equals_eq cand cand) eq_refl), Z.eqb_refl.
      cbn [negb]. unfold table_with_self_dual, set_dual. cbn [arena hwm tdic].
      rewrite alter_insert_eq. reflexivity.
    + cbn [hwm arena tdic]. destruct (Type_equals cand d) eqn:Heq.
      * assert (E : (hwm s + 1 =? hwm s) = false) by (apply Z.eqb_neq; lia).
        rewrite E. cbn [negb].
        unfold set_dual, free, table_with_self_dual. cbn [arena hwm tdic].
        replace (hwm s + 1 + 1 - 1) with (hwm s + 1) by lia.
        rewrite Z.eqb_refl. do 3 f_equal.
        apply map_eq. intros i. map_lookups. symmetry. exact Hfree1.
      * pose proof (xdual_involutive _ _ Hx) as Hxd.
        assert (Hne : cand <> d).
        { intros E. apply (proj2 (Type_equals_eq cand d)) in E. congruence. }
        set (s3 := set_dual (hwm s) (hwm s + 1) _).
        assert (Hd3 : dual s3 (hwm s + 1) = None).
        { unfold dual, s3, set_dual. cbn [arena]. map_lookups. }
        assert (Hc3 : content_at s3 (hwm s + 1) = Some d).
        { unfold content_at, s3, set_dual. cbn [arena]. map_lookups. }
        assert (Hl3 : Dict_lookup s3 d = None).
        { destruct (Dict_lookup s3 d) as [p|] eqn:E; [exfalso|reflexivity].
          apply Dict_lookup_Some in E as [Hin Hc].
          unfold s3, set_dual in Hin. cbn [tdic] in Hin.
          apply elem_of_cons in Hin as [->|Hin].
          - unfold content_at, s3, set_dual in Hc. cbn [arena] in Hc.
            revert Hc. map_lookups. cbn. congruence.
          - assert (Hlt : p < hwm s).
            { apply (ok_below_hwm s Hok), (ok_canonical s Hok), Hin. }
            assert (Hc' : content_at s p = Some d).
            { rewrite <- Hc. unfold content_at, s3, set_dual. cbn [arena].
              map_lookups. }
            apply content_at_Some in Hc' as [q Hq].
            destruct (ok_dual s Hok p _ Hq) as [q' [d' [_ [Hq' Hd']]]].
            cbn [content] in Hd'. rewrite Hxd in Hd'. injection Hd' as <-.
            assert (Hf : content_at s q' = Some cand).
            { apply content_at_Some. eauto. }
            rewrite (Dict_lookup_found s cand q' Hok Hf) in Hold.
            discriminate. }
        rewrite Hd3, Hl3, Hc3. cbn [mbind option_bind]. rewrite Hl3.
        cbn [is_Some_b negb debug_assert bind snd]. rewrite Hxd. cbn [bind].
        rewrite (proj2 (Type_equals_eq cand cand) eq_refl).
        cbn [debug_assert bind].
        unfold s3, set_dual, table_with_pair. cbn [arena hwm tdic].
        do 3 f_equal; [|lia].
        apply map_eq. intros i. map_lookups.
  - unfold dual at 1. cbn [arena]. rewrite lookup_insert_eq.
    cbn [mbind option_bind _dual is_Some_b negb debug_assert bind].
    rewrite Hx. reflexivity.
Qed.

Lemma empty_table_ok : table_ok empty_table.
Proof.
  split; cbn.
  - intros p [o H]. rewrite lookup_empty in H. discriminate.
  - intros p. split.
    + intros H. apply elem_of_nil in H. contradiction.
    + intros [o H]. rewrite lookup_empty in H. discriminate.
  - intros p o H. rewrite lookup_empty in H. discriminate.
  - intros p q o1 o2 H. rewrite lookup_empty in H. discriminate.
Qed.

(** A content the dictionary does not find is the content of no object,
    and neither is its dual. *)
Lemma not_in_table s cand p o :
  table_ok s -> Dict_lookup s cand = None ->
  arena s !! p = Some o -> content o <> cand.
Proof.
  intros Hok Hnone Hp Hc.
  assert (Hf : content_at s p = Some cand).
  { unfold content_at. rewrite Hp. cbn. congruence. }
  rewrite (Dict_lookup_found s cand p Hok Hf) in Hnone. discriminate.
Qed.

Lemma dual_not_in_table s cand d p o :
  table_ok s -> Dict_lookup s cand = None -> xdual cand = Ret d ->
  arena s !! p = Some o -> content o <> d.
Proof.
  intros Hok Hnone Hx Hp Hc.
  destruct (ok_dual s Hok p o Hp) as [q [d' [_ [Hq Hd']]]].
  rewrite Hc, (xdual_involutive _ _ Hx) in Hd'. injection Hd' as <-.
  exact (not_in_table s cand q _ Hok Hnone Hq eq_refl).
Qed.

Lemma table_with_self_dual_ok cand s :
  table_ok s -> Dict_lookup s cand = None -> xdual cand = Ret cand ->
  table_ok (table_with_self_dual cand s).
Proof.
  intros Hok Hnone Hx. pose proof (hwm_is_free s Hok) as Hfree.
  unfold table_with_self_dual. split; cbn [arena hwm tdic].
  - intros p. rewrite lookup_insert. case_decide; [lia|].
    intros Hlk. apply (ok_below_hwm s Hok) in Hlk. lia.
  - intros p. rewrite elem_of_cons, lookup_insert, (ok_canonical s Hok p).
    case_decide; subst; split; eauto.
    intros [E|Hlk]; [congruence|exact Hlk].
  - intros p o. rewrite lookup_insert. case_decide.
    + subst p. intros Hlk. injection Hlk as <-. cbn [content _dual].
      exists (hwm s), cand. rewrite lookup_insert_eq. auto.
    + intros Hlk. destruct (ok_dual s Hok p o Hlk) as [q [d [H1 [H2 H3]]]].
      exists q, d. split; [exact H1|]. split; [|exact H3].
      rewrite lookup_insert_ne; [exact H2|]. congruence.
  - intros p q o1 o2. rewrite !lookup_insert.
    repeat case_decide; subst; intros Hl1 Hl2 Hc; try reflexivity.
    + injection Hl1 as <-. cbn in Hc.
      exfalso. exact (not_in_table s cand q o2 Hok Hnone Hl2 (eq_sym Hc)).
    + injection Hl2 as <-. cbn in Hc.
      exfalso. exact (not_in_table s cand p o1 Hok Hnone Hl1 Hc).
    + exact (ok_unique s Hok p q o1 o2 Hl1 Hl2 Hc).
Qed.

Lemma table_with_pair_ok cand d s :
  table_ok s -> Dict_lookup s cand = None -> xdual cand = Ret d -> cand <> d ->
  table_ok (table_with_pair cand d s).
Proof.
  intros Hok Hnone Hx Hne. pose proof (hwm_is_free s Hok) as Hfree.
  pose proof (xdual_involutive _ _ Hx) as Hxd.
  assert (Hfree1 : arena s !! (hwm s + 1) = None)
    by (apply above_hwm_is_free; [assumption|lia]).
  unfold table_with_pair. split; cbn [arena hwm tdic].
  - intros p. rewrite !lookup_insert. repeat case_decide; try lia.
    intros Hlk. apply (ok_below_hwm s Hok) in Hlk. lia.
  - intros p. rewrite !elem_of_cons, !lookup_insert, (ok_canonical s Hok p).
    repeat case_decide; subst; split; eauto.
    intros [E|[E|Hlk]]; [congruence|congruence|exact Hlk].
  - intros p o. rewrite !lookup_insert. repeat case_decide.
    + subst p. intros Hlk. injection Hlk as <-. cbn [content _dual].
      exists (hwm s), cand. rewrite lookup_insert_ne, lookup_insert_eq by lia.
      auto.
    + subst p. intros Hlk. injection Hlk as <-. cbn [content _dual].
      exists (hwm s + 1), d. rewrite lookup_insert_eq. auto.
    + intros Hlk. destruct (ok_dual s Hok p o Hlk) as [q [d' [H1 [H2 H3]]]].
      exists q, d'. split; [exact H1|]. split; [|exact H3].
      rewrite !lookup_insert_ne; [exact H2| |]; congruence.
  - intros p q o1 o2. rewrite !lookup_insert.
    repeat case_decide; subst; intros Hl1 Hl2 Hc; try reflexivity; try lia;
      try (injection Hl1 as <-); try (injection Hl2 as <-); cbn in Hc;
      try congruence.
    + exfalso. exact (dual_not_in_table s cand d q o2 Hok Hnone Hx Hl2 (eq_sym Hc)).
    + exfalso. exact (not_in_table s cand q o2 Hok Hnone Hl2 (eq_sym Hc)).
    + exfalso. exact (dual_not_in_table s cand d p o1 Hok Hnone Hx Hl1 Hc).
    + exfalso. exact (not_in_table s cand p o1 Hok Hnone Hl1 Hc).
    + exact (ok_unique s Hok p q o1 o2 Hl1 Hl2 Hc).
Qed.

(** What a call of [hashcons] that returns leaves behind: the invariant,
    the candidate's content at the pointer returned, and every object of
    the table as it was. *)
Lemma hashcons_spec cand s p s' :
  table_ok s -> hashcons cand s = Ret (p, s') ->
  table_ok s' /\ content_at s' p = Some cand /\
  (forall q o, arena s !! q = Some o -> arena s' !! q = Some o).
Proof.
  intros Hok H. pose proof (hashcons_cases cand s Hok) as Hc.
  pose proof (hwm_is_free s Hok) as Hfree.
  assert (Hfree1 : arena s !! (hwm s + 1) = None)
    by (apply above_hwm_is_free; [assumption|lia]).
  destruct (Dict_lookup s cand) as [old|] eqn:Hold.
  - rewrite Hc in H. injection H as <- <-.
    apply Dict_lookup_Some in Hold as [_ Hold]. auto.
  - destruct (xdual cand) as [d|f] eqn:Hx; rewrite Hc in H; [|discriminate].
    injection H as <- <-.
    destruct (Type_equals cand d) eqn:Heq.
    + apply Type_equals_eq in Heq. subst d.
      split; [apply table_with_self_dual_ok; assumption|].
      unfold table_with_self_dual, content_at. cbn [arena].
      split; [rewrite lookup_insert_eq; reflexivity|].
      intros q o Hq. rewrite lookup_insert_ne; [exact Hq|]. congruence.
    + assert (Hne : cand <> d).
      { intros E. apply (proj2 (Type_equals_eq cand d)) in E. congruence. }
      split; [apply table_with_pair_ok; assumption|].
      unfold table_with_pair, content_at. cbn [arena].
      split; [rewrite lookup_insert_ne, lookup_insert_eq by lia; reflexivity|].
      intros q o Hq. rewrite !lookup_insert_ne; [exact Hq| |]; congruence.
Qed.

(** [hashcons] returns whenever [xdual()] does. *)
Lemma hashcons_returns cand d s :
  table_ok s -> xdual cand = Ret d -> exists p s', hashcons cand s = Ret (p, s').
Proof.
  intros Hok Hx. pose proof (hashcons_cases cand s Hok) as Hc.
  destruct (Dict_lookup s cand); [eauto|]. rewrite Hx in Hc. eauto.
Qed.

Lemma reachable_table_ok s : reachable s -> table_ok s.
Proof.
  induction 1 as [|s cand p s' _ IH H]; [apply empty_table_ok|].
  apply (hashcons_spec cand s p s' IH H).
Qed.

(** An object of the table is returned for its content, and the table is
    left as it is. *)
Lemma hashcons_existing s p c :
  table_ok s -> content_at s p = Some c -> hashcons c s = Ret (p, s).
Proof.
  intros Hok Hc. pose proof (hashcons_cases c s Hok) as H.
  rewrite (Dict_lookup_found s c p Hok Hc) in H. exact H.
Qed.

Lemma content_at_unique s p q c :
  table_ok s -> content_at s p = Some c -> content_at s q = Some c -> p = q.
Proof.
  intros Hok Hp Hq.
  apply content_at_Some in Hp as [dp Hp], Hq as [dq Hq].
  exact (ok_unique s Hok p q _ _ Hp Hq eq_refl).
Qed.

Lemma dual_Some s p q :
  dual s p = Some q <-> exists c, arena s !! p = Some {| content := c; _dual := Some q |}.
Proof.
  unfold dual. split.
  - destruct (arena s !! p) as [[c q']|]; cbn; [|discriminate].
    intros ->. eauto.
  - intros [c ->]. reflexivity.
Qed.

(** C5: in a table that [hashcons] has built, every canonical type [p]
    has a dual [q] that is canonical, holds the [xdual()] of [p], and
    whose dual is [p]; when [xdual()] of [p] is structurally [p], the dual
    is [p] itself; and a later [hashcons] leaves both [_dual] fields as
    they are. *)
Theorem C5_dual_of_dual_is_identity (s : TypeTable) (p : Z) :
  reachable s -> p ∈ tdic s ->
  exists q c d,
    dual s p = Some q /\ dual s q = Some p /\ q ∈ tdic s /\
    content_at s p = Some c /\ content_at s q = Some d /\ xdual c = Ret d /\
    (d = c -> q = p) /\
    (forall cand r s', hashcons cand s = Ret (r, s') ->
       dual s' p = Some q /\ dual s' q = Some p).
Proof.
  intros Hr Hin. pose proof (reachable_table_ok s Hr) as Hok.
  apply (ok_canonical s Hok) in Hin as [[c dq] Hp].
  destruct (ok_dual s Hok p _ Hp) as [q [d [Hd [Hq Hx]]]].
  cbn [content _dual] in Hd, Hx. subst dq.
  exists q, c, d.
  assert (Hdp : dual s p = Some q) by (apply dual_Some; eauto).
  assert (Hdq : dual s q = Some p) by (apply dual_Some; eauto).
  assert (Hcp : content_at s p = Some c) by (apply content_at_Some; eauto).
  assert (Hcq : content_at s q = Some d) by (apply content_at_Some; eauto).
  repeat split; try assumption.
  - apply (ok_canonical s Hok). rewrite Hq. eauto.
  - intros ->. exact (content_at_unique s q p c Hok Hcq Hcp).
  - destruct (hashcons_spec _ _ _ _ Hok H) as [_ [_ Hkeep]].
    apply dual_Some. eexists. apply Hkeep, Hp.
  - destruct (hashcons_spec _ _ _ _ Hok H) as [_ [_ Hkeep]].
    apply dual_Some. eexists. apply Hkeep, Hq.
Qed.

Lemma example_table_reachable : reachable example_table.
Proof.
  apply (reachable_hashcons empty_table
           (TypeInt_mk (TypeInt.new
              (TypeIntPrototype.mk (RangeInt.mk 0 1)
                 (RangeInt.mk 0 (max_U TypeInt.width)) (KnownBits.mk 0 0))
              WidenMin false))
           example_zero_one example_table);
    [apply reachable_empty|].
  vm_compute. reflexivity.
Qed.

Lemma C5_dual_of_dual_is_identity_witness :
  exists q c d,
    dual example_table example_zero_one = Some q /\
    dual example_table q = Some example_zero_one /\
    q ∈ tdic example_table /\
    content_at example_table example_zero_one = Some c /\
    content_at example_table q = Some d /\ xdual c = Ret d /\
    (d = c -> q = example_zero_one) /\
    (forall cand r s', hashcons cand example_table = Ret (r, s') ->
       dual s' example_zero_one = Some q /\ dual s' q = Some example_zero_one).
Proof.
  apply (C5_dual_of_dual_is_identity example_table example_zero_one).
  - apply example_table_reachable.
  - apply list_elem_of_In. vm_compute. right. left. reflexivity.
Defined.

Lemma make_int_zero_one_content widen :
  exists i, TypeInt.make 0 1 widen = Ret i.
Proof.
  destruct (TypeInt_make_legal_bounds 0 1 widen) as [T [H _]];
    [unfold in_S; vm_compute; split; discriminate..|lia|].
  eauto.
Qed.

(** C6: a call of [hashcons] that returns [p] for a candidate returns [p]
    again for a candidate with the same content, at once or after another
    call, and leaves the table as it is; when the table already holds the
    content, that object is returned and the table is unchanged; no two
    objects of the table hold the same content; and [make_int] called a
    second time with the same arguments returns the same object
    ([make_int(0, 1, w)] always returns). *)
Theorem C6_hashcons_returns_the_canonical_instance
    (s : TypeTable) (cand : Type_) (p : Z) (s1 : TypeTable) :
  reachable s -> hashcons cand s = Ret (p, s1) ->
  content_at s1 p = Some cand /\
  hashcons cand s1 = Ret (p, s1) /\
  (forall old, content_at s old = Some cand -> p = old /\ s1 = s) /\
  (forall cand2 p2 s2, hashcons cand2 s1 = Ret (p2, s2) ->
     hashcons cand s2 = Ret (p, s2)) /\
  (forall q1 q2 c,
     content_at s1 q1 = Some c -> content_at s1 q2 = Some c -> q1 = q2) /\
  (forall lo hi w r s', make_int lo hi w s = Ret (r, s') ->
     make_int lo hi w s' = Ret (r, s')) /\
  (forall w, exists r s', make_int 0 1 w s = Ret (r, s') /\
     make_int 0 1 w s' = Ret (r, s')).
Proof.
  intros Hr H. pose proof (reachable_table_ok s Hr) as Hok.
  destruct (hashcons_spec _ _ _ _ Hok H) as [Hok1 [Hc1 Hkeep1]].
  assert (Hagain : forall lo hi w r s', make_int lo hi w s = Ret (r, s') ->
                     make_int lo hi w s' = Ret (r, s')).
  { intros lo hi w r s' Hm. unfold make_int in *.
    destruct (TypeInt.make lo hi w) as [i|f]; [|discriminate].
    cbn [bind] in *.
    destruct (hashcons_spec _ _ _ _ Hok Hm) as [Hok' [Hc' _]].
    apply hashcons_existing; assumption. }
  split; [exact Hc1|]. split; [apply hashcons_existing; assumption|].
  split; [|split; [|split; [|split]]].
  - intros old Hold. rewrite (hashcons_existing s old cand Hok Hold) in H.
    injection H as <- <-. auto.
  - intros cand2 p2 s2 H2.
    destruct (hashcons_spec _ _ _ _ Hok1 H2) as [Hok2 [_ Hkeep2]].
    apply hashcons_existing; [assumption|].
    apply content_at_Some in Hc1 as [q Hq]. apply content_at_Some.
    eexists. apply Hkeep2, Hq.
  - intros q1 q2 c. apply content_at_unique. exact Hok1.
  - exact Hagain.
  - intros w. destruct (make_int_zero_one_content w) as [i Hi].
    destruct (hashcons_returns (TypeInt_mk i) _ s Hok eq_refl) as [r [s' Hh]].
    assert (Hm : make_int 0 1 w s = Ret (r, s')).
    { unfold make_int. rewrite Hi. exact Hh. }
    exists r, s'. split; [exact Hm|]. apply Hagain, Hm.
Qed.

Lemma C6_hashcons_returns_the_canonical_instance_witness :
  let cand :=
    TypeInt_mk (TypeInt.new
      (TypeIntPrototype.mk (RangeInt.mk 0 1)
         (RangeInt.mk 0 (max_U TypeInt.width)) (KnownBits.mk 0 0))
      WidenMin false) in
  content_at example_table example_zero_one = Some cand /\
  hashcons cand example_table = Ret (example_zero_one, example_table) /\
  (forall old, content_at empty_table old = Some cand ->
     example_zero_one = old /\ example_table = empty_table) /\
  (forall cand2 p2 s2, hashcons cand2 example_table = Ret (p2, s2) ->
     hashcons cand s2 = Ret (example_zero_one, s2)) /\
  (forall q1 q2 c,
     content_at example_table q1 = Some c ->
     content_at example_table q2 = Some c -> q1 = q2) /\
  (forall lo hi w r s', make_int lo hi w empty_table = Ret (r, s') ->
     make_int lo hi w s' = Ret (r, s')) /\
  (forall w, exists r s', make_int 0 1 w empty_table = Ret (r, s') /\
     make_int 0 1 w s' = Ret (r, s')).
Proof.
  apply (C6_hashcons_returns_the_canonical_instance empty_table _
           example_zero_one example_table).
  - apply reachable_empty.
  - vm_compute. reflexivity.
Defined.

(* ===================================================================== *)
(** * Further properties of the lattice *)
(* ===================================================================== *)

(* ===================================================================== *)
(** ** The nullability lattice: [ptr_meet] and [ptr_dual] *)
(* ===================================================================== *)

(** X1: the table [TypePtr::ptr_meet] is a meet-semilattice on the six
    [PTR] values: it is commutative, associative and idempotent, [TopPTR]
    is neutral and [BotPTR] absorbs; [meet_ptr] therefore does not depend
    on which of two pointers is the receiver. *)
Theorem X1_ptr_meet_is_a_semilattice :
  (forall a b, ptr_meet a b = ptr_meet b a) /\
  (forall a b c, ptr_meet (ptr_meet a b) c = ptr_meet a (ptr_meet b c)) /\
  (forall a, ptr_meet a a = a) /\
  (forall a, ptr_meet TopPTR a = a) /\
  (forall a, ptr_meet BotPTR a = BotPTR) /\
  (forall this other : TypePtr,
     meet_ptr this (ptr other) = meet_ptr other (ptr this)).
Proof.
  split; [|split; [|split; [|split; [|split]]]].
  - intros [] []; reflexivity.
  - intros [] [] []; reflexivity.
  - intros []; reflexivity.
  - intros []; reflexivity.
  - intros []; reflexivity.
  - intros this other. unfold meet_ptr.
    destruct (ptr this), (ptr other); reflexivity.
Qed.

(** X2: [ptr_dual] turns the lattice upside down: it is an involution,
    it exchanges the values above the centerline with those below it
    (and keeps [Constant] and [Null]), and the meet of the dual of a meet
    with the dual of an operand is the dual of that operand, which is
    what [check_symmetrical] asks of a meet (the dual of a meet is the
    join of the duals). *)
Theorem X2_ptr_dual_is_a_lattice_symmetry :
  (forall a, ptr_dual (ptr_dual a) = a) /\
  (forall a, above_centerline (ptr_dual a) = below_centerline a) /\
  (forall a, below_centerline (ptr_dual a) = above_centerline a) /\
  (forall a b, ptr_meet (ptr_dual (ptr_meet a b)) (ptr_dual a) = ptr_dual a) /\
  (forall a b, ptr_meet (ptr_dual (ptr_meet a b)) (ptr_dual b) = ptr_dual b) /\
  (forall a b, ptr_meet a b = a ->
     ptr_meet (ptr_dual a) (ptr_dual b) = ptr_dual b).
Proof.
  split; [|split; [|split; [|split; [|split]]]].
  - intros []; reflexivity.
  - intros []; reflexivity.
  - intros []; reflexivity.
  - intros [] []; reflexivity.
  - intros [] []; reflexivity.
  - intros [] []; cbn; congruence.
Qed.

Lemma X2_ptr_dual_is_a_lattice_symmetry_witness :
  ptr_meet (ptr_dual BotPTR) (ptr_dual NotNull) = ptr_dual NotNull.
Proof.
  apply (proj2 (proj2 (proj2 (proj2 (proj2
           X2_ptr_dual_is_a_lattice_symmetry)))) BotPTR NotNull).
  reflexivity.
Defined.

(* ===================================================================== *)
(** ** Offsets and instance ids *)
(* ===================================================================== *)

Lemma meet_offset_of (this : TypePtr) (o' : Z) :
  meet_offset this o' =
  if offset this =? OffsetTop then o'
  else if o' =? OffsetTop then offset this
  else if offset this =? o' then offset this else OffsetBot.
Proof.
  unfold meet_offset. destruct (offset this =? OffsetTop); [reflexivity|].
  destruct (o' =? OffsetTop); [reflexivity|].
  destruct (offset this =? o'); reflexivity.
Qed.

Ltac Z_cases :=
  repeat match goal with
  | |- context [?a =? ?b] =>
    lazymatch a with context [Z.eqb] => fail | _ => idtac end;
    lazymatch b with context [Z.eqb] => fail | _ => idtac end;
    let E := fresh "E" in
    destruct (a =? b) eqn:E;
    [apply Z.eqb_eq in E | apply Z.eqb_neq in E];
    cbv iota
  end.

Ltac offsets :=
  repeat (rewrite meet_offset_of; cbn [offset]);
  unfold dual_offset; cbn [offset];
  Z_cases; try congruence; unfold OffsetTop, OffsetBot in *; lia.

(** X3: [meet_offset] is a meet on offsets with [OffsetTop] on top and
    [OffsetBot] at the bottom: it does not depend on which pointer is the
    receiver, it is associative and idempotent, [OffsetTop] is neutral,
    [OffsetBot] absorbs, and two different offsets, neither [OffsetTop],
    meet at [OffsetBot].  [dual_offset] exchanges the two sentinels, is
    an involution, and the meet of the dual of a meet with the dual of an
    operand is the dual of that operand. *)
Theorem X3_meet_offset_is_a_semilattice (p : PTR) (s : option TypePtr) (d : Z) :
  let at_offset o := TypePtr_mk p o s d in
  let meet o1 o2 := meet_offset (at_offset o1) o2 in
  let dual o := dual_offset (at_offset o) in
  (forall this other : TypePtr,
     meet_offset this (offset other) = meet_offset other (offset this)) /\
  (forall x y z, meet (meet x y) z = meet x (meet y z)) /\
  (forall x, meet x x = x) /\
  (forall x, meet OffsetTop x = x /\ meet x OffsetTop = x) /\
  (forall x, meet OffsetBot x = OffsetBot /\ meet x OffsetBot = OffsetBot) /\
  (forall x y, x <> OffsetTop -> y <> OffsetTop -> x <> y ->
     meet x y = OffsetBot) /\
  (forall x, dual (dual x) = x) /\
  dual OffsetTop = OffsetBot /\ dual OffsetBot = OffsetTop /\
  (forall x y, meet (dual (meet x y)) (dual x) = dual x).
Proof.
  cbv zeta.
  split; [|split; [|split; [|split; [|split; [|split; [|split;
    [|split; [|split]]]]]]]].
  - intros this other. offsets.
  - intros x y z. offsets.
  - intros x. offsets.
  - intros x. split; offsets.
  - intros x. split; offsets.
  - intros x y Hx Hy Hxy. offsets.
  - intros x. offsets.
  - reflexivity.
  - reflexivity.
  - intros x y. offsets.
Qed.

Lemma X3_meet_offset_is_a_semilattice_witness :
  meet_offset (TypePtr_mk NotNull 8 None InlineDepthBottom) 16 = OffsetBot.
Proof.
  apply (proj1 (proj2 (proj2 (proj2 (proj2 (proj2
           (X3_meet_offset_is_a_semilattice NotNull None InlineDepthBottom))))))
           8 16); unfold OffsetTop; lia.
Defined.

Lemma meet_instance_id_of (this : TypePtr) (i' : Z) :
  meet_instance_id this i' =
  if instance_id this =? InstanceTop then i'
  else if i' =? InstanceTop then instance_id this
  else if instance_id this =? i' then instance_id this else InstanceBot.
Proof.
  unfold meet_instance_id. destruct (instance_id this =? InstanceTop); [reflexivity|].
  destruct (i' =? InstanceTop); [reflexivity|].
  destruct (instance_id this =? i'); reflexivity.
Qed.

Ltac instance_ids :=
  repeat (rewrite meet_instance_id_of; cbn [instance_id]);
  unfold dual_instance_id; cbn [instance_id];
  Z_cases; try congruence; unfold InstanceTop, InstanceBot in *; lia.

(** X4: [meet_instance_id] is a meet on instance ids with [InstanceTop]
    on top and [InstanceBot] at the bottom: independent of the receiver,
    associative, idempotent, [InstanceTop] neutral, [InstanceBot]
    absorbing, and two different known instances meet at [InstanceBot]
    (the meet of two allocations is no single allocation).
    [dual_instance_id] exchanges the two sentinels, is an involution, and
    the meet of the dual of a meet with the dual of an operand is the dual
    of that operand. *)
Theorem X4_meet_instance_id_is_a_semilattice
    (p : PTR) (o : Z) (s : option TypePtr) (d : Z) :
  let at_id i := TypeOopPtr_mk p o i s d in
  let meet i1 i2 := meet_instance_id (at_id i1) i2 in
  let dual i := dual_instance_id (at_id i) in
  (forall this other : TypePtr,
     meet_instance_id this (instance_id other) =
     meet_instance_id other (instance_id this)) /\
  (forall x y z, meet (meet x y) z = meet x (meet y z)) /\
  (forall x, meet x x = x) /\
  (forall x, meet InstanceTop x = x /\ meet x InstanceTop = x) /\
  (forall x, meet InstanceBot x = InstanceBot /\ meet x InstanceBot = InstanceBot) /\
  (forall x y, 0 < x -> 0 < y -> x <> y -> meet x y = InstanceBot) /\
  (forall x, dual (dual x) = x) /\
  (forall x y, meet (dual (meet x y)) (dual x) = dual x).
Proof.
  cbv zeta.
  split; [|split; [|split; [|split; [|split; [|split; [|split]]]]]].
  - intros this other. instance_ids.
  - intros x y z. instance_ids.
  - intros x. instance_ids.
  - intros x. split; instance_ids.
  - intros x. split; instance_ids.
  - intros x y Hx Hy Hxy. instance_ids.
  - intros x. instance_ids.
  - intros x y. instance_ids.
Qed.

Lemma X4_meet_instance_id_is_a_semilattice_witness :
  meet_instance_id (TypeOopPtr_mk NotNull 0 7 None InlineDepthBottom) 9 =
  InstanceBot.
Proof.
  apply (proj1 (proj2 (proj2 (proj2 (proj2 (proj2
           (X4_meet_instance_id_is_a_semilattice NotNull 0 None
              InlineDepthBottom)))))) 7 9); lia.
Defined.

(* ===================================================================== *)
(** ** The floating-point part of the lattice *)
(* ===================================================================== *)

Ltac floating_destruct t H :=
  destruct t as [[]|?|?|?|?|?|?]; try discriminate H; clear H.

Ltac floating_meet :=
  unfold meet, meet_helper, maybe_remove_speculative, Type_remove_speculative;
  repeat (cbn -[Z.eqb];
          cbv beta iota delta [same_type Type_equals TypeF_xmeet TypeD_xmeet
                               TypeH_xmeet];
          Z_cases; try subst);
  try reflexivity; try congruence.

(** X5: on the floating-point part of the lattice (float, double and
    half-float constants, the top and bottom of each family, [TOP] and
    [BOTTOM]) the meet always returns a type of that part, is
    commutative, associative and idempotent, [TOP] is neutral and
    [BOTTOM] absorbs: [Type::xmeet], [TypeF::xmeet], [TypeD::xmeet] and
    [TypeH::xmeet] agree on every mixed pair. *)
Theorem X5_floating_part_is_a_semilattice env (a b c : Type_) :
  is_floating_or_extreme a = true ->
  is_floating_or_extreme b = true ->
  is_floating_or_extreme c = true ->
  (exists r, meet_helper env a b false = Ret r /\
             is_floating_or_extreme r = true) /\
  meet_helper env a b false = meet_helper env b a false /\
  (do x <- meet_helper env a b false; meet_helper env x c false) =
  (do y <- meet_helper env b c false; meet_helper env a y false) /\
  meet_helper env a a false = Ret a /\
  meet_helper env TOP a false = Ret a /\
  meet_helper env BOTTOM a false = Ret BOTTOM.
Proof.
  intros Ha Hb Hc.
  floating_destruct a Ha; floating_destruct b Hb.
  all: split; [floating_meet; eexists; split; reflexivity|].
  all: split; [floating_meet|].
  all: split; [|repeat split; floating_meet].
  all: floating_destruct c Hc; floating_meet.
Qed.

Lemma X5_floating_part_is_a_semilattice_witness :
  meet_helper example_env (TypeF_mk 5) FLOAT false =
  meet_helper example_env FLOAT (TypeF_mk 5) false /\
  (do x <- meet_helper example_env (TypeF_mk 5) FLOAT false;
   meet_helper example_env x (TypeD_mk 1) false) =
  (do y <- meet_helper example_env FLOAT (TypeD_mk 1) false;
   meet_helper example_env (TypeF_mk 5) y false).
Proof.
  pose proof (X5_floating_part_is_a_semilattice example_env
                (TypeF_mk 5) FLOAT (TypeD_mk 1) eq_refl eq_refl eq_refl)
    as (_ & Hc & Ha & _).
  split; [exact Hc | exact Ha].
Defined.

(* ===================================================================== *)
(** ** The extremes of the lattice *)
(* ===================================================================== *)

Lemma TypePtr_xmeet_normalize_plain env p :
  speculative p = None -> TypePtr_xmeet_normalize env (Ptr p) = Ret (Ptr p).
Proof. intros H. unfold TypePtr_xmeet_normalize. cbn [isa_ptr]. rewrite H. reflexivity. Qed.

Lemma Type_remove_speculative_plain env t t0 :
  Type_remove_speculative env t = Ret t0 ->
  Type_remove_speculative env t0 = Ret t0 /\
  (forall p, t0 = Ptr p -> speculative p = None) /\
  base t0 = base t.
Proof.
  destruct t as [b|f|d|h|i|l|p]; cbn [Type_remove_speculative];
    try (intros H; injection H as <-; repeat split; try reflexivity;
         intros q E; discriminate E).
  intros H. apply bind_Ret_inv in H as [p0 [Hp H]]. injection H as <-.
  pose proof (remove_speculative_no_speculative _ _ _ Hp) as Hs.
  split; [|split].
  - cbn [Type_remove_speculative]. unfold remove_speculative. rewrite Hs.
    reflexivity.
  - intros q E. injection E as <-. exact Hs.
  - unfold remove_speculative in Hp. destruct (speculative p) as [s|] eqn:E.
    + apply bind_Ret_inv in Hp as [_ [_ Hp]].
      destruct p as [? ? ? ?|? ?|? ? ? ? ?|? ? ? ? ? ? ? ? ?].
      * injection Hp as <-. reflexivity.
      * injection Hp as <-. reflexivity.
      * apply TypeOopPtr_make_Ret in Hp as ->. reflexivity.
      * apply TypeInstPtr_make_Ret in Hp as [xk' ->]. reflexivity.
    + injection Hp as <-. reflexivity.
Qed.

(** X6: [TOP] is the neutral element of the meet and [BOTTOM] absorbs,
    and the meet of a type with itself is that type, for the types of
    every class of the embedding: the meet of [t] with [TOP] or with
    itself is [t] without its speculative part, which is what the meet
    without speculative parts works on.  ([TypeInt::xmeet] and
    [TypeLong::xmeet] are not part of the sources, so a bounded integer
    is only taken as the argument of [Type::xmeet] here.) *)
Theorem X6_top_is_neutral_and_bottom_absorbs env (t t0 : Type_) :
  Type_remove_speculative env t = Ret t0 ->
  meet_helper env TOP t false = Ret t0 /\
  meet_helper env BOTTOM t false = Ret BOTTOM /\
  (base t <> Int -> base t <> Long ->
   meet_helper env t TOP false = Ret t0 /\
   meet_helper env t BOTTOM false = Ret BOTTOM /\
   meet_helper env t t false = Ret t0).
Proof.
  intros H. destruct (Type_remove_speculative_plain env t t0 H) as [H0 [Hs Hb]].
  unfold meet_helper, maybe_remove_speculative, TOP, BOTTOM. cbn [negb].
  rewrite H. cbn [bind Type_remove_speculative].
  split; [|split].
  - destruct t0 as [[]|f|d|h|i|l|p]; reflexivity.
  - cbn [xmeet]. unfold Type_xmeet.
    destruct (same_type (Type_mk Bottom) t0); reflexivity.
  - intros Hi Hl. rewrite <- Hb in Hi, Hl. clear H H0 Hb.
    destruct t0 as [b|f|d|h|i|l|p]; try (exfalso; apply Hi; reflexivity);
      try (exfalso; apply Hl; reflexivity).
    + repeat split.
      * cbn [xmeet]. unfold Type_xmeet.
        destruct b; reflexivity.
      * cbn [xmeet]. unfold Type_xmeet.
        destruct b; reflexivity.
      * cbn [xmeet]. unfold Type_xmeet. rewrite same_type_refl. reflexivity.
    + repeat split; cbn; unfold TypeF_xmeet; rewrite ?same_type_refl; reflexivity.
    + repeat split; cbn; unfold TypeD_xmeet; rewrite ?same_type_refl; reflexivity.
    + repeat split; cbn; unfold TypeH_xmeet; rewrite ?same_type_refl; reflexivity.
    + pose proof (Hs p eq_refl) as Hp.
      repeat split; rewrite xmeet_pointer_unfold;
        destruct p as [? ? ? ?|? ?|? ? ? ? ?|? ? ? ? ? ? ? ? ?];
        cbn [pointer_xmeet];
        unfold TypePtr_xmeet, TypePtr_xmeet_helper, TypeRawPtr_xmeet,
          TypeOopPtr_xmeet, TypeOopPtr_xmeet_helper, TypeInstPtr_xmeet,
          TypeInstPtr_xmeet_helper;
        rewrite ?same_type_refl; cbn [same_type Type_equals base bind];
        rewrite ?TypePtr_xmeet_normalize_plain by exact Hp; reflexivity.
Qed.

Lemma X6_top_is_neutral_and_bottom_absorbs_witness :
  meet_helper example_env TOP (Ptr speculated_not_null) false =
    Ret (Ptr plain_bottom) /\
  meet_helper example_env (Ptr example_foo) TOP false =
    Ret (Ptr example_foo) /\
  meet_helper example_env (Ptr example_foo) BOTTOM false = Ret BOTTOM.
Proof.
  pose proof (X6_top_is_neutral_and_bottom_absorbs example_env
                (Ptr speculated_not_null) (Ptr plain_bottom) eq_refl) as [H1 _].
  pose proof (X6_top_is_neutral_and_bottom_absorbs example_env
                (Ptr example_foo) (Ptr example_foo) eq_refl) as [_ [_ H2]].
  destruct H2 as [H2 [H3 _]]; [discriminate..|].
  split; [exact H1|]. split; [exact H2 | exact H3].
Defined.

(* ===================================================================== *)
(** ** The meet of a build with [ASSERT] *)
(* ===================================================================== *)

(** The meet of two [AnyPtr] pointers without speculative parts. *)
Lemma xmeet_AnyPtr_plain env m p1 o1 d1 p2 o2 d2 :
  xmeet env m (Ptr (TypePtr_mk p1 o1 None d1)) (Ptr (TypePtr_mk p2 o2 None d2)) =
  Ret (Ptr (TypePtr_mk (ptr_meet p1 p2)
              (meet_offset (TypePtr_mk p1 o1 None d1) o2) None (Z.max d1 d2))).
Proof.
  cbn [xmeet subclass_xmeet pointer_xmeet].
  unfold TypePtr_xmeet, TypePtr_xmeet_helper.
  destruct (same_type (Ptr (TypePtr_mk p1 o1 None d1))
              (Ptr (TypePtr_mk p2 o2 None d2))) eqn:E.
  - apply same_type_eq in E. injection E as <- <- <-.
    cbn [bind]. rewrite TypePtr_xmeet_normalize_plain by reflexivity.
    do 2 f_equal. f_equal.
    + destruct p1; reflexivity.
    + offsets.
    + lia.
  - cbn [base is_ptr bind].
    rewrite xmeet_speculative_none by reflexivity. cbn [bind].
    rewrite TypePtr_xmeet_normalize_plain by reflexivity.
    unfold TypePtr_make, meet_ptr, meet_inline_depth.
    cbn [ptr offset inline_depth]. rewrite (ptr_meet_comm p2 p1). reflexivity.
Qed.

Lemma xdual_AnyPtr_plain p o d :
  xdual (Ptr (TypePtr_mk p o None d)) =
  Ret (Ptr (TypePtr_mk (ptr_dual p) (dual_offset (TypePtr_mk p o None d)) None (- d))).
Proof. reflexivity. Qed.

Ltac same_AnyPtr :=
  match goal with
  | |- context [same_type (Ptr (TypePtr_mk ?a ?b None ?c))
                          (Ptr (TypePtr_mk ?a' ?b' None ?c'))] =>
    let Ea := fresh "Ea" in
    let Eb := fresh "Eb" in
    let Ec := fresh "Ec" in
    assert (Ea : a = a')
      by (repeat match goal with p : PTR |- _ => destruct p end; reflexivity);
    assert (Eb : b = b') by offsets;
    assert (Ec : c = c') by lia;
    rewrite Ea, Eb, Ec, same_type_refl; clear Ea Eb Ec
  end.

Lemma check_symmetrical_AnyPtr env m p1 o1 d1 p2 o2 d2 mt :
  xmeet env m (Ptr (TypePtr_mk p1 o1 None d1)) (Ptr (TypePtr_mk p2 o2 None d2))
    = Ret mt ->
  check_symmetrical env m (Ptr (TypePtr_mk p1 o1 None d1))
    (Ptr (TypePtr_mk p2 o2 None d2)) mt = Ret tt.
Proof.
  rewrite xmeet_AnyPtr_plain. intros H. injection H as <-.
  unfold check_symmetrical, VerifyMeet_meet.
  rewrite !xmeet_AnyPtr_plain. cbn [bind].
  same_AnyPtr. cbn [negb].
  rewrite !xdual_AnyPtr_plain. cbn [bind].
  rewrite !xmeet_AnyPtr_plain. cbn [bind].
  same_AnyPtr. same_AnyPtr. reflexivity.
Qed.

Lemma maybe_remove_speculative_plain env p b :
  speculative p = None ->
  maybe_remove_speculative env (Ptr p) b = Ret (Ptr p).
Proof.
  intros H. unfold maybe_remove_speculative, Type_remove_speculative,
    remove_speculative.
  rewrite H. destruct b; reflexivity.
Qed.

(** X7: the meet of two [AnyPtr] pointers without speculative parts
    passes the checks of a build with [ASSERT]: [check_symmetrical] finds
    the meet commutative and symmetric, for the two pointers and for
    their duals, so that [meet_helper] returns in that build what it
    returns without the checks: the pointer made of the meet of the two
    [ptr]s, the meet of the two offsets and the greater inline depth. *)
Theorem X7_AnyPtr_meet_passes_check_symmetrical
    env (a b : TypePtr) (include_speculative : bool) :
  base (Ptr a) = AnyPtr -> base (Ptr b) = AnyPtr ->
  speculative a = None -> speculative b = None ->
  meet_helper_verified env (Ptr a) (Ptr b) include_speculative =
    Ret (Ptr (TypePtr_mk (ptr_meet (ptr a) (ptr b)) (meet_offset a (offset b))
                None (Z.max (inline_depth a) (inline_depth b)))) /\
  meet_helper env (Ptr a) (Ptr b) include_speculative =
    meet_helper_verified env (Ptr a) (Ptr b) include_speculative.
Proof.
  destruct a as [p1 o1 s1 d1| | |], b as [p2 o2 s2 d2| | |]; try discriminate.
  cbn [speculative ptr offset inline_depth]. intros _ _ -> ->.
  unfold meet_helper_verified, meet_helper.
  rewrite !maybe_remove_speculative_plain by reflexivity. cbn [bind].
  assert (Hv : verified_xmeet env (verified_meet_of_speculative env)
                 (Ptr (TypePtr_mk p1 o1 None d1)) (Ptr (TypePtr_mk p2 o2 None d2)) =
               Ret (Ptr (TypePtr_mk (ptr_meet p1 p2)
                           (meet_offset (TypePtr_mk p1 o1 None d1) o2) None
                           (Z.max d1 d2)))).
  { unfold verified_xmeet.
    rewrite xmeet_AnyPtr_plain. cbn [bind].
    rewrite check_symmetrical_AnyPtr by apply xmeet_AnyPtr_plain. cbn [bind].
    rewrite !xdual_AnyPtr_plain. cbn [bind]. unfold VerifyMeet_meet.
    rewrite xmeet_AnyPtr_plain. cbn [bind].
    rewrite check_symmetrical_AnyPtr by apply xmeet_AnyPtr_plain.
    reflexivity. }
  rewrite Hv. split; [reflexivity|]. apply xmeet_AnyPtr_plain.
Qed.

Lemma X7_AnyPtr_meet_passes_check_symmetrical_witness :
  meet_helper_verified example_env (Ptr at_depth_3) (Ptr at_depth_7) false =
    Ret (Ptr (TypePtr_mk BotPTR OffsetBot None 7)) /\
  meet_helper example_env (Ptr at_depth_3) (Ptr at_depth_7) false =
    meet_helper_verified example_env (Ptr at_depth_3) (Ptr at_depth_7) false.
Proof.
  apply (X7_AnyPtr_meet_passes_check_symmetrical example_env
           at_depth_3 at_depth_7 false); reflexivity.
Defined.

Ltac floating_verified :=
  unfold meet_helper_verified, meet_helper, verified_xmeet, check_symmetrical,
    VerifyMeet_meet, maybe_remove_speculative, Type_remove_speculative;
  repeat (cbn -[Z.eqb];
          cbv beta iota delta [same_type Type_equals TypeF_xmeet TypeD_xmeet
                               TypeH_xmeet];
          Z_cases; try subst);
  try reflexivity; try congruence.

(** X8: on the floating-point part of the lattice too the meet passes
    the checks of a build with [ASSERT]: [meet_helper] with
    [check_symmetrical] returns what [meet_helper] returns without it,
    for every pair of float, double or half-float constants, family tops
    and bottoms, [TOP] and [BOTTOM]. *)
Theorem X8_floating_meet_passes_check_symmetrical
    env (a b : Type_) (include_speculative : bool) :
  is_floating_or_extreme a = true ->
  is_floating_or_extreme b = true ->
  meet_helper_verified env a b include_speculative =
  meet_helper env a b include_speculative /\
  exists r, meet_helper_verified env a b include_speculative = Ret r.
Proof.
  intros Ha Hb.
  floating_destruct a Ha; floating_destruct b Hb;
    destruct include_speculative;
    (split; [floating_verified | floating_verified; eexists; reflexivity]).
Qed.

Lemma X8_floating_meet_passes_check_symmetrical_witness :
  meet_helper_verified example_env (TypeF_mk jfloat_pos_zero)
    (TypeF_mk jfloat_neg_zero) false =
  meet_helper example_env (TypeF_mk jfloat_pos_zero)
    (TypeF_mk jfloat_neg_zero) false.
Proof.
  apply (X8_floating_meet_passes_check_symmetrical example_env
           (TypeF_mk jfloat_pos_zero) (TypeF_mk jfloat_neg_zero) false);
    reflexivity.
Defined.

Lemma refines_refl {A} (o : outcome A) : refines o o.
Proof. intros r H. exact H. Qed.

Lemma refines_bind {A B} (m m' : outcome A) (k k' : A -> outcome B) :
  refines m m' -> (forall x, refines (k x) (k' x)) ->
  refines (bind m k) (bind m' k').
Proof.
  intros Hm Hk r H. apply bind_Ret_inv in H as [a [Ha H]].
  rewrite (Hm a Ha). cbn [bind]. apply Hk, H.
Qed.

Ltac refines_step :=
  first
  [ apply refines_refl
  | apply refines_bind; [|intros ?]
  | match goal with
    | |- refines (if ?c then _ else _) (if ?c then _ else _) => destruct c
    | |- refines (match ?x with _ => _ end) (match ?x with _ => _ end) =>
      destruct x
    end ].

Section Refinement.

Variable env : ciEnv.
Variables m1 m2 : TypePtr -> TypePtr -> outcome Type_.
Hypothesis m1_refines_m2 : forall x y, refines (m1 x y) (m2 x y).

Lemma xmeet_speculative_refines this other :
  refines (xmeet_speculative m1 this other) (xmeet_speculative m2 this other).
Proof.
  unfold xmeet_speculative. cbv zeta.
  destruct (negb (is_Some_b (speculative this)) &&
            negb (is_Some_b (speculative other))); [apply refines_refl|].
  apply refines_bind; [apply m1_refines_m2|]. intros r. apply refines_refl.
Qed.

Ltac refines_auto :=
  cbv zeta;
  repeat first [ apply xmeet_speculative_refines | refines_step ].

Lemma xmeet_unloaded_refines this tinst ifs :
  refines (xmeet_unloaded env m1 this tinst ifs)
          (xmeet_unloaded env m2 this tinst ifs).
Proof. unfold xmeet_unloaded. refines_auto. Qed.

Lemma TypeInstPtr_xmeet_helper_refines this t :
  refines (TypeInstPtr_xmeet_helper env m1 this t)
          (TypeInstPtr_xmeet_helper env m2 this t).
Proof.
  unfold TypeInstPtr_xmeet_helper.
  repeat first [ apply xmeet_unloaded_refines | apply xmeet_speculative_refines
               | refines_step ].
Qed.

Lemma TypeInstPtr_xmeet_refines this t :
  refines (TypeInstPtr_xmeet env m1 this t) (TypeInstPtr_xmeet env m2 this t).
Proof.
  unfold TypeInstPtr_xmeet. apply refines_bind;
    [apply TypeInstPtr_xmeet_helper_refines | intros r; apply refines_refl].
Qed.

Lemma TypeOopPtr_xmeet_helper_refines this t :
  refines (TypeOopPtr_xmeet_helper env m1 this t)
          (TypeOopPtr_xmeet_helper env m2 this t).
Proof.
  unfold TypeOopPtr_xmeet_helper. cbv zeta.
  repeat first [ apply TypeInstPtr_xmeet_refines | apply xmeet_speculative_refines
               | refines_step ].
Qed.

Lemma TypeOopPtr_xmeet_refines this t :
  refines (TypeOopPtr_xmeet env m1 this t) (TypeOopPtr_xmeet env m2 this t).
Proof.
  unfold TypeOopPtr_xmeet. apply refines_bind;
    [apply TypeOopPtr_xmeet_helper_refines | intros r; apply refines_refl].
Qed.

Lemma TypePtr_xmeet_helper_refines this t :
  refines (TypePtr_xmeet_helper env m1 this t)
          (TypePtr_xmeet_helper env m2 this t).
Proof.
  unfold TypePtr_xmeet_helper.
  repeat first [ apply TypeInstPtr_xmeet_refines | apply TypeOopPtr_xmeet_refines
               | apply xmeet_speculative_refines | refines_step ].
Qed.

Lemma pointer_xmeet_refines this t :
  refines (pointer_xmeet env m1 this t) (pointer_xmeet env m2 this t).
Proof.
  destruct this; cbn [pointer_xmeet].
  - unfold TypePtr_xmeet. apply refines_bind;
      [apply TypePtr_xmeet_helper_refines | intros r; apply refines_refl].
  - apply refines_refl.
  - apply TypeOopPtr_xmeet_refines.
  - apply TypeInstPtr_xmeet_refines.
Qed.

Lemma xmeet_refines this t :
  refines (xmeet env m1 this t) (xmeet env m2 this t).
Proof.
  destruct this as [b|f|d|h|i|l|p]; cbn [xmeet subclass_xmeet];
    try apply refines_refl.
  apply pointer_xmeet_refines.
Qed.

End Refinement.

Lemma same_type_true_eq a b : negb (same_type a b) = false -> a = b.
Proof.
  intros H. apply same_type_eq. destruct (same_type a b); [reflexivity|discriminate].
Qed.

(** What [check_symmetrical] has checked when it returns. *)
Lemma check_symmetrical_Ret env m this t mt :
  check_symmetrical env m this t mt = Ret tt ->
  xmeet env m t this = Ret mt /\
  exists dual_join this_dual t_dual,
    xdual mt = Ret dual_join /\ xdual this = Ret this_dual /\
    xdual t = Ret t_dual /\
    xmeet env m dual_join this_dual = Ret this_dual /\
    xmeet env m dual_join t_dual = Ret t_dual.
Proof.
  unfold check_symmetrical, VerifyMeet_meet, fatal. intros H.
  apply bind_Ret_inv in H as [mt2 [H1 H]].
  destruct (negb (same_type mt mt2)) eqn:E1; [discriminate|].
  apply same_type_true_eq in E1. subst mt2.
  apply bind_Ret_inv in H as [dual_join [H2 H]].
  apply bind_Ret_inv in H as [t_dual [H3 H]].
  apply bind_Ret_inv in H as [t2t [H4 H]].
  apply bind_Ret_inv in H as [this_dual [H5 H]].
  apply bind_Ret_inv in H as [t2this [H6 H]].
  destruct (negb (same_type t2t t_dual)) eqn:E2; [discriminate|].
  destruct (negb (same_type t2this this_dual)) eqn:E3; [discriminate|].
  apply same_type_true_eq in E2, E3. subst t2t t2this.
  split; [exact H1|]. exists dual_join, this_dual, t_dual. auto.
Qed.

Lemma verified_xmeet_Ret env m this t r :
  verified_xmeet env m this t = Ret r ->
  xmeet env m this t = Ret r /\ check_symmetrical env m this t r = Ret tt.
Proof.
  unfold verified_xmeet. intros H.
  apply bind_Ret_inv in H as [mt [H1 H]].
  apply bind_Ret_inv in H as [[] [H2 H]].
  apply bind_Ret_inv in H as [this_dual [_ H]].
  apply bind_Ret_inv in H as [t_dual [_ H]].
  apply bind_Ret_inv in H as [mt_dual [_ H]].
  apply bind_Ret_inv in H as [[] [_ H]].
  injection H as <-. auto.
Qed.

Lemma verified_meet_of_speculative_refines env x y :
  refines (verified_meet_of_speculative env x y) (meet_of_speculative env x y).
Proof.
  unfold verified_meet_of_speculative, meet_of_speculative, xmeet_stripped.
  apply refines_bind; [apply refines_refl|]. intros a.
  apply refines_bind; [apply refines_refl|]. intros b.
  intros r H. apply verified_xmeet_Ret in H as [H _]. exact H.
Qed.

(** X9: what a meet of a build with [ASSERT] guarantees when it returns
    [r]: the build without [ASSERT] returns [r] for the two operands in
    either order, and the meet of the dual of [r] with the dual of either
    operand (the operands without their speculative parts when the meet
    drops them) is that dual of the operand, so that the dual of a meet is
    the join of the duals.  On [FLOAT] and the null pointer, where the
    two orders differ, it stops in both orders. *)
Theorem X9_verified_meet_is_commutative_and_symmetric
    env (this t r : Type_) (include_speculative : bool) :
  meet_helper_verified env this t include_speculative = Ret r ->
  (meet_helper env this t include_speculative = Ret r /\
   meet_helper env t this include_speculative = Ret r /\
   exists this_t t' r_dual this_dual t_dual,
     maybe_remove_speculative env this include_speculative = Ret this_t /\
     maybe_remove_speculative env t include_speculative = Ret t' /\
     xdual r = Ret r_dual /\ xdual this_t = Ret this_dual /\
     xdual t' = Ret t_dual /\
     meet_helper env r_dual this_dual true = Ret this_dual /\
     meet_helper env r_dual t_dual true = Ret t_dual) /\
  meet_helper_verified env FLOAT (Ptr TypePtr_NULL_PTR) false =
    Abort ShouldNotReachHere /\
  meet_helper_verified env (Ptr TypePtr_NULL_PTR) FLOAT false =
    Abort ShouldNotReachHere.
Proof.
  intros H. split; [|split; reflexivity].
  unfold meet_helper_verified in H.
  apply bind_Ret_inv in H as [this_t [H1 H]].
  apply bind_Ret_inv in H as [t' [H2 H]].
  apply verified_xmeet_Ret in H as [H3 H4].
  apply check_symmetrical_Ret in H4
    as [H4 (dual_join & this_dual & t_dual & D1 & D2 & D3 & D4 & D5)].
  pose proof (xmeet_refines env _ _ (verified_meet_of_speculative_refines env))
    as Href.
  unfold meet_helper. rewrite H1, H2. cbn [bind].
  split; [apply Href, H3|]. split; [apply Href, H4|].
  exists this_t, t', dual_join, this_dual, t_dual.
  split; [reflexivity|]. split; [reflexivity|].
  split; [exact D1|]. split; [exact D2|]. split; [exact D3|].
  unfold maybe_remove_speculative. cbn [negb bind].
  split; apply Href; assumption.
Qed.

Lemma X9_verified_meet_is_commutative_and_symmetric_witness :
  meet_helper example_env (Ptr at_depth_7) (Ptr at_depth_3) false =
    Ret (Ptr (TypePtr_mk BotPTR OffsetBot None 7)).
Proof.
  apply (X9_verified_meet_is_commutative_and_symmetric example_env
           (Ptr at_depth_3) (Ptr at_depth_7)
           (Ptr (TypePtr_mk BotPTR OffsetBot None 7)) false).
  reflexivity.
Defined.

(* ===================================================================== *)
(** ** Adding an offset *)
(* ===================================================================== *)

Lemma to_S_64 v :
  exists q, to_S 64 v = v - q * 18446744073709551616 /\
            -9223372036854775808 <= to_S 64 v <= 9223372036854775807.
Proof.
  unfold to_S.
  change (2 ^ (64 - 1)) with 9223372036854775808.
  change (2 ^ 64) with 18446744073709551616.
  pose proof (Z.div_mod (v + 9223372036854775808) 18446744073709551616).
  pose proof (Z.mod_pos_bound (v + 9223372036854775808) 18446744073709551616).
  exists ((v + 9223372036854775808) / 18446744073709551616). lia.
Qed.

Lemma to_S_32 v :
  exists q, to_S 32 v = v - q * 4294967296 /\
            -2147483648 <= to_S 32 v <= 2147483647.
Proof.
  unfold to_S.
  change (2 ^ (32 - 1)) with 2147483648.
  change (2 ^ 32) with 4294967296.
  pose proof (Z.div_mod (v + 2147483648) 4294967296).
  pose proof (Z.mod_pos_bound (v + 2147483648) 4294967296).
  exists ((v + 2147483648) / 4294967296). lia.
Qed.

Lemma to_U_64 v :
  exists q, to_U 64 v = v - q * 18446744073709551616 /\
            0 <= to_U 64 v <= 18446744073709551615.
Proof.
  unfold to_U. change (2 ^ 64) with 18446744073709551616.
  pose proof (Z.div_mod v 18446744073709551616).
  pose proof (Z.mod_pos_bound v 18446744073709551616).
  exists (v / 18446744073709551616). lia.
Qed.

Lemma in_S_32 v : in_S 32 v <-> -2147483648 <= v <= 2147483647.
Proof. unfold in_S, min_S, max_S. change (2 ^ (32 - 1)) with 2147483648. lia. Qed.

Lemma in_S_64 v :
  in_S 64 v <-> -9223372036854775808 <= v <= 9223372036854775807.
Proof.
  unfold in_S, min_S, max_S. change (2 ^ (64 - 1)) with 9223372036854775808. lia.
Qed.

Lemma in_U_64 v : in_U 64 v <-> 0 <= v <= 18446744073709551615.
Proof. unfold in_U, max_U. change (2 ^ 64) with 18446744073709551616. lia. Qed.

Ltac Zb_cases :=
  repeat (match goal with
          | |- context [?a =? ?b] => destruct (Z.eqb_spec a b)
          | |- context [?a <=? ?b] => destruct (Z.leb_spec a b)
          | |- context [?a <? ?b] => destruct (Z.ltb_spec a b)
          end; cbn [negb orb andb]).

(** The offset [xadd_offset] returns for an [int] offset [o] of the
    pointer and an [intptr_t] argument [k]. *)
Lemma xadd_offset_of (this : TypePtr) (k : Z) :
  in_S 32 (offset this) -> in_S 64 k ->
  xadd_offset this k =
  if (offset this =? OffsetTop) || (k =? OffsetTop) then OffsetTop
  else if (offset this =? OffsetBot) || (k =? OffsetBot) then OffsetBot
  else if (-2147483648 <=? offset this + k) && (offset this + k <=? 2147483647)
          && negb (offset this + k =? OffsetTop)
       then offset this + k else OffsetBot.
Proof.
  intros Ho Hk. apply (proj1 (in_S_32 _)) in Ho. apply (proj1 (in_S_64 _)) in Hk.
  unfold xadd_offset.
  destruct ((offset this =? OffsetTop) || (k =? OffsetTop)); [reflexivity|].
  destruct ((offset this =? OffsetBot) || (k =? OffsetBot)); [reflexivity|].
  cbv zeta.
  destruct (to_S_64 (k + offset this)) as [q [Hq Hr]].
  destruct (to_S_32 (to_S 64 (k + offset this))) as [q' [Hq' Hr']].
  unfold OffsetTop, OffsetBot in *.
  Zb_cases; lia.
Qed.

Ltac xadd_offsets :=
  cbn [offset]; Zb_cases; unfold OffsetTop, OffsetBot in *; try lia.

(** X10: [xadd_offset] never hands back a wrapped sum.  [OffsetTop]
    wins over everything and [OffsetBot] over every offset but
    [OffsetTop]; otherwise the result is the exact sum when that sum is
    an [int] other than [OffsetTop], and [OffsetBot] when it is not.
    Adding zero changes nothing, and adding [k] and then [b] with
    [TypePtr::add_offset] gives the pointer that adding [k + b] gives,
    or one whose offset is [OffsetBot]. *)
Theorem X10_xadd_offset_is_exact_or_bottom (this : TypePtr) (k : Z) :
  in_S 32 (offset this) -> in_S 64 k ->
  (offset this = OffsetTop \/ k = OffsetTop -> xadd_offset this k = OffsetTop) /\
  (offset this <> OffsetTop -> k <> OffsetTop ->
   offset this = OffsetBot \/ k = OffsetBot -> xadd_offset this k = OffsetBot) /\
  (offset this <> OffsetTop -> k <> OffsetTop ->
   offset this <> OffsetBot -> k <> OffsetBot ->
   (in_S 32 (offset this + k) -> offset this + k <> OffsetTop ->
    xadd_offset this k = offset this + k) /\
   (~ in_S 32 (offset this + k) \/ offset this + k = OffsetTop ->
    xadd_offset this k = OffsetBot)) /\
  xadd_offset this 0 = offset this /\
  in_S 32 (xadd_offset this k) /\
  (forall b, in_S 64 b -> in_S 64 (k + b) ->
     k <> OffsetTop -> b <> OffsetTop ->
     k + b <> OffsetTop -> k + b <> OffsetBot ->
     let once := TypePtr_add_offset this (k + b) in
     let twice := TypePtr_add_offset (TypePtr_add_offset this k) b in
     twice = once \/ offset twice = OffsetBot).
Proof.
  intros Ho Hk.
  pose proof (xadd_offset_of this k Ho Hk) as Hx.
  pose proof (xadd_offset_of this 0 Ho) as H0.
  rewrite in_S_64 in H0. specialize (H0 ltac:(lia)).
  pose proof Ho as Ho'. pose proof Hk as Hk'.
  apply (proj1 (in_S_32 _)) in Ho'. apply (proj1 (in_S_64 _)) in Hk'.
  assert (Hr : in_S 32 (xadd_offset this k)).
  { rewrite Hx. apply in_S_32. xadd_offsets. }
  split; [|split; [|split; [|split; [|split]]]].
  - intros H. rewrite Hx. xadd_offsets.
  - intros H1 H2 H. rewrite Hx. xadd_offsets.
  - intros H1 H2 H3 H4. split.
    + intros Hs Hn. apply (proj1 (in_S_32 _)) in Hs. rewrite Hx. xadd_offsets.
    + intros H. rewrite in_S_32 in H. rewrite Hx. xadd_offsets.
  - rewrite H0. xadd_offsets.
  - exact Hr.
  - intros b Hb Hkb Hk1 Hb1 Hkb1 Hkb2. cbv zeta.
    unfold TypePtr_add_offset, TypePtr_make.
    cbn [offset ptr speculative inline_depth].
    pose proof (xadd_offset_of
                  (TypePtr_mk (ptr this) (xadd_offset this k)
                     (speculative this) (inline_depth this)) b Hr Hb) as Hx1.
    pose proof (xadd_offset_of this (k + b) Ho Hkb) as Hx2.
    cbn [offset] in Hx1.
    apply (proj1 (in_S_64 _)) in Hb. apply (proj1 (in_S_64 _)) in Hkb.
    remember (xadd_offset this k) as r1 eqn:E1.
    remember (xadd_offset (TypePtr_mk (ptr this) r1 (speculative this)
                             (inline_depth this)) b) as r2 eqn:E2.
    remember (xadd_offset this (k + b)) as r eqn:E.
    clear E1 E2 E H0 Hr.
    destruct (Z.eq_dec r2 OffsetBot) as [Eb|Eb]; [right; exact Eb|left].
    f_equal. revert Hx Hx1 Hx2 Eb. xadd_offsets.
Qed.

Lemma X10_xadd_offset_is_exact_or_bottom_witness :
  xadd_offset (TypePtr_mk NotNull 8 None InlineDepthBottom) 16 = 8 + 16.
Proof.
  apply (X10_xadd_offset_is_exact_or_bottom
           (TypePtr_mk NotNull 8 None InlineDepthBottom) 16);
    try (apply in_S_32; cbn [offset]; lia);
    try (apply in_S_64; lia);
    cbn [offset]; unfold OffsetTop, OffsetBot; lia.
Defined.

(** X11: [TypeRawPtr::add_offset] finds every overflow of the address.
    A zero offset gives the pointer back and an offset that is
    [OffsetTop] or [OffsetBot] gives [TypeRawPtr::BOTTOM].  For any other
    offset [k], a constant address [bits] gives [BOTTOM] exactly when
    [bits + k] is no 64-bit address, [TypePtr::NULL_PTR] when the sum is
    zero and the constant [bits + k] otherwise, never a wrapped
    address; a pointer that is [TopPTR], [BotPTR] or [NotNull] is
    returned as it is, and one that is [AnyNull] or [Null] runs into
    [ShouldNotReachHere]. *)
Theorem X11_raw_pointer_add_offset_detects_overflow (this : TypePtr) (k : Z) :
  base (Ptr this) = RawPtr -> in_U 64 (raw_bits this) -> in_S 64 k ->
  TypeRawPtr_add_offset this 0 = Ret this /\
  (k = OffsetTop \/ k = OffsetBot ->
   TypeRawPtr_add_offset this k = Ret TypeRawPtr_BOTTOM) /\
  (k <> 0 -> k <> OffsetTop -> k <> OffsetBot ->
   TypeRawPtr_add_offset this k =
   match ptr this with
   | Constant =>
     if (raw_bits this + k <? 0) || (max_U 64 <? raw_bits this + k)
     then Ret TypeRawPtr_BOTTOM
     else if raw_bits this + k =? 0 then Ret TypePtr_NULL_PTR
     else Ret (TypeRawPtr_mk Constant (raw_bits this + k))
   | TopPTR | BotPTR | NotNull => Ret this
   | AnyNull | Null => Abort ShouldNotReachHere
   end).
Proof.
  destruct this as [| p bits | |]; try discriminate. intros _ Hb Hk.
  cbn [raw_bits ptr] in *.
  apply (proj1 (in_U_64 _)) in Hb. apply (proj1 (in_S_64 _)) in Hk.
  split; [reflexivity|]. split.
  - intros [-> | ->]; reflexivity.
  - intros H0 H1 H2. unfold TypeRawPtr_add_offset.
    destruct (Z.eqb_spec k OffsetTop) as [|_]; [contradiction|].
    destruct (Z.eqb_spec k OffsetBot) as [|_]; [contradiction|].
    destruct (Z.eqb_spec k 0) as [|_]; [contradiction|].
    cbn [ptr raw_bits]. destruct p; try reflexivity.
    cbv zeta. unfold TypeRawPtr_make_bits, max_U.
    change (2 ^ 64 - 1) with 18446744073709551615.
    destruct (to_U_64 bits) as [q1 [Hq1 Hr1]].
    destruct (to_U_64 k) as [q2 [Hq2 Hr2]].
    destruct (to_U_64 (to_U 64 bits + to_U 64 k)) as [q3 [Hq3 Hr3]].
    assert (Eb : to_U 64 bits = bits) by lia.
    rewrite Eb in *. clear Eb Hq1 Hr1 q1.
    remember (to_U 64 (bits + to_U 64 k)) as sum eqn:Es. clear Es.
    remember (to_U 64 k) as uk eqn:Ek. clear Ek.
    destruct (Z.ltb_spec k 0).
    + destruct (Z.ltb_spec bits sum); destruct (Z.ltb_spec (bits + k) 0);
        destruct (Z.ltb_spec 18446744073709551615 (bits + k));
        cbn [orb]; try reflexivity; try lia.
      destruct (Z.eqb_spec sum 0); destruct (Z.eqb_spec (bits + k) 0);
        cbn [negb debug_assert bind]; try reflexivity; try lia.
      do 2 f_equal. lia.
    + destruct (Z.ltb_spec sum bits); destruct (Z.ltb_spec (bits + k) 0);
        destruct (Z.ltb_spec 18446744073709551615 (bits + k));
        cbn [orb]; try reflexivity; try lia.
      destruct (Z.eqb_spec sum 0); destruct (Z.eqb_spec (bits + k) 0);
        cbn [negb debug_assert bind]; try reflexivity; try lia.
      do 2 f_equal. lia.
Qed.

Lemma X11_raw_pointer_add_offset_detects_overflow_witness :
  TypeRawPtr_add_offset (TypeRawPtr_mk Constant 4096) (-4096) =
    Ret TypePtr_NULL_PTR /\
  TypeRawPtr_add_offset (TypeRawPtr_mk Constant 4096) (-4104) =
    Ret TypeRawPtr_BOTTOM.
Proof.
  split.
  - apply (X11_raw_pointer_add_offset_detects_overflow
             (TypeRawPtr_mk Constant 4096) (-4096));
      try reflexivity; try (apply in_U_64; cbn [raw_bits]; lia);
      try (apply in_S_64; lia); unfold OffsetTop, OffsetBot; lia.
  - apply (X11_raw_pointer_add_offset_detects_overflow
             (TypeRawPtr_mk Constant 4096) (-4104));
      try reflexivity; try (apply in_U_64; cbn [raw_bits]; lia);
      try (apply in_S_64; lia); unfold OffsetTop, OffsetBot; lia.
Defined.

(* ===================================================================== *)
(** ** Where the meet is commutative *)
(* ===================================================================== *)

Lemma TypePtr_xmeet_normalize_id env r :
  no_speculative r -> TypePtr_xmeet_normalize env r = Ret r.
Proof.
  intros H. destruct r as [b|f|d|h|i|l|p]; try reflexivity.
  apply TypePtr_xmeet_normalize_plain, H. reflexivity.
Qed.

Lemma bind_normalize_id env (X : outcome Type_) :
  returns_no_speculative X ->
  (do r <- X; TypePtr_xmeet_normalize env r) = X.
Proof.
  intros H. destruct X as [r|f]; [|reflexivity]. cbn [bind].
  apply TypePtr_xmeet_normalize_id, H. reflexivity.
Qed.

(** Normalising twice is normalising once. *)
Lemma TypePtr_xmeet_normalize_idem env r r' :
  TypePtr_xmeet_normalize env r = Ret r' ->
  TypePtr_xmeet_normalize env r' = Ret r'.
Proof.
  unfold TypePtr_xmeet_normalize at 1.
  destruct (isa_ptr r) as [p|] eqn:Hp.
  - destruct r as [| | | | | |p0]; try discriminate. injection Hp as ->.
    destruct (speculative p) as [s|] eqn:Hs.
    + destruct (remove_speculative env p) as [no_spec|f] eqn:Hr; [|discriminate].
      cbn [bind]. destruct (same_ptr no_spec s) eqn:E.
      * intros H. injection H as <-.
        apply TypePtr_xmeet_normalize_plain.
        apply (remove_speculative_no_speculative _ _ _ Hr).
      * intros H. injection H as <-.
        unfold TypePtr_xmeet_normalize. cbn [isa_ptr].
        rewrite Hs, Hr. cbn [bind]. rewrite E. reflexivity.
    + intros H. injection H as <-.
      apply TypePtr_xmeet_normalize_plain, Hs.
  - intros H. injection H as <-.
    unfold TypePtr_xmeet_normalize. rewrite Hp. reflexivity.
Qed.

Lemma bind_normalize_idem env (X : outcome Type_) :
  (do r <- (do r0 <- X; TypePtr_xmeet_normalize env r0);
   TypePtr_xmeet_normalize env r) =
  (do r0 <- X; TypePtr_xmeet_normalize env r0).
Proof.
  destruct X as [r0|f]; [|reflexivity]. cbn [bind].
  destruct (TypePtr_xmeet_normalize env r0) as [r|f] eqn:E; [|reflexivity].
  cbn [bind]. apply (TypePtr_xmeet_normalize_idem env r0 r E).
Qed.

Lemma same_type_sym a b : same_type a b = same_type b a.
Proof.
  destruct (same_type a b) eqn:E.
  - apply same_type_eq in E. subst b. symmetry. apply same_type_refl.
  - destruct (same_type b a) eqn:E'; [|reflexivity].
    apply same_type_eq in E'. subst b. rewrite same_type_refl in E.
    discriminate.
Qed.

Ltac no_speculative_result :=
  let H := fresh "H" in
  let q := fresh "q" in
  let E := fresh "E" in
  intros H; try discriminate H; injection H as <-;
  intros q E; try discriminate E; injection E as <-;
  first [reflexivity | assumption].

(** A raw pointer met with a pointer without speculative part gives a
    type without speculative part. *)
Lemma TypeRawPtr_xmeet_no_speculative this t :
  base (Ptr this) = RawPtr -> no_speculative t ->
  returns_no_speculative (TypeRawPtr_xmeet this t).
Proof.
  destruct this as [|q0 bits0| |]; try discriminate.
  intros _ Ht r. unfold TypeRawPtr_xmeet.
  destruct (same_type (Ptr (TypeRawPtr_mk q0 bits0)) t);
    [no_speculative_result|].
  destruct t as [b|f|d|h|i|l|p]; cbn [base is_ptr bind];
    try discriminate.
  - destruct b; no_speculative_result.
  - pose proof (Ht p eq_refl) as Hp.
    destruct p as [p1 o1 s1 d1|p1 bits1|p1 o1 i1 s1 d1|p1 k1 ifs1 xk1 c1 o1 i1 s1 d1];
      cbn [base is_ptr bind ptr speculative] in *.
    + subst s1. destruct p1, q0; cbn; no_speculative_result.
    + destruct p1, q0; cbn; no_speculative_result.
    + no_speculative_result.
    + no_speculative_result.
Qed.

Lemma meet_instance_id_comm (this other : TypePtr) :
  meet_instance_id this (instance_id other) =
  meet_instance_id other (instance_id this).
Proof. instance_ids. Qed.

Lemma meet_ptr_comm (this other : TypePtr) :
  meet_ptr this (ptr other) = meet_ptr other (ptr this).
Proof. unfold meet_ptr. apply ptr_meet_comm. Qed.

Lemma meet_inline_depth_comm (this other : TypePtr) :
  meet_inline_depth this (inline_depth other) =
  meet_inline_depth other (inline_depth this).
Proof. unfold meet_inline_depth. apply Z.max_comm. Qed.

(** A pointer whose [xmeet_helper] flips the call around
    ([return t->xmeet(this)]) gives what the flipped call gives. *)
Lemma flipped_call_comm env (X : outcome Type_) :
  (do res <- (do r0 <- X; TypePtr_xmeet_normalize env r0);
   TypePtr_xmeet_normalize env res) =
  (do r0 <- X; TypePtr_xmeet_normalize env r0).
Proof. apply bind_normalize_idem. Qed.

(** [xmeet] is the same in both orders on two pointers without
    speculative parts that are not both instance pointers. *)
Lemma pointer_pairs_comm env m (a b : TypePtr) :
  speculative a = None -> speculative b = None ->
  is_instance_type a && is_instance_type b = false ->
  xmeet env m (Ptr a) (Ptr b) = xmeet env m (Ptr b) (Ptr a).
Proof.
  intros Ha Hb Hi.
  destruct (same_type (Ptr a) (Ptr b)) eqn:E.
  { apply same_type_eq in E. injection E as ->. reflexivity. }
  pose proof E as E'. rewrite same_type_sym in E'.
  rewrite !xmeet_pointer_unfold.
  destruct a as [p1 o1 s1 d1|p1 bits1|p1 o1 i1 s1 d1|p1 k1 ifs1 xk1 c1 o1 i1 s1 d1];
  destruct b as [p2 o2 s2 d2|p2 bits2|p2 o2 i2 s2 d2|p2 k2 ifs2 xk2 c2 o2 i2 s2 d2];
    try discriminate Hi; cbn [speculative] in Ha, Hb; subst; cbn [pointer_xmeet].
  - (* AnyPtr, AnyPtr *)
    unfold TypePtr_xmeet, TypePtr_xmeet_helper. rewrite E, E'.
    cbn [base is_ptr bind].
    rewrite !xmeet_speculative_none by reflexivity. cbn [bind].
    rewrite meet_ptr_comm, meet_offset_comm, meet_inline_depth_comm.
    reflexivity.
  - (* AnyPtr, RawPtr *)
    unfold TypePtr_xmeet, TypePtr_xmeet_helper. rewrite E.
    cbn [base is_ptr bind].
    apply bind_normalize_id, TypeRawPtr_xmeet_no_speculative; [reflexivity|].
    intros q Eq. injection Eq as <-. reflexivity.
  - (* AnyPtr, OopPtr *)
    unfold TypePtr_xmeet at 1, TypePtr_xmeet_helper. rewrite E.
    cbn [base is_ptr bind]. unfold TypeOopPtr_xmeet. apply flipped_call_comm.
  - (* AnyPtr, InstPtr *)
    unfold TypePtr_xmeet at 1, TypePtr_xmeet_helper. rewrite E.
    cbn [base is_ptr bind]. unfold TypeInstPtr_xmeet. apply flipped_call_comm.
  - (* RawPtr, AnyPtr *)
    symmetry. unfold TypePtr_xmeet, TypePtr_xmeet_helper. rewrite E'.
    cbn [base is_ptr bind].
    apply bind_normalize_id, TypeRawPtr_xmeet_no_speculative; [reflexivity|].
    intros q Eq. injection Eq as <-. reflexivity.
  - (* RawPtr, RawPtr *)
    unfold TypeRawPtr_xmeet. rewrite E, E'. cbn [base is_ptr bind ptr].
    unfold meet_ptr. cbn [ptr]. destruct p1, p2; reflexivity.
  - (* RawPtr, OopPtr *)
    unfold TypeRawPtr_xmeet, TypeOopPtr_xmeet, TypeOopPtr_xmeet_helper.
    rewrite E, E'. reflexivity.
  - (* RawPtr, InstPtr *)
    unfold TypeRawPtr_xmeet, TypeInstPtr_xmeet, TypeInstPtr_xmeet_helper.
    rewrite E, E'. reflexivity.
  - (* OopPtr, AnyPtr *)
    symmetry. unfold TypePtr_xmeet at 1, TypePtr_xmeet_helper. rewrite E'.
    cbn [base is_ptr bind]. unfold TypeOopPtr_xmeet. apply flipped_call_comm.
  - (* OopPtr, RawPtr *)
    unfold TypeRawPtr_xmeet, TypeOopPtr_xmeet, TypeOopPtr_xmeet_helper.
    rewrite E, E'. reflexivity.
  - (* OopPtr, OopPtr *)
    unfold TypeOopPtr_xmeet, TypeOopPtr_xmeet_helper. rewrite E, E'.
    cbn [base is_ptr bind].
    rewrite !xmeet_speculative_none by reflexivity. cbn [bind].
    rewrite meet_ptr_comm, meet_offset_comm, meet_inline_depth_comm,
      meet_instance_id_comm.
    reflexivity.
  - (* OopPtr, InstPtr *)
    unfold TypeOopPtr_xmeet at 1, TypeOopPtr_xmeet_helper. rewrite E.
    cbn [base is_ptr bind]. unfold TypeInstPtr_xmeet. apply flipped_call_comm.
  - (* InstPtr, AnyPtr *)
    symmetry. unfold TypePtr_xmeet at 1, TypePtr_xmeet_helper. rewrite E'.
    cbn [base is_ptr bind]. unfold TypeInstPtr_xmeet. apply flipped_call_comm.
  - (* InstPtr, RawPtr *)
    unfold TypeRawPtr_xmeet, TypeInstPtr_xmeet, TypeInstPtr_xmeet_helper.
    rewrite E, E'. reflexivity.
  - (* InstPtr, OopPtr *)
    symmetry. unfold TypeOopPtr_xmeet at 1, TypeOopPtr_xmeet_helper. rewrite E'.
    cbn [base is_ptr bind]. unfold TypeInstPtr_xmeet. apply flipped_call_comm.
Qed.

(** [remove_speculative] stops at an assertion or not at all. *)
Lemma remove_speculative_Abort env p f :
  remove_speculative env p = Abort f -> f = AssertionFailed.
Proof.
  unfold remove_speculative, TypeOopPtr_make, TypeInstPtr_make, debug_assert.
  destruct (speculative p); [|discriminate].
  destruct p; cbn [inline_depth bind];
    repeat match goal with
    | |- context [if ?c then _ else _] => destruct c; cbn [bind]
    end;
    intros H; try discriminate H; injection H as <-; reflexivity.
Qed.

Lemma Type_remove_speculative_Abort env t f :
  Type_remove_speculative env t = Abort f -> f = AssertionFailed.
Proof.
  destruct t as [b|x|d|h|i|l|p]; cbn [Type_remove_speculative]; try discriminate.
  destruct (remove_speculative env p) as [p'|f'] eqn:E; [discriminate|].
  cbn [bind]. intros H. injection H as <-.
  apply (remove_speculative_Abort env p f' E).
Qed.

(** [meet_helper(t, false)] as the [xmeet] of the two types without their
    speculative parts. *)
Lemma meet_helper_stripped env a b a0 b0 :
  Type_remove_speculative env a = Ret a0 ->
  Type_remove_speculative env b = Ret b0 ->
  meet_helper env a b false = xmeet env (meet_of_speculative env) a0 b0.
Proof.
  intros Ha Hb. unfold meet_helper, maybe_remove_speculative. cbn [negb].
  rewrite Ha, Hb. reflexivity.
Qed.

Lemma meet_helper_strip_fails env a b :
  (exists f, Type_remove_speculative env a = Abort f) \/
  (exists f, Type_remove_speculative env b = Abort f) ->
  meet_helper env a b false = Abort AssertionFailed.
Proof.
  unfold meet_helper, maybe_remove_speculative. cbn [negb].
  destruct (Type_remove_speculative env a) as [a0|fa] eqn:Ha.
  - intros [[f H]|[f H]]; [discriminate|]. rewrite H. cbn [bind].
    rewrite (Type_remove_speculative_Abort env b f H). reflexivity.
  - intros _. cbn [bind].
    rewrite (Type_remove_speculative_Abort env a fa Ha). reflexivity.
Qed.

Ltac unfold_xmeet :=
  cbn [xmeet subclass_xmeet pointer_xmeet];
  unfold Type_xmeet, TypeF_xmeet, TypeD_xmeet, TypeH_xmeet,
    TypePtr_xmeet, TypeOopPtr_xmeet, TypeInstPtr_xmeet, TypeRawPtr_xmeet,
    TypePtr_xmeet_helper, TypeOopPtr_xmeet_helper, TypeInstPtr_xmeet_helper;
  cbn [same_type Type_equals base bind subclass_xmeet pointer_xmeet is_ptr].

(** [xmeet] on a pointer without speculative part and a type that is no
    pointer. *)
Lemma pointer_and_other_comm env m (p : TypePtr) (t : Type_) :
  speculative p = None -> isa_ptr t = None ->
  has_xmeet_in_sources t = true ->
  asymmetric_pair (Ptr p) t = false -> asymmetric_pair t (Ptr p) = false ->
  xmeet env m (Ptr p) t = xmeet env m t (Ptr p).
Proof.
  intros Hp Ht Hs H1 H2.
  destruct t as [b|f|d|h|i|l|q]; try discriminate.
  - destruct p as [p1 o1 s1 d1|p1 bits1|p1 o1 i1 s1 d1|p1 k1 ifs1 xk1 c1 o1 i1 s1 d1];
      cbn [speculative] in Hp; subst;
      destruct b; try discriminate;
      unfold_xmeet; cbn;
      rewrite ?TypePtr_xmeet_normalize_plain by reflexivity; reflexivity.
  - destruct p as [p1 o1 s1 d1|p1 bits1|p1 o1 i1 s1 d1|p1 k1 ifs1 xk1 c1 o1 i1 s1 d1];
      cbn [speculative] in Hp; subst; try discriminate;
      unfold_xmeet; cbn; reflexivity.
  - destruct p as [p1 o1 s1 d1|p1 bits1|p1 o1 i1 s1 d1|p1 k1 ifs1 xk1 c1 o1 i1 s1 d1];
      cbn [speculative] in Hp; subst; try discriminate;
      unfold_xmeet; cbn; reflexivity.
  - destruct p as [p1 o1 s1 d1|p1 bits1|p1 o1 i1 s1 d1|p1 k1 ifs1 xk1 c1 o1 i1 s1 d1];
      cbn [speculative] in Hp; subst; try discriminate;
      unfold_xmeet; cbn; reflexivity.
Qed.

(** [xmeet] on two types that are no pointers. *)
Lemma others_comm env m (a b : Type_) :
  isa_ptr a = None -> isa_ptr b = None ->
  has_xmeet_in_sources a = true -> has_xmeet_in_sources b = true ->
  xmeet env m a b = xmeet env m b a.
Proof.
  intros Ha Hb Hsa Hsb.
  destruct a as [[]|f1|d1|h1|i1|l1|p1]; try discriminate;
  destruct b as [[]|f2|d2|h2|i2|l2|p2]; try discriminate;
    try reflexivity; floating_meet.
Qed.

(** Removing the speculative part keeps the class of a type. *)
Lemma Type_remove_speculative_class env t t0 :
  Type_remove_speculative env t = Ret t0 ->
  no_speculative t0 /\ base t0 = base t /\
  has_xmeet_in_sources t0 = has_xmeet_in_sources t /\
  (isa_ptr t = None -> t0 = t) /\
  (forall p, t = Ptr p ->
     exists p0, t0 = Ptr p0 /\ is_instance_type p0 = is_instance_type p) /\
  (forall u, asymmetric_pair t0 u = asymmetric_pair t u).
Proof.
  intros H.
  destruct (Type_remove_speculative_plain env t t0 H) as [_ [Hs Hb]].
  split; [exact Hs|]. split; [exact Hb|].
  destruct t as [b|f|d|h|i|l|p]; cbn [Type_remove_speculative] in H;
    try (injection H as <-; repeat split; try reflexivity;
         intros q E; discriminate E).
  apply bind_Ret_inv in H as [p0 [Hp H]]. injection H as <-.
  assert (Hc : is_instance_type p0 = is_instance_type p /\
               forall u, asymmetric_pair (Ptr p0) u = asymmetric_pair (Ptr p) u).
  { unfold remove_speculative in Hp. destruct (speculative p) as [s|].
    - apply bind_Ret_inv in Hp as [_ [_ Hp]].
      destruct p as [? ? ? ?|? ?|? ? ? ? ?|? ? ? ? ? ? ? ? ?].
      + injection Hp as <-. split; reflexivity.
      + injection Hp as <-. split; reflexivity.
      + apply TypeOopPtr_make_Ret in Hp as ->. split; reflexivity.
      + apply TypeInstPtr_make_Ret in Hp as [xk' ->]. split; reflexivity.
    - injection Hp as <-. split; reflexivity. }
  destruct Hc as [Hc1 Hc2].
  split; [reflexivity|]. split; [discriminate|]. split; [|exact Hc2].
  intros q E. injection E as <-. exists p0. split; [reflexivity|exact Hc1].
Qed.

Lemma asymmetric_pair_base this t t' :
  base t' = base t -> asymmetric_pair this t' = asymmetric_pair this t.
Proof. unfold asymmetric_pair. intros ->. reflexivity. Qed.

(** X12: [Type::meet_helper] without speculative parts gives the same
    result in both orders (the same type, or the same failure) on every
    pair of types whose [xmeet] is in the sources, but for two families
    of pairs and for two instance pointers, whose meet asks the class
    hierarchy.  On the two families it never does: the top or bottom of
    a floating-point family with an [AnyPtr], and a raw pointer with a
    floating-point constant, stop at [ShouldNotReachHere] in one order
    and give [BOTTOM] in the other. *)
Theorem X12_meet_commutes_but_for_two_gaps env (a b : Type_) :
  (has_xmeet_in_sources a = true -> has_xmeet_in_sources b = true ->
   asymmetric_pair a b = false -> asymmetric_pair b a = false ->
   both_instances a b = false ->
   meet_helper env a b false = meet_helper env b a false) /\
  (asymmetric_pair a b = true -> has_xmeet_in_sources b = true ->
   forall b0, Type_remove_speculative env b = Ret b0 ->
   meet_helper env a b false = Abort ShouldNotReachHere /\
   meet_helper env b a false = Ret BOTTOM).
Proof.
  split.
  - intros Hsa Hsb H1 H2 Hi.
    destruct (Type_remove_speculative env a) as [a0|fa] eqn:Ha.
    2:{ rewrite !meet_helper_strip_fails by eauto. reflexivity. }
    destruct (Type_remove_speculative env b) as [b0|fb] eqn:Hb.
    2:{ rewrite !meet_helper_strip_fails by eauto. reflexivity. }
    rewrite (meet_helper_stripped env a b a0 b0 Ha Hb),
      (meet_helper_stripped env b a b0 a0 Hb Ha).
    destruct (Type_remove_speculative_class env a a0 Ha)
      as (Na & Ba & Sa & Ia & Pa & Aa).
    destruct (Type_remove_speculative_class env b b0 Hb)
      as (Nb & Bb & Sb & Ib & Pb & Ab).
    rewrite <- Sa in Hsa. rewrite <- Sb in Hsb.
    rewrite <- Aa, <- (asymmetric_pair_base a0 b b0 Bb) in H1.
    rewrite <- Ab, <- (asymmetric_pair_base b0 a a0 Ba) in H2.
    assert (Hi0 : both_instances a0 b0 = false).
    { destruct a as [| | | | | |p]; try (rewrite Ia by reflexivity; reflexivity).
      destruct (Pa p eq_refl) as [p0 [-> Hp0]].
      destruct b as [| | | | | |q]; try (rewrite Ib by reflexivity; reflexivity).
      destruct (Pb q eq_refl) as [q0 [-> Hq0]].
      cbn [both_instances] in *. rewrite Hp0, Hq0. exact Hi. }
    clear Ha Hb Ba Bb Sa Sb Ia Ib Pa Pb Aa Ab Hi a b.
    destruct a0 as [ba|fa|da|ha|ia|la|pa] eqn:Ea;
      destruct b0 as [bb|fb|db|hb|ib|lb|pb] eqn:Eb;
      try discriminate Hsa; try discriminate Hsb;
      try (rewrite <- Ea, <- Eb; apply others_comm; subst; assumption || reflexivity);
      try (apply pointer_and_other_comm;
           [apply Na; reflexivity | reflexivity | assumption | assumption
           | assumption]);
      try (symmetry; apply pointer_and_other_comm;
           [apply Nb; reflexivity | reflexivity | assumption | assumption
           | assumption]).
    apply pointer_pairs_comm;
      [apply Na; reflexivity | apply Nb; reflexivity | exact Hi0].
  - intros H Hsb b0 Hb.
    assert (Ha : Type_remove_speculative env a = Ret a).
    { destruct a as [| | | | | |[]]; try reflexivity; discriminate H. }
    destruct (Type_remove_speculative_class env b b0 Hb)
      as (Nb & Bb & Sb & _ & Pb & _).
    rewrite <- (asymmetric_pair_base a b b0 Bb) in H.
    rewrite <- Sb in Hsb.
    rewrite (meet_helper_stripped env a b a b0 Ha Hb),
      (meet_helper_stripped env b a b0 a Hb Ha).
    clear Ha Hb Bb Sb Pb b.
    destruct b0 as [bb|fb|db|hb|ib|lb|pb] eqn:Eb.
    + destruct a as [[]| | | | | |[]], bb; try discriminate H;
        discriminate Hsb.
    + destruct a as [[]| | | | | |[]]; try discriminate H.
      split; unfold_xmeet; reflexivity.
    + destruct a as [[]| | | | | |[]]; try discriminate H.
      split; unfold_xmeet; reflexivity.
    + destruct a as [[]| | | | | |[]]; try discriminate H.
      split; unfold_xmeet; reflexivity.
    + destruct a as [[]| | | | | |[]]; discriminate H.
    + destruct a as [[]| | | | | |[]]; discriminate H.
    + pose proof (Nb pb eq_refl) as Hs.
      destruct pb as [p1 o1 s1 d1|p1 bits1|p1 o1 i1 s1 d1|p1 k1 ifs1 xk1 c1 o1 i1 s1 d1];
        cbn [speculative] in Hs; subst;
        destruct a as [[]| | | | | |[]]; try discriminate H;
        split; unfold_xmeet; reflexivity.
Qed.

Lemma X12_meet_commutes_but_for_two_gaps_witness :
  meet_helper example_env (Ptr TypeRawPtr_NOTNULL) (Ptr speculated_not_null) false =
  meet_helper example_env (Ptr speculated_not_null) (Ptr TypeRawPtr_NOTNULL) false /\
  meet_helper example_env DOUBLE (Ptr speculated_not_null) false =
    Abort ShouldNotReachHere /\
  meet_helper example_env (Ptr speculated_not_null) DOUBLE false = Ret BOTTOM.
Proof.
  split.
  - apply (proj1 (X12_meet_commutes_but_for_two_gaps example_env
                    (Ptr TypeRawPtr_NOTNULL) (Ptr speculated_not_null)));
      reflexivity.
  - apply (proj2 (X12_meet_commutes_but_for_two_gaps example_env
                    DOUBLE (Ptr speculated_not_null)) eq_refl eq_refl
             (Ptr plain_bottom)).
    reflexivity.
Defined.

(* ===================================================================== *)
(** ** The meet of two instance pointers in both orders *)
(* ===================================================================== *)

Lemma TypeInterfaces_eq_sym l1 l2 :
  TypeInterfaces.eq l1 l2 = TypeInterfaces.eq l2 l1.
Proof.
  destruct (TypeInterfaces.eq l1 l2) eqn:E1, (TypeInterfaces.eq l2 l1) eqn:E2;
    try reflexivity.
  - apply TypeInterfaces_eq_eq in E1. subst l2.
    rewrite (proj2 (TypeInterfaces_eq_eq l1 l1) eq_refl) in E2. discriminate.
  - apply TypeInterfaces_eq_eq in E2. subst l2.
    rewrite (proj2 (TypeInterfaces_eq_eq l1 l1) eq_refl) in E1. discriminate.
Qed.

Lemma is_same_java_type_as_sym env a b :
  is_instance_type a = true -> is_instance_type b = true ->
  is_same_java_type_as env a b = is_same_java_type_as env b a.
Proof.
  intros Ha Hb. unfold is_same_java_type_as. rewrite Ha, Hb. cbn [negb].
  rewrite (orb_comm (negb (is_loaded env (klass env a)))),
    (Z.eqb_sym (klass env a)), (TypeInterfaces_eq_sym (interfaces a)).
  reflexivity.
Qed.

Lemma is_same_java_type_as_refl env a :
  is_instance_type a = true -> is_loaded env (klass env a) = true ->
  is_same_java_type_as env a a = true.
Proof.
  intros Ha Hl. unfold is_same_java_type_as. rewrite Ha, Hl. cbn [negb orb].
  rewrite Z.eqb_refl. apply TypeInterfaces_eq_eq. reflexivity.
Qed.

Lemma is_same_java_type_as_klass env a b :
  is_same_java_type_as env a b = true -> klass env a = klass env b.
Proof.
  unfold is_same_java_type_as.
  destruct (negb (is_loaded env (klass env a)) ||
            negb (is_loaded env (klass env b))); [discriminate|].
  destruct (negb (is_instance_type b)); [discriminate|].
  intros H. apply andb_true_iff in H as [H _]. apply Z.eqb_eq, H.
Qed.

(** Two loaded classes that are meet-subtypes of each other are the same
    class. *)
Lemma is_meet_subtype_of_both env a b :
  hierarchy_ok env (klass env a) (klass env b) ->
  is_loaded env (klass env a) = true -> is_loaded env (klass env b) = true ->
  is_meet_subtype_of env a b = true -> is_meet_subtype_of env b a = true ->
  klass env a = klass env b.
Proof.
  intros Hh La Lb.
  unfold is_meet_subtype_of, is_meet_subtype_of_helper_for_instance.
  destruct (negb (is_instance_type b)); [discriminate|].
  destruct (negb (is_instance_type a)); [discriminate|].
  destruct ((klass env b =? Object_klass env) &&
            TypeInterfaces.empty (interfaces b)) eqn:Eb;
  destruct ((klass env a =? Object_klass env) &&
            TypeInterfaces.empty (interfaces a)) eqn:Ea;
    intros H1 H2.
  - apply andb_true_iff in Ea as [Ea _], Eb as [Eb _].
    apply Z.eqb_eq in Ea, Eb. congruence.
  - apply andb_true_iff in Eb as [Eb _]. apply Z.eqb_eq in Eb.
    apply andb_true_iff in H2 as [H2 _].
    apply (subtype_antisymmetric env _ _ Hh); [|exact H2].
    rewrite Eb. apply (Object_above_first env _ _ Hh La).
  - apply andb_true_iff in Ea as [Ea _]. apply Z.eqb_eq in Ea.
    apply andb_true_iff in H1 as [H1 _].
    apply (subtype_antisymmetric env _ _ Hh); [exact H1|].
    rewrite Ea. apply (Object_above_second env _ _ Hh Lb).
  - apply andb_true_iff in H1 as [H1 _], H2 as [H2 _].
    apply (subtype_antisymmetric env _ _ Hh); assumption.
Qed.

Lemma intersection_with_comm S1 S2 :
  sorted_lt S1 -> sorted_lt S2 ->
  TypeInterfaces.intersection_with S1 S2 = TypeInterfaces.intersection_with S2 S1.
Proof.
  intros H1 H2.
  destruct (intersection_with_spec S1 S2 H1 H2) as (_ & Is & Im).
  destruct (intersection_with_spec S2 S1 H2 H1) as (_ & Is' & Im').
  apply sorted_lt_ext; [exact Is|exact Is'|].
  intros k. rewrite Im, Im'. tauto.
Qed.

Lemma union_with_comm S1 S2 :
  sorted_lt S1 -> sorted_lt S2 ->
  TypeInterfaces.union_with S1 S2 = TypeInterfaces.union_with S2 S1.
Proof.
  intros H1 H2.
  destruct (union_with_spec S1 S2 H1 H2) as (_ & Us & Um).
  destruct (union_with_spec S2 S1 H2 H1) as (_ & Us' & Um').
  apply sorted_lt_ext; [exact Us|exact Us'|].
  intros k. rewrite Um, Um'. tauto.
Qed.

Lemma meet_interfaces_comm a b :
  sorted_lt (interfaces a) -> sorted_lt (interfaces b) ->
  meet_interfaces a b = meet_interfaces b a.
Proof.
  intros Ha Hb. unfold meet_interfaces.
  rewrite (union_with_comm _ _ Ha Hb), (intersection_with_comm _ _ Ha Hb).
  destruct (above_centerline (ptr a)), (above_centerline (ptr b)); reflexivity.
Qed.

Lemma meet_instptr_comm env ptr0 ifs0 a b :
  is_instance_type a = true -> is_instance_type b = true ->
  hierarchy_ok env (klass env a) (klass env b) ->
  sorted_lt (interfaces a) -> sorted_lt (interfaces b) ->
  meet_instptr env ptr0 ifs0 a b = meet_instptr env ptr0 ifs0 b a.
Proof.
  intros Ia Ib Hh Sa Sb. unfold meet_instptr. cbv zeta.
  rewrite (Z.eqb_sym (klass env b) (klass env a)).
  rewrite (is_same_java_type_as_sym env b a Ib Ia).
  rewrite (intersection_with_comm _ _ Sb Sa).
  rewrite <- (lca_symmetric env _ _ Hh).
  rewrite (orb_comm (negb (is_loaded env (klass env a)))).
  rewrite (andb_comm (klass_is_exact b) (klass_is_exact a)),
    (orb_comm (klass_is_exact b) (klass_is_exact a)).
  assert (Ex : Bool.eqb (klass_is_exact b) (klass_is_exact a) =
               Bool.eqb (klass_is_exact a) (klass_is_exact b))
    by (destruct (klass_is_exact a), (klass_is_exact b); reflexivity).
  rewrite Ex. clear Ex.
  destruct (negb (PTR_eqb ptr0 Constant) && (klass env a =? klass env b) &&
            Bool.eqb (klass_is_exact a) (klass_is_exact b)) eqn:Q.
  { apply andb_true_iff in Q as [Q Q2]. apply andb_true_iff in Q as [_ Q1].
    apply Z.eqb_eq in Q1. apply Bool.eqb_prop in Q2. rewrite Q1, Q2.
    reflexivity. }
  destruct (is_loaded env (klass env b)) eqn:Lb; [|reflexivity].
  destruct (is_loaded env (klass env a)) eqn:La; [|reflexivity].
  cbn [negb orb].
  pose proof (is_same_java_type_as_refl env a Ia La) as Jaa.
  pose proof (is_same_java_type_as_refl env b Ib Lb) as Jbb.
  pose proof (is_same_java_type_as_sym env b a Ib Ia) as Jba.
  destruct (is_same_java_type_as env a b) eqn:J.
  - pose proof (is_same_java_type_as_klass env a b J) as Hk.
    destruct (above_centerline ptr0), (above_centerline (ptr a)),
      (above_centerline (ptr b)); cbn [andb negb];
      rewrite ?Jaa, ?Jbb, ?J, ?Jba, ?Hk; reflexivity.
  - destruct (negb (klass_is_exact b) && is_meet_subtype_of env a b) eqn:T1;
    destruct (negb (klass_is_exact a) && is_meet_subtype_of env b a) eqn:T2.
    + apply andb_true_iff in T1 as [X1 T1], T2 as [X2 T2].
      pose proof (is_meet_subtype_of_both env a b Hh La Lb T1 T2) as Hk.
      apply negb_true_iff in X1, X2. rewrite X1, X2.
      destruct (above_centerline ptr0), (above_centerline (ptr a)),
        (above_centerline (ptr b)); cbn [andb negb];
        rewrite ?Jaa, ?Jbb, ?J, ?Jba, ?Hk; reflexivity.
    + destruct (above_centerline ptr0), (above_centerline (ptr a)),
        (above_centerline (ptr b)); cbn [andb negb];
        rewrite ?Jaa, ?Jbb, ?J, ?Jba; reflexivity.
    + destruct (above_centerline ptr0), (above_centerline (ptr a)),
        (above_centerline (ptr b)); cbn [andb negb];
        rewrite ?Jaa, ?Jbb, ?J, ?Jba; reflexivity.
    + destruct (above_centerline ptr0), (above_centerline (ptr a)),
        (above_centerline (ptr b)); cbn [andb negb];
        rewrite ?Jaa, ?Jbb, ?J, ?Jba; reflexivity.
Qed.

Lemma meet_instptr_UNLOADED env ptr0 ifs0 a b :
  mi_kind (meet_instptr env ptr0 ifs0 a b) = UNLOADED ->
  is_loaded env (klass env a) = false \/ is_loaded env (klass env b) = false.
Proof.
  unfold meet_instptr. cbv zeta.
  destruct (negb (PTR_eqb ptr0 Constant) && (klass env a =? klass env b) &&
            Bool.eqb (klass_is_exact a) (klass_is_exact b)); [discriminate|].
  destruct (is_loaded env (klass env b)); [|auto].
  destruct (is_loaded env (klass env a)); [|auto].
  cbn [negb orb].
  repeat match goal with
         | |- context [if ?c then _ else _] => destruct c
         end; discriminate.
Qed.

Lemma meet_instptr_Constant env ptr0 ifs0 a b :
  mi_ptr (meet_instptr env ptr0 ifs0 a b) = Constant -> ptr0 = Constant.
Proof.
  unfold meet_instptr. cbv zeta.
  repeat match goal with
         | |- context [if ?c then _ else _] => destruct c eqn:?
         end; cbn [mi_ptr]; try (intros H; exact H); try discriminate.
Qed.

Lemma xmeet_unloaded_comm env m a b ifs :
  speculative a = None -> speculative b = None ->
  is_loaded env (Object_klass env) = true ->
  is_loaded env (klass env a) = false \/ is_loaded env (klass env b) = false ->
  xmeet_unloaded env m a b ifs = xmeet_unloaded env m b a ifs.
Proof.
  intros Ha Hb Ho Hl. unfold xmeet_unloaded. cbv zeta.
  rewrite !xmeet_speculative_none by assumption. cbn [bind].
  rewrite (meet_ptr_comm b a), (meet_offset_comm b a),
    (meet_inline_depth_comm b a), (meet_instance_id_comm b a).
  destruct (is_loaded env (klass env a)) eqn:La,
           (is_loaded env (klass env b)) eqn:Lb.
  - destruct Hl; discriminate.
  - reflexivity.
  - reflexivity.
  - assert (Ea : (klass env a =? Object_klass env) = false).
    { apply Z.eqb_neq. intros E. rewrite E in La. congruence. }
    assert (Eb : (klass env b =? Object_klass env) = false).
    { apply Z.eqb_neq. intros E. rewrite E in Lb. congruence. }
    rewrite Ea, Eb. reflexivity.
Qed.

Lemma ptr_meet_Constant_not_both_above pa pb :
  ptr_meet pa pb = Constant ->
  above_centerline pa && above_centerline pb = false.
Proof. destruct pa, pb; cbn; congruence. Qed.

Lemma option_eqb_Z_sym (x y : option Z) :
  option_eqb Z.eqb x y = option_eqb Z.eqb y x.
Proof.
  destruct x as [x|], y as [y|]; cbn; try reflexivity. apply Z.eqb_sym.
Qed.

Lemma hierarchy_ok_sym env k1 k2 :
  hierarchy_ok env k1 k2 -> hierarchy_ok env k2 k1.
Proof.
  intros [H1 H2 H3 H4 H5]. split; auto.
  intros Ha Hb. symmetry. apply H4; assumption.
Qed.

Lemma TypeInstPtr_xmeet_helper_comm env m a b :
  is_instance_type a = true -> is_instance_type b = true ->
  speculative a = None -> speculative b = None ->
  hierarchy_ok env (klass env a) (klass env b) ->
  sorted_lt (interfaces a) -> sorted_lt (interfaces b) ->
  TypeInstPtr_xmeet_helper env m a (Ptr b) =
  TypeInstPtr_xmeet_helper env m b (Ptr a).
Proof.
  intros Ia Ib Ha Hb Hh Sa Sb.
  unfold TypeInstPtr_xmeet_helper.
  rewrite (same_type_sym (Ptr b) (Ptr a)).
  destruct (same_type (Ptr a) (Ptr b)) eqn:E.
  { apply same_type_eq in E. rewrite E. reflexivity. }
  assert (Ba : base (Ptr a) = InstPtr) by (destruct a; try discriminate; reflexivity).
  assert (Bb : base (Ptr b) = InstPtr) by (destruct b; try discriminate; reflexivity).
  rewrite Ba, Bb. cbn [is_ptr bind].
  rewrite !xmeet_speculative_none by assumption. cbn [bind]. cbv zeta.
  rewrite (meet_ptr_comm b a), (meet_offset_comm b a),
    (meet_inline_depth_comm b a), (meet_instance_id_comm b a),
    (meet_interfaces_comm b a Sb Sa).
  rewrite (meet_instptr_comm env _ _ b a Ib Ia).
  2:exact (hierarchy_ok_sym env _ _ Hh). 2:exact Sb. 2:exact Sa.
  remember (meet_instptr env (meet_ptr a (ptr b)) (meet_interfaces a b) a b)
    as M eqn:EM.
  assert (Hpo :
    (if PTR_eqb (mi_ptr M) Constant
     then
       if is_Some_b (const_oop a) && is_Some_b (const_oop b) &&
          option_eqb Z.eqb (const_oop a) (const_oop b)
       then Ret (mi_ptr M, const_oop a)
       else if above_centerline (ptr a) then
         assert! (negb (is_interface env (klass env b)));
         Ret (mi_ptr M, const_oop b)
       else if above_centerline (ptr b) then
         assert! (negb (is_interface env (klass env a)));
         Ret (mi_ptr M, const_oop a)
       else Ret (NotNull, None)
     else Ret (mi_ptr M, None)) =
    (if PTR_eqb (mi_ptr M) Constant
     then
       if is_Some_b (const_oop b) && is_Some_b (const_oop a) &&
          option_eqb Z.eqb (const_oop b) (const_oop a)
       then Ret (mi_ptr M, const_oop b)
       else if above_centerline (ptr b) then
         assert! (negb (is_interface env (klass env a)));
         Ret (mi_ptr M, const_oop a)
       else if above_centerline (ptr a) then
         assert! (negb (is_interface env (klass env b)));
         Ret (mi_ptr M, const_oop b)
       else Ret (NotNull, None)
     else Ret (mi_ptr M, None))).
  { destruct (PTR_eqb (mi_ptr M) Constant) eqn:C; [|reflexivity].
    apply PTR_eqb_eq in C. rewrite EM in C.
    apply meet_instptr_Constant in C. unfold meet_ptr in C.
    apply ptr_meet_Constant_not_both_above in C.
    rewrite (andb_comm (is_Some_b (const_oop b))),
      (option_eqb_Z_sym (const_oop b)).
    destruct (is_Some_b (const_oop a) && is_Some_b (const_oop b) &&
              option_eqb Z.eqb (const_oop a) (const_oop b)) eqn:O.
    - apply andb_true_iff in O as [_ O]. apply option_eqb_Z_eq in O.
      rewrite O. reflexivity.
    - destruct (above_centerline (ptr a)), (above_centerline (ptr b));
        try reflexivity. discriminate C. }
  destruct (mi_kind M) eqn:K; try (rewrite Hpo; reflexivity).
  rewrite (xmeet_unloaded_comm env m a b); try assumption; try reflexivity.
  - apply (Object_is_loaded env _ _ Hh).
  - rewrite EM in K. apply (meet_instptr_UNLOADED env _ _ a b K).
Qed.

(** X13: the meet of two instance pointers is the same in both orders
    (the same type, or the same failure), whatever is known of the two
    classes (loaded or not, exact or not, a constant or not), in a class
    hierarchy where [Object] is loaded and above every loaded class, two
    classes that are subtypes of each other are one class, and the least
    common ancestor does not depend on the order. *)
Theorem X13_instance_meet_commutes env (a b : TypePtr) :
  is_instance_type a = true -> is_instance_type b = true ->
  hierarchy_ok env (klass env a) (klass env b) ->
  TypeInterfaces.verify (interfaces a) = true ->
  TypeInterfaces.verify (interfaces b) = true ->
  meet_helper env (Ptr a) (Ptr b) false = meet_helper env (Ptr b) (Ptr a) false.
Proof.
  intros Ia Ib Hh Va Vb. apply verify_sorted_lt in Va, Vb.
  destruct (Type_remove_speculative env (Ptr a)) as [a0|fa] eqn:Ha.
  2:{ rewrite !meet_helper_strip_fails by eauto. reflexivity. }
  destruct (Type_remove_speculative env (Ptr b)) as [b0|fb] eqn:Hb.
  2:{ rewrite !meet_helper_strip_fails by eauto. reflexivity. }
  rewrite (meet_helper_stripped env _ _ a0 b0 Ha Hb),
    (meet_helper_stripped env _ _ b0 a0 Hb Ha).
  cbn [Type_remove_speculative] in Ha, Hb.
  apply bind_Ret_inv in Ha as [pa [Ha Ea]]. injection Ea as <-.
  apply bind_Ret_inv in Hb as [pb [Hb Eb]]. injection Eb as <-.
  destruct a as [| | |p1 k1 ifs1 xk1 c1 o1 i1 s1 d1]; try discriminate Ia.
  destruct b as [| | |p2 k2 ifs2 xk2 c2 o2 i2 s2 d2]; try discriminate Ib.
  apply remove_speculative_InstPtr in Ha as [xk1' ->].
  apply remove_speculative_InstPtr in Hb as [xk2' ->].
  cbn [xmeet subclass_xmeet pointer_xmeet]. unfold TypeInstPtr_xmeet.
  rewrite (TypeInstPtr_xmeet_helper_comm env (meet_of_speculative env)
             (TypeInstPtr_mk p1 k1 ifs1 xk1' c1 o1 i1 None d1)
             (TypeInstPtr_mk p2 k2 ifs2 xk2' c2 o2 i2 None d2));
    try reflexivity; assumption.
Qed.

Lemma X13_instance_meet_commutes_witness :
  meet_helper example_env (Ptr example_foo) (Ptr example_bar) false =
  meet_helper example_env (Ptr example_bar) (Ptr example_foo) false.
Proof.
  apply (X13_instance_meet_commutes example_env example_foo example_bar);
    try reflexivity.
  split; try reflexivity; vm_compute; discriminate.
Defined.

(* ===================================================================== *)
(** ** The meet of two pointers and null *)
(* ===================================================================== *)

Lemma result_below_Ret q p :
  ptr_meet (ptr p) q = ptr p -> result_below q (Ret (Ptr p)).
Proof. intros H r E. injection E as <-. eauto. Qed.

Lemma result_below_Abort q f : result_below q (Abort f).
Proof. intros r E. discriminate E. Qed.

Lemma result_below_bind q (X : outcome TypePtr) :
  (forall p, X = Ret p -> ptr_meet (ptr p) q = ptr p) ->
  result_below q (do r <- X; Ret (Ptr r)).
Proof.
  intros H r E. destruct X as [p|f]; [|discriminate E]. injection E as <-.
  exists p. split; [reflexivity|]. apply H. reflexivity.
Qed.

Lemma TypeOopPtr_make_ptr p o i s d r :
  TypeOopPtr_make p o i s d = Ret r -> ptr r = p.
Proof. intros H. apply TypeOopPtr_make_Ret in H as ->. reflexivity. Qed.

Lemma TypeInstPtr_make_ptr env p k ifs xk c o i s d r :
  TypeInstPtr_make env p k ifs xk c o i s d = Ret r -> ptr r = p.
Proof. intros H. apply TypeInstPtr_make_Ret in H as [xk' ->]. reflexivity. Qed.

Lemma remove_speculative_ptr env p p0 :
  remove_speculative env p = Ret p0 ->
  ptr p0 = ptr p /\ is_instance_type p0 = is_instance_type p.
Proof.
  unfold remove_speculative. destruct (speculative p) as [s|].
  - intros H. apply bind_Ret_inv in H as [_ [_ H]].
    destruct p as [? ? ? ?|? ?|? ? ? ? ?|? ? ? ? ? ? ? ? ?].
    + injection H as <-. split; reflexivity.
    + injection H as <-. split; reflexivity.
    + apply TypeOopPtr_make_Ret in H as ->. split; reflexivity.
    + apply TypeInstPtr_make_Ret in H as [xk' ->]. split; reflexivity.
  - intros H. injection H as <-. split; reflexivity.
Qed.

Lemma normalize_below env q (X : outcome Type_) :
  result_below q X ->
  result_below q (do r <- X; TypePtr_xmeet_normalize env r).
Proof.
  intros H r E. destruct X as [x|f]; [|discriminate E]. cbn [bind] in E.
  destruct (H x eq_refl) as [p [-> Hp]].
  unfold TypePtr_xmeet_normalize in E. cbn [isa_ptr] in E.
  destruct (speculative p) as [s|]; [|injection E as <-; eauto].
  destruct (remove_speculative env p) as [p0|f] eqn:R; [|discriminate E].
  cbn [bind] in E. destruct (same_ptr p0 s); injection E as <-; [|eauto].
  exists p0. split; [reflexivity|].
  destruct (remove_speculative_ptr env p p0 R) as [-> _]. exact Hp.
Qed.

Ltac ptr_cases :=
  unfold meet_ptr in *; cbn [ptr] in *;
  repeat match goal with
         | p : PTR |- _ => destruct p
         end; try reflexivity; try discriminate; try congruence.

Lemma TypeRawPtr_xmeet_below a b :
  base (Ptr a) = RawPtr ->
  result_below (ptr_meet (ptr a) (ptr b)) (TypeRawPtr_xmeet a (Ptr b)).
Proof.
  destruct a as [|pa bits| |]; try discriminate. intros _.
  unfold TypeRawPtr_xmeet.
  destruct (same_type (Ptr (TypeRawPtr_mk pa bits)) (Ptr b)) eqn:E.
  { apply same_type_eq in E. injection E as <-.
    apply result_below_Ret. cbn [ptr]. destruct pa; reflexivity. }
  destruct b as [pb o s d|pb bits'|pb o i s d|pb k ifs xk c o i s d];
    cbn [base is_ptr bind ptr].
  - destruct pb, pa; cbn; try apply result_below_Abort;
      apply result_below_Ret; reflexivity.
  - destruct pb, pa; cbn; try apply result_below_Abort;
      apply result_below_Ret; reflexivity.
  - apply result_below_Ret. reflexivity.
  - apply result_below_Ret. reflexivity.
Qed.

Ltac invert_makes :=
  repeat match goal with
  | H : bind _ _ = Ret _ |- _ =>
    let x := fresh "x" in
    let Hx := fresh "Hx" in
    apply bind_Ret_inv in H as [x [Hx H]]
  | H : TypeInstPtr_make _ _ _ _ _ _ _ _ _ _ = Ret _ |- _ =>
    apply TypeInstPtr_make_ptr in H
  | H : TypeOopPtr_make _ _ _ _ _ = Ret _ |- _ =>
    apply TypeOopPtr_make_ptr in H
  | H : with_speculative _ _ _ = Ret _ |- _ => unfold with_speculative in H
  | H : TypeInstPtr_BOTTOM _ = Ret _ |- _ => unfold TypeInstPtr_BOTTOM in H
  | H : TypeInstPtr_NOTNULL _ = Ret _ |- _ => unfold TypeInstPtr_NOTNULL in H
  | H : debug_assert _ = Ret _ |- _ => clear H
  end.

Lemma xmeet_unloaded_below env m a b ifs r :
  speculative a = None -> speculative b = None ->
  ptr a <> Null -> ptr b <> Null ->
  xmeet_unloaded env m a b ifs = Ret r ->
  ptr_meet (ptr r) (ptr_meet (ptr a) (ptr b)) = ptr r.
Proof.
  intros Sa Sb Na Nb. unfold xmeet_unloaded. cbv zeta.
  rewrite xmeet_speculative_none by assumption. cbn [bind].
  unfold meet_ptr.
  destruct (ptr a) eqn:Pa; try contradiction;
  destruct (ptr b) eqn:Pb; try contradiction;
  destruct (is_loaded env (klass env a));
  match goal with
  | |- context [?k =? Object_klass env] => destruct (k =? Object_klass env)
  end;
  rewrite ?Pa, ?Pb; cbn; unfold TypeInstPtr_cast_to_ptr_type; rewrite ?Pa, ?Pb; cbn;
  intros H; invert_makes; rewrite ?Pa, ?Pb in *; try discriminate;
  subst;
  repeat match goal with
         | H : ptr ?x = _ |- context [ptr ?x] => rewrite H
         end; reflexivity.
Qed.

Lemma meet_instptr_ptr env ptr0 ifs0 a b :
  mi_ptr (meet_instptr env ptr0 ifs0 a b) = ptr0 \/
  (mi_ptr (meet_instptr env ptr0 ifs0 a b) = NotNull /\
   (ptr0 = TopPTR \/ ptr0 = AnyNull \/ ptr0 = Constant)).
Proof.
  unfold meet_instptr. cbv zeta.
  destruct ptr0; cbn [PTR_eqb PTR_eq_dec PTR_rec PTR_rect negb andb orb];
  repeat match goal with
         | |- context [if ?c then _ else _] => destruct c
         | |- context [let '(_, _) := ?c in _] => destruct c
         end; cbn [mi_ptr]; auto.
Qed.

Ltac below_step :=
  first
  [ apply result_below_Abort
  | apply result_below_Ret; reflexivity
  | apply result_below_bind;
    let p := fresh "p" in
    let H := fresh "H" in
    intros p H; invert_makes; rewrite H; reflexivity ].

(** The [ptr] and the constant that the [InstPtr] case of
    [TypeInstPtr::xmeet_helper] settles on. *)
Lemma const_oop_block_ptr (ptr1 : PTR) (c1 c2 c3 : bool)
    (o1 o2 o3 : option ciObject) (a1 a2 : outcome unit) po :
  (if PTR_eqb ptr1 Constant
   then if c1 then Ret (ptr1, o1)
        else if c2 then do _ <- a1; Ret (ptr1, o2)
        else if c3 then do _ <- a2; Ret (ptr1, o3)
        else Ret (NotNull, None)
   else Ret (ptr1, None)) = Ret po ->
  fst po = ptr1 \/ (fst po = NotNull /\ ptr1 = Constant).
Proof.
  destruct (PTR_eqb ptr1 Constant) eqn:C.
  - apply PTR_eqb_eq in C.
    destruct c1; [intros H; injection H as <-; auto|].
    destruct c2.
    { intros H. apply bind_Ret_inv in H as [_ [_ H]]. injection H as <-. auto. }
    destruct c3.
    { intros H. apply bind_Ret_inv in H as [_ [_ H]]. injection H as <-. auto. }
    intros H. injection H as <-. auto.
  - intros H. injection H as <-. auto.
Qed.

Lemma TypeInstPtr_xmeet_helper_below env m a b :
  is_instance_type a = true ->
  speculative a = None -> speculative b = None ->
  ptr a <> Null -> (is_instance_type b = true -> ptr b <> Null) ->
  result_below (ptr_meet (ptr a) (ptr b))
    (TypeInstPtr_xmeet_helper env m a (Ptr b)).
Proof.
  intros Ia Sa Sb Na Nb. unfold TypeInstPtr_xmeet_helper.
  destruct (same_type (Ptr a) (Ptr b)) eqn:E.
  { apply same_type_eq in E. injection E as <-.
    apply result_below_Ret. destruct (ptr a); reflexivity. }
  destruct (is_instance_type b) eqn:Ib.
  - assert (Bb : base (Ptr b) = InstPtr)
      by (destruct b; try discriminate; reflexivity).
    specialize (Nb eq_refl).
    rewrite Bb. cbn [is_ptr bind].
    rewrite xmeet_speculative_none by assumption. cbn [bind]. cbv zeta.
    pose proof (meet_instptr_ptr env (meet_ptr a (ptr b)) (meet_interfaces a b) a b)
      as HM.
    remember (meet_instptr env (meet_ptr a (ptr b)) (meet_interfaces a b) a b)
      as M eqn:EM. clear EM.
    intros r H.
    assert (Hgen :
      (exists x, xmeet_unloaded env m a b (mi_interfaces M) = Ret x /\ r = Ptr x) \/
      (exists (po : PTR * option ciObject) res, (fst po = mi_ptr M \/ (fst po = NotNull /\ mi_ptr M = Constant)) /\
                      ptr res = fst po /\ r = Ptr res)).
    { destruct (mi_kind M).
      2:{ left. apply bind_Ret_inv in H as [x [Hx H]]. injection H as <-. eauto. }
      all: right; apply bind_Ret_inv in H as [po [Hpo H]];
        apply const_oop_block_ptr in Hpo;
        destruct (mi_res_klass M); [|discriminate H];
        apply bind_Ret_inv in H as [res [Hres H]]; injection H as <-;
        apply TypeInstPtr_make_ptr in Hres; eauto. }
    clear H. destruct Hgen as [[x [Hx ->]]|[po [res [Hpo [Hres ->]]]]].
    + exists x. split; [reflexivity|].
      apply (xmeet_unloaded_below env m a b (mi_interfaces M) x); assumption.
    + exists res. split; [reflexivity|]. rewrite Hres.
      unfold meet_ptr in HM.
      destruct Hpo as [->|[-> Hc]].
      * destruct HM as [->|[-> HM]].
        -- destruct (ptr a), (ptr b); reflexivity.
        -- destruct (ptr a), (ptr b); try reflexivity;
             destruct HM as [HM|[HM|HM]]; discriminate HM.
      * destruct HM as [HM|[HM _]]; [|congruence]. rewrite Hc in HM.
        destruct (ptr a), (ptr b); try reflexivity; discriminate HM.
  - destruct b as [pb o s d|pb bits'|pb o i s d|pb k ifs xk c o i s d];
      try discriminate Ib;
      cbn [base is_ptr bind]; cbn [speculative] in Sb; subst.
    + rewrite xmeet_speculative_none by (assumption || reflexivity).
      cbn [bind]. cbv zeta. unfold meet_ptr. cbn [ptr].
      destruct pb, (ptr a) eqn:Pa; cbn; below_step.
    + apply result_below_Ret. reflexivity.
    + rewrite xmeet_speculative_none by (assumption || reflexivity).
      unfold meet_ptr. cbn [ptr].
      destruct pb, (ptr a) eqn:Pa; cbn; below_step.
Qed.

Lemma TypeInstPtr_xmeet_below env m a b :
  is_instance_type a = true ->
  speculative a = None -> speculative b = None ->
  ptr a <> Null -> (is_instance_type b = true -> ptr b <> Null) ->
  result_below (ptr_meet (ptr b) (ptr a)) (TypeInstPtr_xmeet env m a (Ptr b)).
Proof.
  intros Ia Sa Sb Na Nb. unfold TypeInstPtr_xmeet.
  apply normalize_below. rewrite ptr_meet_comm.
  apply TypeInstPtr_xmeet_helper_below; assumption.
Qed.

Lemma TypeOopPtr_xmeet_helper_below env m a b :
  base (Ptr a) = OopPtr ->
  speculative a = None -> speculative b = None ->
  (is_instance_type b = true -> ptr b <> Null) ->
  result_below (ptr_meet (ptr a) (ptr b))
    (TypeOopPtr_xmeet_helper env m a (Ptr b)).
Proof.
  intros Ba Sa Sb Nb. unfold TypeOopPtr_xmeet_helper.
  destruct (same_type (Ptr a) (Ptr b)) eqn:E.
  { apply same_type_eq in E. injection E as <-.
    apply result_below_Ret. destruct (ptr a); reflexivity. }
  destruct (is_instance_type b) eqn:Ib.
  - assert (Bb : base (Ptr b) = InstPtr)
      by (destruct b; try discriminate; reflexivity).
    rewrite Bb. cbn [is_ptr bind].
    apply TypeInstPtr_xmeet_below; try assumption; auto.
    destruct a; discriminate.
  - destruct b as [pb o s d|pb bits'|pb o i s d|pb k ifs xk c o i s d];
      try discriminate Ib;
      cbn [base is_ptr bind]; cbn [speculative] in Sb; subst.
    + rewrite xmeet_speculative_none by (assumption || reflexivity).
      cbn [bind]. cbv zeta. unfold meet_ptr. cbn [ptr].
      destruct pb, (ptr a) eqn:Pa; cbn; below_step.
    + apply result_below_Ret. reflexivity.
    + rewrite xmeet_speculative_none by (assumption || reflexivity).
      cbn [bind]. unfold meet_ptr. cbn [ptr].
      destruct pb, (ptr a) eqn:Pa; cbn; below_step.
Qed.

Lemma TypeOopPtr_xmeet_below env m a b :
  base (Ptr a) = OopPtr ->
  speculative a = None -> speculative b = None ->
  (is_instance_type b = true -> ptr b <> Null) ->
  result_below (ptr_meet (ptr b) (ptr a)) (TypeOopPtr_xmeet env m a (Ptr b)).
Proof.
  intros Ba Sa Sb Nb. unfold TypeOopPtr_xmeet.
  apply normalize_below. rewrite ptr_meet_comm.
  apply TypeOopPtr_xmeet_helper_below; assumption.
Qed.

Lemma pointer_xmeet_below env m a b :
  speculative a = None -> speculative b = None ->
  (is_instance_type a = true -> ptr a <> Null) ->
  (is_instance_type b = true -> ptr b <> Null) ->
  result_below (ptr_meet (ptr a) (ptr b)) (pointer_xmeet env m a (Ptr b)).
Proof.
  intros Sa Sb Na Nb.
  destruct a as [pa o s d|pa bits|pa o i s d|pa k ifs xk c o i s d] eqn:Ea;
    cbn [pointer_xmeet].
  - rewrite <- Ea in *. unfold TypePtr_xmeet. apply normalize_below.
    unfold TypePtr_xmeet_helper.
    destruct (same_type (Ptr a) (Ptr b)) eqn:E.
    { apply same_type_eq in E. injection E as <-.
      apply result_below_Ret. destruct (ptr a); reflexivity. }
    destruct b as [pb o' s' d'|pb bits'|pb o' i' s' d'|pb k' ifs' xk' c' o' i' s' d']
      eqn:Eb; rewrite <- ?Eb in *; cbn [base is_ptr bind].
    + rewrite Eb. cbn [base is_ptr bind]. rewrite <- Eb.
      rewrite xmeet_speculative_none by assumption. cbn [bind]. cbv zeta.
      apply result_below_Ret. unfold TypePtr_make, meet_ptr. cbn [ptr].
      destruct (ptr a), (ptr b); reflexivity.
    + rewrite Eb. cbn [base is_ptr bind]. rewrite <- Eb.
      rewrite ptr_meet_comm. apply TypeRawPtr_xmeet_below.
      rewrite Eb. reflexivity.
    + rewrite Eb. cbn [base is_ptr bind]. rewrite <- Eb.
      apply TypeOopPtr_xmeet_below; try assumption.
      rewrite Eb. reflexivity.
    + rewrite Eb. cbn [base is_ptr bind]. rewrite <- Eb.
      apply TypeInstPtr_xmeet_below; try assumption.
      * rewrite Eb. reflexivity.
      * apply Nb. rewrite Eb. reflexivity.
  - rewrite <- Ea. apply TypeRawPtr_xmeet_below. rewrite Ea. reflexivity.
  - rewrite <- Ea in *. rewrite ptr_meet_comm.
    apply TypeOopPtr_xmeet_below; try assumption. rewrite Ea. reflexivity.
  - rewrite <- Ea in *. rewrite ptr_meet_comm.
    apply TypeInstPtr_xmeet_below; try assumption.
    + rewrite Ea. reflexivity.
    + apply Na. rewrite Ea. reflexivity.
Qed.

(** X14: the meet of two pointers never promises more about null than
    its operands do.  When [meet_helper] returns for two pointers (of any
    of the four classes; an instance pointer is never [Null], as
    [TypeInstPtr::make] asserts), it returns a pointer whose [ptr] is at
    or below the [ptr] of either operand in the order of [ptr_meet]: an
    operand that is [BotPTR] gives [BotPTR], and a result that is
    [NotNull] is only given when neither operand is [Null] or
    [BotPTR]. *)
Theorem X14_meet_is_a_lower_bound_in_nullness env (a b : TypePtr) (r : Type_) :
  (is_instance_type a = true -> ptr a <> Null) ->
  (is_instance_type b = true -> ptr b <> Null) ->
  meet_helper env (Ptr a) (Ptr b) false = Ret r ->
  exists p, r = Ptr p /\
    ptr_meet (ptr p) (ptr a) = ptr p /\ ptr_meet (ptr p) (ptr b) = ptr p /\
    (ptr a = BotPTR \/ ptr b = BotPTR -> ptr p = BotPTR) /\
    (ptr p = NotNull ->
     ptr a <> Null /\ ptr a <> BotPTR /\ ptr b <> Null /\ ptr b <> BotPTR).
Proof.
  intros Na Nb H. unfold meet_helper, maybe_remove_speculative in H.
  cbn [negb Type_remove_speculative] in H.
  apply bind_Ret_inv in H as [a0' [Ha H]].
  apply bind_Ret_inv in Ha as [a0 [Ha Ea]]. injection Ea as <-.
  apply bind_Ret_inv in H as [b0' [Hb H]].
  apply bind_Ret_inv in Hb as [b0 [Hb Eb]]. injection Eb as <-.
  destruct (remove_speculative_ptr env a a0 Ha) as [Pa Ia].
  destruct (remove_speculative_ptr env b b0 Hb) as [Pb Ib].
  rewrite <- Pa, <- Ia in Na. rewrite <- Pb, <- Ib in Nb.
  rewrite xmeet_pointer_unfold in H.
  destruct (pointer_xmeet_below env (meet_of_speculative env) a0 b0
              (remove_speculative_no_speculative _ _ _ Ha)
              (remove_speculative_no_speculative _ _ _ Hb) Na Nb r H)
    as [p [-> Hp]].
  exists p. split; [reflexivity|]. rewrite <- Pa, <- Pb.
  revert Hp. destruct (ptr p), (ptr a0), (ptr b0); cbn; intros Hp;
    try discriminate Hp; repeat split; try reflexivity;
    try discriminate; try (intros [?|?]; discriminate).
Qed.

Lemma X14_meet_is_a_lower_bound_in_nullness_witness :
  exists p,
    Ptr (TypePtr_mk BotPTR OffsetBot None 7) = Ptr p /\
    ptr_meet (ptr p) (ptr at_depth_3) = ptr p /\
    ptr_meet (ptr p) (ptr at_depth_7) = ptr p /\
    (ptr at_depth_3 = BotPTR \/ ptr at_depth_7 = BotPTR -> ptr p = BotPTR) /\
    (ptr p = NotNull ->
     ptr at_depth_3 <> Null /\ ptr at_depth_3 <> BotPTR /\
     ptr at_depth_7 <> Null /\ ptr at_depth_7 <> BotPTR).
Proof.
  apply (X14_meet_is_a_lower_bound_in_nullness example_env
           at_depth_3 at_depth_7 (Ptr (TypePtr_mk BotPTR OffsetBot None 7)));
    try discriminate. reflexivity.
Defined.

(* ===================================================================== *)
(** ** Instance pointers above and below the centerline *)
(* ===================================================================== *)

(** The meet of two instance pointers without speculative parts, of two
    different classes, from what [meet_instptr] hands back. *)
Lemma instance_meet_of_kind env (a b : TypePtr) kind ptr1 ifs1 k xk :
  is_instance_type a = true -> is_instance_type b = true ->
  speculative a = None -> speculative b = None ->
  klass env a <> klass env b ->
  meet_instptr env (meet_ptr a (ptr b)) (meet_interfaces a b) a b =
    {| mi_kind := kind; mi_ptr := ptr1; mi_interfaces := ifs1;
       mi_res_klass := Some k; mi_res_xk := xk |} ->
  kind <> UNLOADED -> ptr1 <> Constant ->
  meet_helper env (Ptr a) (Ptr b) false =
  do res <- TypeInstPtr_make env ptr1 k ifs1 xk None
              (meet_offset a (offset b))
              (match kind with
               | LCA => InstanceBot
               | NOT_SUBTYPE =>
                 if 0 <? meet_instance_id a (instance_id b) then InstanceBot
                 else meet_instance_id a (instance_id b)
               | _ => meet_instance_id a (instance_id b)
               end)
              None (meet_inline_depth a (inline_depth b));
  Ret (Ptr res).
Proof.
  intros Ia Ib Sa Sb Hne HM Hk Hc.
  unfold meet_helper.
  rewrite !maybe_remove_speculative_plain by assumption. cbn [bind].
  rewrite xmeet_pointer_unfold.
  assert (Ba : base (Ptr a) = InstPtr) by (destruct a; try discriminate; reflexivity).
  assert (Bb : base (Ptr b) = InstPtr) by (destruct b; try discriminate; reflexivity).
  assert (Ea : pointer_xmeet env (meet_of_speculative env) a (Ptr b) =
               TypeInstPtr_xmeet env (meet_of_speculative env) a (Ptr b))
    by (destruct a; try discriminate; reflexivity).
  rewrite Ea. unfold TypeInstPtr_xmeet, TypeInstPtr_xmeet_helper.
  rewrite same_type_neq by (intros E; injection E as E; apply Hne; rewrite E; reflexivity).
  rewrite Bb. cbn [is_ptr bind].
  rewrite xmeet_speculative_none by assumption. cbn [bind]. cbv zeta.
  rewrite HM. cbn [mi_kind mi_ptr mi_interfaces mi_res_klass mi_res_xk].
  assert (Ec : PTR_eqb ptr1 Constant = false).
  { destruct (PTR_eqb ptr1 Constant) eqn:E; [|reflexivity].
    apply PTR_eqb_eq in E. contradiction. }
  rewrite Ec.
  destruct kind; try contradiction; cbn [bind fst snd];
    match goal with
    | |- context [TypeInstPtr_make ?e ?p ?k ?i ?x ?c ?o ?id ?s ?d] =>
      destruct (TypeInstPtr_make e p k i x c o id s d) as [res|f] eqn:Hm;
        [|reflexivity]
    end; cbn [bind];
    apply TypeInstPtr_make_Ret in Hm as [xk' ->];
    apply TypePtr_xmeet_normalize_plain; reflexivity.
Qed.

Lemma is_meet_subtype_of_subclass env a b :
  is_instance_type b = true ->
  is_subtype_of env (klass env a) (klass env b) = true ->
  klass_is_exact a = false ->
  is_meet_subtype_of env a b = true.
Proof.
  intros Ib Hs Hx. unfold is_meet_subtype_of, is_meet_subtype_of_helper_for_instance.
  rewrite Ib, Hs, Hx. cbn [negb andb orb].
  destruct ((klass env b =? Object_klass env) && TypeInterfaces.empty (interfaces b));
    reflexivity.
Qed.

Lemma not_above_meet (p q : PTR) :
  above_centerline q = false -> above_centerline (ptr_meet p q) = false.
Proof. destruct p, q; cbn; congruence. Qed.

(** X15: how the meet of two instance pointers of two different loaded
    classes depends on the side of the centerline, as the comment of
    [meet_instptr] lays it out.  Two pointers on or below the centerline
    always fall to the least common ancestor, also when one class is a
    subclass of the other: the result is not exact, has no constant and
    no instance id, carries the interfaces common to both, and a
    [Constant] falls to [NotNull].  Two pointers above the centerline,
    the first of a subclass of the second, keep the subclass, with the
    union of the interfaces.  A pointer above and a pointer below the
    centerline, one class a subclass of the other, keep the class and
    the interfaces of the one below. *)
Theorem X15_instance_meet_by_the_centerline env (this tinst : TypePtr) :
  let k1 := klass env this in
  let k2 := klass env tinst in
  let ptr0 := meet_ptr this (ptr tinst) in
  let met (ptr' : PTR) (k : ciKlass) (ifs : TypeInterfaces.t) (iid : Z) :=
    do res <- TypeInstPtr_make env ptr' k ifs false None
                (meet_offset this (offset tinst)) iid None
                (meet_inline_depth this (inline_depth tinst));
    Ret (Ptr res) in
  is_instance_type this = true -> is_instance_type tinst = true ->
  speculative this = None -> speculative tinst = None ->
  is_loaded env k1 = true -> is_loaded env k2 = true ->
  k1 <> k2 ->
  (* both on or below the centerline: fall to the least common ancestor *)
  (above_centerline (ptr this) = false -> above_centerline (ptr tinst) = false ->
   ptr this <> Null -> ptr tinst <> Null ->
   meet_helper env (Ptr this) (Ptr tinst) false =
   met (if PTR_eqb ptr0 Constant then NotNull else ptr0)
       (least_common_ancestor env k1 k2)
       (TypeInterfaces.intersection_with (interfaces this) (interfaces tinst))
       InstanceBot) /\
  (* both above the centerline, [this] of a subclass: keep the subclass *)
  (above_centerline (ptr this) = true -> above_centerline (ptr tinst) = true ->
   is_subtype_of env k1 k2 = true ->
   klass_is_exact this = false -> klass_is_exact tinst = false ->
   meet_helper env (Ptr this) (Ptr tinst) false =
   met ptr0 k1
       (TypeInterfaces.union_with (interfaces this) (interfaces tinst))
       (meet_instance_id this (instance_id tinst))) /\
  (* [this] above and [tinst] below, one class a subclass of the other:
     keep [tinst]'s class *)
  (above_centerline (ptr this) = true -> below_centerline (ptr tinst) = true ->
   is_subtype_of env k1 k2 = true \/ is_subtype_of env k2 k1 = true ->
   klass_is_exact this = false -> klass_is_exact tinst = false ->
   meet_helper env (Ptr this) (Ptr tinst) false =
   met ptr0 k2 (interfaces tinst) (meet_instance_id this (instance_id tinst))).
Proof.
  intros k1 k2 ptr0 met Ia Ib Sa Sb La Lb Hne.
  assert (Ek : (k1 =? k2) = false) by (apply Z.eqb_neq; exact Hne).
  assert (J : is_same_java_type_as env this tinst = false)
    by (apply is_same_java_type_as_other_klass; exact Hne).
  split; [|split].
  - intros Ua Ub Na Nb.
    assert (Hp : (if PTR_eqb ptr0 TopPTR || PTR_eqb ptr0 AnyNull ||
                     PTR_eqb ptr0 Constant then NotNull else ptr0) =
                 (if PTR_eqb ptr0 Constant then NotNull else ptr0)).
    { unfold ptr0, meet_ptr. destruct (ptr this), (ptr tinst);
        try discriminate; try contradiction; reflexivity. }
    apply (instance_meet_of_kind env this tinst LCA); try assumption;
      try discriminate.
    + unfold meet_instptr. cbv zeta. fold k1 k2 ptr0.
      rewrite Ek, andb_false_r. cbn [andb]. rewrite La, Lb. cbn [negb orb].
      rewrite J, Ua, Ub. cbn [andb negb].
      assert (U0 : above_centerline ptr0 = false).
      { unfold ptr0, meet_ptr. rewrite ptr_meet_comm. apply not_above_meet, Ub. }
      rewrite U0.
      destruct (negb (klass_is_exact tinst) && is_meet_subtype_of env this tinst);
        [|destruct (negb (klass_is_exact this) && is_meet_subtype_of env tinst this)];
        rewrite ?J, Hp; reflexivity.
    + unfold ptr0, meet_ptr. destruct (ptr this), (ptr tinst); cbn;
        try discriminate; try contradiction.
  - intros Ua Ub Hs Xa Xb.
    assert (U0 : above_centerline ptr0 = true).
    { unfold ptr0, meet_ptr. destruct (ptr this), (ptr tinst);
        try discriminate; reflexivity. }
    assert (E0 : meet_interfaces this tinst =
                 TypeInterfaces.union_with (interfaces this) (interfaces tinst)).
    { unfold meet_interfaces. rewrite Ua, Ub. reflexivity. }
    rewrite <- E0.
    apply (instance_meet_of_kind env this tinst SUBTYPE); try assumption;
      try discriminate.
    + unfold meet_instptr. cbv zeta. fold k1 k2 ptr0.
      rewrite Ek, andb_false_r. cbn [andb]. rewrite La, Lb. cbn [negb orb].
      rewrite J, Xa, Xb. cbn [negb andb].
      rewrite (is_meet_subtype_of_subclass env this tinst Ib Hs Xa), U0.
      rewrite (is_same_java_type_as_refl env this Ia La). reflexivity.
    + unfold ptr0 in *. destruct (meet_ptr this (ptr tinst)); discriminate.
  - intros Ua Ub Hs Xa Xb.
    assert (Ub' : above_centerline (ptr tinst) = false)
      by (destruct (ptr tinst); try discriminate; reflexivity).
    assert (U0 : above_centerline ptr0 = false).
    { unfold ptr0, meet_ptr. rewrite ptr_meet_comm. apply not_above_meet, Ub'. }
    assert (E0 : meet_interfaces this tinst = interfaces tinst).
    { unfold meet_interfaces. rewrite Ua, Ub'. reflexivity. }
    rewrite <- E0.
    apply (instance_meet_of_kind env this tinst SUBTYPE); try assumption;
      try discriminate.
    + unfold meet_instptr. cbv zeta. fold k1 k2 ptr0.
      rewrite Ek, andb_false_r. cbn [andb]. rewrite La, Lb. cbn [negb orb].
      rewrite J, Xa, Xb. cbn [negb andb].
      destruct Hs as [Hs|Hs].
      * rewrite (is_meet_subtype_of_subclass env this tinst Ib Hs Xa), U0, Ua, Ub'.
        cbn [andb negb].
        rewrite (is_same_java_type_as_refl env tinst Ib Lb). reflexivity.
      * rewrite (is_meet_subtype_of_subclass env tinst this Ia Hs Xb).
        destruct (is_meet_subtype_of env this tinst);
          rewrite U0, Ua, Ub'; cbn [andb negb];
          rewrite (is_same_java_type_as_refl env tinst Ib Lb); reflexivity.
    + unfold ptr0, meet_ptr. destruct (ptr this), (ptr tinst); discriminate.
Qed.

Lemma X15_instance_meet_by_the_centerline_witness :
  meet_helper example_env (Ptr example_foo) (Ptr example_base) false =
    Ret (Ptr example_base).
Proof.
  assert (Hne : klass example_env example_foo <> klass example_env example_base)
    by discriminate.
  apply (proj1 (X15_instance_meet_by_the_centerline example_env
                  example_foo example_base eq_refl eq_refl eq_refl eq_refl
                  eq_refl eq_refl Hne));
    try reflexivity; discriminate.
Defined.

(* ===================================================================== *)
(** ** Interface sets as a lattice *)
(* ===================================================================== *)

Lemma insert_sorted_spec (k : ciKlass) (l : list ciKlass) :
  sorted_lt l -> k ∉ l ->
  sorted_lt (TypeInterfaces.insert_sorted k l) /\
  forall x, x ∈ TypeInterfaces.insert_sorted k l <-> x = k \/ x ∈ l.
Proof.
  unfold sorted_lt. induction l as [|k' l IH]; intros Hs Hk.
  - cbn. split; [repeat constructor|]. intros x. rewrite list_elem_of_singleton.
    rewrite elem_of_nil. tauto.
  - apply StronglySorted_cons in Hs as [Hk' Hs].
    assert (Hne : k <> k') by (intros ->; apply Hk; left).
    assert (Hnl : k ∉ l) by (intros H; apply Hk; right; exact H).
    cbn [TypeInterfaces.insert_sorted]. rewrite compare_lt.
    destruct (k' <? k) eqn:E.
    + apply Z.ltb_lt in E. destruct (IH Hs Hnl) as [IHs IHm].
      split.
      * apply StronglySorted_cons. split; [|exact IHs].
        rewrite Forall_forall. intros x Hx. apply IHm in Hx as [->|Hx]; [exact E|].
        rewrite Forall_forall in Hk'. apply Hk', Hx.
      * intros x. rewrite !elem_of_cons, IHm. tauto.
    + apply Z.ltb_ge in E. split.
      * apply StronglySorted_cons. split.
        -- rewrite Forall_forall. intros x Hx.
           apply elem_of_cons in Hx as [->|Hx]; [lia|].
           rewrite Forall_forall in Hk'. specialize (Hk' _ Hx). lia.
        -- apply StronglySorted_cons. split; assumption.
      * intros x. rewrite !elem_of_cons. tauto.
Qed.

Lemma make_spec (l : list ciKlass) :
  NoDup l ->
  sorted_lt (TypeInterfaces.make l) /\
  forall x, x ∈ TypeInterfaces.make l <-> x ∈ l.
Proof.
  unfold TypeInterfaces.make. induction l as [|k l IH]; intros Hd.
  - cbn. split; [constructor|]. tauto.
  - apply NoDup_cons in Hd as [Hk Hd]. destruct (IH Hd) as [IHs IHm].
    cbn [TypeInterfaces.sort].
    destruct (insert_sorted_spec k (TypeInterfaces.sort l) IHs) as [Hs Hm].
    { rewrite IHm. exact Hk. }
    split; [exact Hs|]. intros x. rewrite Hm, elem_of_cons, IHm. tauto.
Qed.

Ltac by_members :=
  apply sorted_lt_ext; [assumption..|];
  let k := fresh "k" in intros k;
  repeat match goal with
         | H : forall k, _ ∈ _ <-> _ |- _ => rewrite !H
         end; try rewrite elem_of_nil; tauto.

(** X16: the interface sets that pass [verify], with [union_with] and
    [intersection_with], are a distributive lattice of finite sets in a
    canonical form.  The intersection is commutative, both operations
    are associative, the union is idempotent, each absorbs the other,
    the intersection distributes over the union, and the empty set is
    neutral for the union and absorbing for the intersection.
    [TypeInterfaces::eq] holds exactly when the two sets have the same
    members.  [TypeInterfaces::make] on an array without duplicates
    gives a set that passes [verify] and has the members of the array,
    and gives the same set for the same members in any order. *)
Theorem X16_interfaces_are_a_lattice_of_sets (S1 S2 S3 : list ciKlass) :
  TypeInterfaces.verify S1 = true ->
  TypeInterfaces.verify S2 = true ->
  TypeInterfaces.verify S3 = true ->
  let union := TypeInterfaces.union_with in
  let inter := TypeInterfaces.intersection_with in
  inter S1 S2 = inter S2 S1 /\
  union (union S1 S2) S3 = union S1 (union S2 S3) /\
  inter (inter S1 S2) S3 = inter S1 (inter S2 S3) /\
  union S1 S1 = S1 /\
  union S1 (inter S1 S2) = S1 /\
  inter S1 (union S1 S2) = S1 /\
  inter S1 (union S2 S3) = union (inter S1 S2) (inter S1 S3) /\
  union S1 [] = S1 /\ inter S1 [] = [] /\
  (TypeInterfaces.eq S1 S2 = true <-> forall k, In k S1 <-> In k S2) /\
  (forall l1 l2, NoDup l1 -> (forall k, In k l1 <-> In k l2) -> NoDup l2 ->
     TypeInterfaces.verify (TypeInterfaces.make l1) = true /\
     (forall k, In k (TypeInterfaces.make l1) <-> In k l1) /\
     TypeInterfaces.make l1 = TypeInterfaces.make l2).
Proof.
  intros H1 H2 H3 union inter. unfold union, inter.
  apply verify_sorted_lt in H1, H2, H3.
  assert (H0 : sorted_lt []) by constructor.
  destruct (union_with_spec S1 S2 H1 H2) as (_ & U12s & U12).
  destruct (union_with_spec S2 S3 H2 H3) as (_ & U23s & U23).
  destruct (union_with_spec S1 S1 H1 H1) as (_ & U11s & U11).
  destruct (union_with_spec S1 [] H1 H0) as (_ & U10s & U10).
  destruct (intersection_with_spec S1 S2 H1 H2) as (_ & I12s & I12).
  destruct (intersection_with_spec S2 S1 H2 H1) as (_ & I21s & I21).
  destruct (intersection_with_spec S2 S3 H2 H3) as (_ & I23s & I23).
  destruct (intersection_with_spec S1 S3 H1 H3) as (_ & I13s & I13).
  destruct (intersection_with_spec S1 [] H1 H0) as (_ & I10s & I10).
  destruct (union_with_spec _ S3 U12s H3) as (_ & UU1s & UU1).
  destruct (union_with_spec S1 _ H1 U23s) as (_ & UU2s & UU2).
  destruct (intersection_with_spec _ S3 I12s H3) as (_ & II1s & II1).
  destruct (intersection_with_spec S1 _ H1 I23s) as (_ & II2s & II2).
  destruct (union_with_spec S1 _ H1 I12s) as (_ & UIs & UI).
  destruct (intersection_with_spec S1 _ H1 U12s) as (_ & IUs & IU).
  destruct (intersection_with_spec S1 _ H1 U23s) as (_ & IU2s & IU2).
  destruct (union_with_spec _ _ I12s I13s) as (_ & UIIs & UII).
  split; [by_members|]. split; [by_members|]. split; [by_members|].
  split; [by_members|]. split; [by_members|]. split; [by_members|].
  split; [by_members|]. split; [by_members|]. split; [by_members|].
  split.
  - rewrite TypeInterfaces_eq_eq. split.
    + intros ->. tauto.
    + intros Hm. apply sorted_lt_ext; [assumption..|].
      intros k. rewrite !list_elem_of_In. apply Hm.
  - intros l1 l2 Hd1 Hm Hd2.
    destruct (make_spec l1 Hd1) as [M1s M1]. destruct (make_spec l2 Hd2) as [M2s M2].
    split; [apply verify_sorted_lt; exact M1s|]. split.
    + intros k. rewrite <- !list_elem_of_In. apply M1.
    + apply sorted_lt_ext; [assumption..|]. intros k. rewrite M1, M2.
      rewrite !list_elem_of_In. apply Hm.
Qed.

Lemma X16_interfaces_are_a_lattice_of_sets_witness :
  TypeInterfaces.intersection_with C9_example_S1 C9_example_S2 =
  TypeInterfaces.intersection_with C9_example_S2 C9_example_S1.
Proof.
  pose proof (X16_interfaces_are_a_lattice_of_sets
                C9_example_S1 C9_example_S2 [100] eq_refl eq_refl eq_refl) as H.
  cbv zeta in H. exact (proj1 H).
Defined.

(* ===================================================================== *)
(** ** The type table: failures and duals *)
(* ===================================================================== *)

(** X17: on a table that [hashcons] has built, [hashcons] fails only
    when the candidate is new and its [xdual()] fails, with that
    failure: none of its own assertions fires.  When [xdual()] returns
    [d], [hashcons] returns a canonical object [p] that holds the
    candidate, whose [_dual] is a canonical object [q] that holds [d];
    interning [d] afterwards returns [q] and changes nothing; the call
    allocates at most two objects and leaves every older object as it
    was. *)
Theorem X17_hashcons_fails_only_with_xdual (s : TypeTable) (cand : Type_) :
  reachable s ->
  (forall f, hashcons cand s = Abort f ->
     Dict_lookup s cand = None /\ xdual cand = Abort f) /\
  (forall d, xdual cand = Ret d ->
     exists p q s1,
       hashcons cand s = Ret (p, s1) /\
       content_at s1 p = Some cand /\
       dual s1 p = Some q /\ content_at s1 q = Some d /\
       hashcons d s1 = Ret (q, s1) /\
       hwm s <= hwm s1 <= hwm s + 2 /\
       (forall x o, arena s !! x = Some o -> arena s1 !! x = Some o)).
Proof.
  intros Hr. pose proof (reachable_table_ok s Hr) as Hok.
  pose proof (hashcons_cases cand s Hok) as Hc.
  split.
  - intros f H. destruct (Dict_lookup s cand) as [old|]; [congruence|].
    split; [reflexivity|].
    destruct (xdual cand) as [d|f']; congruence.
  - intros d Hx.
    destruct (hashcons_returns cand d s Hok Hx) as [p [s1 H]].
    destruct (hashcons_spec cand s p s1 Hok H) as [Hok1 [Hc1 Hkeep]].
    apply content_at_Some in Hc1 as Hp. destruct Hp as [dq Hp].
    destruct (ok_dual s1 Hok1 p _ Hp) as [q [d' [Hd [Hq Hx']]]].
    cbn [content _dual] in Hd, Hx'. subst dq.
    rewrite Hx in Hx'. injection Hx' as <-.
    exists p, q, s1.
    split; [exact H|]. split; [exact Hc1|].
    split; [apply dual_Some; eauto|].
    assert (Hcq : content_at s1 q = Some d) by (apply content_at_Some; eauto).
    split; [exact Hcq|].
    split; [apply hashcons_existing; assumption|].
    split; [|exact Hkeep].
    rewrite H in Hc. destruct (Dict_lookup s cand) as [old|].
    + injection Hc as _ ->. lia.
    + rewrite Hx in Hc. injection Hc as _ ->.
      destruct (Type_equals cand d); cbn [table_with_self_dual table_with_pair hwm]; lia.
Qed.

Lemma X17_hashcons_fails_only_with_xdual_witness :
  reachable empty_table /\
  exists p q s1,
    hashcons (Ptr plain_not_null) empty_table = Ret (p, s1) /\
    content_at s1 p = Some (Ptr plain_not_null) /\
    dual s1 p = Some q /\
    content_at s1 q = Some (Ptr (TypePtr_mk AnyNull 0 None InlineDepthTop)) /\
    hashcons (Ptr (TypePtr_mk AnyNull 0 None InlineDepthTop)) s1 = Ret (q, s1).
Proof.
  split; [exact reachable_empty|].
  destruct (proj2 (X17_hashcons_fails_only_with_xdual empty_table
                     (Ptr plain_not_null) reachable_empty)
              (Ptr (TypePtr_mk AnyNull 0 None InlineDepthTop)) eq_refl)
    as (p & q & s1 & H1 & H2 & H3 & H4 & H5 & _).
  exists p, q, s1. repeat split; assumption.
Defined.

(* ===================================================================== *)
(** ** Making and casting instance pointers *)
(* ===================================================================== *)

(** [TypeInstPtr::make] in one piece: its assertions, and the exactness
    it settles on. *)
Lemma TypeInstPtr_make_unfold env ptr k ifs xk o off iid spec d :
  TypeInstPtr_make env ptr k ifs xk o off iid spec d =
  if (negb (is_loaded env k) || is_instance_klass env k) &&
     Bool.eqb (is_Some_b o) (PTR_eqb ptr Constant) &&
     negb (PTR_eqb ptr Null) &&
     ((iid <=? 0) || xk) &&
     (negb (is_loaded env k) || negb (is_interface env k)) &&
     (is_loaded env k || negb (is_Some_b o)) &&
     (negb (is_loaded env k) || forallb (is_loaded env) ifs)
  then Ret (TypeInstPtr_mk ptr k ifs
              (if PTR_eqb ptr Constant then true
               else if is_loaded env k then xk || is_final env k else xk)
              o off iid spec d)
  else Abort AssertionFailed.
Proof.
  unfold TypeInstPtr_make, debug_assert.
  destruct (is_loaded env k), (is_instance_klass env k), (is_Some_b o),
    (PTR_eqb ptr Constant), (PTR_eqb ptr Null), (iid <=? 0), xk,
    (is_interface env k), (is_final env k), (forallb (is_loaded env) ifs);
    reflexivity.
Qed.

(** X18: what every instance pointer that [TypeInstPtr::make] returns
    satisfies.  It has the fields given to [make] but for the
    exactness; it is never [Null]; it has a constant exactly when it is
    [Constant]; a known instance is exact; it is exact exactly when that
    was asked for, or it is a constant, or its class is loaded and
    final; a loaded class is an instance class and no interface, and
    its interfaces are loaded; a class that is not loaded has no
    constant.  [make] on the fields of the result returns the result. *)
Theorem X18_TypeInstPtr_make_invariants
    env ptr k ifs xk o off iid spec d (r : TypePtr) :
  TypeInstPtr_make env ptr k ifs xk o off iid spec d = Ret r ->
  r = TypeInstPtr_mk ptr k ifs (klass_is_exact r) o off iid spec d /\
  ptr <> Null /\
  (o <> None <-> ptr = Constant) /\
  (iid <= 0 \/ klass_is_exact r = true) /\
  (klass_is_exact r = true <->
   xk = true \/ ptr = Constant \/
   (is_loaded env k = true /\ is_final env k = true)) /\
  (is_loaded env k = true ->
   is_instance_klass env k = true /\ is_interface env k = false /\
   forallb (is_loaded env) ifs = true) /\
  (is_loaded env k = false -> o = None) /\
  TypeInstPtr_make env ptr k ifs (klass_is_exact r) o off iid spec d = Ret r.
Proof.
  rewrite !TypeInstPtr_make_unfold. intros H.
  assert (Ho : is_Some_b o = true <-> o <> None)
    by (destruct o; cbn; split; congruence).
  assert (Hc : PTR_eqb ptr Constant = true <-> ptr = Constant)
    by apply PTR_eqb_eq.
  assert (Hn : PTR_eqb ptr Null = true <-> ptr = Null) by apply PTR_eqb_eq.
  assert (Hi : (iid <=? 0) = true <-> iid <= 0) by apply Z.leb_le.
  assert (Ho' : is_Some_b o = false -> o = None)
    by (destruct o; cbn; congruence).
  destruct (is_loaded env k), (is_instance_klass env k), (is_Some_b o),
    (PTR_eqb ptr Constant), (PTR_eqb ptr Null), (iid <=? 0), xk,
    (is_interface env k), (is_final env k), (forallb (is_loaded env) ifs);
    cbn in H; try discriminate H; injection H as <-; cbn [klass_is_exact];
    cbn; intuition (try congruence; try discriminate).
Qed.

Lemma X18_TypeInstPtr_make_invariants_witness :
  TypeInstPtr_make example_env NotNull 5 [] true None 0 InstanceBot None
    InlineDepthBottom =
  Ret (TypeInstPtr_mk NotNull 5 [] true None 0 InstanceBot None
         InlineDepthBottom).
Proof.
  pose proof (X18_TypeInstPtr_make_invariants example_env NotNull 5 [] false
                None 0 InstanceBot None InlineDepthBottom
                (TypeInstPtr_mk NotNull 5 [] true None 0 InstanceBot None
                   InlineDepthBottom) eq_refl) as H.
  apply H.
Defined.

(** X19: the casts of an instance pointer that [make] has made.
    [cast_to_ptr_type] to its own [ptr] returns the pointer; to another
    [ptr] that is neither [Null] nor [Constant] it returns the pointer
    with that [ptr], without constant and as exact as it was; to [Null]
    it fails an assertion, and so it does to [Constant] for a pointer
    that is no constant.  [cast_to_exactness] to its own exactness
    returns the pointer; it returns the pointer unchanged when the class
    is not loaded or is final or the pointer is a constant; otherwise it
    returns the pointer with the exactness asked for, but clearing the
    exactness of a known instance fails an assertion. *)
Theorem X19_casts_of_an_instance_pointer env (this : TypePtr) :
  made_by_make env this ->
  let k := klass env this in
  let with_ptr p o :=
    TypeInstPtr_mk p k (interfaces this) (klass_is_exact this) o (offset this)
      (instance_id this) (speculative this) (inline_depth this) in
  let with_exactness xk :=
    TypeInstPtr_mk (ptr this) k (interfaces this) xk (const_oop this)
      (offset this) (instance_id this) (speculative this) (inline_depth this) in
  let can_change :=
    is_loaded env k && negb (is_final env k) && negb (is_Some_b (const_oop this)) in
  (* cast_to_ptr_type *)
  TypeInstPtr_cast_to_ptr_type env this (ptr this) = Ret this /\
  (forall p, p <> Null -> p <> Constant ->
     TypeInstPtr_cast_to_ptr_type env this p = Ret (with_ptr p None)) /\
  TypeInstPtr_cast_to_ptr_type env this Null = Abort AssertionFailed /\
  (ptr this <> Constant ->
   TypeInstPtr_cast_to_ptr_type env this Constant = Abort AssertionFailed) /\
  (* cast_to_exactness *)
  TypeInstPtr_cast_to_exactness env this (klass_is_exact this) = Ret this /\
  (forall xk, can_change = false ->
     TypeInstPtr_cast_to_exactness env this xk = Ret this) /\
  (forall xk, can_change = true -> instance_id this <= 0 \/ xk = true ->
     TypeInstPtr_cast_to_exactness env this xk = Ret (with_exactness xk)) /\
  (can_change = true -> 0 < instance_id this -> klass_is_exact this = true ->
   TypeInstPtr_cast_to_exactness env this false = Abort AssertionFailed).
Proof.
  intros [Hi Hm]. cbv zeta.
  destruct this as [| | |p0 k0 ifs xk0 o off iid spec d]; try discriminate Hi.
  cbn [ptr klass interfaces klass_is_exact const_oop offset instance_id
       speculative inline_depth] in *.
  clear Hi.
  unfold TypeInstPtr_cast_to_ptr_type, TypeInstPtr_cast_to_exactness.
  cbn [ptr klass interfaces klass_is_exact const_oop offset instance_id
       speculative inline_depth].
  rewrite TypeInstPtr_make_unfold in Hm.
  assert (Hle : (iid <=? 0) = true <-> iid <= 0) by apply Z.leb_le.
  split; [|split; [|split; [|split; [|split; [|split; [|split]]]]]].
  - destruct p0; reflexivity.
  - intros p Hn Hc.
    destruct (PTR_eqb p p0) eqn:E.
    { apply PTR_eqb_eq in E. subst p0.
      destruct p; try contradiction; cbn [PTR_eqb PTR_eq_dec] in *;
      revert Hm;
      destruct (is_loaded env k0), (is_instance_klass env k0), (is_Some_b o) eqn:Eo,
        (iid <=? 0), xk0, (is_interface env k0), (is_final env k0),
        (forallb (is_loaded env) ifs); cbn; intros Hm; try discriminate Hm;
        destruct o; try discriminate Eo; reflexivity. }
    rewrite TypeInstPtr_make_unfold.
    destruct p; try contradiction; cbn;
      revert Hm;
      destruct p0, (is_loaded env k0), (is_instance_klass env k0), (is_Some_b o),
        (iid <=? 0), xk0, (is_interface env k0), (is_final env k0),
        (forallb (is_loaded env) ifs); cbn; intros Hm; try discriminate Hm;
        try discriminate E; reflexivity.
  - destruct p0; cbn; rewrite ?TypeInstPtr_make_unfold; cbn;
      rewrite ?andb_false_r; cbn; try reflexivity.
    revert Hm. cbn. rewrite ?andb_false_r. cbn. discriminate.
  - intros Hc. destruct p0; try contradiction; cbn;
      rewrite TypeInstPtr_make_unfold; cbn;
      revert Hm; cbn;
      destruct (is_loaded env k0), (is_instance_klass env k0), (is_Some_b o),
        (iid <=? 0), xk0, (is_interface env k0), (is_final env k0),
        (forallb (is_loaded env) ifs); cbn; intros Hm; try discriminate Hm;
        reflexivity.
  - destruct xk0; reflexivity.
  - intros xk Hcc. destruct (Bool.eqb xk xk0); [reflexivity|].
    destruct (is_loaded env k0); [|reflexivity]. cbn [negb andb] in *.
    destruct (is_final env k0); [reflexivity|]. cbn [negb andb orb] in *.
    destruct (is_Some_b o); [reflexivity|discriminate Hcc].
  - intros xk Hcc Hx.
    destruct (Bool.eqb xk xk0) eqn:E.
    { apply Bool.eqb_prop in E. subst xk0. reflexivity. }
    rewrite TypeInstPtr_make_unfold. unfold debug_assert.
    revert Hm Hcc E Hx Hle.
    destruct (PTR_eqb p0 Constant), xk,
      (is_loaded env k0), (is_instance_klass env k0), (is_Some_b o),
      (PTR_eqb p0 Null), (iid <=? 0), xk0, (is_interface env k0),
      (is_final env k0), (forallb (is_loaded env) ifs); cbn;
      intros Hm Hcc E Hx Hle; try discriminate; try reflexivity;
      exfalso; destruct Hx as [Hx|Hx]; try discriminate Hx;
      apply Hle in Hx; discriminate Hx.
  - intros Hcc Hid Hxk. subst xk0. cbn [Bool.eqb].
    rewrite TypeInstPtr_make_unfold. unfold debug_assert.
    assert (E : (iid <=? 0) = false) by (apply Z.leb_gt; exact Hid).
    rewrite E. revert Hm Hcc.
    destruct (PTR_eqb p0 Constant),
      (is_loaded env k0), (is_instance_klass env k0), (is_Some_b o),
      (PTR_eqb p0 Null), (is_interface env k0),
      (is_final env k0), (forallb (is_loaded env) ifs); cbn;
      intros Hm Hcc; try discriminate; reflexivity.
Qed.

Lemma X19_casts_of_an_instance_pointer_witness :
  TypeInstPtr_cast_to_ptr_type example_env example_foo BotPTR =
    Ret (TypeInstPtr_mk BotPTR 3 [100; 101] false None 0 InstanceBot None
           InlineDepthBottom) /\
  TypeInstPtr_cast_to_ptr_type example_env example_foo Null =
    Abort AssertionFailed.
Proof.
  assert (Hm : made_by_make example_env example_foo) by (split; reflexivity).
  pose proof (X19_casts_of_an_instance_pointer example_env example_foo Hm) as H.
  cbv zeta in H. destruct H as (_ & H2 & H3 & _).
  split; [apply H2; discriminate | exact H3].
Defined.

(* ===================================================================== *)
(** ** The meet without speculative parts *)
(* ===================================================================== *)

(** Reading a returned outcome back through the calls that built it. *)
Ltac plain_inv :=
  repeat match goal with
  | H : Abort _ = Ret _ |- _ => discriminate H
  | H : typerr _ _ = Ret _ |- _ => discriminate H
  | H : outside_embedding = Ret _ |- _ => discriminate H
  | H : bind _ _ = Ret _ |- _ =>
    let x := fresh "x" in
    let Hx := fresh "Hx" in
    apply bind_Ret_inv in H as [x [Hx H]]
  | H : debug_assert _ = Ret _ |- _ => clear H
  | H : TypeInstPtr_make _ _ _ _ _ _ _ _ _ _ = Ret _ |- _ =>
    let xk := fresh "xk" in
    apply TypeInstPtr_make_Ret in H as [xk ->]
  | H : TypeOopPtr_make _ _ _ _ _ = Ret _ |- _ =>
    apply TypeOopPtr_make_Ret in H as ->
  | H : TypeRawPtr_make _ = Ret _ |- _ => unfold TypeRawPtr_make in H
  | H : with_speculative _ _ _ = Ret _ |- _ => unfold with_speculative in H
  | H : TypeInstPtr_BOTTOM _ = Ret _ |- _ => unfold TypeInstPtr_BOTTOM in H
  | H : TypeInstPtr_NOTNULL _ = Ret _ |- _ => unfold TypeInstPtr_NOTNULL in H
  | H : TypeInstPtr_cast_to_ptr_type _ _ _ = Ret _ |- _ =>
    unfold TypeInstPtr_cast_to_ptr_type in H
  | H : is_ptr _ = Ret _ |- _ => cbn [is_ptr] in H
  | H : (if ?c then _ else _) = Ret _ |- _ => destruct c
  | H : match ?x with _ => _ end = Ret _ |- _ => destruct x
  | H : Ret _ = Ret _ |- _ => injection H as H; try subst
  end.

(** A returned type that is no pointer, or a pointer built without
    speculative part. *)
Ltac plain_done :=
  let q := fresh "q" in
  let E := fresh "E" in
  intros q E; try discriminate E; injection E as <-;
  cbn [speculative]; first [reflexivity | assumption].

(** Each [xmeet] on operands without speculative part returns a type
    without speculative part. *)
Section NoSpeculativeResult.
Variable env : ciEnv.
Variable m : TypePtr -> TypePtr -> outcome Type_.

Lemma xmeet_unloaded_plain a b ifs r :
  speculative a = None -> speculative b = None ->
  xmeet_unloaded env m a b ifs = Ret r -> speculative r = None.
Proof.
  intros Sa Sb H. unfold xmeet_unloaded in H. cbv zeta in H.
  rewrite xmeet_speculative_none in H by assumption. cbn [bind] in H.
  plain_inv; try reflexivity; try assumption.
Qed.

Lemma normalize_plain res :
  no_speculative res ->
  returns_no_speculative (TypePtr_xmeet_normalize env res).
Proof.
  intros Hres r H. destruct res as [b|f|d|h|i|l|p];
    try (injection H as <-; exact Hres).
  rewrite TypePtr_xmeet_normalize_plain in H by (apply Hres; reflexivity).
  injection H as <-. exact Hres.
Qed.

Lemma bind_normalize_plain o :
  returns_no_speculative o ->
  returns_no_speculative (do res <- o; TypePtr_xmeet_normalize env res).
Proof.
  intros Ho r H. apply bind_Ret_inv in H as [x [Hx H]].
  eapply normalize_plain; [|exact H]. exact (Ho x Hx).
Qed.

Lemma TypeInstPtr_xmeet_helper_plain this t :
  speculative this = None -> no_speculative t ->
  returns_no_speculative (TypeInstPtr_xmeet_helper env m this t).
Proof.
  intros Sthis Ht r H. unfold TypeInstPtr_xmeet_helper in H.
  destruct (same_type (Ptr this) t).
  { injection H as <-. plain_done. }
  destruct t as [b|f|d|h|i|l|p]; cbn [base] in H.
  1: destruct b.
  all: try (plain_inv; plain_done).
  pose proof (Ht p eq_refl) as Sp.
  destruct p as [p1 o1 s1 d1|p1 bits1|p1 o1 i1 s1 d1|p1 k1 ifs1 xk1 c1 o1 i1 s1 d1];
    cbn [base is_ptr bind] in H; cbv zeta in H.
  - rewrite xmeet_speculative_none in H by assumption. cbn [bind] in H.
    cbn [ptr] in H. destruct p1; plain_inv; plain_done.
  - injection H as <-. plain_done.
  - cbn [ptr] in H. destruct p1;
    rewrite ?xmeet_speculative_none in H by assumption; cbn [bind] in H;
    plain_inv; plain_done.
  - rewrite xmeet_speculative_none in H by assumption. cbn [bind] in H.
    set (M := meet_instptr _ _ _ _ _) in H.
    destruct (mi_kind M).
    2: { apply bind_Ret_inv in H as [x [Hx H]]. injection H as <-.
         intros q E. injection E as <-.
         eapply xmeet_unloaded_plain; [| |exact Hx]; assumption. }
    all: apply bind_Ret_inv in H as [x [_ H]];
      destruct (mi_res_klass M); [|discriminate H];
      plain_inv; plain_done.
Qed.

Lemma TypeInstPtr_xmeet_plain this t :
  speculative this = None -> no_speculative t ->
  returns_no_speculative (TypeInstPtr_xmeet env m this t).
Proof.
  intros. apply bind_normalize_plain, TypeInstPtr_xmeet_helper_plain; assumption.
Qed.

Lemma no_speculative_Ptr p : speculative p = None -> no_speculative (Ptr p).
Proof. intros H q E. injection E as <-. exact H. Qed.

Lemma TypeOopPtr_xmeet_helper_plain this t :
  speculative this = None -> no_speculative t ->
  returns_no_speculative (TypeOopPtr_xmeet_helper env m this t).
Proof.
  intros Sthis Ht r H. unfold TypeOopPtr_xmeet_helper in H.
  destruct (same_type (Ptr this) t).
  { injection H as <-. plain_done. }
  destruct t as [b|f|d|h|i|l|p]; cbn [base] in H.
  1: destruct b.
  all: try (plain_inv; plain_done).
  pose proof (Ht p eq_refl) as Sp.
  destruct p as [p1 o1 s1 d1|p1 bits1|p1 o1 i1 s1 d1|p1 k1 ifs1 xk1 c1 o1 i1 s1 d1];
    cbn [base is_ptr bind] in H; cbv zeta in H.
  - rewrite xmeet_speculative_none in H by assumption. cbn [bind] in H.
    cbn [ptr] in H. destruct p1; plain_inv; plain_done.
  - injection H as <-. plain_done.
  - rewrite xmeet_speculative_none in H by assumption. cbn [bind] in H.
    plain_inv; plain_done.
  - revert r H. apply TypeInstPtr_xmeet_plain; [assumption|].
    apply no_speculative_Ptr; assumption.
Qed.

Lemma TypeOopPtr_xmeet_plain this t :
  speculative this = None -> no_speculative t ->
  returns_no_speculative (TypeOopPtr_xmeet env m this t).
Proof.
  intros. apply bind_normalize_plain, TypeOopPtr_xmeet_helper_plain; assumption.
Qed.

Lemma TypeRawPtr_xmeet_plain this t :
  speculative this = None -> no_speculative t ->
  returns_no_speculative (TypeRawPtr_xmeet this t).
Proof.
  intros Sthis Ht r H. unfold TypeRawPtr_xmeet in H.
  destruct (same_type (Ptr this) t).
  { injection H as <-. plain_done. }
  destruct t as [b|f|d|h|i|l|p]; cbn [base] in H.
  1: destruct b.
  all: try (plain_inv; plain_done).
  pose proof (Ht p eq_refl) as Sp.
  destruct p as [p1 o1 s1 d1|p1 bits1|p1 o1 i1 s1 d1|p1 k1 ifs1 xk1 c1 o1 i1 s1 d1];
    cbn [base is_ptr bind] in H; cbv zeta in H;
    plain_inv; plain_done.
Qed.

Lemma TypePtr_xmeet_helper_plain this t :
  speculative this = None -> no_speculative t ->
  returns_no_speculative (TypePtr_xmeet_helper env m this t).
Proof.
  intros Sthis Ht r H. unfold TypePtr_xmeet_helper in H.
  destruct (same_type (Ptr this) t).
  { injection H as <-. plain_done. }
  destruct t as [b|f|d|h|i|l|p]; cbn [base] in H.
  1: destruct b.
  all: try (plain_inv; plain_done).
  pose proof (Ht p eq_refl) as Sp.
  destruct p as [p1 o1 s1 d1|p1 bits1|p1 o1 i1 s1 d1|p1 k1 ifs1 xk1 c1 o1 i1 s1 d1];
    cbn [base is_ptr bind] in H; cbv zeta in H.
  - rewrite xmeet_speculative_none in H by assumption. cbn [bind] in H.
    plain_inv; plain_done.
  - revert r H. apply TypeRawPtr_xmeet_plain; [assumption|].
    apply no_speculative_Ptr; assumption.
  - revert r H. apply TypeOopPtr_xmeet_plain; [assumption|].
    apply no_speculative_Ptr; assumption.
  - revert r H. apply TypeInstPtr_xmeet_plain; [assumption|].
    apply no_speculative_Ptr; assumption.
Qed.

Lemma pointer_xmeet_plain this t :
  speculative this = None -> no_speculative t ->
  returns_no_speculative (pointer_xmeet env m this t).
Proof.
  intros Sthis Ht. destruct this; cbn [pointer_xmeet].
  - apply bind_normalize_plain, TypePtr_xmeet_helper_plain; assumption.
  - apply TypeRawPtr_xmeet_plain; assumption.
  - apply TypeOopPtr_xmeet_plain; assumption.
  - apply TypeInstPtr_xmeet_plain; assumption.
Qed.

Lemma make_or_top_no_speculative long t widen dual :
  no_speculative ((if long : bool then TypeLong.make_or_top else TypeInt.make_or_top)
                    t widen dual).
Proof.
  destruct long; rewrite ?TypeInt_make_or_top_unfold, ?TypeLong_make_or_top_unfold;
    match goal with |- context [if ?c then _ else _] => destruct c end;
    destruct dual; intros q E; discriminate E.
Qed.

Lemma int_type_xmeet_plain long i t :
  no_speculative t ->
  returns_no_speculative (int_type_xmeet long i t).
Proof.
  intros Ht r H. unfold int_type_xmeet in H. cbv zeta in H.
  destruct (same_type _ t || same_type t TOP).
  { injection H as <-. destruct long; intros q E; discriminate E. }
  match type of H with match ?x with _ => _ end = _ => destruct x end.
  - apply bind_Ret_inv in H as [_ [_ H]].
    destruct (negb (TypeInteger._is_dual i)); injection H as <-;
      apply make_or_top_no_speculative.
  - destruct (base t); try discriminate H; injection H as <-;
      intros q E; discriminate E.
Qed.

Ltac floating_plain :=
  match goal with
  | H : _ = Ret ?r |- no_speculative ?r =>
    match type of H with
    | context [same_type ?a ?b] =>
      destruct (same_type a b); [injection H as <-; plain_done|]
    end;
    match type of H with
    | context [base ?t] =>
      destruct t as [[]| | | | | |[]]; cbn [base] in H
    end;
    plain_inv; plain_done
  end.

Lemma subclass_xmeet_plain t this :
  no_speculative t -> no_speculative this ->
  returns_no_speculative (subclass_xmeet env m t this).
Proof.
  intros Ht Hthis r H.
  destruct t as [b|f|d|h|i|l|p]; cbn [subclass_xmeet] in H.
  - discriminate H.
  - unfold TypeF_xmeet in H. floating_plain.
  - unfold TypeD_xmeet in H. floating_plain.
  - unfold TypeH_xmeet in H. floating_plain.
  - revert r H. apply int_type_xmeet_plain; assumption.
  - revert r H. apply int_type_xmeet_plain; assumption.
  - revert r H. apply pointer_xmeet_plain; [apply Ht; reflexivity|assumption].
Qed.

Lemma xmeet_plain this t :
  no_speculative this -> no_speculative t ->
  returns_no_speculative (xmeet env m this t).
Proof.
  intros Hthis Ht.
  destruct this as [b|f|d|h|i|l|p]; cbn [xmeet];
    try (apply subclass_xmeet_plain; assumption).
  intros r H. unfold Type_xmeet in H. cbv zeta in H.
  destruct (same_type (Type_mk b) t); [injection H as <-; plain_done|].
  destruct (TYPES_eqb b Top); [injection H as <-; exact Ht|].
  destruct (TYPES_eqb b Bottom); [injection H as <-; plain_done|].
  destruct (base t) eqn:Bt;
    try (revert r H; apply subclass_xmeet_plain; assumption);
    try (injection H as <-; first [exact Ht | plain_done]);
    try discriminate H;
    plain_inv; plain_done.
Qed.

End NoSpeculativeResult.

(** X20: [meet_helper(t, false)], the meet without speculative parts,
    never returns a pointer with a speculative part, whatever the two
    operands carry.  It is the meet of the two operands after
    [remove_speculative()], taken with or without speculative parts.
    On two operands without speculative part the meet with speculative
    parts, [meet_helper(t, true)], is the same as the meet without, and
    returns no speculative part either. *)
Theorem X20_meet_returns_no_speculative_part env (a b : Type_) :
  (forall r, meet_helper env a b false = Ret r -> no_speculative r) /\
  (forall a0 b0 include_speculative,
     Type_remove_speculative env a = Ret a0 ->
     Type_remove_speculative env b = Ret b0 ->
     meet_helper env a0 b0 include_speculative = meet_helper env a b false) /\
  (no_speculative a -> no_speculative b ->
   meet_helper env a b true = meet_helper env a b false /\
   forall r, meet_helper env a b true = Ret r -> no_speculative r).
Proof.
  assert (Hstrip : forall t t0 flag,
             Type_remove_speculative env t = Ret t0 ->
             maybe_remove_speculative env t0 flag = Ret t0).
  { intros t t0 flag H. unfold maybe_remove_speculative.
    destruct flag; cbn [negb]; [reflexivity|].
    exact (proj1 (Type_remove_speculative_plain env t t0 H)). }
  assert (Hid : forall t, no_speculative t -> Type_remove_speculative env t = Ret t).
  { intros t Ht. destruct t as [?|?|?|?|?|?|p]; try reflexivity.
    cbn [Type_remove_speculative]. unfold remove_speculative.
    rewrite (Ht p eq_refl). reflexivity. }
  assert (H1 : forall r, meet_helper env a b false = Ret r -> no_speculative r).
  { intros r H. unfold meet_helper, maybe_remove_speculative in H.
    cbn [negb] in H.
    apply bind_Ret_inv in H as [a0 [Ha H]].
    apply bind_Ret_inv in H as [b0 [Hb H]].
    revert r H. apply xmeet_plain.
    - exact (proj1 (proj2 (Type_remove_speculative_plain env a a0 Ha))).
    - exact (proj1 (proj2 (Type_remove_speculative_plain env b b0 Hb))). }
  assert (H2 : forall a0 b0 flag,
     Type_remove_speculative env a = Ret a0 ->
     Type_remove_speculative env b = Ret b0 ->
     meet_helper env a0 b0 flag = meet_helper env a b false).
  { intros a0 b0 flag Ha Hb.
    rewrite (meet_helper_stripped env a b a0 b0 Ha Hb).
    unfold meet_helper.
    rewrite (Hstrip a a0 flag Ha), (Hstrip b b0 flag Hb). reflexivity. }
  split; [exact H1|]. split; [exact H2|].
  intros Ha Hb.
  assert (E : meet_helper env a b true = meet_helper env a b false)
    by (apply H2; apply Hid; assumption).
  split; [exact E|]. intros r H. rewrite E in H. exact (H1 r H).
Qed.

Lemma X20_meet_returns_no_speculative_part_witness :
  meet_helper example_env (Ptr plain_bottom) (Ptr plain_not_null) true =
  meet_helper example_env (Ptr speculated_not_null) (Ptr speculated_bottom) false.
Proof.
  exact (proj1 (proj2 (X20_meet_returns_no_speculative_part example_env
                         (Ptr speculated_not_null) (Ptr speculated_bottom)))
           (Ptr plain_bottom) (Ptr plain_not_null) true eq_refl eq_refl).
Defined.

(* ===================================================================== *)
(** ** Singletons, empty types and the dual *)
(* ===================================================================== *)

Lemma ptr_of_dual p : ptr (TypePtr_xdual p) = ptr_dual (ptr p).
Proof. destruct p; reflexivity. Qed.

Lemma offset_of_dual p : offset (TypePtr_xdual p) = dual_offset p.
Proof. destruct p; reflexivity. Qed.

Lemma base_of_dual p : base (Ptr (TypePtr_xdual p)) = base (Ptr p).
Proof. destruct p; reflexivity. Qed.

(** Cases on the comparisons of an offset with the sentinels. *)
Ltac offset_cases :=
  repeat match goal with
  | |- context [?a =? ?b] => destruct (Z.eqb_spec a b)
  | H : context [?a =? ?b] |- _ => destruct (Z.eqb_spec a b)
  end.

(** X21: [singleton()], [empty()] and [xdual()].  A type stands for one
    value exactly when its dual does; the dual of a singleton is never
    empty; for an [AnyPtr] and a raw pointer the dual is empty exactly
    when the pointer is no singleton.  A pointer stands for one value
    exactly when it is [Constant] or [Null] with a known offset, which
    for an oop or an instance pointer has to be 0.  Among the objects of
    class [Type] itself only [Half] stands for one value, and [empty()]
    reaches [ShouldNotReachHere] on [Control] alone. *)
Theorem X21_constants_and_duals (t d : Type_) :
  xdual t = Ret d ->
  (is_constant_type t <-> is_constant_type d) /\
  (singleton t = true -> empty d = Ret false) /\
  (base t = AnyPtr \/ base t = RawPtr ->
   empty d = Ret (negb (singleton t))) /\
  (forall p, t = Ptr p ->
     (is_constant_type t <->
      (ptr p = Constant \/ ptr p = Null) /\
      if TYPES_eqb (base t) OopPtr || TYPES_eqb (base t) InstPtr
      then offset p = 0
      else offset p <> OffsetTop /\ offset p <> OffsetBot)) /\
  (forall b, t = Type_mk b ->
     (is_constant_type t <-> b = Half) /\
     (b <> FloatCon -> b <> DoubleCon -> b <> HalfFloatCon ->
      (empty t = Abort ShouldNotReachHere <-> b = Control))).
Proof.
  intros Hd.
  destruct t as [b|f|x|h|i|l|p].
  - cbn [xdual] in Hd. apply bind_Ret_inv in Hd as [u [Hb Hd]].
    injection Hd as <-.
    unfold is_constant_type. revert Hb.
    destruct b; intros Hb; try discriminate Hb; cbn;
      repeat split; intros; try discriminate; try tauto; try congruence;
      try (exfalso; intuition congruence).
    all: match goal with
         | H : Type_mk _ = Type_mk ?b |- _ => injection H as <-
         end; cbn; try reflexivity; try congruence; try tauto;
         try (intuition congruence).
  - injection Hd as <-. unfold is_constant_type. cbn.
    repeat split; intros; try discriminate; try tauto; intuition discriminate.
  - injection Hd as <-. unfold is_constant_type. cbn.
    repeat split; intros; try discriminate; try tauto; intuition discriminate.
  - injection Hd as <-. unfold is_constant_type. cbn.
    repeat split; intros; try discriminate; try tauto; intuition discriminate.
  - injection Hd as <-. unfold is_constant_type. cbn.
    repeat split; intros; try discriminate; try tauto; intuition discriminate.
  - injection Hd as <-. unfold is_constant_type. cbn.
    repeat split; intros; try discriminate; try tauto; intuition discriminate.
  - injection Hd as <-.
    assert (Hc : forall q : TypePtr,
               is_constant_type (Ptr q) <->
               (ptr q = Constant \/ ptr q = Null) /\
               if TYPES_eqb (base (Ptr q)) OopPtr || TYPES_eqb (base (Ptr q)) InstPtr
               then offset q = 0
               else offset q <> OffsetTop /\ offset q <> OffsetBot).
    { intros q. unfold is_constant_type, singleton, empty, TypePtr_singleton,
        TypeOopPtr_singleton, TypePtr_empty.
      destruct q as [q0 o s dd|q0 bits|q0 o ii s dd|q0 k ifs xk c o ii s dd];
        cbn [base ptr offset TYPES_eqb orb]; destruct q0;
        cbn; unfold OffsetTop, OffsetBot; offset_cases; cbn;
        intuition (try discriminate; try lia; try congruence). }
    split; [|split; [|split; [|split]]].
    + rewrite !Hc, ptr_of_dual, offset_of_dual, base_of_dual.
      unfold dual_offset.
      destruct (ptr p); cbn [ptr_dual];
        destruct (TYPES_eqb (base (Ptr p)) OopPtr || TYPES_eqb (base (Ptr p)) InstPtr);
        unfold OffsetTop, OffsetBot; offset_cases;
        intuition (try discriminate; try lia; try congruence).
    + unfold singleton, empty, TypePtr_singleton, TypeOopPtr_singleton, TypePtr_empty.
      rewrite ptr_of_dual, offset_of_dual. unfold dual_offset.
      destruct p as [q0 o s dd|q0 bits|q0 o ii s dd|q0 k ifs xk c o ii s dd];
        cbn [ptr offset]; destruct q0; cbn; unfold OffsetTop, OffsetBot;
        offset_cases; cbn; intros; try discriminate; try reflexivity; try lia.
    + unfold singleton, empty, TypePtr_singleton, TypeOopPtr_singleton, TypePtr_empty.
      rewrite ptr_of_dual, offset_of_dual. unfold dual_offset.
      destruct p as [q0 o s dd|q0 bits|q0 o ii s dd|q0 k ifs xk c o ii s dd];
        cbn [base ptr offset]; intros [B|B]; try discriminate B;
        destruct q0; cbn; unfold OffsetTop, OffsetBot;
        offset_cases; cbn; try reflexivity; try lia.
    + intros q E. injection E as <-. apply Hc.
    + intros b E. discriminate E.
Qed.

Lemma X21_constants_and_duals_witness :
  empty (Type_mk Control) = Abort ShouldNotReachHere.
Proof.
  destruct (X21_constants_and_duals (Type_mk Control) (Type_mk Control) eq_refl)
    as (_ & _ & _ & _ & H).
  destruct (H Control eq_refl) as [_ H2].
  apply H2; [discriminate | discriminate | discriminate | reflexivity].
Defined.

(* ===================================================================== *)
(** ** Associativity *)
(* ===================================================================== *)

Lemma ptr_meet_assoc a b c : ptr_meet (ptr_meet a b) c = ptr_meet a (ptr_meet b c).
Proof. destruct a, b, c; reflexivity. Qed.

(** The meet of two pointers of one class, without speculative parts. *)
Lemma meet_AnyPtr_plain env p1 o1 d1 p2 o2 d2 :
  meet_helper env (Ptr (TypePtr_mk p1 o1 None d1)) (Ptr (TypePtr_mk p2 o2 None d2)) false =
  Ret (Ptr (TypePtr_mk (ptr_meet p1 p2)
              (meet_offset (TypePtr_mk p1 o1 None d1) o2) None (Z.max d1 d2))).
Proof.
  unfold meet_helper.
  rewrite !maybe_remove_speculative_plain by reflexivity. cbn [bind].
  apply xmeet_AnyPtr_plain.
Qed.

Lemma meet_OopPtr_plain env p1 o1 i1 d1 p2 o2 i2 d2 :
  p1 <> Constant -> p2 <> Constant ->
  meet_helper env (Ptr (TypeOopPtr_mk p1 o1 i1 None d1))
    (Ptr (TypeOopPtr_mk p2 o2 i2 None d2)) false =
  Ret (Ptr (TypeOopPtr_mk (ptr_meet p1 p2)
              (meet_offset (TypeOopPtr_mk p1 o1 i1 None d1) o2)
              (meet_instance_id (TypeOopPtr_mk p1 o1 i1 None d1) i2)
              None (Z.max d1 d2))).
Proof.
  intros H1 H2. unfold meet_helper.
  rewrite !maybe_remove_speculative_plain by reflexivity. cbn [bind].
  cbn [xmeet subclass_xmeet pointer_xmeet].
  unfold TypeOopPtr_xmeet, TypeOopPtr_xmeet_helper.
  destruct (same_type (Ptr (TypeOopPtr_mk p1 o1 i1 None d1))
              (Ptr (TypeOopPtr_mk p2 o2 i2 None d2))) eqn:E.
  - apply same_type_eq in E. injection E as <- <- <- <-.
    cbn [bind]. rewrite TypePtr_xmeet_normalize_plain by reflexivity.
    do 2 f_equal. f_equal.
    + destruct p1; reflexivity.
    + offsets.
    + instance_ids.
    + lia.
  - cbn [base is_ptr bind].
    rewrite xmeet_speculative_none by reflexivity. cbn [bind].
    unfold TypeOopPtr_make, meet_ptr, meet_inline_depth.
    cbn [ptr offset inline_depth instance_id].
    rewrite (ptr_meet_comm p2 p1).
    assert (Hc : PTR_eqb (ptr_meet p1 p2) Constant = false)
      by (destruct p1, p2; try reflexivity; contradiction).
    rewrite Hc. cbn [negb debug_assert bind].
    rewrite TypePtr_xmeet_normalize_plain by reflexivity. reflexivity.
Qed.

Lemma ptr_meet_not_Constant p1 p2 :
  p1 <> Constant -> p2 <> Constant -> ptr_meet p1 p2 <> Constant.
Proof. destruct p1, p2; intros; try discriminate; contradiction. Qed.

Lemma meet_RawPtr env p1 b1 p2 b2 :
  p1 <> Null -> p2 <> Null ->
  meet_helper env (Ptr (TypeRawPtr_mk p1 b1)) (Ptr (TypeRawPtr_mk p2 b2)) false =
  Ret (Ptr (if (b1 =? b2) && PTR_eqb p1 p2 then TypeRawPtr_mk p1 b1
            else if PTR_eqb (ptr_meet p1 p2) Constant then
              if PTR_eqb p2 Constant && negb (PTR_eqb p1 Constant)
              then TypeRawPtr_mk p2 b2
              else if PTR_eqb p1 Constant && negb (PTR_eqb p2 Constant)
              then TypeRawPtr_mk p1 b1
              else TypeRawPtr_mk NotNull 0
            else TypeRawPtr_mk (ptr_meet p1 p2) 0)).
Proof.
  intros H1 H2. unfold meet_helper.
  rewrite !maybe_remove_speculative_plain by reflexivity. cbn [bind].
  cbn [xmeet subclass_xmeet pointer_xmeet].
  unfold TypeRawPtr_xmeet, same_type. cbn [Type_equals TypePtr_equals].
  destruct ((b1 =? b2) && PTR_eqb p1 p2); [reflexivity|].
  cbn [base is_ptr bind]. unfold meet_ptr, TypeRawPtr_make. cbn [ptr].
  destruct p1, p2; try contradiction; reflexivity.
Qed.

Lemma meet_RawPtr_closed env p1 b1 p2 b2 :
  p1 <> Null -> p2 <> Null ->
  exists p b, p <> Null /\
    meet_helper env (Ptr (TypeRawPtr_mk p1 b1)) (Ptr (TypeRawPtr_mk p2 b2)) false =
    Ret (Ptr (TypeRawPtr_mk p b)).
Proof.
  intros H1 H2. rewrite meet_RawPtr by assumption.
  destruct ((b1 =? b2) && PTR_eqb p1 p2); [eauto|].
  destruct (PTR_eqb (ptr_meet p1 p2) Constant).
  - destruct (PTR_eqb p2 Constant && negb (PTR_eqb p1 Constant)); [eauto|].
    destruct (PTR_eqb p1 Constant && negb (PTR_eqb p2 Constant)); [eauto|].
    exists NotNull, 0. split; [discriminate|reflexivity].
  - exists (ptr_meet p1 p2), 0. split; [|reflexivity].
    destruct p1, p2; try discriminate; contradiction.
Qed.

(** Cases on the address bits of raw pointers. *)
Ltac raw_step :=
  cbn [bind]; rewrite ?meet_RawPtr by discriminate;
  cbn [PTR_eqb PTR_eq_dec PTR_rec PTR_rect ptr_meet andb negb sumbool_rec sumbool_rect];
  rewrite ?andb_true_r, ?andb_false_r; cbv iota.

Ltac raw_cases :=
  repeat first
    [ progress raw_step
    | match goal with
      | |- context [?a =? ?b] => destruct (Z.eqb_spec a b); [try subst|]
      end ];
  first [reflexivity | congruence].

Lemma meet_RawPtr_assoc env p1 b1 p2 b2 p3 b3 :
  p1 <> Null -> p2 <> Null -> p3 <> Null ->
  (do x <- meet_helper env (Ptr (TypeRawPtr_mk p1 b1)) (Ptr (TypeRawPtr_mk p2 b2)) false;
   meet_helper env x (Ptr (TypeRawPtr_mk p3 b3)) false) =
  (do y <- meet_helper env (Ptr (TypeRawPtr_mk p2 b2)) (Ptr (TypeRawPtr_mk p3 b3)) false;
   meet_helper env (Ptr (TypeRawPtr_mk p1 b1)) y false).
Proof.
  intros H1 H2 H3.
  destruct p1; try contradiction; destruct p2; try contradiction;
    destruct p3; try contradiction; clear H1 H2 H3; raw_cases.
Qed.

Lemma associative_at_intro env a b c ab bc r :
  meet_helper env a b false = Ret ab ->
  meet_helper env b c false = Ret bc ->
  meet_helper env ab c false = Ret r ->
  (do x <- meet_helper env a b false; meet_helper env x c false) =
  (do y <- meet_helper env b c false; meet_helper env a y false) ->
  associative_at env a b c.
Proof.
  intros Hab Hbc Hr E. exists ab, bc, r.
  rewrite Hab, Hbc in E. cbn [bind] in E.
  repeat split; try assumption. rewrite <- E. exact Hr.
Qed.

(** X22: within one class of pointers the meet is associative, and it
    returns.  This holds for any three [AnyPtr] pointers, any three raw
    pointers that are not [Null], and any three oop pointers that are
    not [Constant], all without speculative part.  It does not hold
    across the classes: a raw [TopPTR] between an [AnyPtr] at [TopPTR]
    and an [AnyPtr] at [Null] makes the meet forget the offset and the
    inline depth of the first. *)
Theorem X22_meet_is_associative_within_a_class env :
  (forall p1 o1 d1 p2 o2 d2 p3 o3 d3,
     associative_at env (Ptr (TypePtr_mk p1 o1 None d1))
       (Ptr (TypePtr_mk p2 o2 None d2)) (Ptr (TypePtr_mk p3 o3 None d3))) /\
  (forall p1 b1 p2 b2 p3 b3,
     p1 <> Null -> p2 <> Null -> p3 <> Null ->
     associative_at env (Ptr (TypeRawPtr_mk p1 b1))
       (Ptr (TypeRawPtr_mk p2 b2)) (Ptr (TypeRawPtr_mk p3 b3))) /\
  (forall p1 o1 i1 d1 p2 o2 i2 d2 p3 o3 i3 d3,
     p1 <> Constant -> p2 <> Constant -> p3 <> Constant ->
     associative_at env (Ptr (TypeOopPtr_mk p1 o1 i1 None d1))
       (Ptr (TypeOopPtr_mk p2 o2 i2 None d2))
       (Ptr (TypeOopPtr_mk p3 o3 i3 None d3))) /\
  (forall o1 d1 o3 d3,
     let a := Ptr (TypePtr_mk TopPTR o1 None d1) in
     let raw_top := Ptr (TypeRawPtr_mk TopPTR 0) in
     let c := Ptr (TypePtr_mk Null o3 None d3) in
     meet_helper env a raw_top false = Ret raw_top /\
     meet_helper env raw_top c false = Ret c /\
     meet_helper env a c false =
       Ret (Ptr (TypePtr_mk Null (meet_offset (TypePtr_mk TopPTR o1 None d1) o3)
                   None (Z.max d1 d3))) /\
     ((o1 <> OffsetTop /\ o1 <> o3 /\ o3 <> OffsetBot) \/ d3 < d1 ->
      meet_helper env a c false <> Ret c)).
Proof.
  split; [|split; [|split]].
  - intros. unfold associative_at.
    eexists _, _, _.
    split; [apply meet_AnyPtr_plain|]. split; [apply meet_AnyPtr_plain|].
    rewrite !meet_AnyPtr_plain. split; [reflexivity|].
    do 2 f_equal. f_equal.
    + symmetry. apply ptr_meet_assoc.
    + offsets.
    + lia.
  - intros p1 b1 p2 b2 p3 b3 H1 H2 H3.
    destruct (meet_RawPtr_closed env p1 b1 p2 b2 H1 H2) as (p & b & Hp & Hab).
    destruct (meet_RawPtr_closed env p2 b2 p3 b3 H2 H3) as (q & c & Hq & Hbc).
    destruct (meet_RawPtr_closed env p b p3 b3 Hp H3) as (r & e & Hr & Habc).
    eapply associative_at_intro; [exact Hab|exact Hbc|exact Habc|].
    apply meet_RawPtr_assoc; assumption.
  - intros p1 o1 i1 d1 p2 o2 i2 d2 p3 o3 i3 d3 H1 H2 H3.
    unfold associative_at. eexists _, _, _.
    split; [apply meet_OopPtr_plain; assumption|].
    split; [apply meet_OopPtr_plain; assumption|].
    rewrite !meet_OopPtr_plain
      by first [assumption | apply ptr_meet_not_Constant; assumption].
    split; [reflexivity|].
    do 2 f_equal. f_equal.
    + symmetry. apply ptr_meet_assoc.
    + offsets.
    + instance_ids.
    + lia.
  - intros o1 d1 o3 d3. cbv zeta.
    assert (Hac : meet_helper env (Ptr (TypePtr_mk TopPTR o1 None d1))
                    (Ptr (TypePtr_mk Null o3 None d3)) false =
                  Ret (Ptr (TypePtr_mk Null
                              (meet_offset (TypePtr_mk TopPTR o1 None d1) o3)
                              None (Z.max d1 d3))))
      by apply meet_AnyPtr_plain.
    split; [reflexivity|]. split; [reflexivity|]. split; [exact Hac|].
    intros H. rewrite Hac. intros E. injection E as E1 E2.
    destruct H as [(Ho1 & Ho13 & Ho3)|Hd]; [|lia].
    revert E1. offsets.
Qed.

Lemma X22_meet_is_associative_within_a_class_witness :
  associative_at example_env (Ptr (TypeRawPtr_mk Constant 4096))
    (Ptr (TypeRawPtr_mk Constant 8192)) (Ptr (TypeRawPtr_mk AnyNull 0)).
Proof.
  apply (proj1 (proj2 (X22_meet_is_associative_within_a_class example_env)));
    discriminate.
Defined.

(* ===================================================================== *)
(** ** Integer constants *)
(* ===================================================================== *)

(** A value satisfies the known bits that stand for it. *)
Lemma constant_satisfies_its_bits w u :
  0 <= w -> 0 <= u < 2 ^ w ->
  KnownBits.is_satisfied_by (KnownBits.mk (Z.lxor u (max_U w)) u) u = true.
Proof.
  intros Hw Hu. unfold KnownBits.is_satisfied_by. cbn.
  rewrite Z.land_diag, Z.eqb_refl, andb_true_r.
  apply Z.eqb_eq. apply Z.bits_inj'. intros n Hn.
  rewrite Z.land_spec, Z.lxor_spec, Z.bits_0.
  destruct (Z_lt_ge_dec n w) as [Hlt|Hge].
  - unfold max_U. replace (2 ^ w - 1) with (Z.ones w) by (rewrite Z.ones_equiv; lia).
    rewrite Z.ones_spec_low by lia.
    destruct (Z.testbit u n); reflexivity.
  - rewrite (testbit_above_pow2 u w n) by lia. reflexivity.
Qed.

(** X23: [TypeInt::make(jint con)] and [TypeLong::make(jlong con)] make
    the type of the one value [con]: [contains(i)] returns whether [i]
    is [con], the known bits the constructor writes ([~ucon] known 0,
    [ucon] known 1) being satisfied by [con] itself, and the type is a
    singleton that is not empty. *)
Theorem X23_make_con_is_the_constant (con i : Z) :
  let T := TypeInt.make_con con in
  let L := TypeLong.make_con con in
  (TypeInt.contains T i = Ret (i =? con) /\
   TypeLong.contains L i = Ret (i =? con)) /\
  (is_constant_type (TypeInt_mk T) /\ is_constant_type (TypeLong_mk L)).
Proof.
  cbv zeta.
  assert (Hc : forall w, 0 < w ->
            ((con <=? i) && (i <=? con) &&
             (to_U w con <=? to_U w i) && (to_U w i <=? to_U w con) &&
             KnownBits.is_satisfied_by
               (KnownBits.mk (Z.lxor (to_U w con) (max_U w)) (to_U w con))
               (to_U w i)) = (i =? con)).
  { intros w Hw. destruct (Z.eqb_spec i con) as [->|Hne].
    - rewrite !Z.leb_refl. cbn [andb].
      apply constant_satisfies_its_bits; [lia|].
      unfold to_U. apply Z.mod_pos_bound. lia.
    - destruct (con <=? i) eqn:E1; [|reflexivity].
      destruct (i <=? con) eqn:E2; [|reflexivity].
      apply Z.leb_le in E1, E2. lia. }
  repeat split.
  - unfold TypeInt.contains, TypeInt.make_con, TypeInt.new. cbn.
    f_equal. apply (Hc 32). lia.
  - unfold TypeLong.contains, TypeLong.make_con, TypeLong.new. cbn.
    f_equal. apply (Hc 64). lia.
  - cbn. apply Z.eqb_refl.
  - cbn. apply Z.eqb_refl.
Qed.

(* ===================================================================== *)
(** ** The speculative part and the inline depth of a pointer meet *)
(* ===================================================================== *)

(** What the helpers build and what [TypePtr::xmeet] returns of it. *)
Section SpeculativeAndDepth.
Variable env : ciEnv.
Variable m : TypePtr -> TypePtr -> outcome Type_.

(** A pointer built with the speculative part and the depth at hand. *)
Ltac built_done :=
  match goal with
  | Hs : xmeet_speculative m _ _ = Ret ?s |- built_by_helper env m _ _ (Ptr ?p) =>
    exists p, s; split; [reflexivity|]; split; [exact Hs|];
    split; [reflexivity|]; intros _; reflexivity
  end.

Lemma xmeet_unloaded_speculative a b ifs r :
  xmeet_unloaded env m a b ifs = Ret r ->
  exists spec, xmeet_speculative m a b = Ret spec /\ speculative r = spec.
Proof.
  intros H. unfold xmeet_unloaded in H. cbv zeta in H.
  apply bind_Ret_inv in H as [spec [Hs H]].
  exists spec. split; [exact Hs|].
  plain_inv; reflexivity.
Qed.

Lemma TypeInstPtr_xmeet_helper_built this other res :
  is_instance_type this = true ->
  calls_directly this other = true ->
  this <> other ->
  TypeInstPtr_xmeet_helper env m this (Ptr other) = Ret res ->
  built_by_helper env m this other res.
Proof.
  intros Hi Hd Hne H. unfold TypeInstPtr_xmeet_helper in H.
  rewrite same_type_neq in H by congruence.
  destruct this as [| | |p0 k0 ifs0 xk0 c0 o0 i0 s0 d0]; try discriminate Hi.
  destruct other as [p1 o1 s1 d1|p1 bits1|p1 o1 i1 s1 d1|p1 k1 ifs1 xk1 c1 o1 i1 s1 d1];
    try discriminate Hd; cbn [base is_ptr bind] in H; cbv zeta in H.
  - apply bind_Ret_inv in H as [spec [Hs H]].
    cbn [ptr] in H. destruct p1; plain_inv; built_done.
  - cbn [ptr] in H. destruct p1; try discriminate H;
      apply bind_Ret_inv in H as [spec [Hs H]]; plain_inv; built_done.
  - apply bind_Ret_inv in H as [spec [Hs H]].
    set (M := meet_instptr _ _ _ _ _) in H.
    destruct (mi_kind M) eqn:K.
    2: { apply bind_Ret_inv in H as [x [Hx H]]. injection H as <-.
         destruct (xmeet_unloaded_speculative _ _ _ _ Hx) as (spec' & Hs' & Hsp).
         exists x, spec. split; [reflexivity|]. split; [exact Hs|].
         split; [congruence|].
         intros HL. destruct (HL eq_refl eq_refl) as [L1 L2].
         apply meet_instptr_UNLOADED in K. destruct K; congruence. }
    all: apply bind_Ret_inv in H as [x [_ H]];
      destruct (mi_res_klass M); [|discriminate H];
      plain_inv; built_done.
Qed.

Lemma TypeOopPtr_xmeet_helper_built this other res :
  base (Ptr this) = OopPtr ->
  calls_directly this other = true ->
  this <> other ->
  TypeOopPtr_xmeet_helper env m this (Ptr other) = Ret res ->
  built_by_helper env m this other res.
Proof.
  intros Hi Hd Hne H. unfold TypeOopPtr_xmeet_helper in H.
  rewrite same_type_neq in H by congruence.
  destruct this as [| |p0 o0 i0 s0 d0|]; try discriminate Hi.
  destruct other as [p1 o1 s1 d1|p1 bits1|p1 o1 i1 s1 d1|p1 k1 ifs1 xk1 c1 o1 i1 s1 d1];
    try discriminate Hd; cbn [base is_ptr bind] in H; cbv zeta in H.
  - apply bind_Ret_inv in H as [spec [Hs H]].
    cbn [ptr] in H. destruct p1; plain_inv; built_done.
  - apply bind_Ret_inv in H as [spec [Hs H]]. plain_inv; built_done.
Qed.

Lemma TypePtr_xmeet_helper_built this other res :
  base (Ptr this) = AnyPtr ->
  calls_directly this other = true ->
  this <> other ->
  TypePtr_xmeet_helper env m this (Ptr other) = Ret res ->
  built_by_helper env m this other res.
Proof.
  intros Hi Hd Hne H. unfold TypePtr_xmeet_helper in H.
  rewrite same_type_neq in H by congruence.
  destruct this as [p0 o0 s0 d0| | |]; try discriminate Hi.
  destruct other as [p1 o1 s1 d1|p1 bits1|p1 o1 i1 s1 d1|p1 k1 ifs1 xk1 c1 o1 i1 s1 d1];
    try discriminate Hd; cbn [base is_ptr bind] in H; cbv zeta in H.
  apply bind_Ret_inv in H as [spec [Hs H]]. plain_inv; built_done.
Qed.

Lemma xmeet_helper_built this other res :
  calls_directly this other = true ->
  this <> other ->
  xmeet_helper env m this (Ptr other) = Ret res ->
  built_by_helper env m this other res.
Proof.
  intros Hd Hne H. destruct this; cbn [xmeet_helper] in H.
  - eapply TypePtr_xmeet_helper_built; eauto.
  - discriminate Hd.
  - eapply TypeOopPtr_xmeet_helper_built; eauto.
  - eapply TypeInstPtr_xmeet_helper_built; eauto.
Qed.

Lemma normalize_built this other res r :
  built_by_helper env m this other res ->
  TypePtr_xmeet_normalize env res = Ret r ->
  built_by_xmeet env m this other r.
Proof.
  intros (p & spec & -> & Hs & Hsp & Hd) H.
  unfold TypePtr_xmeet_normalize in H. cbn [isa_ptr] in H.
  rewrite Hsp in H. destruct spec as [s|].
  - apply bind_Ret_inv in H as [no_spec [Hrm H]].
    destruct (same_ptr no_spec s) eqn:E; injection H as <-.
    + apply same_ptr_eq in E. subst s.
      exists no_spec, (Some no_spec). split; [reflexivity|]. split; [exact Hs|].
      split.
      * right. split; [reflexivity|].
        eapply remove_speculative_no_speculative, Hrm.
      * intros HL. rewrite (remove_speculative_inline_depth _ _ _ Hrm). auto.
    + exists p, (Some s). split; [reflexivity|]. split; [exact Hs|].
      split; [left; exact Hsp | exact Hd].
  - injection H as <-.
    exists p, None. split; [reflexivity|]. split; [exact Hs|].
    split; [left; exact Hsp | exact Hd].
Qed.

Lemma direct_xmeet_met this other r :
  calls_directly this other = true ->
  this <> other ->
  xmeet env m (Ptr this) (Ptr other) = Ret r ->
  built_by_xmeet env m this other r.
Proof.
  intros Hd Hne H.
  rewrite xmeet_pointer_unfold, pointer_xmeet_unfold in H
    by (destruct this; try discriminate; discriminate Hd).
  apply bind_Ret_inv in H as [res [Hh Hn]].
  eapply normalize_built; [|exact Hn].
  eapply xmeet_helper_built; eassumption.
Qed.

Lemma flipped_xmeet this other :
  base (Ptr this) <> RawPtr -> base (Ptr other) <> RawPtr ->
  calls_directly this other = false ->
  xmeet env m (Ptr this) (Ptr other) = xmeet env m (Ptr other) (Ptr this).
Proof.
  intros H1 H2 Hd.
  assert (Hne : Ptr this <> Ptr other).
  { intros E. injection E as <-. destruct this; try discriminate Hd. contradiction. }
  destruct this as [p0 o0 s0 d0|p0 bits0|p0 o0 i0 s0 d0|p0 k0 ifs0 xk0 c0 o0 i0 s0 d0];
  destruct other as [p1 o1 s1 d1|p1 bits1|p1 o1 i1 s1 d1|p1 k1 ifs1 xk1 c1 o1 i1 s1 d1];
    try discriminate Hd; try contradiction;
    cbn [xmeet subclass_xmeet pointer_xmeet].
  - unfold TypePtr_xmeet, TypePtr_xmeet_helper.
    rewrite same_type_neq by exact Hne. cbn [base is_ptr bind].
    unfold TypeOopPtr_xmeet. apply bind_normalize_idem.
  - unfold TypePtr_xmeet, TypePtr_xmeet_helper.
    rewrite same_type_neq by exact Hne. cbn [base is_ptr bind].
    unfold TypeInstPtr_xmeet. apply bind_normalize_idem.
  - unfold TypeOopPtr_xmeet at 1. unfold TypeOopPtr_xmeet_helper.
    rewrite same_type_neq by exact Hne. cbn [base is_ptr bind].
    unfold TypeInstPtr_xmeet. apply bind_normalize_idem.
Qed.

Lemma both_loaded_sym this other :
  both_loaded env this other -> both_loaded env other this.
Proof. intros H Ha Hb. destruct (H Hb Ha). auto. Qed.

Lemma xmeet_inline_depth this other r :
  base (Ptr this) <> RawPtr -> base (Ptr other) <> RawPtr ->
  both_loaded env this other ->
  xmeet env m (Ptr this) (Ptr other) = Ret r ->
  exists p, r = Ptr p /\
    inline_depth p = Z.max (inline_depth this) (inline_depth other).
Proof.
  intros H1 H2 HL H.
  destruct (same_type (Ptr this) (Ptr other)) eqn:E.
  - apply same_type_eq in E. injection E as <-.
    rewrite xmeet_pointer_unfold, pointer_xmeet_unfold in H by exact H1.
    assert (Hh : xmeet_helper env m this (Ptr this) = Ret (Ptr this)).
    { destruct this; cbn [xmeet_helper];
        unfold TypePtr_xmeet_helper, TypeOopPtr_xmeet_helper,
          TypeInstPtr_xmeet_helper; rewrite same_type_refl; reflexivity. }
    rewrite Hh in H. cbn [bind] in H.
    destruct r as [| | | | | |p].
    all: try (unfold TypePtr_xmeet_normalize in H; cbn [isa_ptr] in H;
              destruct (speculative this); [|discriminate H];
              apply bind_Ret_inv in H as [? [_ H]];
              match type of H with
              | (if ?c then _ else _) = _ => destruct c; discriminate H
              end).
    exists p. split; [reflexivity|].
    rewrite (TypePtr_xmeet_normalize_inline_depth _ _ _ H). lia.
  - assert (Hne : this <> other).
    { intros ->. rewrite same_type_refl in E. discriminate. }
    destruct (calls_directly this other) eqn:Hd.
    + destruct (direct_xmeet_met _ _ _ Hd Hne H) as (p & spec & -> & _ & _ & Hdp).
      exists p. split; [reflexivity|]. exact (Hdp HL).
    + rewrite flipped_xmeet in H by assumption.
      assert (Hd' : calls_directly other this = true).
      { destruct this, other; try discriminate Hd; try reflexivity; contradiction. }
      destruct (direct_xmeet_met _ _ _ Hd' (not_eq_sym Hne) H)
        as (p & spec & -> & _ & _ & Hdp).
      exists p. split; [reflexivity|].
      rewrite (Hdp (both_loaded_sym _ _ HL)). apply Z.max_comm.
Qed.

End SpeculativeAndDepth.

(** C8, against the guess that survives and the depth that is the
    maximum.  [Object] speculated to be exactly a [Foo], met with
    [Object] without a guess: the speculative meet is [Object], the
    pointer built equals its speculative part, and [TypePtr::xmeet]
    returns plain [Object], in both orders.  A pointer of a class that is
    not loaded, at inline depth 3, met with [Object] at [TopPTR] and
    depth 7: [xmeet_unloaded] returns the first, at depth 3.  The raw
    pointer [NOTNULL] met with a non-null [AnyPtr] at depth 3:
    [TypeRawPtr::xmeet] returns the [AnyPtr]'s depth, below the raw
    pointer's own. *)
Lemma C8_guess_is_dropped_and_depth_is_not_the_maximum :
  let m := meet_of_speculative example_env in
  (speculative object_speculated_foo = Some exact_foo /\
   speculative plain_object = None /\
   xmeet_speculative m object_speculated_foo plain_object = Ret (Some plain_object) /\
   xmeet example_env m (Ptr object_speculated_foo) (Ptr plain_object) =
     Ret (Ptr plain_object) /\
   meet_helper example_env (Ptr object_speculated_foo) (Ptr plain_object) true =
     Ret (Ptr plain_object) /\
   meet_helper example_env (Ptr plain_object) (Ptr object_speculated_foo) true =
     Ret (Ptr plain_object)) /\
  (meet_helper example_env (Ptr unloaded_at_3) (Ptr object_top_at_7) true =
     Ret (Ptr unloaded_at_3) /\
   inline_depth unloaded_at_3 = 3 /\
   Z.max (inline_depth unloaded_at_3) (inline_depth object_top_at_7) = 7) /\
  (meet_helper example_env (Ptr TypeRawPtr_NOTNULL) (Ptr at_depth_3) true =
     Ret (Ptr at_depth_3) /\
   inline_depth at_depth_3 = 3 /\
   Z.max (inline_depth TypeRawPtr_NOTNULL) (inline_depth at_depth_3) =
     InlineDepthBottom).
Proof. vm_compute. repeat split; reflexivity. Qed.

(** C8: [xmeet_speculative] returns no speculative part when neither
    operand has one, and only then; otherwise it returns the meet
    (without speculative parts) of the two speculative parts, an operand
    without one standing in with itself.
    The pointer that [this->xmeet(other)] returns, when the call is
    computed in [this]'s own [xmeet_helper], has that meet as its
    speculative part, unless that meet is the returned pointer itself:
    then the pointer has no speculative part.  In the other order of the
    classes the call is flipped around.
    The inline depth of the returned pointer is the greater of the two
    inline depths when neither operand is a raw pointer and two instance
    pointers are of loaded classes. *)
Theorem C8_speculative_meet_and_inline_depth env (this other : TypePtr) :
  let m := meet_of_speculative env in
  let speculative' := xmeet_speculative m this other in
  let as_speculative (o : outcome Type_) :=
    do r <- o; do p <- is_ptr r; Ret (Some p) in
  match speculative this, speculative other with
  | None, None => speculative' = Ret None
  | Some s, None =>
    speculative' = as_speculative (meet_helper env (Ptr s) (Ptr other) false)
  | None, Some s =>
    speculative' = as_speculative (meet_helper env (Ptr this) (Ptr s) false)
  | Some s1, Some s2 =>
    speculative' = as_speculative (meet_helper env (Ptr s1) (Ptr s2) false)
  end /\
  (speculative' = Ret None ->
   speculative this = None /\ speculative other = None) /\
  (calls_directly this other = true -> this <> other ->
   forall r, xmeet env m (Ptr this) (Ptr other) = Ret r ->
     exists p spec,
       r = Ptr p /\ speculative' = Ret spec /\
       (speculative p = spec \/ (spec = Some p /\ speculative p = None))) /\
  (base (Ptr this) <> RawPtr -> base (Ptr other) <> RawPtr ->
   calls_directly this other = false ->
   xmeet env m (Ptr this) (Ptr other) = xmeet env m (Ptr other) (Ptr this)) /\
  (base (Ptr this) <> RawPtr -> base (Ptr other) <> RawPtr ->
   both_loaded env this other ->
   forall r, xmeet env m (Ptr this) (Ptr other) = Ret r ->
     exists p, r = Ptr p /\
       inline_depth p = Z.max (inline_depth this) (inline_depth other)).
Proof.
  cbv zeta. split; [|split; [|split; [|split]]].
  - unfold xmeet_speculative.
    destruct (speculative this) as [s1|], (speculative other) as [s2|];
      cbn [is_Some_b negb andb]; rewrite ?meet_of_speculative_is_meet;
      reflexivity.
  - unfold xmeet_speculative.
    destruct (speculative this) as [s1|], (speculative other) as [s2|];
      cbn [is_Some_b negb andb]; auto;
      intros H; apply bind_Ret_inv in H as [r [_ H]];
      apply bind_Ret_inv in H as [p [_ H]]; discriminate H.
  - intros Hd Hne r H.
    destruct (direct_xmeet_met _ _ _ _ _ Hd Hne H) as (p & spec & -> & Hs & Hk & _).
    exists p, spec. auto.
  - intros H1 H2 Hd. apply flipped_xmeet; assumption.
  - intros H1 H2 HL r H. eapply xmeet_inline_depth; eassumption.
Qed.

Lemma C8_speculative_meet_and_inline_depth_witness :
  let m := meet_of_speculative example_env in
  xmeet_speculative m speculated_not_null plain_not_null =
    Ret (Some plain_not_null) /\
  (exists p spec,
     Ptr (TypeInstPtr_mk NotNull 1 [] false None 0 InstanceBot
            (Some example_base) InlineDepthBottom) = Ptr p /\
     xmeet_speculative m object_speculated_foo example_base = Ret spec /\
     (speculative p = spec \/ (spec = Some p /\ speculative p = None))) /\
  xmeet example_env m (Ptr at_depth_3) (Ptr example_base) =
    xmeet example_env m (Ptr example_base) (Ptr at_depth_3) /\
  (exists p,
     Ptr (TypePtr_mk BotPTR OffsetBot None 7) = Ptr p /\
     inline_depth p = Z.max (inline_depth at_depth_3) (inline_depth at_depth_7)).
Proof.
  cbv zeta. split; [|split; [|split]].
  - exact (proj1 (C8_speculative_meet_and_inline_depth example_env
                    speculated_not_null plain_not_null)).
  - apply (proj1 (proj2 (proj2 (C8_speculative_meet_and_inline_depth example_env
                    object_speculated_foo example_base))));
      [reflexivity | discriminate | vm_compute; reflexivity].
  - apply (proj1 (proj2 (proj2 (proj2 (C8_speculative_meet_and_inline_depth
                    example_env at_depth_3 example_base)))));
      [discriminate | discriminate | reflexivity].
  - apply (proj2 (proj2 (proj2 (proj2 (C8_speculative_meet_and_inline_depth
                    example_env at_depth_3 at_depth_7)))));
      [discriminate | discriminate | intros H; discriminate H
      | vm_compute; reflexivity].
Defined.
